(** * Photo-to-profile extractor: a shallow embedding and its properties

    Source: [src/utils/photoToProfile.ts] (the later variant of the file,
    the one returning [ExtractProfileResult]), and the operations of the
    editor on a profile ([src/editor/FindEditor.tsx]).

    Conventions of the embedding.
    - JavaScript numbers that hold intensities, thresholds, fractions and
      profile coordinates are rationals ([Q]). Arithmetic on them is exact,
      where the source rounds every operation to binary64: a value of the
      source can differ from the embedding's in its last digits. The
      theorems favour what does not hang on those digits: sizes, counts,
      orders, bounds that a rounded value keeps, and values that are copied
      or compared but not computed.
    - Array indices, image dimensions past the size guard, labels and pixel
      counts are natural numbers; where the source subtracts and the result
      may be negative the embedding computes in [Z].
    - The options typed [0 | 1 | 2] ([blur], [cleanup]) are integers; the
      options typed [number] ([smoothing], [targetPoints], [thresholdBias])
      are of type [number]: a rational or NaN. The two infinities are left
      out: each of these options is read through [Math.max], [Math.min] or
      a comparison with 0, which treat an infinity as they treat any number
      beyond their bounds.
    - NaN also arises inside, from arithmetic on [undefined], and is a
      value of the [x] coordinate.
    - An array read outside the array yields [undefined] in the source; the
      embedding reads a default ([false] for masks, [0] otherwise), and
      [None] where the source can really read [undefined].
    - Loops whose trip count is not a loop bound of the source (the recursive
      [find], the flood-fill work list) take fuel and return [None] when it
      runs out; the fuel handed over is proved to suffice. *)

From Stdlib Require Import ZArith QArith Qminmax Qround Qabs List Bool Arith Lia.
From Stdlib Require Import Relations Permutation Sorted Lqa.
Import ListNotations.

Close Scope Q_scope.
Open Scope nat_scope.

(** ** Arrays *)

(** [a[i]], with [d] standing for [undefined]. *)
Definition get {A} (d : A) (l : list A) (i : nat) : A := nth i l d.

(** [a[i] = v] for an index inside the array. *)
Fixpoint upd {A} (l : list A) (i : nat) (v : A) : list A :=
  match l, i with
  | [], _ => []
  | _ :: t, O => v :: t
  | x :: t, S j => x :: upd t j v
  end.

(** ** Constants and options *)

Definition MAX_WIDTH : Z := 500.
Definition MAX_PIXELS : Z := 500 * 800.
Definition DEFAULT_TARGET_POINTS : Q := 18.

(** A JavaScript number: a rational, or NaN. *)
Inductive number :=
| Num (q : Q)
| NaN.

(** [f(v)] for an arithmetic [f]: NaN when [v] is NaN. *)
Definition numberMap (f : Q -> Q) (v : number) : number :=
  match v with
  | Num q => Num (f q)
  | NaN => NaN
  end.

(** [Math.max(lo, Math.min(hi, v))]: [Math.min] and [Math.max] return NaN
    when an argument is NaN. *)
Definition clampNumber (lo hi : Q) (v : number) : number :=
  numberMap (fun q => Qmax lo (Qmin hi q)) v.

Record ExtractProfileOptions := mkOptions {
  blur : option Z;
  smoothing : option number;
  invert : option bool;
  targetPoints : option number;
  thresholdBias : option number;
  cleanup : option Z;
  contrastStretch : option bool
}.

(** [o ?? d] *)
Definition nullish {A} (o : option A) (d : A) : A :=
  match o with Some v => v | None => d end.

(** ** Loader / resizer (lines 548-564) *)

Section Resizer.
Local Open Scope Z_scope.

(** What [image.naturalWidth] or [image.width] may hold. *)
Inductive dimension :=
| Finite (n : Z)
| NonFinite
| NotANumber.

(** [Math.floor(a * Math.sqrt(num / den))] over the reals, for [a >= 0]:
    [a * sqrt (num/den) = sqrt (a*a*num/den)] and the floor of a square root is
    the integer square root of the floor. The source computes the quotient,
    the root and the product in binary64: where the real product is an
    integer the rounded one can fall just under it, and its floor is then
    one below (at 145 x 3712 the real width is 125, the rounded one
    124.99999999999999). What is stated of the processing size leaves room
    for that unit. *)
Definition floorMulSqrt (a num den : Z) : Z := Z.sqrt ((a * a * num) / den).

Definition clampWidth (w h : Z) : Z * Z :=
  if w >? MAX_WIDTH then (MAX_WIDTH, (h * MAX_WIDTH) / w) else (w, h).

Definition clampPixels (w h : Z) : Z * Z :=
  if w * h >? MAX_PIXELS
  then (Z.max 1 (floorMulSqrt w MAX_PIXELS (w * h)),
        Z.max 1 (floorMulSqrt h MAX_PIXELS (w * h)))
  else (w, h).

(** The processing size, or [None] where the source returns the empty
    result. *)
Definition processingSize (rw rh : dimension) : option (Z * Z) :=
  match rw, rh with
  | Finite w, Finite h =>
      if (w <? 1) || (h <? 1) then None
      else
        let '(w1, h1) := clampWidth w h in
        let '(w2, h2) := clampPixels w1 h1 in
        if (w2 <? 1) || (h2 <? 1) then None else Some (w2, h2)
  | _, _ => None
  end.

End Resizer.

(** ** Threshold bias (lines 591-593) *)

Section Bias.
Local Open Scope Q_scope.

(** [Math.max(-50, Math.min(50, options.thresholdBias ?? 0))] *)
Definition appliedBias (o : ExtractProfileOptions) : number :=
  clampNumber (-50) 50 (nullish (thresholdBias o) (Num 0)).

(** [Math.max(0, Math.min(255, thresh + bias))] *)
Definition biasedThreshold (otsu : Z) (o : ExtractProfileOptions) : number :=
  clampNumber 0 255 (numberMap (fun bias => inject_Z otsu + bias) (appliedBias o)).

End Bias.

(** ** Loops *)

(** [for (let i = lo; i < lo + n; i++) s = body(i, s)] *)
Definition forRange {S} (lo n : nat) (body : nat -> S -> S) (s : S) : S :=
  fold_left (fun s i => body i s) (seq lo n) s.

(** [for (let i = lo; i < hi; i++) ...] *)
Definition forUpTo {S} (lo hi : nat) (body : nat -> S -> S) (s : S) : S :=
  forRange lo (hi - lo) body s.

(** [xs.filter(Boolean).length] *)
Definition countTrue (xs : list bool) : nat := length (filter (fun b => b) xs).

(** ** Grayscale, contrast stretch and blur (lines 332-370, 405-416) *)

Section Preprocessing.
Local Open Scope Q_scope.

(** [data] is the RGBA byte buffer of [getImageData]; one intensity per
    group of four bytes. *)
Fixpoint toGrayscale (data : list Z) : list Q :=
  match data with
  | r :: g :: b :: _ :: rest =>
      (0.299 * inject_Z r + 0.587 * inject_Z g + 0.114 * inject_Z b)
        :: toGrayscale rest
  | _ => []
  end.

Definition Qltb (a b : Q) : bool := negb (Qle_bool b a).

Definition minIntensity (gray : list Q) : Q :=
  fold_left (fun m v => if Qltb v m then v else m) gray 255.

Definition maxIntensity (gray : list Q) : Q :=
  fold_left (fun m v => if Qltb m v then v else m) gray 0.

Definition contrastStretchGray (gray : list Q) : list Q :=
  let min := minIntensity gray in
  let max := maxIntensity gray in
  let range := if Qeq_bool (max - min) 0 then 1 else max - min in
  map (fun v => Qmax 0 (Qmin 255 (((v - min) / range) * 255))) gray.

(** Sum of the [(2r+1) x (2r+1)] window centred at [(x, y)], in the order of
    the source's [dy], [dx] loops. *)
Definition windowSum (gray : list Q) (w r x y : nat) : Q :=
  forRange 0 (2 * r + 1) (fun dy sum =>
    forRange 0 (2 * r + 1) (fun dx sum =>
      sum + get 0 gray ((y - r + dy) * w + (x - r + dx))%nat) sum) 0.

Definition boxBlur (r : nat) (gray : list Q) (w h : nat) : list Q :=
  let area := inject_Z (Z.of_nat ((2 * r + 1) * (2 * r + 1))) in
  forUpTo r (h - r) (fun y out =>
    forUpTo r (w - r) (fun x out =>
      upd out (y * w + x) (windowSum gray w r x y / area)) out) gray.

Definition blur3x3 := boxBlur 1.
Definition blur5x5 := boxBlur 2.

End Preprocessing.

(** ** Otsu threshold (lines 373-399) *)

Section Otsu.
Local Open Scope Z_scope.

(** [Math.min(255, Math.floor(g))] *)
Definition bin (g : Q) : Z := Z.min 255 (Qfloor g).

(** [hist[bin]++]; a negative index does not touch the 256 counters. *)
Definition histogram (gray : list Q) : list Z :=
  fold_left (fun hist g =>
               let b := bin g in
               if b <? 0 then hist
               else upd hist (Z.to_nat b) (get 0 hist (Z.to_nat b) + 1))
            gray (repeat 0 256%nat).

(** [sum += i * hist[i]] for [i = 0..255] *)
Definition weightedSum (hist : list Z) : Z :=
  forRange 0 256 (fun i sum => sum + Z.of_nat i * get 0 hist i) 0.

Record otsuState := mkOtsu {
  sumB : Z; wB : Z; maxVar : Q; bestT : Z
}.

(** The loop over [t], with [continue] and [break] as in the source. *)
Fixpoint otsuLoop (hist : list Z) (sum total : Z) (ts : list nat)
         (st : otsuState) : Z :=
  match ts with
  | [] => bestT st
  | t :: ts' =>
      let wB' := wB st + get 0 hist t in
      if wB' =? 0 then otsuLoop hist sum total ts' (mkOtsu (sumB st) wB' (maxVar st) (bestT st))
      else
        let wF := total - wB' in
        if wF =? 0 then bestT st
        else
          let sumB' := sumB st + Z.of_nat t * get 0 hist t in
          let mB := (inject_Z sumB' / inject_Z wB')%Q in
          let mF := (inject_Z (sum - sumB') / inject_Z wF)%Q in
          let varBetween :=
            (inject_Z wB' * inject_Z wF * ((mB - mF) * (mB - mF)))%Q in
          if Qltb (maxVar st) varBetween
          then otsuLoop hist sum total ts' (mkOtsu sumB' wB' varBetween (Z.of_nat t))
          else otsuLoop hist sum total ts' (mkOtsu sumB' wB' (maxVar st) (bestT st))
  end.

Definition otsuThreshold (gray : list Q) : Z :=
  let hist := histogram gray in
  otsuLoop hist (weightedSum hist) (Z.of_nat (length gray)) (seq 0 256)
           (mkOtsu 0 0 0%Q 0).

End Otsu.

(** ** Binarisation and polarity (lines 401-403, 576-636) *)

Section Binarize.
Local Open Scope Q_scope.

(** [darkIsForeground ? g <= threshold : g >= threshold]; a comparison
    with NaN is false. *)
Definition binarize (gray : list Q) (threshold : number)
           (darkIsForeground : bool) : list bool :=
  map (fun g =>
         match threshold with
         | Num t => if darkIsForeground then Qle_bool g t else Qle_bool t g
         | NaN => false
         end) gray.

Record backgroundInfo := mkBg { isDark : bool; avgValue : Q }.

Definition borderPixels (gray : list Q) (w h : nat) : list Q :=
  let top_bottom :=
    forRange 0 w (fun x acc =>
      acc ++ [get 0 gray x; get 0 gray ((h - 1) * w + x)%nat]) [] in
  forRange 0 h (fun y acc =>
    acc ++ [get 0 gray (y * w)%nat; get 0 gray (y * w + w - 1)%nat]) top_bottom.

Definition detectBackgroundColor (gray : list Q) (w h : nat) : backgroundInfo :=
  let border := borderPixels gray w h in
  let avgBorder :=
    fold_left Qplus border 0 / inject_Z (Z.of_nat (length border)) in
  mkBg (Qltb avgBorder 128) avgBorder.

(** [frac < 0.12 || frac > 0.88] for [frac = count / total]; with
    [total = 0] the quotient is NaN and both comparisons are false. *)
Definition fractionDegenerate (count total : nat) : bool :=
  if Nat.eqb total 0 then false
  else
    let frac := inject_Z (Z.of_nat count) / inject_Z (Z.of_nat total) in
    Qltb frac 0.12 || Qltb 0.88 frac.

(** [frac >= 0.12 && frac <= 0.88] *)
Definition fractionUsable (count total : nat) : bool :=
  if Nat.eqb total 0 then false
  else
    let frac := inject_Z (Z.of_nat count) / inject_Z (Z.of_nat total) in
    Qle_bool 0.12 frac && Qle_bool frac 0.88.

(** [Math.max(0, Math.min(255, v))] *)
Definition clampByte (v : number) : number := clampNumber 0 255 v.

(** Lines 596-636: the mask and the final [darkIsForeground]. *)
Definition binarizeWithPolarity (gray : list Q) (w h : nat) (thresh : number)
           (inv : option bool) : list bool * bool :=
  match inv with
  | Some forced => (binarize gray thresh forced, forced)
  | None =>
      let bgInfo := detectBackgroundColor gray w h in
      let dark1 := negb (isDark bgInfo) in
      let fg1 := binarize gray thresh dark1 in
      let total := length gray in
      let '(fg2, dark2) :=
        if fractionDegenerate (countTrue fg1) total
        then (binarize gray thresh (negb dark1), negb dark1)
        else (fg1, dark1) in
      if fractionDegenerate (countTrue fg2) total
      then
        let bgInfo := detectBackgroundColor gray w h in
        let threshAlt :=
          if isDark bgInfo
          then clampByte (numberMap (fun t => t - 30) thresh)
          else clampByte (numberMap (fun t => t + 30) thresh) in
        let fgAlt := binarize gray threshAlt (negb (isDark bgInfo)) in
        if fractionUsable (countTrue fgAlt) (length gray)
        then (fgAlt, negb (isDark bgInfo))
        else (fg2, dark2)
      else (fg2, dark2)
  end.

End Binarize.

(** ** Morphology (lines 418-457) *)

(** The nine cells [fg[(y+dy)*w + (x+dx)]], [dy, dx = -1..1], for [x, y >= 1]. *)
Definition window3 (fg : list bool) (w x y : nat) : list bool :=
  flat_map (fun dy =>
    map (fun dx => get false fg ((y - 1 + dy) * w + (x - 1 + dx))) (seq 0 3))
    (seq 0 3).

Definition dilate3 (fg : list bool) (w h : nat) : list bool :=
  forUpTo 1 (h - 1) (fun y out =>
    forUpTo 1 (w - 1) (fun x out =>
      if get false fg (y * w + x) then out
      else if existsb (fun b => b) (window3 fg w x y)
           then upd out (y * w + x) true else out) out) fg.

Definition erode3 (fg : list bool) (w h : nat) : list bool :=
  forUpTo 1 (h - 1) (fun y out =>
    forUpTo 1 (w - 1) (fun x out =>
      if negb (get false fg (y * w + x)) then out
      else if forallb (fun b => b) (window3 fg w x y)
           then out else upd out (y * w + x) false) out) fg.

Definition morphClose (fg : list bool) (w h : nat) : list bool :=
  erode3 (dilate3 fg w h) w h.

Definition morphOpen (fg : list bool) (w h : nat) : list bool :=
  dilate3 (erode3 fg w h) w h.

(** ** Connected components (lines 459-507) *)

(** [a[i] = v] on a growing array: a write past the end extends the array,
    the cells in between being holes (read as [0], which is no label). *)
Definition setAt (a : list nat) (i v : nat) : list nat :=
  if i <? length a then upd a i v
  else a ++ repeat 0 (i - length a) ++ [v].

(** The recursive, path-compressing [find]; [None] when the fuel is spent. *)
Fixpoint find (fuel : nat) (parent : list nat) (x : nat)
  : option (nat * list nat) :=
  match fuel with
  | O => None
  | S f =>
      let p := get 0 parent x in
      if p =? x then Some (x, parent)
      else match find f parent p with
           | Some (r, parent') => Some (r, setAt parent' x r)
           | None => None
           end
  end.

Record labelState := mkLabel {
  labels : list nat;
  parent : list nat;
  nextLabel : nat
}.

(** Body of the raster scan at pixel [(x, y)]. *)
Definition labelPixel (fg : list bool) (w : nat) (y x : nat)
           (st : option labelState) : option labelState :=
  match st with
  | None => None
  | Some st =>
      let i := y * w + x in
      if negb (get false fg i) then Some st
      else
        let left := if 0 <? x then get 0 (labels st) (i - 1) else 0 in
        let up := if 0 <? y then get 0 (labels st) (i - w) else 0 in
        let fuel := length (parent st) in
        if negb (left =? 0) && negb (up =? 0) then
          match find fuel (parent st) left with
          | None => None
          | Some (rl, p1) =>
              match find fuel p1 up with
              | None => None
              | Some (ru, p2) =>
                  let r := Nat.min rl ru in
                  Some (mkLabel (upd (labels st) i r)
                                (setAt (setAt p2 ru r) rl r)
                                (nextLabel st))
              end
          end
        else if negb (left =? 0) then
          match find fuel (parent st) left with
          | None => None
          | Some (r, p1) => Some (mkLabel (upd (labels st) i r) p1 (nextLabel st))
          end
        else if negb (up =? 0) then
          match find fuel (parent st) up with
          | None => None
          | Some (r, p1) => Some (mkLabel (upd (labels st) i r) p1 (nextLabel st))
          end
        else
          Some (mkLabel (upd (labels st) i (nextLabel st))
                        (setAt (parent st) (nextLabel st) (nextLabel st))
                        (S (nextLabel st)))
  end.

(** Second pass: [if (labels[i]) labels[i] = root(labels[i])]. *)
Definition resolvePixel (i : nat) (st : option labelState)
  : option labelState :=
  match st with
  | None => None
  | Some st =>
      let l := get 0 (labels st) i in
      if l =? 0 then Some st
      else match find (length (parent st)) (parent st) l with
           | None => None
           | Some (r, p1) => Some (mkLabel (upd (labels st) i r) p1 (nextLabel st))
           end
  end.

Definition labelScan (fg : list bool) (width height : nat)
  : option labelState :=
  forRange 0 height (fun y st =>
    forRange 0 width (fun x st => labelPixel fg width y x st) st)
    (Some (mkLabel (repeat 0 (width * height)) [] 1)).

(** [labels] and [count] of the source's result. *)
Definition labelComponents (fg : list bool) (width height : nat)
  : option (list nat * nat) :=
  match forRange 0 (width * height) resolvePixel (labelScan fg width height) with
  | None => None
  | Some st =>
      let positive := filter (fun l => 0 <? l) (labels st) in
      Some (labels st, length (nodup Nat.eq_dec positive))
  end.

(** [counts.set(l, (counts.get(l) ?? 0) + 1)] on a [Map], which keeps its
    keys in insertion order. *)
Fixpoint countsIncr (l : nat) (counts : list (nat * nat)) : list (nat * nat) :=
  match counts with
  | [] => [(l, 1)]
  | (k, c) :: rest =>
      if k =? l then (k, c + 1) :: rest else (k, c) :: countsIncr l rest
  end.

Definition componentCounts (labels : list nat) : list (nat * nat) :=
  fold_left (fun counts l => if 0 <? l then countsIncr l counts else counts)
            labels [].

(** [(bestLabel, bestCount)] after the loop over the map's entries. *)
Definition bestComponent (counts : list (nat * nat)) : nat * nat :=
  fold_left (fun best lc =>
               if snd best <? snd lc then (fst lc, snd lc) else best)
            counts (0, 0).

(** [fg.map((v, i) => v && labels[i] === bestLabel)] *)
Definition selectLabel (fg : list bool) (labels : list nat) (bestLabel : nat)
  : list bool :=
  map (fun i => get false fg i && (i <? length labels)
                && (get 0 labels i =? bestLabel))
      (seq 0 (length fg)).

Definition keepLargestComponent (fg : list bool) (width height : nat)
  : option (list bool) :=
  match labelComponents fg width height with
  | None => None
  | Some (labels, _) =>
      Some (selectLabel fg labels (fst (bestComponent (componentCounts labels))))
  end.

(** ** Flood fill from the top, left and right edges (lines 655-699) *)

Definition memNat (x : nat) (s : list nat) : bool := existsb (Nat.eqb x) s.

(** The initial work list: background pixels of the top row, then of the
    left and right columns. *)
Definition edgeSeeds (fg : list bool) (w h : nat) : list nat :=
  let top :=
    forRange 0 w (fun x q => if get false fg x then q else q ++ [x]) [] in
  forRange 0 h (fun y q =>
    let leftIdx := y * w in
    let rightIdx := y * w + w - 1 in
    let q := if get false fg leftIdx then q else q ++ [leftIdx] in
    if get false fg rightIdx then q else q ++ [rightIdx]) top.

(** The four neighbours of [idx]; [None] is the source's [-1]. *)
Definition neighbors (w h idx : nat) : list (option nat) :=
  let x := idx mod w in
  let y := idx / w in
  [ if 0 <? x then Some (idx - 1) else None;
    if x <? w - 1 then Some (idx + 1) else None;
    if 0 <? y then Some (idx - w) else None;
    if y <? h - 1 then Some (idx + w) else None ].

(** [for (const n of neighbors) if (n >= 0 && !visited.has(n) && !fg[n]) queue.push(n)] *)
Definition pushNeighbors (fg : list bool) (visited : list nat)
           (ns : list (option nat)) (queue : list nat) : list nat :=
  fold_left (fun q n =>
               match n with
               | Some n =>
                   if negb (memNat n visited) && negb (get false fg n)
                   then q ++ [n] else q
               | None => q
               end) ns queue.

(** The [while (queue.length > 0)] loop; [None] when the fuel is spent. *)
Fixpoint floodLoop (fuel : nat) (fg : list bool) (w h : nat)
         (queue visited : list nat) (isBackground : list bool)
  : option (list bool) :=
  match queue with
  | [] => Some isBackground
  | idx :: rest =>
      match fuel with
      | O => None
      | S f =>
          if memNat idx visited || get false fg idx
          then floodLoop f fg w h rest visited isBackground
          else
            let visited' := idx :: visited in
            floodLoop f fg w h
                      (pushNeighbors fg visited' (neighbors w h idx) rest)
                      visited' (upd isBackground idx true)
      end
  end.

Definition floodFuel (w h : nat) : nat := w + 2 * h + 4 * (w * h) + 1.

Definition fillFromEdges (fg : list bool) (w h : nat) : option (list bool) :=
  match floodLoop (floodFuel w h) fg w h (edgeSeeds fg w h) []
                  (repeat false (w * h)) with
  | None => None
  | Some isBackground => Some (map negb isBackground)
  end.

(** ** Outer contour: per-row span fill (lines 724-758) *)

(** First [x] of [xs] with [p x], or [-1]: the two searches with [break]. *)
Fixpoint firstHit (p : nat -> bool) (xs : list nat) : Z :=
  match xs with
  | [] => (-1)%Z
  | x :: rest => if p x then Z.of_nat x else firstHit p rest
  end.

Definition leftmostOf (fg : list bool) (w y : nat) : Z :=
  firstHit (fun x => get false fg (y * w + x)) (seq 0 w).

Definition rightmostOf (fg : list bool) (w y : nat) : Z :=
  firstHit (fun x => get false fg (y * w + x)) (rev (seq 0 w)).

Definition extractOuterContour (fg : list bool) (w h : nat) : list bool :=
  forRange 0 h (fun y contour =>
    let leftmost := leftmostOf fg w y in
    let rightmost := rightmostOf fg w y in
    if (0 <=? leftmost)%Z && (leftmost <=? rightmost)%Z
    then forUpTo (Z.to_nat leftmost) (Z.to_nat rightmost + 1)
                 (fun x contour => upd contour (y * w + x) true) contour
    else contour) (repeat false (w * h)).

(** ** Sorting *)

(** [Array.prototype.sort] is stable; insertion from the right, placing an
    element before the first one it does not exceed, gives the stable
    order. *)
Fixpoint insertBy {A} (le : A -> A -> bool) (x : A) (l : list A) : list A :=
  match l with
  | [] => [x]
  | y :: t => if le x y then x :: l else y :: insertBy le x t
  end.

Definition sortBy {A} (le : A -> A -> bool) (l : list A) : list A :=
  fold_right (insertBy le) [] l.

(** ** Measurement: bounding box, centreline, side, radii (lines 764-837) *)

Record box := mkBox { yMin : nat; yMax : nat; xMin : nat; xMax : nat }.

Definition boundingBox (fg : list bool) (w h : nat) : box :=
  forRange 0 h (fun y b =>
    forRange 0 w (fun x b =>
      if get false fg (y * w + x) then
        mkBox (if y <? yMin b then y else yMin b)
              (if yMax b <? y then y else yMax b)
              (if x <? xMin b then x else xMin b)
              (if xMax b <? x then x else xMax b)
      else b) b) (mkBox h 0 w 0).

(** [yMax - yMin + 1] *)
Definition boxHeight (b : box) : Z :=
  (Z.of_nat (yMax b) - Z.of_nat (yMin b) + 1)%Z.

(** [for (let y = yMin; y <= yMax; y++) for (let x = 0; x < w; x++) ...] *)
Definition overBox {S} (b : box) (w : nat) (body : nat -> nat -> S -> S)
           (s : S) : S :=
  forUpTo (yMin b) (yMax b + 1) (fun y s => forRange 0 w (body y) s) s.

Definition xPositions (fg : list bool) (w : nat) (b : box) : list nat :=
  overBox b w (fun y x acc =>
    if get false fg (y * w + x) then acc ++ [x] else acc) [].

Definition centerlineX (fg : list bool) (w : nat) (b : box) : nat :=
  let xs := sortBy Nat.leb (xPositions fg w b) in
  if 0 <? length xs then get 0 xs (length xs / 2)
  else (xMin b + xMax b) / 2.

(** [(leftPixels, rightPixels)] *)
Definition sidePixels (fg : list bool) (w : nat) (b : box) (c : nat)
  : nat * nat :=
  overBox b w (fun y x lr =>
    if get false fg (y * w + x) then
      if x <? c then (S (fst lr), snd lr)
      else if c <? x then (fst lr, S (snd lr))
      else lr
    else lr) (0, 0).

Definition extractRightSide (fg : list bool) (w : nat) (b : box) (c : nat)
  : bool :=
  let lr := sidePixels fg w b c in fst lr <=? snd lr.

(** [maxDist] of row [y]. *)
Definition rowRadius (fg : list bool) (w : nat) (c : nat) (right : bool)
           (y : nat) : Z :=
  if right then
    forUpTo c w (fun x maxDist =>
      if get false fg (y * w + x) then
        let dist := (Z.of_nat x - Z.of_nat c)%Z in
        if (maxDist <? dist)%Z then dist else maxDist
      else maxDist) 0%Z
  else
    fold_left (fun maxDist x =>
      if get false fg (y * w + x) then
        let dist := (Z.of_nat c - Z.of_nat x)%Z in
        if (maxDist <? dist)%Z then dist else maxDist
      else maxDist) (rev (seq 0 (c + 1))) 0%Z.

(** [(radiusByRow, maxRadius)] *)
Definition radii (fg : list bool) (w : nat) (b : box) (c : nat) (right : bool)
  : list Z * Z :=
  forUpTo (yMin b) (yMax b + 1) (fun y acc =>
    let maxDist := rowRadius fg w c right y in
    (fst acc ++ [maxDist],
     if (snd acc <? maxDist)%Z then maxDist else snd acc)) ([], 0%Z).

(** ** Median filter (lines 510-524) *)

Section Median.
Local Open Scope Q_scope.

(** [arr[k]] for a numeric [k]: an element when [k] is an integer index
    inside the array, [undefined] ([None]) otherwise. *)
Definition readAt (arr : list Z) (k : Q) : option Z :=
  if Qeq_bool k (inject_Z (Qfloor k)) && (0 <=? Qfloor k)%Z
  then nth_error arr (Z.to_nat (Qfloor k))
  else None.

(** Trip count of [for (let j = -halfWindow; j <= halfWindow; j++)]. *)
Definition windowLength (halfWindow : Q) : nat :=
  Z.to_nat (Qfloor (2 * halfWindow) + 1).

Definition medianWindow (arr : list Z) (halfWindow : Q) (i : nat)
  : list (option Z) :=
  let n := inject_Z (Z.of_nat (length arr)) in
  forRange 0 (windowLength halfWindow) (fun t buf =>
    let j := inject_Z (Z.of_nat t) - halfWindow in
    let k := Qmax 0 (Qmin (n - 1) (inject_Z (Z.of_nat i) + j)) in
    buf ++ [readAt arr k]) [].

(** [buf.sort((a, b) => a - b)]: numbers in ascending order, [undefined]
    after them. *)
Definition numbersFirst (a b : option Z) : bool :=
  match a, b with
  | Some x, Some y => (x <=? y)%Z
  | _, None => true
  | None, Some _ => false
  end.

Definition medianFilter (arr : list Z) (halfWindow : Q) : list (option Z) :=
  forRange 0 (length arr) (fun i out =>
    let buf := sortBy numbersFirst (medianWindow arr halfWindow i) in
    out ++ [get None buf (length buf / 2)]) [].

End Median.

(** ** Normalisation and resampling (lines 839-870) *)

(** [{ x, y }]; the projections are [px] and [py]. [y] is computed from
    indices and counts only and is never NaN. *)
Record ProfilePoint := mkPoint { px : number; py : Q }.

Section Resample.
Local Open Scope Q_scope.

(** [smoothed] holds numbers and, after a median filter that read outside
    the integer indices, [undefined] ([None]). *)
Definition rawPoints (smoothed : list (option Z)) (maxRadius : Z)
  : list ProfilePoint :=
  let len := length smoothed in
  forRange 0 len (fun i acc =>
    let yNorm :=
      if (1 <? len)%nat
      then 1 - inject_Z (Z.of_nat i) / inject_Z (Z.of_nat (len - 1))
      else 0.5 in
    let xNorm :=
      if (0 <? maxRadius)%Z
      then match get None smoothed i with
           | Some r => Num (Qmin 1 (inject_Z r / inject_Z maxRadius))
           | None => NaN
           end
      else Num 0 in
    acc ++ [mkPoint xNorm yNorm]) [].

(** The raw point nearest to [yTarget], the first one on ties; [None] where
    the source reads [rawPoints[0].y] of an empty array and throws. *)
Definition nearest (raw : list ProfilePoint) (yTarget : Q)
  : option ProfilePoint :=
  match raw with
  | [] => None
  | p0 :: rest =>
      Some (fst (fold_left (fun best p =>
                   let dy := Qabs (py p - yTarget) in
                   if Qltb dy (snd best) then (p, dy) else best)
                 rest (p0, Qabs (py p0 - yTarget))))
  end.

(** Trip count of [for (let k = 0; k < targetPoints; k++)]; [k < NaN] is
    false. *)
Definition tripCount (targetPoints : number) : nat :=
  match targetPoints with
  | Num t => Z.to_nat (Qceiling t)
  | NaN => 0%nat
  end.

(** [targetPoints > 1 ? k / (targetPoints - 1) : 0.5] *)
Definition targetY (targetPoints : number) (k : nat) : Q :=
  match targetPoints with
  | Num t => if Qltb 1 t then inject_Z (Z.of_nat k) / (t - 1) else 0.5
  | NaN => 0.5
  end.

(** [for (let k = 0; k < targetPoints; k++) out.push({ ...best })] *)
Definition resampled (raw : list ProfilePoint) (targetPoints : number)
  : option (list ProfilePoint) :=
  forRange 0 (tripCount targetPoints) (fun k out =>
    match out with
    | None => None
    | Some out =>
        let yTarget := targetY targetPoints k in
        match nearest raw yTarget with
        | None => None
        | Some best => Some (out ++ [mkPoint (px best) (py best)])
        end
    end) (Some []).

(** [out[i].y = v]; [None] where [out[i]] is [undefined] and the source
    throws. *)
Definition setY (out : list ProfilePoint) (i : nat) (v : Q)
  : option (list ProfilePoint) :=
  if (i <? length out)%nat
  then Some (upd out i (mkPoint (px (get (mkPoint NaN 0) out i)) v))
  else None.

Definition byY (a b : ProfilePoint) : bool := Qle_bool (py a) (py b).

(** Lines 852-868. *)
Definition resample (raw : list ProfilePoint) (targetPoints : number)
  : option (list ProfilePoint) :=
  match resampled raw targetPoints with
  | None => None
  | Some out =>
      match setY out 0 0 with
      | None => None
      | Some out =>
          match setY out (length out - 1) 1 with
          | None => None
          | Some out => Some (sortBy byY out)
          end
      end
  end.

End Resample.

(** ** The pipeline (lines 536-871) *)

(** [DecorationBand] of [types/find], as the editor builds it. *)
Record DecorationBand := mkBand { fromY : Q; toY : Q }.

Record ExtractProfileResult := mkResult {
  profile : list ProfilePoint;
  decorationBands : list DecorationBand
}.

Definition emptyResult : ExtractProfileResult := mkResult [] [].

(** How a call ends: with a result, with an exception, or (in the embedding
    only) with the fuel of an inner loop spent. *)
Inductive outcome :=
| Returns (r : ExtractProfileResult)
| Throws
| OutOfFuel.

(** The image element or canvas: its (natural) width and height, and the
    RGBA bytes that [drawImage] followed by [getImageData(0, 0, w, h)]
    yields for a processing size [w x h]. *)
Record Image := mkImage {
  imageWidth : dimension;
  imageHeight : dimension;
  imageData : nat -> nat -> list Z
}.

Definition preprocess (data : list Z) (w h : nat)
           (options : ExtractProfileOptions) : list Q :=
  let gray := toGrayscale data in
  let gray :=
    if nullish (contrastStretch options) false
    then contrastStretchGray gray else gray in
  let blurLevel := nullish (blur options) 1%Z in
  if (blurLevel =? 1)%Z then blur3x3 gray w h
  else if (blurLevel =? 2)%Z then blur5x5 gray w h
  else gray.

Definition bindOpt {A B} (o : option A) (k : A -> option B) : option B :=
  match o with Some a => k a | None => None end.

Notation "v <- o ;; k" := (bindOpt o (fun v => k))
  (at level 61, o at next level, right associativity).

(** Lines 591-762: from the intensities to the span-filled mask. *)
Definition foregroundMask (gray : list Q) (w h : nat)
           (options : ExtractProfileOptions) : option (list bool) :=
  let thresh := biasedThreshold (otsuThreshold gray) options in
  let fg := fst (binarizeWithPolarity gray w h thresh (invert options)) in
  fg <- keepLargestComponent fg w h ;;
  let cleanupLevel := nullish (cleanup options) 0%Z in
  fg <- (if (1 <=? cleanupLevel)%Z
         then keepLargestComponent (morphClose fg w h) w h
         else Some fg) ;;
  fg <- (if (2 <=? cleanupLevel)%Z
         then keepLargestComponent (morphClose (morphOpen fg w h) w h) w h
         else Some fg) ;;
  fg <- (if (1 <=? cleanupLevel)%Z
         then
           if fractionDegenerate (countTrue fg) (w * h)
           then
             fgFilled <- fillFromEdges fg w h ;;
             if fractionUsable (countTrue fgFilled) (w * h)
             then keepLargestComponent fgFilled w h
             else Some fg
           else Some fg
         else Some fg) ;;
  Some (extractOuterContour fg w h).

(** [Math.max(8, Math.min(24, options.targetPoints ?? DEFAULT_TARGET_POINTS))] *)
Definition clampedTargetPoints (options : ExtractProfileOptions) : number :=
  clampNumber 8 24 (nullish (targetPoints options) (Num DEFAULT_TARGET_POINTS)).

(** [smoothing > 0 ? medianFilter(radiusByRow, Math.min(smoothing, 5)) : radiusByRow] *)
Definition smoothedRadii (radiusByRow : list Z)
           (options : ExtractProfileOptions) : list (option Z) :=
  match nullish (smoothing options) (Num 2%Q) with
  | Num smoothing =>
      if Qltb 0 smoothing
      then medianFilter radiusByRow (Qmin smoothing 5)
      else map Some radiusByRow
  | NaN => map Some radiusByRow
  end.

(** Lines 764-870: from the mask to the result. *)
Definition measure (fg : list bool) (w h : nat)
           (options : ExtractProfileOptions) : outcome :=
  let b := boundingBox fg w h in
  if (boxHeight b <? 10)%Z then Returns emptyResult
  else
    let c := centerlineX fg w b in
    let right := extractRightSide fg w b c in
    let '(radiusByRow, maxRadius) := radii fg w b c right in
    if (maxRadius <? 2)%Z then Returns emptyResult
    else
      let smoothed := smoothedRadii radiusByRow options in
      match resample (rawPoints smoothed maxRadius)
                     (clampedTargetPoints options) with
      | None => Throws
      | Some out => Returns (mkResult out [])
      end.

(** [context2d] tells whether [canvas.getContext('2d')] gave a context. *)
Definition extractProfileFromImage (context2d : bool) (image : Image)
           (options : ExtractProfileOptions) : outcome :=
  if negb context2d then Returns emptyResult
  else
    match processingSize (imageWidth image) (imageHeight image) with
    | None => Returns emptyResult
    | Some (w, h) =>
        let w := Z.to_nat w in
        let h := Z.to_nat h in
        let gray := preprocess (imageData image w h) w h options in
        match foregroundMask gray w h options with
        | None => OutOfFuel
        | Some fg => measure fg w h options
        end
    end.

(** * Vocabulary of the properties *)

Section NumberVocabulary.
Local Open Scope Q_scope.

(** The number is an integer. *)
Definition integral (q : Q) : Prop := q == inject_Z (Qfloor q).

End NumberVocabulary.

Section ResizerVocabulary.
Local Open Scope Z_scope.

(** The claim as the specification words it, at raw size [w x h]. *)
Definition resizer_claim (w h : Z) : Prop :=
  exists w' h',
    processingSize (Finite w) (Finite h) = Some (w', h') /\
    1 <= w' <= 500 /\ 1 <= h' <= 500 /\
    w' * h' <= 400000 /\ w' * h = h' * w.

End ResizerVocabulary.

Section OtsuVocabulary.
Local Open Scope Z_scope.

(** Number of intensities of [gray] that fall into bin [t]. *)
Definition binCount (gray : list Q) (t : nat) : Z :=
  Z.of_nat (length (filter (fun g => bin g =? Z.of_nat t) gray)).

(** All intensities lie in bin [a] or bin [b], [a < b], and both bins are
    inhabited: a histogram with two separate peaks. *)
Definition bimodal (gray : list Q) (a b : Z) : Prop :=
  0 <= a < b /\ b <= 255 /\
  (forall g, In g gray -> bin g = a \/ bin g = b) /\
  (exists g, In g gray /\ bin g = a) /\
  (exists g, In g gray /\ bin g = b).

(** The claim as the specification words it. *)
Definition otsu_claim (gray : list Q) (a b : Z) : Prop :=
  a < otsuThreshold gray < b.

(** [varBetween] as the loop computes it from the running sums. *)
Definition varBetweenOf (sum total sumB wB : Z) : Q :=
  let wF := total - wB in
  let mB := (inject_Z sumB / inject_Z wB)%Q in
  let mF := (inject_Z (sum - sumB) / inject_Z wF)%Q in
  (inject_Z wB * inject_Z wF * ((mB - mF) * (mB - mF)))%Q.

(** [sum of i * hist[i]] over the bins [l]. *)
Fixpoint sumBins (hist : list Z) (l : list nat) : Z :=
  match l with
  | [] => 0
  | i :: l' => Z.of_nat i * get 0 hist i + sumBins hist l'
  end.

End OtsuVocabulary.

Section PolarityVocabulary.
Local Open Scope Q_scope.

(** The mask of a threshold, as the specification words it: with dark
    foreground the pixels whose intensity is at most the threshold, with
    light foreground those whose intensity is at least the threshold; no
    pixel when the threshold is NaN. *)
Definition maskOf (dark : bool) (thresh : number) (gray : list Q) : list bool :=
  map (fun g =>
         match thresh with
         | Num t => if dark then Qle_bool g t else Qle_bool t g
         | NaN => false
         end) gray.

(** Number of foreground pixels of a mask. *)
Definition foregroundCount (mask : list bool) : Z :=
  Z.of_nat (count_occ bool_dec mask true).

(** The foreground fraction of the mask is below 12% or above 88%:
    [count / total < 12 / 100] or [count / total > 88 / 100], written
    without the division. *)
Definition degenerate (mask : list bool) : Prop :=
  (100 * foregroundCount mask < 12 * Z.of_nat (length mask) \/
   88 * Z.of_nat (length mask) < 100 * foregroundCount mask)%Z.

(** The foreground fraction of the mask lies within [12%, 88%]. *)
Definition withinBand (mask : list bool) : Prop :=
  (12 * Z.of_nat (length mask) <= 100 * foregroundCount mask /\
   100 * foregroundCount mask <= 88 * Z.of_nat (length mask))%Z.

(** [shifted] is the threshold [thresh] moved by 30 toward the background
    value, down when the background is dark and up when it is light, and
    kept within [0, 255]; NaN stays NaN. The difference [thresh - 30] is
    exact in binary64 wherever the clamp keeps it, and so is the sum
    [thresh + 30] for a threshold that is an integer, as the Otsu threshold
    is; for another threshold the sum is rounded, and the relation tells
    the shift to within one unit. *)
Definition shiftedTowardBackground (backgroundDark : bool)
           (thresh shifted : number) : Prop :=
  match thresh, shifted with
  | Num t, Num s =>
      if backgroundDark
      then s == Qmax 0 (Qmin 255 (t - 30))
      else (integral t -> s == Qmax 0 (Qmin 255 (t + 30))) /\
           Qmax 0 (Qmin 255 (t + 29)) <= s <= Qmax 0 (Qmin 255 (t + 31))
  | NaN, NaN => True
  | _, _ => False
  end.

(** Ten pixels in a row, light at the border, of which the darkest is at
    the threshold 100: the first two tiers are degenerate and the shifted
    threshold is adopted. *)
Definition exampleThirdTier : list Q :=
  [250; 120; 120; 120; 100; 120; 120; 250; 250; 250].

(** Ten pixels in a row, light at the border, half of them at the
    threshold 200: the flipped polarity settles it. *)
Definition exampleSecondTier : list Q :=
  [200; 150; 150; 200; 150; 200; 150; 200; 150; 200].

(** Ten pixels in a row, all but one at the threshold 200: no tier gives a
    fraction within the band and the flipped mask is kept. *)
Definition exampleNoTier : list Q :=
  [200; 200; 200; 200; 250; 200; 200; 200; 200; 200].

End PolarityVocabulary.

Section ContourVocabulary.

(** Pixel [(x, y)] lies between two foreground pixels of its row (itself
    included). *)
Definition inSpan (fg : list bool) (w y x : nat) : Prop :=
  exists x1 x2, x1 <= x <= x2 /\ x2 < w /\
    get false fg (y * w + x1) = true /\ get false fg (y * w + x2) = true.

(** Every foreground pixel of [a] (inside the [w x h] frame) is foreground
    in [b]. *)
Definition maskSubset (w h : nat) (a b : list bool) : Prop :=
  forall i, i < w * h -> get false a i = true -> get false b i = true.

(** Each row of the mask is empty or one contiguous run. *)
Definition rowsContiguous (w h : nat) (m : list bool) : Prop :=
  forall y x1 x2 x3, y < h -> x1 <= x2 <= x3 -> x3 < w ->
    get false m (y * w + x1) = true -> get false m (y * w + x3) = true ->
    get false m (y * w + x2) = true.

End ContourVocabulary.

Section ProfileVocabulary.
Local Open Scope Q_scope.

(** The profile a call returns; empty when it does not return. *)
Definition profileOf (o : outcome) : list ProfilePoint :=
  match o with
  | Returns r => profile r
  | _ => []
  end.

Definition leY (a b : ProfilePoint) : Prop := py a <= py b.

(** Points sorted non-decreasing by [y]. *)
Definition sortedByY (l : list ProfilePoint) : Prop := StronglySorted leY l.

(** A coordinate that is a number of [0, 1]; NaN is not. *)
Definition inUnit (v : number) : Prop :=
  match v with
  | Num q => 0 <= q <= 1
  | NaN => False
  end.

Definition xInUnit (p : ProfilePoint) : Prop := inUnit (px p).

Definition yInUnit (p : ProfilePoint) : Prop := 0 <= py p <= 1.

Definition inUnitSquare (p : ProfilePoint) : Prop := xInUnit p /\ yInUnit p.

Definition origin : ProfilePoint := mkPoint (Num 0) 0.

(** A profile of [n] points, sorted by [y], with [y] in [0, 1], from
    [y = 0] to [y = 1]. *)
Definition spansUnitHeight (n : nat) (p : list ProfilePoint) : Prop :=
  length p = n /\ sortedByY p /\ Forall yInUnit p /\
  py (hd origin p) == 0 /\ py (last p origin) == 1.

(** A radius that is a number, and not negative. *)
Definition definedRadius (o : option Z) : Prop :=
  exists r, o = Some r /\ (0 <= r)%Z.

(** The [smoothing] option asks for no filter (it is absent with the default
    2 in force, not positive, or NaN, which no comparison finds positive) or
    for an integer half-window. *)
Definition integralSmoothing (options : ExtractProfileOptions) : Prop :=
  match smoothing options with
  | Some (Num s) => s <= 0 \/ integral s
  | Some NaN => True
  | None => True
  end.

End ProfileVocabulary.

Section Examples.

(** A 9 x 12 raster: white background, a black upright rectangle in columns
    2..6 and rows 1..10. *)
Definition exampleData (w h : nat) : list Z :=
  flat_map (fun i =>
              let x := i mod w in
              let y := i / w in
              let v := if (2 <=? x) && (x <=? 6) && (1 <=? y) && (y <=? 10)
                       then 0%Z else 255%Z in
              [v; v; v; 255%Z])
           (seq 0 (w * h)).

Definition exampleImage : Image := mkImage (Finite 9) (Finite 12) exampleData.

Definition defaultOptions : ExtractProfileOptions :=
  mkOptions None None None None None None None.

(** [{ smoothing: 1.5 }] *)
Definition fractionalSmoothing : ExtractProfileOptions :=
  mkOptions None (Some (Num (3 # 2)%Q)) None None None None None.

(** [{ targetPoints: 8.5 }] *)
Definition fractionalTarget : ExtractProfileOptions :=
  mkOptions None None None (Some (Num (17 # 2)%Q)) None None None.

(** [{ targetPoints: NaN }] *)
Definition nanTargetPoints : ExtractProfileOptions :=
  mkOptions None None None (Some NaN) None None None.

(** [{ thresholdBias: NaN }] *)
Definition nanThresholdBias : ExtractProfileOptions :=
  mkOptions None None None None (Some NaN) None None.

(** [{ thresholdBias: 80 }] *)
Definition largeBias : ExtractProfileOptions :=
  mkOptions None None None None (Some (Num 80%Q)) None None.

(** [{ targetPoints: 12 }] *)
Definition twelvePoints : ExtractProfileOptions :=
  mkOptions None None None (Some (Num 12%Q)) None None None.

(** A 4 x 2 mask with a blob of two pixels and a blob of one pixel in the
    first row. *)
Definition exampleMask : list bool :=
  [true; true; false; true; false; false; false; false].

Definition exampleBlobA : list bool :=
  [true; true; false; false; false; false; false; false].

Definition exampleBlobB : list bool :=
  [false; false; false; true; false; false; false; false].

End Examples.

Section ComponentVocabulary.

(** 4-adjacency of two row-major indices of a grid of width [w]. *)
Definition adj4 (w i j : nat) : Prop :=
  (j = i + 1 /\ (i + 1) mod w <> 0) \/
  (i = j + 1 /\ (j + 1) mod w <> 0) \/
  j = i + w \/ i = j + w.

(** [i] and [j] are joined by a path of 4-adjacent pixels of [S]. *)
Inductive connected (w : nat) (S : nat -> Prop) : nat -> nat -> Prop :=
| connected_refl i : S i -> connected w S i i
| connected_step i j k :
    connected w S i j -> adj4 w j k -> S k -> connected w S i k.

(** The pixels of a mask. *)
Definition pixelOf (m : list bool) (i : nat) : Prop := get false m i = true.

(** [m] is a blob: not empty, and any two of its pixels are joined inside
    it. *)
Definition blob (w : nat) (m : list bool) : Prop :=
  (exists i, pixelOf m i) /\
  forall i j, pixelOf m i -> pixelOf m j -> connected w (pixelOf m) i j.

(** The foreground [fg] consists of exactly the two blobs [a] and [b],
    which share no pixel and touch nowhere. *)
Definition twoBlobs (w h : nat) (fg a b : list bool) : Prop :=
  length fg = w * h /\ length a = w * h /\ length b = w * h /\
  (forall i, get false fg i = get false a i || get false b i) /\
  (forall i, pixelOf a i -> pixelOf b i -> False) /\
  blob w a /\ blob w b /\
  (forall i j, pixelOf a i -> pixelOf b j -> ~ adj4 w i j).

(** The first foreground pixel of the row-major scan belongs to [a]. *)
Definition firstEncountered (fg a : list bool) : Prop :=
  exists i, pixelOf a i /\ forall j, j < i -> get false fg j = false.

(** The parent array is a forest over the labels [1 .. next-1] in which a
    parent never exceeds its child. *)
Definition wfParent (p : list nat) (next : nat) : Prop :=
  length p <= next /\
  forall l, 1 <= l < next -> l < length p /\ 1 <= get 0 p l <= l.

(** The root of [l], by following parents for at most [fuel] steps. *)
Fixpoint rootOf (fuel : nat) (p : list nat) (l : nat) : nat :=
  match fuel with
  | O => l
  | S f => if get 0 p l =? l then l else rootOf f p (get 0 p l)
  end.

Definition root (p : list nat) (l : nat) : nat := rootOf l p l.

(** The count stored for label [l] in the map, [0] when absent. *)
Fixpoint lookupCount (l : nat) (counts : list (nat * nat)) : nat :=
  match counts with
  | [] => 0
  | (k, c) :: rest => if k =? l then c else lookupCount l rest
  end.

(** The map after counting the labels [L] into [counts]. *)
Definition countsFrom (L : list nat) (counts : list (nat * nat))
  : list (nat * nat) :=
  fold_left (fun counts l => if 0 <? l then countsIncr l counts else counts)
            L counts.

End ComponentVocabulary.

Section LabellingInvariant.
Variable fg : list bool.
Variables w h : nat.

(** The foreground pixels among the first [k] of the raster scan. *)
Definition scanned (k : nat) (i : nat) : Prop :=
  i < k /\ get false fg i = true.

(** State of the raster scan after [k] pixels: every scanned foreground
    pixel carries a label, the parent array is a forest, and two scanned
    foreground pixels have labels of the same root exactly when they are
    4-connected through scanned foreground pixels. *)
Definition labelInv (k : nat) (st : labelState) : Prop :=
  length (labels st) = w * h /\
  1 <= nextLabel st /\
  wfParent (parent st) (nextLabel st) /\
  (forall i, scanned k i -> 1 <= get 0 (labels st) i < nextLabel st) /\
  (forall i, ~ scanned k i -> get 0 (labels st) i = 0) /\
  (forall i j, scanned k i -> scanned k j ->
     (root (parent st) (get 0 (labels st) i)
      = root (parent st) (get 0 (labels st) j)
      <-> connected w (scanned k) i j)).

(** The label a pixel ends with: the root of its scan label, [0] on the
    background. *)
Definition resolvedLabel (st : labelState) (i : nat) : nat :=
  if get 0 (labels st) i =? 0 then 0
  else root (parent st) (get 0 (labels st) i).

(** The foreground pixels inside the [w x h] frame. *)
Definition foreground (i : nat) : Prop := scanned (w * h) i.

End LabellingInvariant.

Section FloodVocabulary.

(** Number of pixels below [n] not yet visited. *)
Definition unvisited (n : nat) (visited : list nat) : nat :=
  length (filter (fun i => negb (memNat i visited)) (seq 0 n)).

End FloodVocabulary.

Section PipelineVocabulary.

(** A width or height that is not a finite number, or is not positive. *)
Definition unusable (d : dimension) : Prop :=
  match d with
  | Finite n => (n <= 0)%Z
  | NonFinite => True
  | NotANumber => True
  end.

(** The processing size and the span-filled mask the measurement starts
    from. *)
Definition measuredMask (image : Image) (options : ExtractProfileOptions)
  : option (nat * nat * list bool) :=
  match processingSize (imageWidth image) (imageHeight image) with
  | None => None
  | Some (w, h) =>
      let w := Z.to_nat w in
      let h := Z.to_nat h in
      match foregroundMask (preprocess (imageData image w h) w h options)
                           w h options with
      | None => None
      | Some fg => Some (w, h, fg)
      end
  end.

(** The radius of every row of the bounding box of [fg]. *)
Definition measuredRadii (fg : list bool) (w h : nat) : list Z :=
  let b := boundingBox fg w h in
  let c := centerlineX fg w b in
  fst (radii fg w b c (extractRightSide fg w b c)).

(** The requested number of points: [targetPoints], 18 when absent, clamped
    to [8, 24]; no number when [targetPoints] is NaN. *)
Definition requestedPoints (options : ExtractProfileOptions) : number :=
  match targetPoints options with
  | Some (Num t) => Num (Qmax 8 (Qmin 24 t))%Q
  | Some NaN => NaN
  | None => Num (Qmax 8 (Qmin 24 18))%Q
  end.

Definition profileLength (context2d : bool) (image : Image)
           (options : ExtractProfileOptions) : nat :=
  length (profileOf (extractProfileFromImage context2d image options)).

(** The length of a non-empty profile is the requested number of points. *)
Definition length_claim (context2d : bool) (image : Image)
           (options : ExtractProfileOptions) : Prop :=
  profileOf (extractProfileFromImage context2d image options) <> [] ->
  exists requested,
    requestedPoints options = Num requested /\
    (inject_Z (Z.of_nat (profileLength context2d image options))
     == requested)%Q.

End PipelineVocabulary.


Section FloodFillVocabulary.

(** A background pixel of the [w x h] frame. *)
Definition background (fg : list bool) (w h i : nat) : Prop :=
  i < w * h /\ get false fg i = false.

(** A pixel of the top row, the left column or the right column. *)
Definition onOpenEdge (w h i : nat) : Prop :=
  i < w * h /\ (i < w \/ i mod w = 0 \/ i mod w = w - 1).

(** A path of 4-adjacent background pixels joins [i] to the top, left or
    right edge. *)
Definition reachesEdge (fg : list bool) (w h i : nat) : Prop :=
  exists s, onOpenEdge w h s /\ connected w (background fg w h) s i.

End FloodFillVocabulary.

Section MeasurementVocabulary.

(** Every foreground pixel among [seen] lies inside the box. *)
Definition boxCovers (fg : list bool) (w : nat) (seen : nat -> nat -> Prop)
           (b : box) : Prop :=
  forall y x, seen y x -> get false fg (y * w + x) = true ->
    yMin b <= y <= yMax b /\ xMin b <= x <= xMax b.

(** Each side of the box holds a foreground pixel among [seen]. *)
Definition boxTouches (fg : list bool) (w : nat) (seen : nat -> nat -> Prop)
           (b : box) : Prop :=
  (exists x, seen (yMin b) x /\ get false fg (yMin b * w + x) = true) /\
  (exists x, seen (yMax b) x /\ get false fg (yMax b * w + x) = true) /\
  (exists y, seen y (xMin b) /\ get false fg (y * w + xMin b) = true) /\
  (exists y, seen y (xMax b) /\ get false fg (y * w + xMax b) = true).

(** The pixels of the [w x h] frame. *)
Definition inFrame (w h y x : nat) : Prop := y < h /\ x < w.

End MeasurementVocabulary.

Section SmoothingVocabulary.

(** The [2 m + 1] radii around row [i], rows beyond either end standing for
    the end row. *)
Definition clampedWindow (arr : list Z) (m i : nat) : list Z :=
  map (fun t =>
         get 0%Z arr
             (Z.to_nat (Z.max 0 (Z.min (Z.of_nat (length arr) - 1)
                                       (Z.of_nat i + (Z.of_nat t - Z.of_nat m))))))
      (seq 0 (2 * m + 1)).

(** [r] is a median of [l]: an entry of [l] with more than half of the
    entries at most [r] and more than half at least [r]. *)
Definition isMedianOf (r : Z) (l : list Z) : Prop :=
  In r l /\
  length l < 2 * length (filter (fun v => (v <=? r)%Z) l) /\
  length l < 2 * length (filter (fun v => (r <=? v)%Z) l).

(** Distance in height of a point to the target height. *)
Definition heightGap (yTarget : Q) (p : ProfilePoint) : Q :=
  Qabs (py p - yTarget).

End SmoothingVocabulary.

(** ** The editor's operations on a profile
    ([editor/FindEditor.tsx], lines 173-192) *)

Section Editor.
Local Open Scope Q_scope.

(** [(a + b) / 2] *)
Definition numberMid (a b : number) : number :=
  match a, b with
  | Num p, Num q => Num ((p + q) / 2)
  | _, _ => NaN
  end.

(** [addProfilePoint(afterIndex)]: the profile with a point inserted after
    [afterIndex]; [None] where [profile[afterIndex]] is [undefined] and the
    source throws on [a.x]. *)
Definition addProfilePoint (profile : list ProfilePoint) (afterIndex : nat)
  : option (list ProfilePoint) :=
  match nth_error profile afterIndex with
  | None => None
  | Some a =>
      let mid :=
        match nth_error profile (S afterIndex) with
        | Some b => mkPoint (numberMid (px a) (px b)) ((py a + py b) / 2)
        | None => mkPoint (px a) (Qmin 1 (py a + 0.1))
        end in
      Some (firstn (S afterIndex) profile ++ mid :: skipn (S afterIndex) profile)
  end.

(** [profile.filter((_, i) => i !== index)] *)
Fixpoint dropIndex {A} (l : list A) (index : nat) : list A :=
  match l, index with
  | [], _ => []
  | _ :: t, O => t
  | x :: t, S i => x :: dropIndex t i
  end.

(** [removeProfilePoint(index)] *)
Definition removeProfilePoint (profile : list ProfilePoint) (index : nat)
  : list ProfilePoint :=
  if (length profile <=? 2)%nat then profile else dropIndex profile index.

End Editor.

Section BackgroundVocabulary.

(** A pixel of the first or last row or column of the frame. *)
Definition onBorder (w h y x : nat) : Prop :=
  y < h /\ x < w /\ (y = 0 \/ y = h - 1 \/ x = 0 \/ x = w - 1).

End BackgroundVocabulary.
(** * Properties *)

(** ** Loops and arrays *)

Lemma forRange_step {T} lo n (body : nat -> T -> T) s :
  forRange lo (S n) body s = forRange (S lo) n body (body lo s).
Proof. reflexivity. Qed.

Lemma forRange_last {T} lo n (body : nat -> T -> T) s :
  forRange lo (S n) body s = body (lo + n) (forRange lo n body s).
Proof.
  unfold forRange. rewrite seq_S, fold_left_app. reflexivity.
Qed.

(** Invariant rule for a counting loop. *)
Lemma forRange_inv {T} (P : nat -> T -> Prop) lo n (body : nat -> T -> T) s :
  P lo s ->
  (forall i s, lo <= i < lo + n -> P i s -> P (1 + i) (body i s)) ->
  P (lo + n) (forRange lo n body s).
Proof.
  intros H0 Hstep. induction n as [|n IH].
  - rewrite Nat.add_0_r. exact H0.
  - rewrite forRange_last, Nat.add_succ_r. apply Hstep; [lia|].
    apply IH. intros i s' Hi. apply Hstep. lia.
Qed.

Lemma upd_length {A} (l : list A) i v : length (upd l i v) = length l.
Proof. revert i; induction l; destruct i; simpl; auto. Qed.

Lemma get_upd_same {A} (d : A) l i v :
  i < length l -> get d (upd l i v) i = v.
Proof.
  unfold get. revert i; induction l; destruct i; simpl; intros; auto; try lia.
  apply IHl; lia.
Qed.

Lemma get_upd_other {A} (d : A) l i j v :
  i <> j -> get d (upd l i v) j = get d l j.
Proof.
  unfold get. revert i j; induction l; destruct i, j; simpl; intros; auto; try lia.
Qed.

Lemma get_upd {A} (d : A) l i j v :
  i < length l ->
  get d (upd l i v) j = if i =? j then v else get d l j.
Proof.
  intros. destruct (Nat.eqb_spec i j).
  - subst. now apply get_upd_same.
  - now apply get_upd_other.
Qed.

Lemma get_repeat {A} (d : A) n i : get d (repeat d n) i = d.
Proof.
  unfold get. revert i. induction n; destruct i; simpl; auto.
Qed.

(** ** Threshold bias *)

Section BiasProperties.
Local Open Scope Q_scope.

Lemma clamp_between (lo hi v : Q) :
  lo <= hi -> lo <= Qmax lo (Qmin hi v) <= hi.
Proof.
  intros Hle. split.
  - apply Q.le_max_l.
  - apply Q.max_lub; [exact Hle | apply Q.le_min_l].
Qed.

(** C8, at [{ thresholdBias: NaN }]. [Math.min(50, NaN)] and
    [Math.max(-50, NaN)] are NaN: the bias applied is NaN, not a number of
    [-50, 50]; the threshold, [Math.max(0, Math.min(255, thresh + NaN))],
    is NaN, not a number of [0, 255]; no intensity compares with it, so
    whatever the polarity no pixel is foreground, and the extractor returns
    the empty result on the example image, which it measures when the
    option is absent. *)
Theorem threshold_is_not_a_number_at_nan_bias (gray : list Q) :
  appliedBias nanThresholdBias = NaN /\
  biasedThreshold (otsuThreshold gray) nanThresholdBias = NaN /\
  (forall dark,
     countTrue (binarize gray (biasedThreshold (otsuThreshold gray)
                                               nanThresholdBias) dark) = 0%nat) /\
  extractProfileFromImage true exampleImage nanThresholdBias
  = Returns emptyResult /\
  extractProfileFromImage true exampleImage defaultOptions
  <> Returns emptyResult.
Proof.
  split; [reflexivity|]. split; [reflexivity|]. split; [|split].
  - intros dark. change (biasedThreshold (otsuThreshold gray) nanThresholdBias)
      with NaN.
    unfold countTrue, binarize. induction gray as [|g gray IH]; [reflexivity|].
    cbn [map filter]. exact IH.
  - vm_compute. reflexivity.
  - vm_compute. discriminate.
Qed.

End BiasProperties.

(** ** Loader / resizer *)

Section ResizerProperties.
Local Open Scope Z_scope.

Lemma floorMulSqrt_spec a num den :
  0 <= a -> 0 <= num -> 0 < den ->
  0 <= floorMulSqrt a num den /\
  floorMulSqrt a num den * floorMulSqrt a num den * den <= a * a * num /\
  a * a * num < (floorMulSqrt a num den + 1) * (floorMulSqrt a num den + 1) * den.
Proof.
  intros Ha Hn Hd. unfold floorMulSqrt.
  assert (Hq : 0 <= a * a * num / den) by (apply Z.div_pos; nia).
  pose proof (Z.sqrt_spec _ Hq) as Hs.
  pose proof (Z.sqrt_nonneg (a * a * num / den)) as Hs0.
  pose proof (Z.mul_div_le (a * a * num) den Hd) as Hlo.
  pose proof (Z.mul_succ_div_gt (a * a * num) den Hd) as Hhi.
  generalize dependent (Z.sqrt (a * a * num / den)). intros s Hs Hs0.
  generalize dependent (a * a * num / den). intros q Hq Hlo Hhi Hs.
  generalize dependent (a * a * num). intros p Hlo Hhi.
  unfold Z.succ in *.
  split; [exact Hs0|]. split.
  - apply Z.le_trans with (q * den); [|lia].
    apply Z.mul_le_mono_nonneg_r; lia.
  - apply Z.lt_le_trans with (den * (q + 1)); [lia|].
    rewrite (Z.mul_comm den). apply Z.mul_le_mono_nonneg_r; lia.
Qed.

Lemma square_lt_lt a b : 0 <= a -> 0 <= b -> a * a < b * b -> a < b.
Proof.
  intros Ha Hb H. destruct (Z.lt_ge_cases a b) as [|Hge]; [assumption|].
  assert (b * b <= a * a) by (apply Z.mul_le_mono_nonneg; lia). lia.
Qed.

Lemma square_le_le a b : 0 <= a -> 0 <= b -> a * a <= b * b -> a <= b.
Proof.
  intros Ha Hb H. destruct (Z.le_gt_cases a b) as [|Hgt]; [assumption|].
  assert (b * b < a * a) by (apply Z.mul_lt_mono_nonneg; lia). lia.
Qed.

(** Cross-multiplied form of [s/w <= t'/h] from the two square-root
    brackets. *)
Lemma sqrt_brackets_cross (s t w h m : Z) :
  0 < w -> 0 < h -> 0 <= s -> 0 <= t ->
  s * s * h <= w * m -> h * m < (t + 1) * (t + 1) * w ->
  s * h < (t + 1) * w.
Proof.
  intros Hw Hh Hs Ht Hlo Hhi.
  apply square_lt_lt.
  - apply Z.mul_nonneg_nonneg; lia.
  - apply Z.mul_nonneg_nonneg; lia.
  - assert (H1 : (s * s * h) * h <= (w * m) * h)
      by (apply Z.mul_le_mono_nonneg_r; lia).
    assert (H2 : (h * m) * w < ((t + 1) * (t + 1) * w) * w)
      by (apply Z.mul_lt_mono_pos_r; lia).
    replace (s * h * (s * h)) with (s * s * h * h) by ring.
    replace ((t + 1) * w * ((t + 1) * w)) with ((t + 1) * (t + 1) * w * w) by ring.
    replace (w * m * h) with (h * m * w) in H1 by ring.
    lia.
Qed.

(** The pixel clamp on a size of more than [MAX_PIXELS] pixels whose width is
    at most [MAX_WIDTH] and whose height is at most [MAX_PIXELS] times the
    width. *)
Lemma clampPixels_scaled w h :
  1 <= w <= 500 -> 1 <= h -> MAX_PIXELS < w * h -> h <= MAX_PIXELS * w ->
  let w' := fst (clampPixels w h) in
  let h' := snd (clampPixels w h) in
  1 <= w' <= w /\ 1 <= h' /\ w' * h' <= MAX_PIXELS /\
  h' * w < (w' + 1) * h /\ w' * h < (h' + 1) * w.
Proof.
  intros Hw Hh Hbig Hflat. unfold clampPixels.
  destruct (Z.gtb_spec (w * h) MAX_PIXELS) as [_|]; [|lia]. cbn [fst snd].
  assert (HM : 0 <= MAX_PIXELS) by (unfold MAX_PIXELS; lia).
  assert (Hden : 0 < w * h) by (apply Z.mul_pos_pos; lia).
  destruct (floorMulSqrt_spec w MAX_PIXELS (w * h)) as (Hsw0 & Hswlo & Hswhi); try lia.
  destruct (floorMulSqrt_spec h MAX_PIXELS (w * h)) as (Hsh0 & Hshlo & Hshhi); try lia.
  set (sw := floorMulSqrt w MAX_PIXELS (w * h)) in *.
  set (sh := floorMulSqrt h MAX_PIXELS (w * h)) in *.
  clearbody sw sh.
  set (m := MAX_PIXELS) in *.
  assert (Hm : m = 400000) by reflexivity. clearbody m.
  assert (Hswlo' : sw * sw * h <= w * m).
  { apply Z.mul_le_mono_pos_r with (p := w); [lia|].
    replace (sw * sw * h * w) with (sw * sw * (w * h)) by ring.
    replace (w * m * w) with (w * w * m) by ring. exact Hswlo. }
  assert (Hswhi' : w * m < (sw + 1) * (sw + 1) * h).
  { apply Z.mul_lt_mono_pos_r with (p := w); [lia|].
    replace ((sw + 1) * (sw + 1) * h * w) with ((sw + 1) * (sw + 1) * (w * h)) by ring.
    replace (w * m * w) with (w * w * m) by ring. exact Hswhi. }
  assert (Hshlo' : sh * sh * w <= h * m).
  { apply Z.mul_le_mono_pos_r with (p := h); [lia|].
    replace (sh * sh * w * h) with (sh * sh * (w * h)) by ring.
    replace (h * m * h) with (h * h * m) by ring. exact Hshlo. }
  assert (Hshhi' : h * m < (sh + 1) * (sh + 1) * w).
  { apply Z.mul_lt_mono_pos_r with (p := h); [lia|].
    replace ((sh + 1) * (sh + 1) * w * h) with ((sh + 1) * (sh + 1) * (w * h)) by ring.
    replace (h * m * h) with (h * h * m) by ring. exact Hshhi. }
  assert (Hsw1 : 1 <= sw).
  { destruct (Z.eq_dec sw 0) as [E|]; [|lia]. rewrite E in Hswhi'. lia. }
  assert (Hsh1 : 1 <= sh).
  { destruct (Z.eq_dec sh 0) as [E|]; [|lia]. rewrite E in Hshhi'.
    assert (800 * w <= h * w) by (apply Z.mul_le_mono_nonneg_r; lia).
    assert (h * 1 <= h * w) by (apply Z.mul_le_mono_nonneg_l; lia).
    assert (w * h <= 500 * h) by (apply Z.mul_le_mono_nonneg_r; lia).
    lia. }
  rewrite !Z.max_r by lia.
  assert (Hsww : sw <= w).
  { apply square_le_le; try lia.
    apply Z.mul_le_mono_pos_r with (p := h); [lia|].
    assert (w * m <= w * (w * h)) by (apply Z.mul_le_mono_nonneg_l; lia).
    replace (w * w * h) with (w * (w * h)) by ring. lia. }
  assert (Hprod : sw * sh <= m).
  { assert (H1 : (sw * sw * h) * (sh * sh * w) <= (w * m) * (h * m)).
    { apply Z.mul_le_mono_nonneg; try lia;
        apply Z.mul_nonneg_nonneg; try lia; apply Z.mul_nonneg_nonneg; lia. }
    apply square_le_le; [apply Z.mul_nonneg_nonneg; lia | lia |].
    apply Z.mul_le_mono_pos_r with (p := w * h); [lia|].
    replace (sw * sh * (sw * sh) * (w * h)) with (sw * sw * h * (sh * sh * w)) by ring.
    replace (m * m * (w * h)) with (w * m * (h * m)) by ring. exact H1. }
  assert (HA : sh * w < (sw + 1) * h).
  { apply sqrt_brackets_cross with (m := m); lia. }
  assert (HB : sw * h < (sh + 1) * w).
  { apply sqrt_brackets_cross with (m := m); lia. }
  repeat split; lia.
Qed.

Lemma clampWidth_spec w h :
  1 <= w -> 1 <= h ->
  let w1 := fst (clampWidth w h) in
  let h1 := snd (clampWidth w h) in
  1 <= w1 <= 500 /\ 0 <= h1 /\ (h1 = 0 <-> 500 < w /\ 500 * h < w) /\
  h1 * w <= w1 * h /\ w1 * h < (h1 + 1) * w /\
  (h <= MAX_PIXELS * w -> h1 <= MAX_PIXELS * w1).
Proof.
  intros Hw Hh. unfold clampWidth, MAX_WIDTH, MAX_PIXELS.
  destruct (Z.gtb_spec w 500) as [Hgt|Hle]; cbn [fst snd].
  - assert (Hw0 : 0 < w) by lia.
    pose proof (Z.mul_div_le (h * 500) w Hw0) as Hlo.
    pose proof (Z.mul_succ_div_gt (h * 500) w Hw0) as Hhi.
    assert (Hq : 0 <= h * 500 / w) by (apply Z.div_pos; lia).
    generalize dependent (h * 500 / w). intros q Hlo Hhi Hq.
    unfold Z.succ in Hhi.
    split; [lia|]. split; [lia|]. split; [|split; [lia|split; [lia|]]].
    + split.
      * intros ->. lia.
      * intros [_ Hsmall]. destruct (Z.eq_dec q 0) as [|Hne]; [assumption|].
        assert (w * 1 <= w * q) by (apply Z.mul_le_mono_nonneg_l; lia). lia.
    + intros Hflat.
      destruct (Z.le_gt_cases q (500 * 400 * 500 * 2)) as [|Hbig]; [lia|].
      assert (w * (500 * 400 * 500 * 2 + 1) <= w * q)
        by (apply Z.mul_le_mono_nonneg_l; lia).
      lia.
  - repeat split; lia.
Qed.

(** C4, counterexample. A 100 x 3000 image holds 300,000 pixels and is
    narrower than 500, so it is processed at its own size: the height 3000 is
    far above 500. *)
Lemma resizer_claim_counterexample : ~ resizer_claim 100 3000.
Proof.
  intros (w' & h' & Hsize & _ & Hh & _).
  vm_compute in Hsize. injection Hsize as <- <-. lia.
Qed.

(** C4, amended. For positive integer raw dimensions the resizer rejects the
    image exactly when the width exceeds 500 and the width-clamped height
    floors to zero; otherwise both processing dimensions are integers of at
    least 1 and the width is at most 500 (the height is not bounded by 500).
    When moreover the raw height is at most 400,000 times the raw width, the
    product is at most 400,000 and the aspect ratio is kept up to two units
    of width and three of height: one for each flooring, and one more for
    a product that binary64 leaves just under the integer it reaches over
    the reals. *)
Theorem processingSize_bounds (w h : Z) :
  1 <= w -> 1 <= h ->
  (processingSize (Finite w) (Finite h) = None <-> 500 < w /\ 500 * h < w) /\
  (forall w' h',
      processingSize (Finite w) (Finite h) = Some (w', h') ->
      1 <= w' <= 500 /\ 1 <= h' /\
      (h <= 400000 * w ->
       w' * h' <= 400000 /\ h' * w < (w' + 2) * h /\ w' * h < (h' + 3) * w)).
Proof.
  intros Hw Hh.
  (* the bounds with one unit less of slack, which hold of the real product *)
  cut ((processingSize (Finite w) (Finite h) = None <-> 500 < w /\ 500 * h < w) /\
       (forall w' h',
           processingSize (Finite w) (Finite h) = Some (w', h') ->
           1 <= w' <= 500 /\ 1 <= h' /\
           (h <= 400000 * w ->
            w' * h' <= 400000 /\ h' * w < (w' + 1) * h /\ w' * h < (h' + 2) * w))).
  { intros [Hnone Hsome]. split; [exact Hnone|].
    intros w' h' E. destruct (Hsome w' h' E) as (Hw' & Hh' & Hrest).
    split; [exact Hw'|]. split; [exact Hh'|].
    intros Hflat. destruct (Hrest Hflat) as (Hprod & HA & HB).
    split; [exact Hprod|]. split.
    - apply Z.lt_trans with ((w' + 1) * h); [exact HA|].
      apply Z.mul_lt_mono_pos_r; lia.
    - apply Z.lt_trans with ((h' + 2) * w); [exact HB|].
      apply Z.mul_lt_mono_pos_r; lia. }
  unfold processingSize.
  destruct (Z.ltb_spec w 1); [lia|]. destruct (Z.ltb_spec h 1); [lia|]. cbn [orb].
  pose proof (clampWidth_spec w h Hw Hh) as Hcw.
  destruct (clampWidth w h) as [w1 h1]. cbn [fst snd] in Hcw.
  destruct Hcw as (Hw1 & Hh1 & Hzero & Hlo & Hhi & Hflat).
  pose proof (clampPixels_scaled w1 h1) as Hcp.
  unfold clampPixels in *.
  destruct (Z.gtb_spec (w1 * h1) MAX_PIXELS) as [Hbig|Hsmall].
  - (* more than MAX_PIXELS pixels: both dimensions are rescaled *)
    assert (Hh1' : 1 <= h1).
    { destruct (Z.le_gt_cases 1 h1) as [|Hz]; [assumption|].
      assert (h1 = 0) as -> by lia. unfold MAX_PIXELS in Hbig. lia. }
    assert (Hden : 0 < w1 * h1) by (apply Z.mul_pos_pos; lia).
    destruct (Z.ltb_spec (Z.max 1 (floorMulSqrt w1 MAX_PIXELS (w1 * h1))) 1); [lia|].
    destruct (Z.ltb_spec (Z.max 1 (floorMulSqrt h1 MAX_PIXELS (w1 * h1))) 1); [lia|].
    cbn [orb]. split.
    + split; [discriminate | lia].
    + intros w' h' E. injection E as <- <-.
      split; [|split]; try lia.
      * split; [lia|]. clear Hcp.
        apply Z.max_lub; [lia|].
        destruct (floorMulSqrt_spec w1 MAX_PIXELS (w1 * h1)) as (Hs0 & Hslo & _);
          try (unfold MAX_PIXELS; lia).
        generalize dependent (floorMulSqrt w1 MAX_PIXELS (w1 * h1)). intros s.
        generalize dependent (floorMulSqrt h1 MAX_PIXELS (w1 * h1)). intros.
        unfold MAX_PIXELS in *.
        destruct (Z.le_gt_cases s 500); [lia|].
        assert (Hss : 501 * 501 <= s * s)
          by (apply Z.mul_le_mono_nonneg; lia).
        assert (Hww : w1 * w1 <= 500 * 500)
          by (apply Z.mul_le_mono_nonneg; lia).
        assert (501 * 501 * (w1 * h1) <= s * s * (w1 * h1))
          by (apply Z.mul_le_mono_nonneg_r; lia).
        lia.
      * intros Hf. specialize (Hcp Hw1 Hh1' Hbig (Hflat ltac:(unfold MAX_PIXELS; lia))).
        cbn [fst snd] in Hcp.
        generalize dependent (Z.max 1 (floorMulSqrt w1 MAX_PIXELS (w1 * h1))). intros a.
        generalize dependent (Z.max 1 (floorMulSqrt h1 MAX_PIXELS (w1 * h1))). intros b.
        intros. unfold MAX_PIXELS in *.
        destruct Hcp as (Ha & Hb & Hab & HA & HB).
        split; [lia|]. split.
        -- (* b * 500 < (a+1) * h1 and h1 * w <= 500 * h *)
           apply Z.mul_lt_mono_pos_r with (p := w1); [lia|].
           apply Z.lt_le_trans with ((a + 1) * h1 * w).
           ++ replace (b * w * w1) with (b * w1 * w) by ring.
              apply Z.mul_lt_mono_pos_r; lia.
           ++ replace ((a + 1) * h1 * w) with ((a + 1) * (h1 * w)) by ring.
              replace ((a + 1) * h * w1) with ((a + 1) * (w1 * h)) by ring.
              apply Z.mul_le_mono_nonneg_l; lia.
        -- apply Z.mul_lt_mono_pos_r with (p := w1); [lia|].
           assert (Hc1 : a * (w1 * h) < a * ((h1 + 1) * w) \/ a = 0).
           { destruct (Z.eq_dec a 0); [now right|left].
             apply Z.mul_lt_mono_pos_l; lia. }
           assert (Hc2 : a * h1 * w < (b + 1) * w1 * w)
             by (apply Z.mul_lt_mono_pos_r; lia).
           assert (Hc3 : a * w <= w1 * w)
             by (apply Z.mul_le_mono_nonneg_r; lia).
           destruct Hc1 as [Hc1|Hc1];
             [|rewrite Hc1; apply Z.mul_pos_pos; [apply Z.mul_pos_pos|]; lia].
           replace (a * h * w1) with (a * (w1 * h)) by ring.
           replace (a * ((h1 + 1) * w)) with (a * h1 * w + a * w) in Hc1 by ring.
           replace ((b + 2) * w * w1) with ((b + 1) * w1 * w + w1 * w) by ring.
           lia.
  - destruct (Z.ltb_spec w1 1); [lia|]. cbn [orb].
    destruct (Z.ltb_spec h1 1) as [Hz|Hnz].
    + split; [|discriminate]. split; [intros _; apply Hzero; lia | reflexivity].
    + split.
      * split; [discriminate | intros Hc; apply Hzero in Hc; lia].
      * intros w' h' E. injection E as <- <-. unfold MAX_PIXELS in *.
        split; [lia|]. split; [lia|]. intros Hf. split; [lia|].
        assert (w1 <= 500) by lia.
        split.
        -- apply Z.le_lt_trans with (w1 * h); [lia|].
           rewrite Z.mul_add_distr_r. lia.
        -- apply Z.lt_le_trans with ((h1 + 1) * w); [lia|].
           apply Z.mul_le_mono_nonneg_r; lia.
Qed.

Lemma processingSize_bounds_witness :
  (processingSize (Finite 145) (Finite 3712) = None <-> 500 < 145 /\ 500 * 3712 < 145) /\
  (forall w' h',
      processingSize (Finite 145) (Finite 3712) = Some (w', h') ->
      1 <= w' <= 500 /\ 1 <= h' /\
      (3712 <= 400000 * 145 ->
       w' * h' <= 400000 /\ h' * 145 < (w' + 2) * 3712 /\ w' * 3712 < (h' + 3) * 145)).
Proof. apply (processingSize_bounds 145 3712); lia. Defined.

End ResizerProperties.


(** ** Otsu threshold *)

Section OtsuProperties.
Local Open Scope Z_scope.

Lemma bin_le_255 g : bin g <= 255.
Proof. unfold bin. apply Z.le_min_l. Qed.

Lemma histogram_acc gray : forall hist t,
  length hist = 256%nat -> (t < 256)%nat ->
  get 0 (fold_left (fun hist g =>
               let b := bin g in
               if b <? 0 then hist
               else upd hist (Z.to_nat b) (get 0 hist (Z.to_nat b) + 1))
            gray hist) t
  = get 0 hist t + binCount gray t.
Proof.
  unfold binCount.
  induction gray as [|g gray IH]; intros hist t Hlen Ht; simpl.
  - lia.
  - pose proof (bin_le_255 g) as Hb.
    destruct (Z.ltb_spec (bin g) 0) as [Hneg|Hpos].
    + rewrite IH by assumption.
      destruct (Z.eqb_spec (bin g) (Z.of_nat t)); [lia|reflexivity].
    + rewrite IH by (rewrite ?upd_length; assumption).
      rewrite get_upd by lia.
      destruct (Nat.eqb_spec (Z.to_nat (bin g)) t) as [E|E];
        destruct (Z.eqb_spec (bin g) (Z.of_nat t)) as [E'|E']; simpl length; try lia.
      subst t. lia.
Qed.

Lemma histogram_get gray t :
  (t < 256)%nat -> get 0 (histogram gray) t = binCount gray t.
Proof.
  intros Ht. unfold histogram. rewrite histogram_acc; auto using repeat_length.
  rewrite get_repeat. lia.
Qed.

Lemma binCount_nonneg gray t : 0 <= binCount gray t.
Proof. unfold binCount. lia. Qed.

Lemma binCount_zero gray t :
  (forall g, In g gray -> bin g <> Z.of_nat t) -> binCount gray t = 0.
Proof.
  intros H. unfold binCount.
  induction gray as [|g gray IH]; simpl; [reflexivity|].
  destruct (Z.eqb_spec (bin g) (Z.of_nat t)) as [E|E].
  - exfalso. apply (H g); simpl; auto.
  - apply IH. intros g' Hg'. apply H. simpl; auto.
Qed.

Lemma binCount_pos gray t :
  (exists g, In g gray /\ bin g = Z.of_nat t) -> 0 < binCount gray t.
Proof.
  intros (g & Hin & Hg). unfold binCount.
  induction gray as [|g' gray IH]; simpl in *; [contradiction|].
  destruct (Z.eqb_spec (bin g') (Z.of_nat t)) as [E|E]; simpl length; [lia|].
  destruct Hin as [->|Hin]; [contradiction|]. auto.
Qed.

(** Every intensity is counted in exactly one of the two bins. *)
Lemma binCount_total gray a b :
  a <> b ->
  (forall g, In g gray -> bin g = Z.of_nat a \/ bin g = Z.of_nat b) ->
  binCount gray a + binCount gray b = Z.of_nat (length gray).
Proof.
  intros Hab H. unfold binCount.
  induction gray as [|g gray IH]; simpl; [reflexivity|].
  assert (IH' := IH (fun g' Hg' => H g' (or_intror Hg'))).
  destruct (H g (or_introl eq_refl)) as [E|E]; rewrite E.
  - rewrite Z.eqb_refl. destruct (Z.eqb_spec (Z.of_nat a) (Z.of_nat b)); simpl length; lia.
  - rewrite Z.eqb_refl. destruct (Z.eqb_spec (Z.of_nat b) (Z.of_nat a)); simpl length; lia.
Qed.

Lemma weightedSum_acc (hist : list Z) (l : list nat) (s0 : Z) :
  fold_left (fun s i => s + Z.of_nat i * get 0 hist i) l s0
  = s0 + sumBins hist l.
Proof.
  revert s0. induction l as [|i l IH]; intros s0; simpl; [lia|].
  rewrite IH. lia.
Qed.

Lemma sumBins_app hist l1 l2 :
  sumBins hist (l1 ++ l2) = sumBins hist l1 + sumBins hist l2.
Proof. induction l1; simpl; lia. Qed.

Lemma sumBins_zero (hist : list Z) (l : list nat) :
  (forall i, In i l -> get 0 hist i = 0) -> sumBins hist l = 0.
Proof.
  induction l as [|i l IH]; intros H; simpl; [reflexivity|].
  rewrite (H i) by (simpl; auto). rewrite IH; [lia|].
  intros j Hj. apply H. simpl; auto.
Qed.

(** The range [0..255] cut at two bins [a < b]. *)
Lemma seq_cut2 (a b : nat) :
  (a < b)%nat -> (b < 256)%nat ->
  seq 0 256 = seq 0 a ++ a :: seq (S a) (b - a - 1) ++ b :: seq (S b) (255 - b).
Proof.
  intros Hab Hb.
  replace 256%nat with (a + S ((b - a - 1) + S (255 - b)))%nat at 1 by lia.
  rewrite seq_app. cbn [Nat.add seq]. f_equal. f_equal.
  rewrite seq_app. f_equal. replace (S a + (b - a - 1))%nat with b by lia.
  reflexivity.
Qed.

Lemma weightedSum_two_bins (hist : list Z) (a b : nat) :
  (a < b)%nat -> (b < 256)%nat ->
  (forall i, (i < 256)%nat -> i <> a -> i <> b -> get 0 hist i = 0) ->
  weightedSum hist = Z.of_nat a * get 0 hist a + Z.of_nat b * get 0 hist b.
Proof.
  intros Hab Hb Hz. unfold weightedSum, forRange.
  rewrite weightedSum_acc, (seq_cut2 a b Hab Hb).
  rewrite sumBins_app. cbn [sumBins]. rewrite sumBins_app. cbn [sumBins].
  rewrite !sumBins_zero; [lia| | |];
    intros i Hi; apply in_seq in Hi; apply Hz; lia.
Qed.

Lemma Qltb_irrefl q : Qltb q q = false.
Proof.
  unfold Qltb. apply negb_false_iff. apply Qle_bool_iff. apply Qle_refl.
Qed.

Lemma Qltb_true a b : (a < b)%Q -> Qltb a b = true.
Proof.
  intros H. unfold Qltb. apply negb_true_iff.
  destruct (Qle_bool b a) eqn:E; [|reflexivity].
  apply Qle_bool_iff in E. exfalso. apply (Qlt_not_le _ _ H E).
Qed.

(** Bins below the first inhabited one: [continue]. *)
Lemma otsuLoop_leading hist sum total ts rest st :
  wB st = 0 -> (forall t, In t ts -> get 0 hist t = 0) ->
  otsuLoop hist sum total (ts ++ rest) st = otsuLoop hist sum total rest st.
Proof.
  revert st. induction ts as [|t ts IH]; intros st Hw Hz; [reflexivity|].
  destruct st as [sB w mV bT]. simpl in Hw. subst w.
  simpl. rewrite (Hz t) by (simpl; auto). simpl.
  apply (IH (mkOtsu sB 0 mV bT)); [reflexivity|].
  intros t' Ht'. apply Hz. simpl; auto.
Qed.

(** Empty bins between the peaks: the variance is recomputed from the same
    running sums, and the strict comparison keeps the earlier threshold. *)
Lemma otsuLoop_plateau hist sum total ts rest st :
  wB st <> 0 -> total - wB st <> 0 ->
  maxVar st = varBetweenOf sum total (sumB st) (wB st) ->
  (forall t, In t ts -> get 0 hist t = 0) ->
  otsuLoop hist sum total (ts ++ rest) st = otsuLoop hist sum total rest st.
Proof.
  revert st. induction ts as [|t ts IH]; intros st Hw HwF Hvar Hz; [reflexivity|].
  destruct st as [sB w mV bT]. simpl in Hw, HwF, Hvar.
  simpl. rewrite (Hz t) by (simpl; auto).
  rewrite Z.mul_0_r, !Z.add_0_r.
  destruct (Z.eqb_spec w 0) as [|_]; [contradiction|].
  destruct (Z.eqb_spec (total - w) 0) as [|_]; [contradiction|].
  unfold varBetweenOf in Hvar. rewrite <- Hvar, Qltb_irrefl.
  apply (IH (mkOtsu sB w mV bT)); simpl; auto.
  intros t' Ht'. apply Hz. simpl; auto.
Qed.

Lemma inject_Z_nonzero z : z <> 0 -> ~ (inject_Z z == 0)%Q.
Proof.
  intros H E. apply H. apply (proj1 (inject_Z_injective z 0)). exact E.
Qed.

(** With all the mass in bins [a < b], the variance at [t = a] is positive. *)
Lemma varBetween_two_bins (a b na nb : Z) :
  a < b -> 0 < na -> 0 < nb ->
  (0 < varBetweenOf (a * na + b * nb) (na + nb) (a * na) na)%Q.
Proof.
  intros Hab Hna Hnb. unfold varBetweenOf.
  replace (na + nb - na) with nb by lia.
  replace (a * na + b * nb - a * na) with (b * nb) by lia.
  assert (Hna' : ~ (inject_Z na == 0)%Q) by (apply inject_Z_nonzero; lia).
  assert (Hnb' : ~ (inject_Z nb == 0)%Q) by (apply inject_Z_nonzero; lia).
  assert (E : (inject_Z na * inject_Z nb *
               ((inject_Z (a * na) / inject_Z na - inject_Z (b * nb) / inject_Z nb) *
                (inject_Z (a * na) / inject_Z na - inject_Z (b * nb) / inject_Z nb))
               == inject_Z (na * nb * ((b - a) * (b - a))))%Q).
  { rewrite !inject_Z_mult. unfold Zminus. rewrite !inject_Z_plus, inject_Z_opp.
    field. split; assumption. }
  rewrite E. change 0%Q with (inject_Z 0). rewrite <- Zlt_Qlt.
  apply Z.mul_pos_pos; [apply Z.mul_pos_pos; lia|apply Z.mul_pos_pos; lia].
Qed.

(** C5, counterexample. Two pixels, of intensities 10 and 200: the threshold
    returned is 10, the lower peak itself, not a value strictly between. *)
Lemma otsu_claim_counterexample :
  bimodal [inject_Z 10; inject_Z 200] 10 200 /\
  ~ otsu_claim [inject_Z 10; inject_Z 200] 10 200.
Proof.
  split.
  - unfold bimodal. repeat split; try lia.
    + intros g [<-|[<-|[]]]; [left|right]; reflexivity.
    + exists (inject_Z 10). split; [simpl; auto | reflexivity].
    + exists (inject_Z 200). split; [simpl; auto | reflexivity].
  - unfold otsu_claim. vm_compute. intros [H _]. discriminate H.
Qed.

(** C5, amended. On a histogram whose mass lies in two bins [a < b], both
    inhabited, [otsuThreshold] returns [a]: the between-class variance is
    the same for every candidate [a <= t < b], the strict comparison keeps
    the lowest of them, and the loop stops at [t = b]. The threshold thus
    satisfies [a <= t < b]. *)
Theorem otsu_bimodal_lowest (gray : list Q) (a b : Z) :
  bimodal gray a b -> otsuThreshold gray = a.
Proof.
  intros (Ha & Hb & Hall & Hexa & Hexb).
  set (a' := Z.to_nat a). set (b' := Z.to_nat b).
  assert (Ea : Z.of_nat a' = a) by (unfold a'; lia).
  assert (Eb : Z.of_nat b' = b) by (unfold b'; lia).
  assert (Hab' : (a' < b')%nat) by lia.
  assert (Hb' : (b' < 256)%nat) by lia.
  set (hist := histogram gray).
  assert (Hother : forall i, (i < 256)%nat -> i <> a' -> i <> b' -> get 0 hist i = 0).
  { intros i Hi Hia Hib. unfold hist. rewrite histogram_get by assumption.
    apply binCount_zero. intros g Hg. destruct (Hall g Hg); lia. }
  assert (Hna : 0 < get 0 hist a').
  { unfold hist. rewrite histogram_get by lia. apply binCount_pos.
    destruct Hexa as (g & ? & ?). exists g. split; [assumption|lia]. }
  assert (Hnb : 0 < get 0 hist b').
  { unfold hist. rewrite histogram_get by lia. apply binCount_pos.
    destruct Hexb as (g & ? & ?). exists g. split; [assumption|lia]. }
  assert (Htotal : Z.of_nat (length gray) = get 0 hist a' + get 0 hist b').
  { unfold hist. rewrite !histogram_get by lia. symmetry.
    apply binCount_total; [lia|]. rewrite Ea, Eb. exact Hall. }
  unfold otsuThreshold. fold hist.
  rewrite (weightedSum_two_bins hist a' b' Hab' Hb' Hother), Htotal, Ea, Eb.
  rewrite (seq_cut2 a' b' Hab' Hb').
  remember (get 0 hist b') as nb eqn:Hgb. symmetry in Hgb.
  remember (get 0 hist a') as na eqn:Hga. symmetry in Hga.
  clear Htotal.
  (* bins below [a] *)
  rewrite otsuLoop_leading;
    [| reflexivity | intros t Ht; apply in_seq in Ht; apply Hother; lia].
  (* bin [a] *)
  cbn [otsuLoop sumB wB maxVar bestT]. rewrite Hga, Ea, !Z.add_0_l.
  destruct (Z.eqb_spec na 0) as [|_]; [lia|].
  destruct (Z.eqb_spec (na + nb - na) 0) as [|_]; [lia|].
  change (inject_Z na * inject_Z (na + nb - na) *
          ((inject_Z (a * na) / inject_Z na -
            inject_Z (a * na + b * nb - a * na) / inject_Z (na + nb - na)) *
           (inject_Z (a * na) / inject_Z na -
            inject_Z (a * na + b * nb - a * na) / inject_Z (na + nb - na))))%Q
    with (varBetweenOf (a * na + b * nb) (na + nb) (a * na) na).
  rewrite Qltb_true by (apply varBetween_two_bins; lia).
  (* empty bins between the peaks *)
  rewrite otsuLoop_plateau; cbn [sumB wB maxVar bestT];
    [| lia | lia | reflexivity
     | intros t Ht; apply in_seq in Ht; apply Hother; lia].
  (* bin [b]: the foreground class is empty, [break] *)
  cbn [otsuLoop sumB wB maxVar bestT]. rewrite Hgb.
  destruct (Z.eqb_spec (na + nb) 0) as [|_]; [lia|].
  rewrite Z.sub_diag. reflexivity.
Qed.

Lemma otsu_bimodal_lowest_witness :
  otsuThreshold [inject_Z 10; inject_Z 200; inject_Z 200] = 10.
Proof.
  apply (otsu_bimodal_lowest [inject_Z 10; inject_Z 200; inject_Z 200] 10 200).
  unfold bimodal. repeat split; try lia.
  - intros g [<-|[<-|[<-|[]]]]; [left|right|right]; reflexivity.
  - exists (inject_Z 10). split; [simpl; auto | reflexivity].
  - exists (inject_Z 200). split; [simpl; auto | reflexivity].
Defined.

End OtsuProperties.

(** ** Binarisation with adaptive polarity *)

Section PolarityProperties.
Local Open Scope Q_scope.

Lemma binarize_maskOf (gray : list Q) (thresh : number) (dark : bool) :
  binarize gray thresh dark = maskOf dark thresh gray.
Proof. reflexivity. Qed.

Lemma binarize_length (gray : list Q) (thresh : number) (dark : bool) :
  length (binarize gray thresh dark) = length gray.
Proof. unfold binarize. apply length_map. Qed.

Lemma countTrue_foregroundCount (mask : list bool) :
  Z.of_nat (countTrue mask) = foregroundCount mask.
Proof.
  unfold countTrue, foregroundCount. f_equal.
  induction mask as [|b mask IH]; [reflexivity|].
  destruct b; cbn [filter length count_occ]; destruct (bool_dec _ _);
    congruence.
Qed.

Lemma countTrue_le (mask : list bool) : (countTrue mask <= length mask)%nat.
Proof. unfold countTrue. apply List.filter_length_le. Qed.

Lemma Qltb_iff a b : Qltb a b = true <-> a < b.
Proof.
  unfold Qltb. rewrite negb_true_iff. split.
  - intros E. apply Qnot_le_lt. intros H. apply Qle_bool_iff in H. congruence.
  - intros H. destruct (Qle_bool b a) eqn:E; [|reflexivity].
    apply Qle_bool_iff in E. exfalso. apply (Qlt_not_le _ _ H E).
Qed.

(** [count / total < num / 100], without the division. *)
Lemma fraction_lt (count total num : Z) :
  (0 < total)%Z ->
  inject_Z count / inject_Z total < inject_Z num / 100
  <-> (100 * count < num * total)%Z.
Proof.
  intros Ht.
  assert (HtQ : 0 < inject_Z total)
    by (change 0 with (inject_Z 0); rewrite <- Zlt_Qlt; assumption).
  rewrite Zlt_Qlt, !inject_Z_mult. change (inject_Z 100) with 100.
  rewrite <- (Qmult_lt_r _ _ (inject_Z total) HtQ).
  assert (E1 : inject_Z count / inject_Z total * inject_Z total
               == inject_Z count) by (field; lra).
  assert (E2 : inject_Z num / 100 * inject_Z total
               == (inject_Z num * inject_Z total) * (1 # 100)) by field.
  rewrite E1, E2.
  generalize (inject_Z num * inject_Z total). intros p. split; intros H; lra.
Qed.

(** [num / 100 < count / total], without the division. *)
Lemma fraction_gt (count total num : Z) :
  (0 < total)%Z ->
  inject_Z num / 100 < inject_Z count / inject_Z total
  <-> (num * total < 100 * count)%Z.
Proof.
  intros Ht.
  assert (HtQ : 0 < inject_Z total)
    by (change 0 with (inject_Z 0); rewrite <- Zlt_Qlt; assumption).
  rewrite Zlt_Qlt, !inject_Z_mult. change (inject_Z 100) with 100.
  rewrite <- (Qmult_lt_r _ _ (inject_Z total) HtQ).
  assert (E1 : inject_Z count / inject_Z total * inject_Z total
               == inject_Z count) by (field; lra).
  assert (E2 : inject_Z num / 100 * inject_Z total
               == (inject_Z num * inject_Z total) * (1 # 100)) by field.
  rewrite E1, E2.
  generalize (inject_Z num * inject_Z total). intros p. split; intros H; lra.
Qed.

(** The source's test [frac < 0.12 || frac > 0.88] on a mask. *)
Lemma fractionDegenerate_spec (mask : list bool) :
  fractionDegenerate (countTrue mask) (length mask) = true <-> degenerate mask.
Proof.
  unfold fractionDegenerate, degenerate.
  rewrite <- countTrue_foregroundCount.
  pose proof (countTrue_le mask) as Hle.
  destruct (Nat.eqb_spec (length mask) 0) as [E0|Hne].
  - rewrite E0 in *. split; [discriminate|]. intros [H|H]; lia.
  - assert (Ht : (0 < Z.of_nat (length mask))%Z) by lia.
    rewrite orb_true_iff, !Qltb_iff.
    change 0.12 with (inject_Z 12 / 100). change 0.88 with (inject_Z 88 / 100).
    rewrite (fraction_lt _ _ 12 Ht), (fraction_gt _ _ 88 Ht). reflexivity.
Qed.

(** The source's test [frac >= 0.12 && frac <= 0.88] on a mask that has
    pixels. *)
Lemma fractionUsable_spec (mask : list bool) :
  mask <> [] ->
  fractionUsable (countTrue mask) (length mask) = true <-> withinBand mask.
Proof.
  intros Hne. unfold fractionUsable, withinBand.
  rewrite <- countTrue_foregroundCount.
  destruct (Nat.eqb_spec (length mask) 0) as [E0|Hlen].
  - destruct mask; [congruence|discriminate].
  - assert (Ht : (0 < Z.of_nat (length mask))%Z) by lia.
    rewrite andb_true_iff, !Qle_bool_iff.
    change 0.12 with (inject_Z 12 / 100). change 0.88 with (inject_Z 88 / 100).
    pose proof (fraction_gt (Z.of_nat (countTrue mask)) _ 88 Ht) as H88.
    pose proof (fraction_lt (Z.of_nat (countTrue mask)) _ 12 Ht) as H12.
    split.
    + intros [Hlo Hhi]. split.
      * destruct (Z.le_gt_cases (12 * Z.of_nat (length mask))
                                (100 * Z.of_nat (countTrue mask))) as [|Hc];
          [assumption|].
        apply H12 in Hc. exfalso.
        apply (Qlt_not_le _ _ Hc Hlo).
      * destruct (Z.le_gt_cases (100 * Z.of_nat (countTrue mask))
                                (88 * Z.of_nat (length mask))) as [|Hc];
          [assumption|].
        apply H88 in Hc. exfalso.
        apply (Qlt_not_le _ _ Hc Hhi).
    + intros [Hlo Hhi]. split.
      * apply Qnot_lt_le. intros Hc. apply H12 in Hc. lia.
      * apply Qnot_lt_le. intros Hc. apply H88 in Hc. lia.
Qed.

Lemma degenerate_nonempty (mask : list bool) : degenerate mask -> mask <> [].
Proof. intros [H|H] ->; cbn in H; lia. Qed.

Lemma clamp_monotone (lo hi u v : Q) :
  u <= v -> Qmax lo (Qmin hi u) <= Qmax lo (Qmin hi v).
Proof.
  intros H. apply Q.max_le_compat_l. apply Q.min_le_compat_l. exact H.
Qed.

(** The alternative threshold of the source is the threshold moved by 30
    toward the background value. *)
Lemma shifted_threshold (backgroundDark : bool) (thresh : number) :
  shiftedTowardBackground backgroundDark thresh
    (if backgroundDark
     then clampByte (numberMap (fun t => t - 30) thresh)
     else clampByte (numberMap (fun t => t + 30) thresh)).
Proof.
  destruct backgroundDark, thresh as [t|];
    cbn [shiftedTowardBackground clampByte clampNumber numberMap];
    try exact I.
  - reflexivity.
  - split; [intros _; reflexivity|].
    split; apply clamp_monotone; lra.
Qed.

Lemma maskOf_compat (dark : bool) (s s' : Q) (gray : list Q) :
  s == s' -> maskOf dark (Num s) gray = maskOf dark (Num s') gray.
Proof.
  intros E. unfold maskOf. apply map_ext. intros g.
  destruct dark.
  - destruct (Qle_bool g s) eqn:E1, (Qle_bool g s') eqn:E2; try reflexivity.
    + apply Qle_bool_iff in E1. rewrite E in E1. apply Qle_bool_iff in E1. congruence.
    + apply Qle_bool_iff in E2. rewrite <- E in E2. apply Qle_bool_iff in E2. congruence.
  - destruct (Qle_bool s g) eqn:E1, (Qle_bool s' g) eqn:E2; try reflexivity.
    + apply Qle_bool_iff in E1. rewrite E in E1. apply Qle_bool_iff in E1. congruence.
    + apply Qle_bool_iff in E2. rewrite <- E in E2. apply Qle_bool_iff in E2. congruence.
Qed.

(** *** The border heuristic *)

Lemma borderPixels_spec (gray : list Q) (w h : nat) (P : Q -> Prop) :
  (1 <= w)%nat -> (1 <= h)%nat ->
  (forall y x, onBorder w h y x -> P (get 0 gray (y * w + x))) ->
  Forall P (borderPixels gray w h) /\
  length (borderPixels gray w h) = (2 * w + 2 * h)%nat.
Proof.
  intros Hw Hh HP. unfold borderPixels. cbv zeta.
  assert (Htop := forRange_inv
    (fun x acc => Forall P acc /\ length acc = (2 * x)%nat)
    0 w (fun x acc => acc ++ [get 0 gray x; get 0 gray ((h - 1) * w + x)%nat]) []).
  cbv beta in Htop. destruct Htop as [Htall Htlen].
  { split; [constructor|reflexivity]. }
  { intros x acc Hx [Hall Hlen]. split.
    - apply Forall_app. split; [assumption|].
      constructor; [|constructor; [|constructor]].
      + apply (HP 0%nat x). unfold onBorder. lia.
      + apply (HP (h - 1)%nat x). unfold onBorder. lia.
    - rewrite length_app. simpl. lia. }
  assert (Hside := forRange_inv
    (fun y acc => Forall P acc /\ length acc = (2 * w + 2 * y)%nat)
    0 h (fun y acc => acc ++ [get 0 gray (y * w)%nat; get 0 gray (y * w + w - 1)%nat])
    (forRange 0 w
       (fun x acc => acc ++ [get 0 gray x; get 0 gray ((h - 1) * w + x)%nat]) [])).
  cbv beta in Hside. apply Hside.
  - split; [assumption|]. simpl in Htlen. lia.
  - intros y acc Hy [Hall Hlen]. split.
    + apply Forall_app. split; [assumption|].
      constructor; [|constructor; [|constructor]].
      * replace (y * w)%nat with (y * w + 0)%nat by lia.
        apply (HP y 0%nat). unfold onBorder. lia.
      * replace (y * w + w - 1)%nat with (y * w + (w - 1))%nat by lia.
        apply (HP y (w - 1)%nat). unfold onBorder. lia.
    + rewrite length_app. simpl. lia.
Qed.

(** A border that nowhere exceeds [hi] has an average of at most [hi]. *)
Lemma border_sum_above (gray : list Q) (w h : nat) (hi : Q) :
  (1 <= w)%nat -> (1 <= h)%nat ->
  (forall y x, onBorder w h y x -> get 0 gray (y * w + x) <= hi) ->
  avgValue (detectBackgroundColor gray w h) <= hi.
Proof.
  intros Hw Hh Hb. unfold detectBackgroundColor. cbv zeta. cbn [avgValue].
  destruct (borderPixels_spec gray w h (fun v => v <= hi) Hw Hh Hb)
    as [Hall Hlen].
  assert (Hsum : forall (l : list Q) (s0 : Q),
            Forall (fun v => v <= hi) l ->
            fold_left Qplus l s0 <= s0 + inject_Z (Z.of_nat (length l)) * hi).
  { induction l as [|v l IH]; intros s0 Hl.
    - cbn [fold_left length]. change (inject_Z (Z.of_nat 0)) with 0. lra.
    - inversion Hl as [|? ? Hv Hl']; subst. cbn [fold_left length].
      specialize (IH (s0 + v) Hl').
      replace (Z.of_nat (S (length l))) with (1 + Z.of_nat (length l))%Z by lia.
      rewrite inject_Z_plus. change (inject_Z 1) with 1. lra. }
  specialize (Hsum (borderPixels gray w h) 0 Hall).
  set (n := inject_Z (Z.of_nat (length (borderPixels gray w h)))) in *.
  assert (Hn : 0 < n).
  { unfold n. change 0 with (inject_Z 0). rewrite <- Zlt_Qlt. lia. }
  apply Qle_shift_div_r; [assumption|]. lra.
Qed.

(** A border that nowhere falls below [lo] has an average of at least
    [lo]. *)
Lemma border_sum_below (gray : list Q) (w h : nat) (lo : Q) :
  (1 <= w)%nat -> (1 <= h)%nat ->
  (forall y x, onBorder w h y x -> lo <= get 0 gray (y * w + x)) ->
  lo <= avgValue (detectBackgroundColor gray w h).
Proof.
  intros Hw Hh Hb. unfold detectBackgroundColor. cbv zeta. cbn [avgValue].
  destruct (borderPixels_spec gray w h (fun v => lo <= v) Hw Hh Hb)
    as [Hall Hlen].
  assert (Hsum : forall (l : list Q) (s0 : Q),
            Forall (fun v => lo <= v) l ->
            s0 + inject_Z (Z.of_nat (length l)) * lo <= fold_left Qplus l s0).
  { induction l as [|v l IH]; intros s0 Hl.
    - cbn [fold_left length]. change (inject_Z (Z.of_nat 0)) with 0. lra.
    - inversion Hl as [|? ? Hv Hl']; subst. cbn [fold_left length].
      specialize (IH (s0 + v) Hl').
      replace (Z.of_nat (S (length l))) with (1 + Z.of_nat (length l))%Z by lia.
      rewrite inject_Z_plus. change (inject_Z 1) with 1. lra. }
  specialize (Hsum (borderPixels gray w h) 0 Hall).
  set (n := inject_Z (Z.of_nat (length (borderPixels gray w h)))) in *.
  assert (Hn : 0 < n).
  { unfold n. change 0 with (inject_Z 0). rewrite <- Zlt_Qlt. lia. }
  apply Qle_shift_div_l; [assumption|]. lra.
Qed.

Lemma detectBackgroundColor_below (gray : list Q) (w h : nat) :
  (1 <= w)%nat -> (1 <= h)%nat ->
  (forall y x, onBorder w h y x -> get 0 gray (y * w + x) <= 127) ->
  isDark (detectBackgroundColor gray w h) = true.
Proof.
  intros Hw Hh Hb. pose proof (border_sum_above gray w h 127 Hw Hh Hb) as H.
  unfold detectBackgroundColor in *. cbv zeta in *. cbn [avgValue isDark] in *.
  apply Qltb_iff. lra.
Qed.

Lemma detectBackgroundColor_above (gray : list Q) (w h : nat) :
  (1 <= w)%nat -> (1 <= h)%nat ->
  (forall y x, onBorder w h y x -> 128 <= get 0 gray (y * w + x)) ->
  isDark (detectBackgroundColor gray w h) = false.
Proof.
  intros Hw Hh Hb. pose proof (border_sum_below gray w h 128 Hw Hh Hb) as H.
  unfold detectBackgroundColor in *. cbv zeta in *. cbn [avgValue isDark] in *.
  unfold Qltb. apply negb_false_iff. apply Qle_bool_iff. exact H.
Qed.

End PolarityProperties.

(** C6. With [invert] unset, the mask and the polarity ([true]: dark is
    foreground) that the source ends with are those of the three-tier
    fallback. Tier 1 is the border-heuristic polarity: light foreground on
    a dark background, dark foreground on a light one. If the foreground
    fraction of its mask is neither below 12% nor above 88%, that mask is
    the result. Otherwise the polarity is flipped, and if the fraction of
    the flipped mask is neither below 12% nor above 88%, the flipped mask is
    the result. Otherwise the threshold is moved by 30 toward the background
    value (kept within [0, 255]) and binarised with the background-implied
    polarity; this alternative is the result if and only if its fraction
    lies within [12%, 88%], and the flipped mask stays the result if not.
    Nothing else is tried. The background is found dark on a frame whose
    border intensities are all at most 127, and light on one whose border
    intensities are all at least 128. *)
Theorem polarity_three_tier (gray : list Q) (w h : nat) (thresh : number) :
  let backgroundDark := isDark (detectBackgroundColor gray w h) in
  let first := maskOf (negb backgroundDark) thresh gray in
  let flipped := maskOf backgroundDark thresh gray in
  let result := binarizeWithPolarity gray w h thresh None in
  (1 <= w -> 1 <= h ->
   (forall y x, onBorder w h y x -> (get 0%Q gray (y * w + x) <= 127)%Q) ->
   backgroundDark = true) /\
  (1 <= w -> 1 <= h ->
   (forall y x, onBorder w h y x -> (128 <= get 0%Q gray (y * w + x))%Q) ->
   backgroundDark = false) /\
  exists shifted,
    shiftedTowardBackground backgroundDark thresh shifted /\
    let alternative := maskOf (negb backgroundDark) shifted gray in
    (~ degenerate first -> result = (first, negb backgroundDark)) /\
    (degenerate first -> ~ degenerate flipped ->
     result = (flipped, backgroundDark)) /\
    (degenerate first -> degenerate flipped -> withinBand alternative ->
     result = (alternative, negb backgroundDark)) /\
    (degenerate first -> degenerate flipped -> ~ withinBand alternative ->
     result = (flipped, backgroundDark)).
Proof.
  cbv zeta.
  split; [intros Hw Hh Hb; apply detectBackgroundColor_below; assumption|].
  split; [intros Hw Hh Hb; apply detectBackgroundColor_above; assumption|].
  unfold binarizeWithPolarity.
  set (backgroundDark := isDark (detectBackgroundColor gray w h)).
  set (shifted := if backgroundDark
                  then clampByte (numberMap (fun t => (t - 30)%Q) thresh)
                  else clampByte (numberMap (fun t => (t + 30)%Q) thresh)).
  exists shifted. split; [apply shifted_threshold|].
  rewrite !binarize_maskOf, negb_involutive.
  set (first := maskOf (negb backgroundDark) thresh gray).
  set (flipped := maskOf backgroundDark thresh gray).
  set (alternative := maskOf (negb backgroundDark) shifted gray).
  assert (Hfirst : length first = length gray) by apply length_map.
  assert (Hflipped : length flipped = length gray) by apply length_map.
  assert (Halt : length alternative = length gray) by apply length_map.
  pose proof (fractionDegenerate_spec first) as D1.
  pose proof (fractionDegenerate_spec flipped) as D2.
  rewrite Hfirst in D1. rewrite Hflipped in D2.
  destruct (fractionDegenerate (countTrue first) (length gray)) eqn:E1.
  - assert (H1 : degenerate first) by (apply D1; reflexivity).
    destruct (fractionDegenerate (countTrue flipped) (length gray)) eqn:E2.
    + assert (H2 : degenerate flipped) by (apply D2; reflexivity).
      assert (Hne : alternative <> []).
      { pose proof (degenerate_nonempty first H1) as Hn. intros E.
        apply Hn. apply length_zero_iff_nil.
        rewrite Hfirst, <- Halt, E. reflexivity. }
      pose proof (fractionUsable_spec alternative Hne) as U.
      rewrite Halt in U.
      destruct (fractionUsable (countTrue alternative) (length gray)) eqn:E3.
      * assert (H3 : withinBand alternative) by (apply U; reflexivity).
        split; [intros Hn; contradiction|]. split; [intros _ Hn; contradiction|].
        split; [reflexivity|]. intros _ _ Hn. contradiction.
      * assert (H3 : ~ withinBand alternative)
          by (intros Hc; apply U in Hc; discriminate).
        split; [intros Hn; contradiction|]. split; [intros _ Hn; contradiction|].
        split; [intros _ _ Hc; contradiction|]. reflexivity.
    + assert (H2 : ~ degenerate flipped)
        by (intros Hc; apply D2 in Hc; discriminate).
      split; [intros Hn; contradiction|]. split; [reflexivity|].
      split; intros _ Hc; contradiction.
  - assert (H1 : ~ degenerate first)
      by (intros Hc; apply D1 in Hc; discriminate).
    rewrite E1.
    split; [reflexivity|]. split; [intros Hc; contradiction|].
    split; intros Hc; contradiction.
Qed.

(** The three tiers at work: a raster settled by the flipped polarity, one
    settled by the threshold moved from 100 to 130, and one that no tier
    settles. *)
Lemma polarity_three_tier_witness :
  binarizeWithPolarity exampleSecondTier 10 1 (Num 200%Q) None
  = (maskOf false (Num 200%Q) exampleSecondTier, false) /\
  binarizeWithPolarity exampleThirdTier 10 1 (Num 100%Q) None
  = (maskOf true (Num 130%Q) exampleThirdTier, true) /\
  binarizeWithPolarity exampleNoTier 10 1 (Num 200%Q) None
  = (maskOf false (Num 200%Q) exampleNoTier, false).
Proof.
  split; [|split].
  - destruct (polarity_three_tier exampleSecondTier 10 1 (Num 200%Q))
      as (_ & _ & shifted & _ & _ & Hflip & _).
    apply Hflip.
    + vm_compute. right. reflexivity.
    + vm_compute. intros [H|H]; discriminate H.
  - destruct (polarity_three_tier exampleThirdTier 10 1 (Num 100%Q))
      as (_ & _ & shifted & Hshift & _ & _ & Halt & _).
    change (isDark (detectBackgroundColor exampleThirdTier 10 1)) with false
      in Hshift, Halt.
    destruct shifted as [s|]; [|contradiction].
    cbn [shiftedTowardBackground] in Hshift. destruct Hshift as [Hs _].
    assert (Es : (s == 130)%Q).
    { rewrite Hs; [vm_compute; reflexivity|]. vm_compute. reflexivity. }
    cbn [negb] in Halt.
    rewrite (maskOf_compat true s 130 exampleThirdTier Es) in Halt.
    apply Halt.
    + vm_compute. left. reflexivity.
    + vm_compute. right. reflexivity.
    + vm_compute. split; discriminate.
  - destruct (polarity_three_tier exampleNoTier 10 1 (Num 200%Q))
      as (_ & _ & shifted & Hshift & _ & _ & _ & Hkeep).
    change (isDark (detectBackgroundColor exampleNoTier 10 1)) with false
      in Hshift, Hkeep.
    destruct shifted as [s|]; [|contradiction].
    cbn [shiftedTowardBackground] in Hshift. destruct Hshift as [Hs _].
    assert (Es : (s == 230)%Q).
    { rewrite Hs; [vm_compute; reflexivity|]. vm_compute. reflexivity. }
    cbn [negb] in Hkeep.
    rewrite (maskOf_compat true s 230 exampleNoTier Es) in Hkeep.
    apply Hkeep.
    + vm_compute. right. reflexivity.
    + vm_compute. right. reflexivity.
    + vm_compute. intros [_ H]. apply H. reflexivity.
Defined.

(** ** Outer contour *)

Section ContourProperties.

Lemma firstHit_none p xs :
  firstHit p xs = (-1)%Z <-> forall x, In x xs -> p x = false.
Proof.
  induction xs as [|x xs IH]; simpl.
  - split; [intros _ x []|reflexivity].
  - destruct (p x) eqn:E.
    + split; [lia|]. intros H. specialize (H x (or_introl eq_refl)). congruence.
    + rewrite IH. split.
      * intros H x' [<-|Hx']; auto.
      * intros H x' Hx'. apply H. auto.
Qed.

Lemma firstHit_some p xs :
  firstHit p xs <> (-1)%Z ->
  exists l1 x0 l2, xs = l1 ++ x0 :: l2 /\ firstHit p xs = Z.of_nat x0 /\
                   p x0 = true /\ forall x, In x l1 -> p x = false.
Proof.
  induction xs as [|x xs IH]; simpl; [congruence|].
  destruct (p x) eqn:E; intros H.
  - exists [], x, xs. repeat split; auto. intros ? [].
  - destruct (IH H) as (l1 & x0 & l2 & -> & E0 & Hp & Hl1).
    exists (x :: l1), x0, l2. repeat split; auto.
    intros x' [<-|Hx']; auto.
Qed.

(** The left search: [-1] on an empty row, else the least foreground
    column. *)
Lemma leftmostOf_spec fg w y :
  (leftmostOf fg w y = (-1)%Z /\
   forall x, x < w -> get false fg (y * w + x) = false) \/
  (exists x0, leftmostOf fg w y = Z.of_nat x0 /\ x0 < w /\
     get false fg (y * w + x0) = true /\
     forall x, x < x0 -> get false fg (y * w + x) = false).
Proof.
  unfold leftmostOf.
  set (p := fun x => get false fg (y * w + x)).
  destruct (Z.eq_dec (firstHit p (seq 0 w)) (-1)) as [E|E].
  - left. split; [assumption|]. intros x Hx.
    apply (proj1 (firstHit_none p (seq 0 w)) E). apply in_seq. lia.
  - right. destruct (firstHit_some p (seq 0 w) E) as (l1 & x0 & l2 & Hs & E0 & Hp & Hl1).
    exists x0. split; [assumption|].
    assert (Hlen : length l1 = x0 /\ x0 < w).
    { assert (Hn : nth (length l1) (seq 0 w) 0 = x0)
        by (rewrite Hs, app_nth2, Nat.sub_diag by lia; reflexivity).
      assert (Hl : length (seq 0 w) = length l1 + S (length l2))
        by (rewrite Hs, length_app; reflexivity).
      rewrite length_seq in Hl. rewrite seq_nth in Hn by lia. lia. }
    destruct Hlen as [Hlen Hx0]. split; [assumption|]. split; [assumption|].
    intros x Hx. apply Hl1.
    assert (Hx' : nth x (seq 0 w) 0 = x) by (rewrite seq_nth; lia).
    rewrite Hs, app_nth1 in Hx' by lia. rewrite <- Hx'. apply nth_In. lia.
Qed.

(** The right search: [-1] on an empty row, else the greatest foreground
    column. *)
Lemma rightmostOf_spec fg w y :
  (rightmostOf fg w y = (-1)%Z /\
   forall x, x < w -> get false fg (y * w + x) = false) \/
  (exists x0, rightmostOf fg w y = Z.of_nat x0 /\ x0 < w /\
     get false fg (y * w + x0) = true /\
     forall x, x0 < x -> x < w -> get false fg (y * w + x) = false).
Proof.
  unfold rightmostOf.
  set (p := fun x => get false fg (y * w + x)).
  destruct (Z.eq_dec (firstHit p (rev (seq 0 w))) (-1)) as [E|E].
  - left. split; [assumption|]. intros x Hx.
    apply (proj1 (firstHit_none p (rev (seq 0 w))) E).
    apply in_rev. rewrite rev_involutive. apply in_seq. lia.
  - right.
    destruct (firstHit_some p (rev (seq 0 w)) E) as (l1 & x0 & l2 & Hs & E0 & Hp & Hl1).
    exists x0. split; [assumption|].
    assert (Hs' : seq 0 w = rev l2 ++ x0 :: rev l1).
    { rewrite <- (rev_involutive (seq 0 w)), Hs, rev_app_distr. simpl.
      rewrite <- app_assoc. reflexivity. }
    assert (Hlen : length l2 = x0 /\ x0 < w).
    { assert (Hn : nth (length (rev l2)) (seq 0 w) 0 = x0)
        by (rewrite Hs', app_nth2, Nat.sub_diag by lia; reflexivity).
      assert (Hl : length (seq 0 w) = length (rev l2) + S (length (rev l1)))
        by (rewrite Hs', length_app; reflexivity).
      rewrite length_seq in Hl. rewrite !length_rev in *.
      rewrite seq_nth in Hn by lia. lia. }
    destruct Hlen as [Hlen Hx0]. split; [assumption|]. split; [assumption|].
    intros x Hx Hxw. apply Hl1. apply in_rev.
    assert (Hx' : nth x (seq 0 w) 0 = x) by (rewrite seq_nth; lia).
    assert (Hl : length (seq 0 w) = length (rev l2) + S (length (rev l1)))
      by (rewrite Hs', length_app; reflexivity).
    rewrite length_seq, !length_rev in Hl.
    rewrite Hs', app_nth2 in Hx' by (rewrite length_rev; lia).
    rewrite length_rev in Hx'.
    destruct (x - length l2) as [|k] eqn:Ek; [lia|]. simpl in Hx'.
    rewrite <- Hx'. apply nth_In. rewrite length_rev. lia.
Qed.

(** The fill loop of one row sets exactly the cells [l..r] of that row. *)
Lemma fillRow_spec (contour : list bool) (y w l r : nat) :
  y * w + r < length contour ->
  let out := forUpTo l (r + 1) (fun x c => upd c (y * w + x) true) contour in
  length out = length contour /\
  forall j, get false out j
            = ((y * w + l <=? j) && (j <=? y * w + r)) || get false contour j.
Proof.
  intros Hr. unfold forUpTo.
  destruct (Nat.le_gt_cases l r) as [Hlr|Hlr].
  - assert (H := forRange_inv
      (fun i c => length c = length contour /\
              forall j, get false c j
                = ((y * w + l <=? j) && (j <? y * w + i)) || get false contour j)
      l (r + 1 - l) (fun x c => upd c (y * w + x) true) contour).
    cbv beta in H. destruct H as [Hlen Hget].
    + split; [reflexivity|]. intros j.
      destruct (Nat.leb_spec (y * w + l) j), (Nat.ltb_spec j (y * w + l));
        simpl; auto; lia.
    + intros i c Hi [Hlen Hget]. split; [rewrite upd_length; assumption|].
      intros j. rewrite get_upd by lia. rewrite Hget.
      destruct (Nat.eqb_spec (y * w + i) j) as [<-|Hne].
      * destruct (Nat.leb_spec (y * w + l) (y * w + i)),
                 (Nat.ltb_spec (y * w + i) (y * w + (1 + i))); simpl; auto; lia.
      * destruct (Nat.leb_spec (y * w + l) j), (Nat.ltb_spec j (y * w + i)),
                 (Nat.ltb_spec j (y * w + (1 + i))); simpl; auto; lia.
    + split; [assumption|]. intros j. rewrite Hget.
      destruct (Nat.ltb_spec j (y * w + (l + (r + 1 - l)))),
               (Nat.leb_spec j (y * w + r)); auto; lia.
  - replace (r + 1 - l) with 0 by lia. simpl. split; [reflexivity|].
    intros j. destruct (Nat.leb_spec (y * w + l) j), (Nat.leb_spec j (y * w + r));
      simpl; auto; lia.
Qed.

(** Row-major indices determine the row and the column. *)
Lemma row_major_inj (w y x y' x' : nat) :
  x < w -> x' < w -> y * w + x = y' * w + x' -> y = y' /\ x = x'.
Proof.
  intros Hx Hx' E.
  assert (y = y').
  { destruct (Nat.lt_trichotomy y y') as [H|[H|H]]; [|assumption|]; exfalso.
    - assert (S y * w <= y' * w) by (apply Nat.mul_le_mono_r; lia). simpl in *. lia.
    - assert (S y' * w <= y * w) by (apply Nat.mul_le_mono_r; lia). simpl in *. lia. }
  subst. split; [reflexivity|lia].
Qed.

Lemma row_major_bound (w h y x : nat) : y < h -> x < w -> y * w + x < w * h.
Proof.
  intros Hy Hx.
  assert (S y * w <= h * w) by (apply Nat.mul_le_mono_r; lia). simpl in *. lia.
Qed.

Lemma row_index_between (w k y x a b : nat) :
  x < w -> b < w ->
  (k * w + a <= y * w + x /\ y * w + x <= k * w + b) <-> (y = k /\ a <= x <= b).
Proof.
  intros Hx Hb. split.
  - intros [H1 H2].
    assert (y = k).
    { destruct (Nat.lt_trichotomy y k) as [H|[H|H]]; [|assumption|]; exfalso.
      - assert (S y * w <= k * w) by (apply Nat.mul_le_mono_r; lia). simpl in *. lia.
      - assert (S k * w <= y * w) by (apply Nat.mul_le_mono_r; lia). simpl in *. lia. }
    subst. lia.
  - intros [-> ?]. lia.
Qed.

(** What the span fill computes: the output has [w * h] cells, and a cell
    is set exactly when it lies between two foreground cells of its row. *)
Lemma extractOuterContour_spec (fg : list bool) (w h : nat) :
  length (extractOuterContour fg w h) = w * h /\
  forall y x, y < h -> x < w ->
    (get false (extractOuterContour fg w h) (y * w + x) = true <-> inSpan fg w y x).
Proof.
  unfold extractOuterContour.
  assert (H := forRange_inv
    (fun k c => length c = w * h /\
       forall y x, y < h -> x < w ->
         (get false c (y * w + x) = true <-> (y < k /\ inSpan fg w y x)))
    0 h
    (fun y contour =>
       let leftmost := leftmostOf fg w y in
       let rightmost := rightmostOf fg w y in
       if (0 <=? leftmost)%Z && (leftmost <=? rightmost)%Z
       then forUpTo (Z.to_nat leftmost) (Z.to_nat rightmost + 1)
                    (fun x contour => upd contour (y * w + x) true) contour
       else contour)
    (repeat false (w * h))).
  cbv beta in H. destruct H as [Hlen Hget].
  - split; [apply repeat_length|]. intros y x _ _. rewrite get_repeat.
    split; [discriminate|lia].
  - intros k c Hk [Hlen Hget]. cbv zeta.
    destruct (leftmostOf_spec fg w k) as [[El Hempty]|(x0 & El & Hx0 & Hfg0 & Hmin)].
    + (* empty row *)
      rewrite El. cbn [Z.leb Z.compare andb]. split; [assumption|].
      intros y x Hy Hx. rewrite (Hget y x Hy Hx). split.
      * intros [? ?]. split; [lia|assumption].
      * intros [Hlt Hspan]. split; [|assumption].
        destruct (Nat.eq_dec y k) as [->|]; [|lia]. exfalso.
        destruct Hspan as (x1 & x2 & _ & Hx2 & _ & Hfg2).
        rewrite Hempty in Hfg2 by assumption. discriminate.
    + destruct (rightmostOf_spec fg w k) as [[Er Hempty]|(x1 & Er & Hx1 & Hfg1 & Hmax)].
      { rewrite Hempty in Hfg0 by assumption. discriminate. }
      assert (Hx01 : x0 <= x1).
      { destruct (Nat.le_gt_cases x0 x1) as [|Hgt]; [assumption|].
        rewrite Hmax in Hfg0 by assumption. discriminate. }
      rewrite El, Er.
      destruct (Z.leb_spec 0 (Z.of_nat x0)) as [_|]; [|lia].
      destruct (Z.leb_spec (Z.of_nat x0) (Z.of_nat x1)) as [_|]; [|lia].
      cbn [andb]. rewrite !Nat2Z.id.
      assert (Hin : k * w + x1 < length c)
        by (rewrite Hlen; apply row_major_bound; lia).
      destruct (fillRow_spec c k w x0 x1 Hin) as [Hlen' Hget'].
      split; [rewrite Hlen'; assumption|].
      intros y x Hy Hx. rewrite Hget', orb_true_iff, andb_true_iff,
        !Nat.leb_le, (row_index_between w k y x x0 x1 Hx Hx1), (Hget y x Hy Hx).
      split.
      * intros [[-> Hin']|[Hlt Hspan]].
        -- split; [lia|]. exists x0, x1. repeat split; auto; lia.
        -- split; [lia|assumption].
      * intros [Hlt Hspan]. destruct (Nat.eq_dec y k) as [->|Hne].
        -- left. split; [reflexivity|].
           destruct Hspan as (a & b & Hab & Hb & Hfa & Hfb). split.
           ++ destruct (Nat.le_gt_cases x0 a) as [|Hgt]; [lia|].
              rewrite Hmin in Hfa by assumption. discriminate.
           ++ destruct (Nat.le_gt_cases b x1) as [|Hgt]; [lia|].
              rewrite Hmax in Hfb by assumption. discriminate.
        -- right. split; [lia|assumption].
  - split; [assumption|]. intros y x Hy Hx. rewrite (Hget y x Hy Hx).
    split; [intros [_ ?]; assumption|intros ?; split; [lia|assumption]].
Qed.

Lemma row_major_split (w h i : nat) :
  i < w * h -> exists y x, y < h /\ x < w /\ i = y * w + x.
Proof.
  intros Hi. assert (Hw : w <> 0) by (intros ->; simpl in Hi; lia).
  exists (i / w), (i mod w). split; [|split].
  - apply Nat.Div0.div_lt_upper_bound. assumption.
  - apply Nat.mod_upper_bound. assumption.
  - rewrite (Nat.div_mod_eq i w) at 1. lia.
Qed.

Lemma bool_eq_true_iff (a b : bool) : (a = true <-> b = true) -> a = b.
Proof.
  destruct a, b; intros [H1 H2]; auto.
  - symmetry. auto.
Qed.

Lemma inSpan_self fg w y x :
  x < w -> get false fg (y * w + x) = true -> inSpan fg w y x.
Proof. intros Hx H. exists x, x. repeat split; auto. Qed.

(** C10. The per-row span fill is extensive (every foreground pixel of the
    input stays foreground), its output has in every row a single contiguous
    run or nothing, and it is idempotent. *)
Theorem outer_contour_closure (fg : list bool) (w h : nat) :
  maskSubset w h fg (extractOuterContour fg w h) /\
  rowsContiguous w h (extractOuterContour fg w h) /\
  extractOuterContour (extractOuterContour fg w h) w h
  = extractOuterContour fg w h.
Proof.
  destruct (extractOuterContour_spec fg w h) as [Hlen Hget].
  destruct (extractOuterContour_spec (extractOuterContour fg w h) w h)
    as [Hlen2 Hget2].
  split; [|split].
  - intros i Hi Hfg. destruct (row_major_split w h i Hi) as (y & x & Hy & Hx & ->).
    apply Hget; auto. apply inSpan_self; assumption.
  - intros y x1 x2 x3 Hy H12 H3 Hout1 Hout3.
    apply (proj1 (Hget y x1 ltac:(lia) ltac:(lia))) in Hout1.
    apply (proj1 (Hget y x3 ltac:(lia) ltac:(lia))) in Hout3.
    apply Hget; [lia|lia|].
    destruct Hout1 as (a & a' & Ha & _ & Hfa & _).
    destruct Hout3 as (d' & d & Hd & Hdw & _ & Hfd).
    exists a, d. repeat split; auto; lia.
  - apply nth_ext with (d := false) (d' := false); [congruence|].
    intros i Hi. rewrite Hlen2 in Hi.
    destruct (row_major_split w h i Hi) as (y & x & Hy & Hx & ->).
    apply bool_eq_true_iff. fold (get false (extractOuterContour
      (extractOuterContour fg w h) w h) (y * w + x)).
    fold (get false (extractOuterContour fg w h) (y * w + x)).
    rewrite (Hget2 y x Hy Hx), (Hget y x Hy Hx). split.
    + intros (x1 & x2 & H12 & H2w & Hout1 & Hout2).
      apply (proj1 (Hget y x1 ltac:(lia) ltac:(lia))) in Hout1.
      apply (proj1 (Hget y x2 ltac:(lia) ltac:(lia))) in Hout2.
      destruct Hout1 as (a & a' & Ha & _ & Hfa & _).
      destruct Hout2 as (d' & d & Hd & Hdw & _ & Hfd).
      exists a, d. repeat split; auto; lia.
    + intros Hspan. apply inSpan_self; [assumption|].
      apply Hget; assumption.
Qed.

End ContourProperties.

(** ** Sorting *)

Section SortingProperties.
Variable A : Type.
Variable le : A -> A -> bool.
Variable R : A -> A -> Prop.
Hypothesis le_R : forall a b, le a b = true -> R a b.
Hypothesis le_total : forall a b, le a b = false -> R b a.
Hypothesis R_trans : forall a b c, R a b -> R b c -> R a c.

Lemma insertBy_perm (x : A) (l : list A) : Permutation (x :: l) (insertBy le x l).
Proof.
  induction l as [|y l IH]; simpl; [apply Permutation_refl|].
  destruct (le x y); [apply Permutation_refl|].
  eapply perm_trans; [apply perm_swap|]. apply perm_skip. exact IH.
Qed.

Lemma sortBy_perm (l : list A) : Permutation l (sortBy le l).
Proof.
  induction l as [|x l IH]; simpl; [apply perm_nil|].
  eapply perm_trans; [apply perm_skip; exact IH|]. apply insertBy_perm.
Qed.

Lemma insertBy_sorted (x : A) (l : list A) :
  StronglySorted R l -> StronglySorted R (insertBy le x l).
Proof.
  induction l as [|y l IH]; intros Hs; simpl.
  - constructor; constructor.
  - inversion Hs as [|? ? Hs' Hall]; subst.
    destruct (le x y) eqn:E.
    + constructor; [assumption|]. constructor; [apply le_R; assumption|].
      eapply Forall_impl; [|exact Hall]. intros z Hz.
      eapply R_trans; [apply le_R; eassumption|assumption].
    + constructor; [apply IH; assumption|].
      eapply Permutation_Forall; [apply insertBy_perm|].
      constructor; [apply le_total; assumption|assumption].
Qed.

Lemma sortBy_sorted (l : list A) : StronglySorted R (sortBy le l).
Proof.
  induction l as [|x l IH]; simpl; [constructor|].
  apply insertBy_sorted. exact IH.
Qed.

Lemma sortBy_length (l : list A) : length (sortBy le l) = length l.
Proof. symmetry. apply Permutation_length, sortBy_perm. Qed.

Lemma sortBy_Forall (P : A -> Prop) (l : list A) :
  Forall P l -> Forall P (sortBy le l).
Proof. apply Permutation_Forall, sortBy_perm. Qed.

End SortingProperties.

(** ** Loops that push *)

Lemma forRange_push {A} (f : nat -> A) lo n (acc : list A) :
  forRange lo n (fun i acc => acc ++ [f i]) acc = acc ++ map f (seq lo n).
Proof.
  revert lo acc. induction n as [|n IH]; intros lo acc.
  - simpl. rewrite app_nil_r. reflexivity.
  - rewrite forRange_step, IH. simpl. rewrite <- app_assoc. reflexivity.
Qed.

Lemma fold_left_inv {S X} (P : S -> Prop) (f : S -> X -> S) (l : list X) s :
  P s -> (forall s x, In x l -> P s -> P (f s x)) -> P (fold_left f l s).
Proof.
  revert s. induction l as [|x l IH]; intros s H0 Hstep; simpl; [assumption|].
  apply IH.
  - apply Hstep; simpl; auto.
  - intros s' x' Hx'. apply Hstep. simpl; auto.
Qed.

Lemma forRange_fst_push {A B} (f : nat -> A) (g : nat -> list A * B -> B)
      lo n (acc : list A * B) :
  fst (forRange lo n (fun i acc => (fst acc ++ [f i], g i acc)) acc)
  = fst acc ++ map f (seq lo n).
Proof.
  revert lo acc. induction n as [|n IH]; intros lo acc.
  - simpl. rewrite app_nil_r. reflexivity.
  - rewrite forRange_step, IH. simpl. rewrite <- app_assoc. reflexivity.
Qed.

(** ** Radii and median filter *)

Lemma Forall_upd {A} (P : A -> Prop) (l : list A) i v :
  Forall P l -> P v -> Forall P (upd l i v).
Proof.
  intros Hl Hv. revert i. induction Hl as [|x l Hx Hl IH]; intros i; simpl.
  - destruct i; constructor.
  - destruct i; constructor; auto.
Qed.

Lemma get_In {A} (d : A) (l : list A) i : (i < length l)%nat -> In (get d l i) l.
Proof. intros H. unfold get. apply nth_In. assumption. Qed.

Section RadiiProperties.
Local Open Scope Z_scope.

Lemma rowRadius_nonneg fg w c right y : 0 <= rowRadius fg w c right y.
Proof.
  unfold rowRadius, forUpTo, forRange.
  destruct right; apply fold_left_inv; try lia; intros m x _ Hm;
    destruct (get false fg (y * w + x)%nat); try assumption;
    match goal with |- context [?a <? ?b] => destruct (Z.ltb_spec a b) end; lia.
Qed.

Lemma radii_rows fg w b c right :
  fst (radii fg w b c right)
  = map (rowRadius fg w c right) (seq (yMin b) (yMax b + 1 - yMin b)).
Proof.
  unfold radii, forUpTo.
  exact (forRange_fst_push (rowRadius fg w c right)
           (fun y acc => if snd acc <? rowRadius fg w c right y
                         then rowRadius fg w c right y else snd acc)
           (yMin b) (yMax b + 1 - yMin b) ([], 0)).
Qed.

Lemma radii_nonneg fg w b c right :
  Forall (fun r => 0 <= r) (fst (radii fg w b c right)).
Proof.
  rewrite radii_rows. apply Forall_forall. intros r Hr.
  apply in_map_iff in Hr. destruct Hr as (y & <- & _). apply rowRadius_nonneg.
Qed.

Lemma radii_length fg w b c right :
  length (fst (radii fg w b c right)) = (yMax b + 1 - yMin b)%nat.
Proof. rewrite radii_rows, length_map, length_seq. reflexivity. Qed.

End RadiiProperties.

(** ** Median filter *)

Section MedianProperties.
Local Open Scope Q_scope.

Lemma medianFilter_map arr hw :
  medianFilter arr hw
  = map (fun i => get None (sortBy numbersFirst (medianWindow arr hw i))
                      (length (sortBy numbersFirst (medianWindow arr hw i)) / 2))
        (seq 0 (length arr)).
Proof.
  unfold medianFilter.
  exact (forRange_push
    (fun i => get None (sortBy numbersFirst (medianWindow arr hw i))
                  (length (sortBy numbersFirst (medianWindow arr hw i)) / 2))
    0 (length arr) []).
Qed.

Lemma medianFilter_length arr hw : length (medianFilter arr hw) = length arr.
Proof. rewrite medianFilter_map, length_map, length_seq. reflexivity. Qed.

Lemma inject_Z_max a b : Qmax (inject_Z a) (inject_Z b) == inject_Z (Z.max a b).
Proof.
  destruct (Z.le_gt_cases a b) as [H|H].
  - rewrite Z.max_r by assumption. apply Q.max_r. rewrite <- Zle_Qle. assumption.
  - rewrite Z.max_l by lia. apply Q.max_l. rewrite <- Zle_Qle. lia.
Qed.

Lemma inject_Z_min a b : Qmin (inject_Z a) (inject_Z b) == inject_Z (Z.min a b).
Proof.
  destruct (Z.le_gt_cases a b) as [H|H].
  - rewrite Z.min_l by assumption. apply Q.min_l. rewrite <- Zle_Qle. assumption.
  - rewrite Z.min_r by lia. apply Q.min_r. rewrite <- Zle_Qle. lia.
Qed.

Lemma Qfloor_inject_Z z : Qfloor (inject_Z z) = z.
Proof. unfold Qfloor, inject_Z. simpl. apply Z.div_1_r. Qed.

(** A read at an integer index inside the array yields the element. *)
Lemma readAt_integer arr k z :
  k == inject_Z z -> (0 <= z < Z.of_nat (length arr))%Z ->
  readAt arr k = Some (nth (Z.to_nat z) arr 0%Z).
Proof.
  intros Ek Hz. unfold readAt.
  assert (Ef : Qfloor k = z) by (rewrite Ek; apply Qfloor_inject_Z).
  rewrite Ef.
  assert (Eq : Qeq_bool k (inject_Z z) = true) by (apply Qeq_bool_iff; assumption).
  rewrite Eq. destruct (Z.leb_spec 0 z); [|lia]. cbn [andb].
  apply nth_error_nth'. lia.
Qed.

Lemma medianWindow_map arr hw i :
  medianWindow arr hw i
  = map (fun t =>
           readAt arr
             (Qmax 0 (Qmin (inject_Z (Z.of_nat (length arr)) - 1)
                           (inject_Z (Z.of_nat i)
                            + (inject_Z (Z.of_nat t) - hw)))))
        (seq 0 (windowLength hw)).
Proof.
  unfold medianWindow.
  exact (forRange_push
    (fun t =>
       readAt arr
         (Qmax 0 (Qmin (inject_Z (Z.of_nat (length arr)) - 1)
                       (inject_Z (Z.of_nat i)
                        + (inject_Z (Z.of_nat t) - hw)))))
    0 (windowLength hw) []).
Qed.

(** With an integer half-window every cell of the window is an element of
    the array. *)
Lemma medianWindow_defined arr hw i :
  integral hw -> 0 <= hw -> (i < length arr)%nat ->
  Forall (fun r => (0 <= r)%Z) arr ->
  Forall definedRadius (medianWindow arr hw i).
Proof.
  intros Hint Hhw Hi Harr. rewrite medianWindow_map.
  apply Forall_forall. intros o Ho.
  apply in_map_iff in Ho. destruct Ho as (t & <- & _).
  set (m := Qfloor hw) in *.
  set (z := Z.max 0 (Z.min (Z.of_nat (length arr) - 1)
                           (Z.of_nat i + (Z.of_nat t - m)))).
  rewrite (readAt_integer arr _ z).
  - exists (nth (Z.to_nat z) arr 0%Z). split; [reflexivity|].
    rewrite Forall_forall in Harr. apply Harr. apply nth_In. unfold z. lia.
  - unfold z. rewrite <- inject_Z_max, <- inject_Z_min.
    unfold Zminus. rewrite !inject_Z_plus, !inject_Z_opp.
    unfold integral in Hint. fold m in Hint. rewrite <- Hint.
    reflexivity.
  - unfold z. lia.
Qed.

Lemma windowLength_positive hw : 0 <= hw -> (1 <= windowLength hw)%nat.
Proof.
  intros Hhw. unfold windowLength.
  assert (0 <= Qfloor (2 * hw))%Z.
  { change 0%Z with (Qfloor 0). apply Qfloor_resp_le.
    rewrite <- (Qmult_0_r 2). apply Qmult_le_l; [reflexivity|assumption]. }
  lia.
Qed.

Lemma medianWindow_length arr hw i :
  length (medianWindow arr hw i) = windowLength hw.
Proof.
  rewrite medianWindow_map, length_map, length_seq. reflexivity.
Qed.

Lemma medianFilter_defined arr hw :
  integral hw -> 0 <= hw -> Forall (fun r => (0 <= r)%Z) arr ->
  Forall definedRadius (medianFilter arr hw).
Proof.
  intros Hint Hhw Harr. rewrite medianFilter_map. apply Forall_forall.
  intros o Ho. apply in_map_iff in Ho. destruct Ho as (i & <- & Hi).
  apply in_seq in Hi.
  assert (Hall : Forall definedRadius (sortBy numbersFirst (medianWindow arr hw i))).
  { apply sortBy_Forall. apply medianWindow_defined; try assumption. lia. }
  rewrite Forall_forall in Hall. apply Hall. apply get_In.
  rewrite !sortBy_length, medianWindow_length.
  pose proof (windowLength_positive hw Hhw).
  apply Nat.Div0.div_lt_upper_bound. lia.
Qed.

Lemma smoothedRadii_length radiusByRow options :
  length (smoothedRadii radiusByRow options) = length radiusByRow.
Proof.
  unfold smoothedRadii.
  destruct (nullish (smoothing options) (Num 2)) as [s|];
    [destruct (Qltb 0 s)|];
    [apply medianFilter_length|apply length_map|apply length_map].
Qed.

Lemma Qltb_false a b : Qltb a b = false -> b <= a.
Proof.
  unfold Qltb. intros H. apply negb_false_iff in H. apply Qle_bool_iff. assumption.
Qed.

Lemma Qltb_lt a b : Qltb a b = true -> a < b.
Proof.
  unfold Qltb. intros H. apply negb_true_iff in H.
  destruct (Qlt_le_dec a b) as [|Hle]; [assumption|].
  apply Qle_bool_iff in Hle. congruence.
Qed.

Lemma integral_inject_Z z : integral (inject_Z z).
Proof. unfold integral. rewrite Qfloor_inject_Z. reflexivity. Qed.

(** With no filter or an integer half-window, the smoothed radii are
    numbers. *)
Lemma smoothedRadii_defined radiusByRow options :
  integralSmoothing options ->
  Forall (fun r => (0 <= r)%Z) radiusByRow ->
  Forall definedRadius (smoothedRadii radiusByRow options).
Proof.
  intros Hint Hnn.
  assert (Hplain : Forall definedRadius (map Some radiusByRow)).
  { apply Forall_forall. intros o Ho. apply in_map_iff in Ho.
    destruct Ho as (r & <- & Hr). exists r. split; [reflexivity|].
    rewrite Forall_forall in Hnn. auto. }
  unfold smoothedRadii.
  destruct (nullish (smoothing options) (Num 2)) as [s|] eqn:Es; [|exact Hplain].
  destruct (Qltb 0 s) eqn:Epos; [|exact Hplain].
  apply Qltb_lt in Epos.
  assert (Hs : integral s).
  { unfold integralSmoothing in Hint.
    destruct (smoothing options) as [[s'|]|]; cbn [nullish] in Es.
    - injection Es as ->. destruct Hint as [Hle|Hi]; [|assumption].
      exfalso. apply (Qlt_not_le _ _ Epos Hle).
    - discriminate.
    - injection Es as <-. apply (integral_inject_Z 2). }
  apply medianFilter_defined; [| |assumption].
  - destruct (Q.min_spec s 5) as [[_ E]|[_ E]].
    + unfold integral. rewrite E. exact Hs.
    + unfold integral. rewrite E. apply (integral_inject_Z 5).
  - apply Q.min_glb; [apply Qlt_le_weak; assumption|discriminate].
Qed.

End MedianProperties.


(** ** Normalisation and resampling *)

Section ResampleProperties.
Local Open Scope Q_scope.

Lemma ratio_in_unit (a b : Z) :
  (0 <= a <= b)%Z -> (0 < b)%Z -> 0 <= inject_Z a / inject_Z b <= 1.
Proof.
  intros [Ha Hab] Hb.
  assert (Hb' : 0 < inject_Z b) by (change 0 with (inject_Z 0); rewrite <- Zlt_Qlt; assumption).
  split.
  - apply Qle_shift_div_l; [assumption|]. rewrite Qmult_0_l.
    change 0 with (inject_Z 0). rewrite <- Zle_Qle. assumption.
  - apply Qle_shift_div_r; [assumption|]. rewrite Qmult_1_l.
    rewrite <- Zle_Qle. assumption.
Qed.

Lemma rawPoints_map smoothed maxRadius :
  rawPoints smoothed maxRadius
  = map (fun i =>
           mkPoint
             (if (0 <? maxRadius)%Z
              then match get None smoothed i with
                   | Some r => Num (Qmin 1 (inject_Z r / inject_Z maxRadius))
                   | None => NaN
                   end
              else Num 0)
             (if (1 <? length smoothed)%nat
              then 1 - inject_Z (Z.of_nat i) / inject_Z (Z.of_nat (length smoothed - 1))
              else 0.5))
        (seq 0 (length smoothed)).
Proof.
  unfold rawPoints.
  exact (forRange_push
    (fun i =>
           mkPoint
             (if (0 <? maxRadius)%Z
              then match get None smoothed i with
                   | Some r => Num (Qmin 1 (inject_Z r / inject_Z maxRadius))
                   | None => NaN
                   end
              else Num 0)
             (if (1 <? length smoothed)%nat
              then 1 - inject_Z (Z.of_nat i) / inject_Z (Z.of_nat (length smoothed - 1))
              else 0.5))
    0 (length smoothed) []).
Qed.

Lemma rawPoints_length smoothed maxRadius :
  length (rawPoints smoothed maxRadius) = length smoothed.
Proof. rewrite rawPoints_map, length_map, length_seq. reflexivity. Qed.

(** The heights of the raw points lie in [0, 1], whatever the radii. *)
Lemma rawPoints_y_in_unit smoothed maxRadius :
  Forall yInUnit (rawPoints smoothed maxRadius).
Proof.
  rewrite rawPoints_map. apply Forall_forall. intros p Hp.
  apply in_map_iff in Hp. destruct Hp as (i & <- & Hi). apply in_seq in Hi.
  unfold yInUnit. cbn [py].
  destruct (Nat.ltb_spec 1 (length smoothed)) as [Hl|Hl]; [|split; discriminate].
  destruct (ratio_in_unit (Z.of_nat i) (Z.of_nat (length smoothed - 1)))
    as [H0 H1]; [lia|lia|].
  set (q := inject_Z (Z.of_nat i) / inject_Z (Z.of_nat (length smoothed - 1))) in *.
  split.
  - unfold Qminus. rewrite <- (Qplus_opp_r q).
    apply Qplus_le_l. assumption.
  - unfold Qminus. rewrite <- (Qplus_0_r 1) at 2.
    apply Qplus_le_r. apply (Qopp_le_compat 0 q). assumption.
Qed.

(** The radii of the raw points lie in [0, 1] when every smoothed radius is
    a number. *)
Lemma rawPoints_x_in_unit smoothed maxRadius :
  Forall definedRadius smoothed ->
  Forall xInUnit (rawPoints smoothed maxRadius).
Proof.
  intros Hs. rewrite rawPoints_map. apply Forall_forall. intros p Hp.
  apply in_map_iff in Hp. destruct Hp as (i & <- & Hi). apply in_seq in Hi.
  unfold xInUnit. cbn [px].
  destruct (Z.ltb_spec 0 maxRadius) as [Hm|Hm]; [|split; discriminate].
  rewrite Forall_forall in Hs.
  destruct (Hs (get None smoothed i)) as (r & -> & Hr); [apply get_In; lia|].
  cbn [inUnit]. split; [|apply Q.le_min_l].
  apply Q.min_glb; [discriminate|].
  assert (Hm' : 0 < inject_Z maxRadius)
    by (change 0 with (inject_Z 0); rewrite <- Zlt_Qlt; assumption).
  apply Qle_shift_div_l; [assumption|]. rewrite Qmult_0_l.
  change 0 with (inject_Z 0). rewrite <- Zle_Qle. assumption.
Qed.

Lemma nearest_In raw yTarget p : nearest raw yTarget = Some p -> In p raw.
Proof.
  unfold nearest. destruct raw as [|p0 rest]; [discriminate|].
  intros E. injection E as <-.
  assert (H : In (fst (fold_left
             (fun best p => if Qltb (Qabs (py p - yTarget)) (snd best)
                            then (p, Qabs (py p - yTarget)) else best)
             rest (p0, Qabs (py p0 - yTarget)))) (p0 :: rest)).
  { apply (fold_left_inv (fun best => In (fst best) (p0 :: rest))).
    - simpl; auto.
    - intros best q Hq Hbest.
      destruct (Qltb (Qabs (py q - yTarget)) (snd best)); simpl; auto. }
  exact H.
Qed.

Lemma nearest_some raw yTarget : raw <> [] -> exists p, nearest raw yTarget = Some p.
Proof. destruct raw; [congruence|]. intros _. eexists. reflexivity. Qed.

Lemma point_eta p : mkPoint (px p) (py p) = p.
Proof. destruct p. reflexivity. Qed.

(** The resampling loop runs [tripCount targetPoints] times and pushes a
    copy of a raw point each time. *)
Lemma resampled_spec (P : ProfilePoint -> Prop) raw targetPoints out :
  Forall P raw ->
  resampled raw targetPoints = Some out ->
  length out = tripCount targetPoints /\ Forall P out.
Proof.
  intros Hraw. unfold resampled. intros E.
  match type of E with
  | forRange ?lo ?n ?body ?s = _ =>
      assert (H := forRange_inv
        (fun k st => match st with
                     | Some out => length out = k /\ Forall P out
                     | None => True
                     end) lo n body s)
  end.
  cbv beta in H. rewrite E in H. apply H.
  - split; [reflexivity|constructor].
  - intros k [o|] Hk Ho; [|exact I].
    destruct (nearest raw _) as [best|] eqn:En; [|exact I].
    destruct Ho as [Hlen Hall]. split.
    + rewrite length_app. simpl. lia.
    + apply Forall_app. split; [assumption|]. constructor; [|constructor].
      apply nearest_In in En. rewrite Forall_forall in Hraw.
      rewrite point_eta. exact (Hraw best En).
Qed.

Lemma resampled_some raw targetPoints :
  raw <> [] -> exists out, resampled raw targetPoints = Some out.
Proof.
  intros Hraw. unfold resampled.
  match goal with
  | |- exists out, forRange ?lo ?n ?body ?s = _ =>
      assert (H := forRange_inv
        (fun (k : nat) (st : option (list ProfilePoint)) => st <> None)
        lo n body s);
      destruct (forRange lo n body s) as [out|]
  end.
  - exists out. reflexivity.
  - exfalso. apply H; [discriminate| |reflexivity].
    intros k [o|] _ Ho; [|congruence].
    match goal with
    | |- context [nearest raw ?t] =>
        destruct (nearest_some raw t Hraw) as [p ->]
    end. discriminate.
Qed.

(** Writing [y] leaves the radii alone. *)
Lemma setY_x out i v out' :
  setY out i v = Some out' -> Forall xInUnit out -> Forall xInUnit out'.
Proof.
  unfold setY. destruct (Nat.ltb_spec i (length out)) as [Hi|]; [|discriminate].
  intros E Hall. injection E as <-.
  apply Forall_upd; [assumption|]. unfold xInUnit. cbn [px].
  rewrite Forall_forall in Hall.
  apply (Hall (get (mkPoint NaN 0) out i)). apply get_In. assumption.
Qed.

Lemma setY_spec out i v out' :
  setY out i v = Some out' ->
  0 <= v <= 1 -> Forall yInUnit out ->
  length out' = length out /\ Forall yInUnit out' /\
  py (get origin out' i) = v /\
  forall j, j <> i -> get origin out' j = get origin out j.
Proof.
  unfold setY. destruct (Nat.ltb_spec i (length out)) as [Hi|]; [|discriminate].
  intros E Hv Hall. injection E as <-.
  split; [apply upd_length|]. split; [|split].
  - apply Forall_upd; [assumption|]. exact Hv.
  - unfold origin. rewrite get_upd_same by assumption. reflexivity.
  - intros j Hj. apply get_upd_other. congruence.
Qed.

Lemma setY_some out i v : (i < length out)%nat -> exists out', setY out i v = Some out'.
Proof.
  intros Hi. unfold setY. destruct (Nat.ltb_spec i (length out)); [|lia].
  eexists. reflexivity.
Qed.

Lemma byY_leY a b : byY a b = true -> leY a b.
Proof. unfold byY, leY. apply Qle_bool_iff. Qed.

Lemma byY_total a b : byY a b = false -> leY b a.
Proof.
  unfold byY, leY. intros H.
  destruct (Qlt_le_dec (py b) (py a)) as [Hlt|Hle].
  - apply Qlt_le_weak. assumption.
  - apply Qle_bool_iff in Hle. congruence.
Qed.

Lemma leY_trans a b c : leY a b -> leY b c -> leY a c.
Proof. unfold leY. apply Qle_trans. Qed.

Lemma sorted_head_least (h : ProfilePoint) t x :
  StronglySorted leY (h :: t) -> In x (h :: t) -> leY h x.
Proof.
  intros Hs [<-|Hx]; [apply Qle_refl|].
  inversion Hs as [|? ? _ Hall]; subst.
  rewrite Forall_forall in Hall. auto.
Qed.

Lemma sorted_last_greatest (l : list ProfilePoint) x :
  StronglySorted leY l -> In x l -> leY x (last l origin).
Proof.
  revert x. induction l as [|h t IH]; intros x Hs Hx; [contradiction|].
  inversion Hs as [|? ? Hs' Hall]; subst.
  destruct t as [|h' t'].
  - destruct Hx as [<-|[]]. apply Qle_refl.
  - change (last (h :: h' :: t') origin) with (last (h' :: t') origin).
    destruct Hx as [<-|Hx]; [|auto].
    apply leY_trans with h'.
    + rewrite Forall_forall in Hall. apply Hall. simpl; auto.
    + apply IH; [assumption|simpl; auto].
Qed.

Lemma last_In {A} (l : list A) d : l <> [] -> In (last l d) l.
Proof.
  induction l as [|a l IH]; [congruence|]. intros _.
  destruct l as [|b l']; [simpl; auto|].
  right. apply IH. discriminate.
Qed.

(** The resampled profile has one point per trip of the loop, sorted by
    height from 0 to 1. *)
Lemma resample_spec raw targetPoints out :
  Forall yInUnit raw -> (2 <= tripCount targetPoints)%nat ->
  resample raw targetPoints = Some out ->
  spansUnitHeight (tripCount targetPoints) out.
Proof.
  intros Hraw Htp. unfold resample.
  destruct (resampled raw targetPoints) as [o1|] eqn:E1; [|discriminate].
  destruct (resampled_spec yInUnit raw targetPoints o1 Hraw E1) as [Hlen1 Hall1].
  destruct (setY o1 0 0) as [o2|] eqn:E2; [|discriminate].
  destruct (setY_spec o1 0 0 o2 E2) as (Hlen2 & Hall2 & Hy2 & _);
    [split; discriminate|assumption|].
  destruct (setY o2 (length o2 - 1) 1) as [o3|] eqn:E3; [|discriminate].
  destruct (setY_spec o2 (length o2 - 1) 1 o3 E3) as (Hlen3 & Hall3 & Hy3 & Hrest3);
    [split; discriminate|assumption|].
  intros E. injection E as <-.
  assert (Hn : (2 <= length o3)%nat) by lia.
  assert (Hperm := sortBy_perm _ byY o3).
  assert (Hsorted := sortBy_sorted _ byY leY byY_leY byY_total leY_trans o3).
  assert (Hall := sortBy_Forall _ byY yInUnit o3 Hall3).
  assert (Hin0 : In (get origin o3 0) (sortBy byY o3)).
  { eapply Permutation_in; [exact Hperm|]. apply get_In. lia. }
  assert (Hin1 : In (get origin o3 (length o2 - 1)) (sortBy byY o3)).
  { eapply Permutation_in; [exact Hperm|]. apply get_In. lia. }
  assert (Hy0 : py (get origin o3 0) = 0).
  { rewrite Hrest3 by lia. exact Hy2. }
  split; [rewrite sortBy_length; lia|]. split; [exact Hsorted|].
  split; [exact Hall|]. split.
  - destruct (sortBy byY o3) as [|hd0 tl0] eqn:Es.
    + apply Permutation_length in Hperm. simpl in Hperm. lia.
    + cbn [hd]. apply Qle_antisym.
      * rewrite <- Hy0. apply (sorted_head_least _ _ _ Hsorted Hin0).
      * inversion Hall as [|? ? [H0 _] _]; subst. exact H0.
  - apply Qle_antisym.
    + assert (Hlast : In (last (sortBy byY o3) origin) (sortBy byY o3)).
      { apply last_In. intros Es. rewrite Es in Hperm.
        apply Permutation_length in Hperm. simpl in Hperm. lia. }
      rewrite Forall_forall in Hall. destruct (Hall _ Hlast) as [_ H1]. exact H1.
    + rewrite <- Hy3. apply (sorted_last_greatest _ _ Hsorted Hin1).
Qed.

(** Resampling copies radii and writes heights only. *)
Lemma resample_x raw targetPoints out :
  Forall xInUnit raw ->
  resample raw targetPoints = Some out ->
  Forall xInUnit out.
Proof.
  intros Hraw. unfold resample.
  destruct (resampled raw targetPoints) as [o1|] eqn:E1; [|discriminate].
  destruct (resampled_spec xInUnit raw targetPoints o1 Hraw E1) as [_ Hall1].
  destruct (setY o1 0 0) as [o2|] eqn:E2; [|discriminate].
  pose proof (setY_x o1 0 0 o2 E2 Hall1) as Hall2.
  destruct (setY o2 (length o2 - 1) 1) as [o3|] eqn:E3; [|discriminate].
  pose proof (setY_x o2 _ 1 o3 E3 Hall2) as Hall3.
  intros E. injection E as <-.
  apply sortBy_Forall. assumption.
Qed.

End ResampleProperties.

(** ** The profile of a successful call *)

Section ProfileProperties.
Local Open Scope Q_scope.

Lemma clampedTargetPoints_cases options :
  (exists t, clampedTargetPoints options = Num t /\ 8 <= t <= 24) \/
  clampedTargetPoints options = NaN /\ targetPoints options = Some NaN.
Proof.
  unfold clampedTargetPoints.
  destruct (targetPoints options) as [[t|]|]; cbn [nullish clampNumber numberMap].
  - left. eexists. split; [reflexivity|]. split; [apply Q.le_max_l|].
    apply Q.max_lub; [discriminate|apply Q.le_min_l].
  - right. split; reflexivity.
  - left. eexists. split; [reflexivity|]. split; [apply Q.le_max_l|].
    apply Q.max_lub; [discriminate|apply Q.le_min_l].
Qed.

Lemma tripCount_range t :
  8 <= t <= 24 -> (8 <= tripCount (Num t) <= 24)%nat.
Proof.
  intros [Hlo Hhi].
  apply Qceiling_resp_le in Hlo, Hhi.
  change 8 with (inject_Z 8) in Hlo. change 24 with (inject_Z 24) in Hhi.
  rewrite Qceiling_Z in Hlo, Hhi. unfold tripCount. lia.
Qed.

(** The loop makes between 8 and 24 trips, or none: the latter when
    [targetPoints] is NaN. *)
Lemma tripCount_clamped options :
  (8 <= tripCount (clampedTargetPoints options) <= 24)%nat \/
  clampedTargetPoints options = NaN.
Proof.
  destruct (clampedTargetPoints_cases options) as [(t & E & Ht)|[E _]].
  - left. rewrite E. apply tripCount_range. exact Ht.
  - right. exact E.
Qed.

(** The trip count of the loop is the least integer that is not below the
    bound. *)
Lemma tripCount_least q :
  q <= inject_Z (Z.of_nat (tripCount (Num q))) /\
  forall m : nat, q <= inject_Z (Z.of_nat m) -> (tripCount (Num q) <= m)%nat.
Proof.
  unfold tripCount. split.
  - apply Qle_trans with (inject_Z (Qceiling q)); [apply Qle_ceiling|].
    rewrite <- Zle_Qle. lia.
  - intros m Hm. apply Qceiling_resp_le in Hm. rewrite Qceiling_Z in Hm. lia.
Qed.

Lemma tripCount_integral q :
  0 <= q -> integral q -> inject_Z (Z.of_nat (tripCount (Num q))) == q.
Proof.
  intros Hq Hint. unfold integral in Hint. unfold tripCount.
  assert (E : Qceiling q = Qfloor q).
  { rewrite Hint at 1. apply Qceiling_Z. }
  rewrite E. rewrite Z2Nat.id.
  - symmetry. exact Hint.
  - change 0%Z with (Qfloor 0). apply Qfloor_resp_le. assumption.
Qed.

(** With [targetPoints] NaN the loop pushes nothing, and [out[0].y = 0]
    throws. *)
Lemma resample_nan raw : resample raw NaN = None.
Proof. reflexivity. Qed.

Lemma measure_profile fg w h options :
  profileOf (measure fg w h options) <> [] ->
  spansUnitHeight (tripCount (clampedTargetPoints options))
                  (profileOf (measure fg w h options)).
Proof.
  unfold measure.
  destruct (boxHeight (boundingBox fg w h) <? 10)%Z; [simpl; congruence|].
  set (b := boundingBox fg w h). set (c := centerlineX fg w b).
  set (right := extractRightSide fg w b c).
  destruct (radii fg w b c right) as [radiusByRow maxRadius].
  destruct (maxRadius <? 2)%Z; [simpl; congruence|].
  destruct (resample _ _) as [out|] eqn:E; [|simpl; congruence].
  intros _. cbn [profileOf profile].
  apply (resample_spec _ _ _ (rawPoints_y_in_unit (smoothedRadii radiusByRow options) maxRadius));
    [|exact E].
  destruct (tripCount_clamped options) as [H|H]; [lia|].
  rewrite H, resample_nan in E. discriminate E.
Qed.

(** A profile is returned only for a [targetPoints] that is a number. *)
Lemma measure_profile_numeric fg w h options :
  profileOf (measure fg w h options) <> [] ->
  clampedTargetPoints options <> NaN.
Proof.
  unfold measure.
  destruct (boxHeight (boundingBox fg w h) <? 10)%Z; [simpl; congruence|].
  destruct (radii _ _ _ _ _) as [radiusByRow maxRadius].
  destruct (maxRadius <? 2)%Z; [simpl; congruence|].
  intros H E. rewrite E, resample_nan in H. apply H. reflexivity.
Qed.

Lemma measure_profile_x fg w h options :
  integralSmoothing options ->
  Forall xInUnit (profileOf (measure fg w h options)).
Proof.
  intros Hint. unfold measure.
  destruct (boxHeight (boundingBox fg w h) <? 10)%Z; [constructor|].
  set (b := boundingBox fg w h). set (c := centerlineX fg w b).
  set (right := extractRightSide fg w b c).
  pose proof (radii_nonneg fg w b c right) as Hnn.
  destruct (radii fg w b c right) as [radiusByRow maxRadius]. cbn [fst] in Hnn.
  destruct (maxRadius <? 2)%Z; [constructor|].
  destruct (resample _ _) as [out|] eqn:E; [|constructor].
  cbn [profileOf profile].
  apply (resample_x _ _ _ (rawPoints_x_in_unit _ maxRadius
           (smoothedRadii_defined _ options Hint Hnn)) E).
Qed.

Lemma extract_profile context2d image options :
  profileOf (extractProfileFromImage context2d image options) <> [] ->
  spansUnitHeight (tripCount (clampedTargetPoints options))
                  (profileOf (extractProfileFromImage context2d image options)).
Proof.
  unfold extractProfileFromImage.
  destruct (negb context2d); [simpl; congruence|].
  destruct (processingSize _ _) as [[w h]|]; [|simpl; congruence].
  destruct (foregroundMask _ _ _ _) as [fg|]; [|simpl; congruence].
  apply measure_profile.
Qed.

Lemma extract_profile_numeric context2d image options :
  profileOf (extractProfileFromImage context2d image options) <> [] ->
  clampedTargetPoints options <> NaN.
Proof.
  unfold extractProfileFromImage.
  destruct (negb context2d); [simpl; congruence|].
  destruct (processingSize _ _) as [[w h]|]; [|simpl; congruence].
  destruct (foregroundMask _ _ _ _) as [fg|]; [|simpl; congruence].
  apply measure_profile_numeric.
Qed.

Lemma extract_profile_x context2d image options :
  integralSmoothing options ->
  Forall xInUnit (profileOf (extractProfileFromImage context2d image options)).
Proof.
  intros Hint. unfold extractProfileFromImage.
  destruct (negb context2d); [constructor|].
  destruct (processingSize _ _) as [[w h]|]; [|constructor].
  destruct (foregroundMask _ _ _ _) as [fg|]; [|constructor].
  apply measure_profile_x. assumption.
Qed.

(** Whatever the options, a non-empty profile is sorted non-decreasing by
    [y], starts at [y = 0], ends at [y = 1] and has every [y] in [0, 1]. *)
Lemma profile_spans_unit_height context2d image options :
  profileOf (extractProfileFromImage context2d image options) <> [] ->
  sortedByY (profileOf (extractProfileFromImage context2d image options)) /\
  py (hd origin (profileOf (extractProfileFromImage context2d image options))) == 0 /\
  py (last (profileOf (extractProfileFromImage context2d image options)) origin) == 1 /\
  Forall yInUnit (profileOf (extractProfileFromImage context2d image options)).
Proof.
  intros H. destruct (extract_profile context2d image options H)
    as (_ & Hs & Hu & H0 & H1).
  repeat split; assumption.
Qed.

(** With no median filter ([smoothing <= 0]) or an integer half-window
    (also the default, 2), every point of the profile lies in the unit
    square. *)
Lemma profile_in_unit_square_integral_smoothing context2d image options :
  integralSmoothing options ->
  Forall inUnitSquare (profileOf (extractProfileFromImage context2d image options)).
Proof.
  intros Hint.
  pose proof (extract_profile_x context2d image options Hint) as Hx.
  destruct (profileOf (extractProfileFromImage context2d image options))
    as [|p0 rest] eqn:E; [constructor|].
  assert (Hne : profileOf (extractProfileFromImage context2d image options) <> [])
    by (rewrite E; discriminate).
  destruct (profile_spans_unit_height context2d image options Hne)
    as (_ & _ & _ & Hy).
  rewrite E in Hy. rewrite Forall_forall in Hx, Hy.
  apply Forall_forall. intros p Hp. split; auto.
Qed.

Lemma profile_in_unit_square_default_options :
  profileOf (extractProfileFromImage true exampleImage defaultOptions) <> [] /\
  Forall inUnitSquare
         (profileOf (extractProfileFromImage true exampleImage defaultOptions)).
Proof.
  split; [vm_compute; discriminate|].
  apply profile_in_unit_square_integral_smoothing. exact I.
Qed.

Lemma nan_not_in_unit (l : list ProfilePoint) :
  l <> [] -> Forall (fun p => px p = NaN) l -> ~ Forall inUnitSquare l.
Proof.
  destruct l as [|p0 rest]; [congruence|]. intros _ Hnan Hall.
  inversion Hnan as [|? ? Hp0 _]; subst.
  inversion Hall as [|? ? [Hx _] _]; subst.
  unfold xInUnit in Hx. rewrite Hp0 in Hx. exact Hx.
Qed.

(** C1, at [{ smoothing: 1.5 }]. The median filter reads the radii at the
    indices [i - 1.5], [i - 0.5], [i + 0.5] and [i + 1.5], more than half of
    which are no index of the array: the median of every row is
    [undefined], and the extractor returns a profile of 18 points whose [x]
    is NaN, which does not lie in [0, 1]. *)
Theorem profile_x_not_a_number_at_fractional_smoothing :
  length (profileOf (extractProfileFromImage true exampleImage fractionalSmoothing))
  = 18%nat /\
  Forall (fun p => px p = NaN)
         (profileOf (extractProfileFromImage true exampleImage fractionalSmoothing)) /\
  ~ Forall inUnitSquare
      (profileOf (extractProfileFromImage true exampleImage fractionalSmoothing)).
Proof.
  assert (Hlen : length (profileOf (extractProfileFromImage true exampleImage
                                      fractionalSmoothing)) = 18%nat)
    by (vm_compute; reflexivity).
  assert (Hnan : Forall (fun p => px p = NaN)
            (profileOf (extractProfileFromImage true exampleImage fractionalSmoothing)))
    by (vm_compute; repeat constructor).
  split; [exact Hlen|]. split; [exact Hnan|].
  apply nan_not_in_unit; [|exact Hnan].
  intros E. rewrite E in Hlen. discriminate Hlen.
Qed.

Lemma clamped_is_requested options :
  clampedTargetPoints options = requestedPoints options.
Proof.
  unfold clampedTargetPoints, requestedPoints, nullish, DEFAULT_TARGET_POINTS.
  destruct (targetPoints options) as [[t|]|]; reflexivity.
Qed.

Lemma profileLength_tripCount context2d image options :
  profileOf (extractProfileFromImage context2d image options) <> [] ->
  exists requested,
    requestedPoints options = Num requested /\ 8 <= requested <= 24 /\
    profileLength context2d image options = tripCount (Num requested).
Proof.
  intros H. destruct (extract_profile context2d image options H) as (Hlen & _).
  pose proof (extract_profile_numeric context2d image options H) as Hnum.
  destruct (clampedTargetPoints_cases options) as [(t & E & Ht)|[E _]];
    [|contradiction].
  exists t. rewrite <- clamped_is_requested. split; [exact E|].
  split; [exact Ht|]. unfold profileLength. rewrite Hlen, E. reflexivity.
Qed.

(** At [{ targetPoints: 8.5 }] the loop [for (k = 0; k < 8.5; k++)] runs
    nine times: the profile has 9 points, not 8.5. *)
Lemma length_claim_counterexample :
  ~ length_claim true exampleImage fractionalTarget.
Proof.
  unfold length_claim. intros H.
  assert (Hne : profileOf (extractProfileFromImage true exampleImage fractionalTarget)
                <> []) by (vm_compute; discriminate).
  specialize (H Hne).
  destruct H as (requested & Ereq & H).
  assert (E : profileLength true exampleImage fractionalTarget = 9%nat)
    by (vm_compute; reflexivity).
  assert (Er : Num (Qmax 8 (Qmin 24 (17 # 2))) = Num requested) by exact Ereq.
  injection Er as Er.
  assert (H' : inject_Z (Z.of_nat 9) == Qmax 8 (Qmin 24 (17 # 2)))
    by (rewrite <- E, Er; exact H).
  vm_compute in H'. discriminate.
Qed.

(** C2, amended. Whenever the extractor returns a non-empty profile, the
    requested [targetPoints] (18 when absent) clamped to [8, 24] is a
    number, and the length of the profile is the least integer that is not
    below it; it is that clamped value itself when that is an integer, and
    it always lies between 8 and 24. *)
Theorem profile_length_is_ceiling_of_clamped_target context2d image options :
  profileOf (extractProfileFromImage context2d image options) <> [] ->
  exists requested,
    requestedPoints options = Num requested /\
    requested
      <= inject_Z (Z.of_nat (profileLength context2d image options)) /\
    (forall m : nat,
        requested <= inject_Z (Z.of_nat m) ->
        (profileLength context2d image options <= m)%nat) /\
    (integral requested ->
     inject_Z (Z.of_nat (profileLength context2d image options))
     == requested) /\
    (8 <= profileLength context2d image options <= 24)%nat.
Proof.
  intros H.
  destruct (profileLength_tripCount context2d image options H)
    as (requested & Ereq & Hrange & ->).
  exists requested. split; [exact Ereq|].
  destruct (tripCount_least requested) as [Hle Hleast].
  split; [exact Hle|]. split; [exact Hleast|]. split.
  - apply tripCount_integral.
    apply Qle_trans with 8; [discriminate|apply Hrange].
  - apply tripCount_range. exact Hrange.
Qed.

Lemma profile_length_is_ceiling_of_clamped_target_witness :
  profileOf (extractProfileFromImage true exampleImage twelvePoints) <> [] /\
  exists requested,
    requestedPoints twelvePoints = Num requested /\
    (integral requested ->
     inject_Z (Z.of_nat (profileLength true exampleImage twelvePoints))
     == requested).
Proof.
  assert (H : profileOf (extractProfileFromImage true exampleImage twelvePoints) <> [])
    by (vm_compute; discriminate).
  split; [exact H|].
  destruct (profile_length_is_ceiling_of_clamped_target
              true exampleImage twelvePoints H)
    as (requested & Ereq & _ & _ & Hint & _).
  exists requested. split; [exact Ereq|exact Hint].
Defined.

End ProfileProperties.

(** ** Union-find *)

Section UnionFindProperties.

Lemma rootOf_more_fuel p next :
  wfParent p next ->
  forall l fuel, 1 <= l < next -> l <= fuel -> rootOf fuel p l = rootOf l p l.
Proof.
  intros [_ Hwf] l. induction l as [l IH] using lt_wf_ind. intros fuel Hl Hfuel.
  destruct fuel as [|f]; [lia|]. destruct l as [|l']; [lia|].
  cbn [rootOf]. destruct (Nat.eqb_spec (get 0 p (S l')) (S l')) as [|Hne]; [reflexivity|].
  destruct (Hwf (S l') Hl) as [_ Hp].
  rewrite (IH (get 0 p (S l'))) by lia.
  symmetry. apply IH; lia.
Qed.

Lemma root_unfold p next l :
  wfParent p next -> 1 <= l < next ->
  root p l = if get 0 p l =? l then l else root p (get 0 p l).
Proof.
  intros Hwf Hl. unfold root. destruct l as [|l']; [lia|]. cbn [rootOf].
  destruct (Nat.eqb_spec (get 0 p (S l')) (S l')) as [|Hne]; [reflexivity|].
  destruct Hwf as [Hlen Hwf']. destruct (Hwf' (S l') Hl) as [_ Hp].
  apply (rootOf_more_fuel p next (conj Hlen Hwf')); lia.
Qed.

(** The root of a label is a label, is not above it, and is its own
    parent. *)
Lemma root_spec p next l :
  wfParent p next -> 1 <= l < next ->
  1 <= root p l <= l /\ get 0 p (root p l) = root p l.
Proof.
  intros Hwf. induction l as [l IH] using lt_wf_ind. intros Hl.
  rewrite (root_unfold p next l Hwf Hl).
  destruct (Nat.eqb_spec (get 0 p l) l) as [E|Hne].
  - split; [lia|assumption].
  - destruct Hwf as [Hlen Hwf']. destruct (Hwf' l Hl) as [_ Hp].
    destruct (IH (get 0 p l)) as [Hr Hfix]; [lia|lia|].
    split; [lia|assumption].
Qed.

Lemma root_of_root p next l :
  wfParent p next -> 1 <= l < next -> root p (root p l) = root p l.
Proof.
  intros Hwf Hl. destruct (root_spec p next l Hwf Hl) as [Hr Hfix].
  rewrite (root_unfold p next (root p l) Hwf) by lia.
  rewrite Hfix, Nat.eqb_refl. reflexivity.
Qed.

Lemma root_fixpoint p next l :
  wfParent p next -> 1 <= l < next -> get 0 p l = l -> root p l = l.
Proof.
  intros Hwf Hl E. rewrite (root_unfold p next l Hwf Hl), E, Nat.eqb_refl.
  reflexivity.
Qed.

Lemma setAt_inside p i v : i < length p -> setAt p i v = upd p i v.
Proof. intros H. unfold setAt. destruct (Nat.ltb_spec i (length p)); [reflexivity|lia]. Qed.

(** Two forests with the same parents above and on every path have the same
    roots. *)
Lemma root_ext p q next :
  wfParent p next -> wfParent q next ->
  (forall l, 1 <= l < next -> get 0 q l = get 0 p l) ->
  forall l, 1 <= l < next -> root q l = root p l.
Proof.
  intros Hp Hq He l. induction l as [l IH] using lt_wf_ind. intros Hl.
  rewrite (root_unfold q next l Hq Hl), (root_unfold p next l Hp Hl), (He l Hl).
  destruct (Nat.eqb_spec (get 0 p l) l); [reflexivity|].
  destruct Hp as [_ Hp']. destruct (Hp' l Hl) as [_ Hpl]. apply IH; lia.
Qed.

(** Path compression at [x]: pointing [x] at its root changes no root. *)
Lemma compress_spec p next x :
  wfParent p next -> 1 <= x < next ->
  wfParent (upd p x (root p x)) next /\
  forall l, 1 <= l < next -> root (upd p x (root p x)) l = root p l.
Proof.
  intros Hwf Hx. destruct (root_spec p next x Hwf Hx) as [Hr Hfix].
  assert (Hlenx : x < length p) by (destruct Hwf as [_ H]; apply (H x Hx)).
  assert (Hwf' : wfParent (upd p x (root p x)) next).
  { destruct Hwf as [Hlen Hwf]. split; [rewrite upd_length; assumption|].
    intros l Hl. rewrite upd_length. destruct (Hwf l Hl) as [Hll Hpl].
    split; [assumption|]. rewrite get_upd by assumption.
    destruct (Nat.eqb_spec x l); [subst; lia|assumption]. }
  split; [assumption|].
  intros l. induction l as [l IH] using lt_wf_ind. intros Hl.
  rewrite (root_unfold _ next l Hwf' Hl), (root_unfold p next l Hwf Hl).
  rewrite get_upd by assumption.
  destruct (Nat.eqb_spec x l) as [->|Hne].
  - destruct (Nat.eqb_spec (root p l) l) as [E|Hne'].
    + destruct (Nat.eqb_spec (get 0 p l) l) as [|Hne'']; [reflexivity|].
      transitivity (root p l); [symmetry; exact E|].
      rewrite (root_unfold p next l Hwf Hl).
      destruct (Nat.eqb_spec (get 0 p l) l); [contradiction|reflexivity].
    + rewrite IH by lia. rewrite (root_of_root p next l Hwf Hl).
      destruct (Nat.eqb_spec (get 0 p l) l) as [E|Hne''].
      * rewrite (root_fixpoint p next l Hwf Hl E) in Hne'. contradiction.
      * rewrite (root_unfold p next l Hwf Hl).
        destruct (Nat.eqb_spec (get 0 p l) l); [contradiction|reflexivity].
  - destruct (Nat.eqb_spec (get 0 p l) l); [reflexivity|].
    destruct Hwf as [_ Hwf]. destruct (Hwf l Hl) as [_ Hpl]. apply IH; lia.
Qed.

(** [find] returns the root, with fuel to spare, and leaves a forest with the
    same roots. *)
Lemma find_spec p next :
  wfParent p next ->
  forall x fuel, 1 <= x < next -> x <= fuel ->
  exists p', find fuel p x = Some (root p x, p') /\
             wfParent p' next /\ length p' = length p /\
             forall l, 1 <= l < next -> root p' l = root p l.
Proof.
  intros Hwf x. induction x as [x IH] using lt_wf_ind. intros fuel Hx Hfuel.
  destruct fuel as [|f]; [lia|]. cbn [find].
  rewrite (root_unfold p next x Hwf Hx).
  destruct (Nat.eqb_spec (get 0 p x) x) as [E|Hne].
  - exists p. split; [reflexivity|]. split; [assumption|]. split; reflexivity.
  - assert (Hq : 1 <= get 0 p x < x).
    { destruct Hwf as [_ H]. destruct (H x Hx). lia. }
    destruct (IH (get 0 p x) ltac:(lia) f ltac:(lia) ltac:(lia))
      as (p1 & -> & Hwf1 & Hlen1 & Hroots1).
    assert (Hxlen : x < length p1).
    { rewrite Hlen1. destruct Hwf as [_ H]. apply (H x Hx). }
    rewrite setAt_inside by assumption.
    assert (Er : root p (get 0 p x) = root p1 x).
    { rewrite (Hroots1 x Hx), (root_unfold p next x Hwf Hx).
      destruct (Nat.eqb_spec (get 0 p x) x); [contradiction|reflexivity]. }
    rewrite Er.
    destruct (compress_spec p1 next x Hwf1 Hx) as [Hwf2 Hroots2].
    exists (upd p1 x (root p1 x)). split; [reflexivity|]. split; [assumption|].
    split; [rewrite upd_length; assumption|].
    intros l Hl. rewrite (Hroots2 l Hl). apply Hroots1. assumption.
Qed.

(** Linking the roots [rl] and [ru] to the smaller of the two merges their
    classes and leaves the others alone. *)
Lemma union_spec p next rl ru :
  wfParent p next -> 1 <= rl < next -> 1 <= ru < next ->
  get 0 p rl = rl -> get 0 p ru = ru ->
  let p' := setAt (setAt p ru (Nat.min rl ru)) rl (Nat.min rl ru) in
  wfParent p' next /\ length p' = length p /\
  forall l, 1 <= l < next ->
    root p' l = if (root p l =? rl) || (root p l =? ru)
                then Nat.min rl ru else root p l.
Proof.
  intros Hwf Hrl Hru Erl Eru. set (r := Nat.min rl ru).
  assert (Hlrl : rl < length p) by (destruct Hwf as [_ H]; apply (H rl Hrl)).
  assert (Hlru : ru < length p) by (destruct Hwf as [_ H]; apply (H ru Hru)).
  rewrite (setAt_inside p ru r Hlru).
  rewrite setAt_inside by (rewrite upd_length; assumption).
  cbv zeta.
  assert (Hget : forall l, get 0 (upd (upd p ru r) rl r) l
                 = if rl =? l then r else if ru =? l then r else get 0 p l).
  { intros l. rewrite get_upd by (rewrite upd_length; assumption).
    rewrite get_upd by assumption. reflexivity. }
  assert (Hwf' : wfParent (upd (upd p ru r) rl r) next).
  { destruct Hwf as [Hlen Hwf]. split; [rewrite !upd_length; assumption|].
    intros l Hl. rewrite !upd_length. destruct (Hwf l Hl) as [Hll Hpl].
    split; [assumption|]. rewrite Hget.
    destruct (Nat.eqb_spec rl l); [subst; unfold r; lia|].
    destruct (Nat.eqb_spec ru l); [subst; unfold r; lia|assumption]. }
  split; [assumption|]. split; [rewrite !upd_length; reflexivity|].
  intros l. induction l as [l IH] using lt_wf_ind. intros Hl.
  rewrite (root_unfold _ next l Hwf' Hl), Hget.
  assert (Hrr : root (upd (upd p ru r) rl r) r = r).
  { apply (root_fixpoint _ next r Hwf'); [unfold r; lia|]. rewrite Hget.
    destruct (Nat.eqb_spec rl r); [reflexivity|].
    destruct (Nat.eqb_spec ru r); [reflexivity|]. unfold r in *. lia. }
  destruct (Nat.eqb_spec rl l) as [->|Hnl].
  - rewrite (root_fixpoint p next l Hwf Hl Erl), Nat.eqb_refl. cbn [orb].
    destruct (Nat.eqb_spec r l); [congruence|]. exact Hrr.
  - destruct (Nat.eqb_spec ru l) as [->|Hnu].
    + rewrite (root_fixpoint p next l Hwf Hl Eru), Nat.eqb_refl, orb_true_r.
      destruct (Nat.eqb_spec r l); [congruence|]. exact Hrr.
    + rewrite (root_unfold p next l Hwf Hl).
      destruct (Nat.eqb_spec (get 0 p l) l) as [E|Hne].
      * destruct (Nat.eqb_spec l rl); [congruence|].
        destruct (Nat.eqb_spec l ru); [congruence|]. reflexivity.
      * destruct Hwf as [_ Hwf]. destruct (Hwf l Hl) as [_ Hpl].
        apply IH; lia.
Qed.

(** A fresh label is its own root and disturbs no other. *)
Lemma alloc_spec p next :
  wfParent p next -> 1 <= next ->
  let p' := setAt p next next in
  wfParent p' (S next) /\
  root p' next = next /\
  forall l, 1 <= l < next -> root p' l = root p l.
Proof.
  intros Hwf Hnext. cbv zeta.
  assert (Hlen : length p <= next) by apply Hwf.
  assert (Eset : setAt p next next = p ++ repeat 0 (next - length p) ++ [next]).
  { unfold setAt. destruct (Nat.ltb_spec next (length p)); [lia|reflexivity]. }
  assert (Hlen' : length (setAt p next next) = S next).
  { rewrite Eset, !length_app, repeat_length. simpl. lia. }
  assert (Hold : forall l, l < length p -> get 0 (setAt p next next) l = get 0 p l).
  { intros l Hl. rewrite Eset. unfold get. apply app_nth1. assumption. }
  assert (Hnew : get 0 (setAt p next next) next = next).
  { rewrite Eset. unfold get. rewrite app_assoc, app_nth2;
      rewrite length_app, repeat_length; [|lia].
    replace (next - (length p + (next - length p))) with 0 by lia. reflexivity. }
  assert (Hwf' : wfParent (setAt p next next) (S next)).
  { split; [lia|]. intros l Hl. rewrite Hlen'. split; [lia|].
    destruct (Nat.eq_dec l next) as [->|Hne]; [rewrite Hnew; lia|].
    destruct Hwf as [_ Hwf]. destruct (Hwf l ltac:(lia)) as [Hll Hpl].
    rewrite Hold by assumption. assumption. }
  split; [assumption|]. split.
  - apply (root_fixpoint _ (S next) next Hwf'); [lia|assumption].
  - intros l. induction l as [l IH] using lt_wf_ind. intros Hl.
    rewrite (root_unfold _ (S next) l Hwf') by lia.
    rewrite (root_unfold p next l Hwf Hl).
    destruct Hwf as [Hlen0 Hwf]. destruct (Hwf l Hl) as [Hll Hpl].
    rewrite Hold by assumption.
    destruct (Nat.eqb_spec (get 0 p l) l); [reflexivity|].
    apply IH; lia.
Qed.

End UnionFindProperties.

(** ** 4-connectivity *)

Section ConnectivityProperties.
Variable w : nat.

Lemma adj4_sym i j : adj4 w i j -> adj4 w j i.
Proof. unfold adj4. intuition. Qed.

Lemma connected_left S i j : connected w S i j -> S i.
Proof. induction 1; assumption. Qed.

Lemma connected_right S i j : connected w S i j -> S j.
Proof. destruct 1; assumption. Qed.

Lemma connected_mono (S S' : nat -> Prop) i j :
  (forall x, S x -> S' x) -> connected w S i j -> connected w S' i j.
Proof.
  intros Hsub H. induction H as [i Hi|i j k _ IH Hadj Hk].
  - apply connected_refl. auto.
  - apply connected_step with j; auto.
Qed.

Lemma connected_trans S i j k :
  connected w S i j -> connected w S j k -> connected w S i k.
Proof.
  intros Hij Hjk. revert i Hij.
  induction Hjk as [j Hj|j m k _ IH Hadj Hk]; intros i Hij; [assumption|].
  apply connected_step with m; [apply IH; assumption|assumption|assumption].
Qed.

Lemma connected_sym S i j : connected w S i j -> connected w S j i.
Proof.
  intros H. induction H as [i Hi|i j k Hij IH Hadj Hk].
  - apply connected_refl. assumption.
  - apply connected_trans with j; [|assumption].
    apply connected_step with k; [apply connected_refl; assumption| |].
    + apply adj4_sym. assumption.
    + apply (connected_left _ _ _ IH).
Qed.

Lemma connected_edge (S : nat -> Prop) i j :
  S i -> S j -> adj4 w i j -> connected w S i j.
Proof.
  intros Hi Hj Hadj. apply connected_step with i; [apply connected_refl| |]; assumption.
Qed.

(** *** Adding one vertex *)

Section AddVertex.
Variable S : nat -> Prop.
Variable k : nat.
Hypothesis fresh : ~ S k.

Let S' (i : nat) : Prop := S i \/ i = k.
Let N (a : nat) : Prop := S a /\ adj4 w a k.

Lemma add_vertex_paths i m :
  S i -> connected w S' i m ->
  (m <> k -> connected w S i m \/
             exists a b, N a /\ N b /\ connected w S i a /\ connected w S b m) /\
  (m = k -> exists a, N a /\ connected w S i a).
Proof.
  intros Hi H. induction H as [i Hi'|i j m Hij IH Hadj Hm].
  - split.
    + intros _. left. apply connected_refl. assumption.
    + intros ->. contradiction.
  - specialize (IH Hi). destruct IH as [IHne IHeq]. split.
    + intros Hmk. assert (HSm : S m) by (destruct Hm; [assumption|contradiction]).
      destruct (Nat.eq_dec j k) as [->|Hjk].
      * destruct (IHeq eq_refl) as (a & Ha & Hia). right.
        exists a, m. split; [exact Ha|].
        split; [split; [assumption|apply adj4_sym; assumption]|].
        split; [assumption|apply connected_refl; assumption].
      * destruct (IHne Hjk) as [Hc|(a & b & Ha & Hb & Hia & Hbj)].
        -- left. apply connected_step with j; assumption.
        -- right. exists a, b. split; [assumption|]. split; [assumption|].
           split; [assumption|]. apply connected_step with j; assumption.
    + intros ->. destruct (Nat.eq_dec j k) as [->|Hjk]; [apply IHeq; reflexivity|].
      assert (HSj : S j).
      { apply connected_right in Hij. destruct Hij; [assumption|contradiction]. }
      destruct (IHne Hjk) as [Hc|(a & b & Ha & Hb & Hia & Hbj)].
      * exists j. split; [split; assumption|assumption].
      * exists a. split; assumption.
Qed.

Lemma add_vertex_old i j :
  S i -> S j ->
  (connected w S' i j <->
   connected w S i j \/
   exists a b, N a /\ N b /\ connected w S i a /\ connected w S b j).
Proof.
  intros Hi Hj. split.
  - intros H. apply (add_vertex_paths i j Hi H). intros ->. contradiction.
  - assert (Hsub : forall x, S x -> S' x) by (intros x Hx; left; assumption).
    intros [H|(a & b & [HSa Ha] & [HSb Hb] & Hia & Hbj)].
    + apply (connected_mono S S' i j Hsub H).
    + apply connected_trans with a; [apply (connected_mono S S' _ _ Hsub Hia)|].
      apply connected_trans with k.
      * apply connected_edge; [left; assumption|right; reflexivity|assumption].
      * apply connected_trans with b; [|apply (connected_mono S S' _ _ Hsub Hbj)].
        apply connected_edge; [right; reflexivity|left; assumption|].
        apply adj4_sym. assumption.
Qed.

Lemma add_vertex_new i :
  S i ->
  (connected w S' i k <-> exists a, N a /\ connected w S i a).
Proof.
  intros Hi. split.
  - intros H. apply (add_vertex_paths i k Hi H). reflexivity.
  - assert (Hsub : forall x, S x -> S' x) by (intros x Hx; left; assumption).
    intros (a & [HSa Ha] & Hia).
    apply connected_trans with a; [apply (connected_mono S S' _ _ Hsub Hia)|].
    apply connected_edge; [left; assumption|right; reflexivity|assumption].
Qed.

End AddVertex.

End ConnectivityProperties.

(** ** Raster-scan labelling *)

Section LabellingProperties.
Variable fg : list bool.
Variables w h : nat.

Lemma scanned_succ_bg k i :
  get false fg k = false -> (scanned fg (S k) i <-> scanned fg k i).
Proof.
  intros Hk. unfold scanned. split.
  - intros [Hi Hfg]. split; [|assumption].
    destruct (Nat.eq_dec i k) as [->|]; [congruence|lia].
  - intros [Hi Hfg]. split; [lia|assumption].
Qed.

Lemma scanned_succ_fg k i :
  get false fg k = true -> (scanned fg (S k) i <-> scanned fg k i \/ i = k).
Proof.
  intros Hk. unfold scanned. split.
  - intros [Hi Hfg]. destruct (Nat.eq_dec i k) as [->|]; [right; reflexivity|].
    left. split; [lia|assumption].
  - intros [[Hi Hfg]| ->]; split; auto; lia.
Qed.

Lemma connected_iff (S S' : nat -> Prop) i j :
  (forall x, S x <-> S' x) -> (connected w S i j <-> connected w S' i j).
Proof.
  intros H. split; apply connected_mono; intros x; apply H.
Qed.

(** A background pixel leaves the state as it is. *)
Lemma labelInv_skip k st :
  get false fg k = false -> labelInv fg w h k st -> labelInv fg w h (S k) st.
Proof.
  intros Hk (Hlen & Hnext & Hwf & Hlab & Hzero & Hconn).
  split; [assumption|]. split; [assumption|]. split; [assumption|].
  split; [|split].
  - intros i Hi. apply Hlab. apply (scanned_succ_bg k i Hk). assumption.
  - intros i Hi. apply Hzero. intros Hs. apply Hi.
    apply (scanned_succ_bg k i Hk). assumption.
  - intros i j Hi Hj.
    apply (scanned_succ_bg k i Hk) in Hi. apply (scanned_succ_bg k j Hk) in Hj.
    rewrite (Hconn i j Hi Hj). apply connected_iff.
    intros x. symmetry. apply scanned_succ_bg. assumption.
Qed.

(** Extending the state at a foreground pixel [k]: sufficient conditions on
    the new label [lk] and the new forest [p'] in terms of the old roots and
    the scanned neighbours of [k]. *)
Lemma labelInv_extend k st lk p' next' :
  k < w * h ->
  get false fg k = true ->
  labelInv fg w h k st ->
  nextLabel st <= next' -> wfParent p' next' -> 1 <= lk < next' ->
  (forall i j, scanned fg k i -> scanned fg k j ->
     (root p' (get 0 (labels st) i) = root p' (get 0 (labels st) j) <->
      root (parent st) (get 0 (labels st) i)
      = root (parent st) (get 0 (labels st) j) \/
      exists a b, (scanned fg k a /\ adj4 w a k) /\ (scanned fg k b /\ adj4 w b k) /\
        root (parent st) (get 0 (labels st) i)
        = root (parent st) (get 0 (labels st) a) /\
        root (parent st) (get 0 (labels st) b)
        = root (parent st) (get 0 (labels st) j))) ->
  (forall i, scanned fg k i ->
     (root p' (get 0 (labels st) i) = root p' lk <->
      exists a, (scanned fg k a /\ adj4 w a k) /\
        root (parent st) (get 0 (labels st) i)
        = root (parent st) (get 0 (labels st) a))) ->
  labelInv fg w h (S k) (mkLabel (upd (labels st) k lk) p' next').
Proof.
  intros Hkn Hk (Hlen & Hnext & Hwf & Hlab & Hzero & Hconn)
         Hnext' Hwf' Hlk Hold Hnew.
  assert (Hfresh : ~ scanned fg k k) by (unfold scanned; lia).
  assert (Hget : forall i, scanned fg k i ->
            get 0 (upd (labels st) k lk) i = get 0 (labels st) i).
  { intros i [Hi _]. apply get_upd_other. lia. }
  assert (Hgetk : get 0 (upd (labels st) k lk) k = lk)
    by (apply get_upd_same; lia).
  assert (Hiff := fun x => scanned_succ_fg k x Hk).
  unfold labelInv. cbn [labels parent nextLabel].
  split; [rewrite upd_length; assumption|]. split; [lia|].
  split; [assumption|]. split; [|split].
  - intros i Hi. apply Hiff in Hi. destruct Hi as [Hi| ->].
    + rewrite (Hget i Hi). specialize (Hlab i Hi). lia.
    + rewrite Hgetk. assumption.
  - intros i Hi. rewrite get_upd_other.
    + apply Hzero. intros Hs. apply Hi. apply Hiff. left. assumption.
    + intros <-. apply Hi. apply Hiff. right. reflexivity.
  - intros i j Hi Hj.
    rewrite (connected_iff _ _ i j Hiff).
    apply Hiff in Hi. apply Hiff in Hj.
    destruct Hi as [Hi| ->], Hj as [Hj| ->].
    + rewrite (Hget i Hi), (Hget j Hj), (Hold i j Hi Hj).
      rewrite (add_vertex_old w (scanned fg k) k Hfresh i j Hi Hj).
      split.
      * intros [E|(a & b & Ha & Hb & Eia & Ebj)].
        -- left. apply (Hconn i j Hi Hj). assumption.
        -- right. exists a, b. split; [assumption|]. split; [assumption|].
           split; [apply (Hconn i a Hi (proj1 Ha)); assumption
                  |apply (Hconn b j (proj1 Hb) Hj); assumption].
      * intros [E|(a & b & Ha & Hb & Eia & Ebj)].
        -- left. apply (Hconn i j Hi Hj). assumption.
        -- right. exists a, b. split; [assumption|]. split; [assumption|].
           split; [apply (Hconn i a Hi (proj1 Ha)); assumption
                  |apply (Hconn b j (proj1 Hb) Hj); assumption].
    + rewrite (Hget i Hi), Hgetk, (Hnew i Hi).
      rewrite (add_vertex_new w (scanned fg k) k Hfresh i Hi).
      split; intros (a & Ha & E); exists a; (split; [assumption|]);
        apply (Hconn i a Hi (proj1 Ha)); assumption.
    + rewrite (Hget j Hj), Hgetk.
      split.
      * intros E. apply connected_sym.
        apply (add_vertex_new w (scanned fg k) k Hfresh j Hj).
        symmetry in E. apply (Hnew j Hj) in E. destruct E as (a & Ha & E).
        exists a. split; [assumption|].
        apply (Hconn j a Hj (proj1 Ha)); assumption.
      * intros Hc. apply connected_sym in Hc.
        apply (add_vertex_new w (scanned fg k) k Hfresh j Hj) in Hc.
        destruct Hc as (a & Ha & Hc). symmetry. apply (Hnew j Hj).
        exists a. split; [assumption|].
        apply (Hconn j a Hj (proj1 Ha)); assumption.
    + split; [|reflexivity]. intros _. apply connected_refl. right. reflexivity.
Qed.

(** No scanned neighbour: a fresh label. *)
Lemma labelInv_fresh k st :
  k < w * h -> get false fg k = true -> labelInv fg w h k st ->
  (forall a, ~ (scanned fg k a /\ adj4 w a k)) ->
  labelInv fg w h (S k)
    (mkLabel (upd (labels st) k (nextLabel st))
             (setAt (parent st) (nextLabel st) (nextLabel st))
             (S (nextLabel st))).
Proof.
  intros Hkn Hk Hinv Hnone.
  pose proof Hinv as (Hlen & Hnext & Hwf & Hlab & Hzero & Hconn).
  destruct (alloc_spec (parent st) (nextLabel st) Hwf Hnext) as (Hwf' & Hnew & Hsame).
  apply labelInv_extend; try assumption; try lia.
  - intros i j Hi Hj. rewrite (Hsame _ (Hlab i Hi)), (Hsame _ (Hlab j Hj)).
    split; [intros E; left; exact E|].
    intros [E|(a & _ & Ha & _)]; [exact E|]. exfalso. apply (Hnone a Ha).
  - intros i Hi. rewrite (Hsame _ (Hlab i Hi)), Hnew. split.
    + intros E. exfalso.
      destruct (root_spec (parent st) (nextLabel st) _ Hwf (Hlab i Hi)) as [Hr _].
      specialize (Hlab i Hi). lia.
    + intros (a & Ha & _). exfalso. apply (Hnone a Ha).
Qed.

(** One scanned neighbour [a0]: its root becomes the label. *)
Lemma labelInv_inherit k st a0 p1 :
  k < w * h -> get false fg k = true -> labelInv fg w h k st ->
  scanned fg k a0 ->
  (forall a, scanned fg k a /\ adj4 w a k <-> a = a0) ->
  wfParent p1 (nextLabel st) ->
  (forall l, 1 <= l < nextLabel st -> root p1 l = root (parent st) l) ->
  labelInv fg w h (S k)
    (mkLabel (upd (labels st) k (root (parent st) (get 0 (labels st) a0)))
             p1 (nextLabel st)).
Proof.
  intros Hkn Hk Hinv Ha0 HN Hwf1 Hsame.
  pose proof Hinv as (Hlen & Hnext & Hwf & Hlab & Hzero & Hconn).
  destruct (root_spec (parent st) (nextLabel st) _ Hwf (Hlab a0 Ha0)) as [Hr Hfix].
  pose proof (Hlab a0 Ha0) as Hla0.
  apply labelInv_extend; try assumption; try lia.
  - intros i j Hi Hj. rewrite (Hsame _ (Hlab i Hi)), (Hsame _ (Hlab j Hj)).
    split; [intros E; left; exact E|].
    intros [E|(a & b & Ha & Hb & Eia & Ebj)]; [exact E|].
    apply HN in Ha. apply HN in Hb. subst a b. congruence.
  - intros i Hi. rewrite (Hsame _ (Hlab i Hi)).
    rewrite (Hsame (root (parent st) (get 0 (labels st) a0)) ltac:(lia)),
      (root_of_root (parent st) (nextLabel st) _ Hwf (Hlab a0 Ha0)).
    split.
    + intros E. exists a0. split; [apply HN; reflexivity|exact E].
    + intros (a & Ha & E). apply HN in Ha. subst a. exact E.
Qed.

(** Two scanned neighbours [a0] and [b0]: their classes are merged under the
    smaller root, which becomes the label. *)
Lemma labelInv_merge k st a0 b0 p2 :
  k < w * h -> get false fg k = true -> labelInv fg w h k st ->
  scanned fg k a0 -> scanned fg k b0 ->
  (forall a, scanned fg k a /\ adj4 w a k <-> a = a0 \/ a = b0) ->
  wfParent p2 (nextLabel st) ->
  (forall l, 1 <= l < nextLabel st -> root p2 l = root (parent st) l) ->
  let rl := root (parent st) (get 0 (labels st) a0) in
  let ru := root (parent st) (get 0 (labels st) b0) in
  labelInv fg w h (S k)
    (mkLabel (upd (labels st) k (Nat.min rl ru))
             (setAt (setAt p2 ru (Nat.min rl ru)) rl (Nat.min rl ru))
             (nextLabel st)).
Proof.
  intros Hkn Hk Hinv Ha0 Hb0 HN Hwf2 Hsame rl ru.
  pose proof Hinv as (Hlen & Hnext & Hwf & Hlab & Hzero & Hconn).
  destruct (root_spec (parent st) (nextLabel st) _ Hwf (Hlab a0 Ha0)) as [Hrl _].
  destruct (root_spec (parent st) (nextLabel st) _ Hwf (Hlab b0 Hb0)) as [Hru _].
  pose proof (Hlab a0 Ha0) as Hla0. pose proof (Hlab b0 Hb0) as Hlb0.
  fold rl in Hrl. fold ru in Hru.
  assert (Hfl : get 0 p2 rl = rl).
  { destruct (root_spec p2 (nextLabel st) _ Hwf2 (Hlab a0 Ha0)) as [_ H].
    rewrite (Hsame _ (Hlab a0 Ha0)) in H. exact H. }
  assert (Hfu : get 0 p2 ru = ru).
  { destruct (root_spec p2 (nextLabel st) _ Hwf2 (Hlab b0 Hb0)) as [_ H].
    rewrite (Hsame _ (Hlab b0 Hb0)) in H. exact H. }
  destruct (union_spec p2 (nextLabel st) rl ru Hwf2 ltac:(lia) ltac:(lia) Hfl Hfu)
    as (Hwf' & _ & Hroot').
  set (r := Nat.min rl ru) in *.
  assert (Hr : r = rl \/ r = ru) by (unfold r; lia).
  assert (Hclass : forall i, scanned fg k i ->
            ((exists a, (scanned fg k a /\ adj4 w a k) /\
                root (parent st) (get 0 (labels st) i)
                = root (parent st) (get 0 (labels st) a))
             <-> root (parent st) (get 0 (labels st) i) = rl \/
                 root (parent st) (get 0 (labels st) i) = ru)).
  { intros i Hi. split.
    - intros (a & Ha & E). apply HN in Ha. destruct Ha as [-> | ->]; auto.
    - intros [E|E]; [exists a0|exists b0]; (split; [apply HN; auto|exact E]). }
  assert (Hrep : forall i, scanned fg k i ->
            root (setAt (setAt p2 ru r) rl r) (get 0 (labels st) i)
            = if (root (parent st) (get 0 (labels st) i) =? rl)
                 || (root (parent st) (get 0 (labels st) i) =? ru)
              then r else root (parent st) (get 0 (labels st) i)).
  { intros i Hi. rewrite (Hroot' _ (Hlab i Hi)), (Hsame _ (Hlab i Hi)). reflexivity. }
  apply labelInv_extend; try assumption; try lia.
  - intros i j Hi Hj. rewrite (Hrep i Hi), (Hrep j Hj).
    set (ri := root (parent st) (get 0 (labels st) i)).
    set (rj := root (parent st) (get 0 (labels st) j)).
    split.
    + intros E.
      destruct (Nat.eqb_spec ri rl), (Nat.eqb_spec ri ru),
               (Nat.eqb_spec rj rl), (Nat.eqb_spec rj ru);
        cbn [orb] in E;
        try (left; congruence);
        try (right; exists a0, a0; repeat split; try apply HN; auto; congruence);
        try (right; exists a0, b0; repeat split; try apply HN; auto; congruence);
        try (right; exists b0, a0; repeat split; try apply HN; auto; congruence);
        try (right; exists b0, b0; repeat split; try apply HN; auto; congruence);
        try (exfalso; lia).
    + intros [E|(a & b & Ha & Hb & Eia & Ebj)].
      * fold ri rj in E. rewrite E. reflexivity.
      * assert (Hi' : ri = rl \/ ri = ru)
          by (apply (Hclass i Hi); exists a; split; assumption).
        assert (Hj' : rj = rl \/ rj = ru).
        { apply (Hclass j Hj). exists b. split; [assumption|].
          symmetry. exact Ebj. }
        destruct (Nat.eqb_spec ri rl), (Nat.eqb_spec ri ru),
                 (Nat.eqb_spec rj rl), (Nat.eqb_spec rj ru);
          cbn [orb]; try reflexivity; exfalso; lia.
  - intros i Hi. rewrite (Hrep i Hi).
    assert (Err : root (setAt (setAt p2 ru r) rl r) r = r).
    { rewrite (Hroot' r ltac:(lia)).
      assert (E : root p2 r = r).
      { apply (root_fixpoint p2 (nextLabel st) r Hwf2); [lia|].
        destruct Hr as [-> | ->]; assumption. }
      rewrite E.
      destruct (Nat.eqb_spec r rl), (Nat.eqb_spec r ru); cbn [orb];
        try reflexivity; exfalso; lia. }
    rewrite Err, (Hclass i Hi).
    set (ri := root (parent st) (get 0 (labels st) i)).
    destruct (Nat.eqb_spec ri rl), (Nat.eqb_spec ri ru); cbn [orb];
      split; auto; try lia; intros E; exfalso; lia.
Qed.

Lemma row_major_mod y x : x < w -> (y * w + x) mod w = x.
Proof.
  intros Hx. rewrite Nat.add_comm, Nat.Div0.mod_add. apply Nat.mod_small. assumption.
Qed.

(** The scanned neighbours of pixel [(x, y)] are its left and upper
    neighbours, where they exist and are foreground. *)
Lemma scanned_neighbours y x a :
  x < w ->
  (scanned fg (y * w + x) a /\ adj4 w a (y * w + x) <->
   (a = y * w + x - 1 /\ 0 < x /\ get false fg (y * w + x - 1) = true) \/
   (a = y * w + x - w /\ 0 < y /\ get false fg (y * w + x - w) = true)).
Proof.
  intros Hx. pose proof (row_major_mod y x Hx) as Hmod.
  unfold scanned, adj4. split.
  - intros [[Ha Hfg] [[E Hm]|[[E Hm]|[E|E]]]]; try lia.
    + left. rewrite <- E in Hm. rewrite Hmod in Hm.
      replace (y * w + x - 1) with a by lia. repeat split; auto; lia.
    + right. replace (y * w + x - w) with a by lia.
      destruct y as [|y']; [simpl in E; lia|]. repeat split; auto; lia.
  - intros [(-> & Hx0 & Hfg)|(-> & Hy0 & Hfg)].
    + split; [split; [lia|assumption]|]. left.
      replace (y * w + x - 1 + 1) with (y * w + x) by lia.
      split; [reflexivity|lia].
    + destruct y as [|y']; [lia|]. simpl in *.
      split; [split; [lia|assumption]|]. right. right. left. lia.
Qed.

(** One step of the raster scan keeps the invariant and has fuel enough. *)
Lemma labelPixel_step y x st :
  y < h -> x < w ->
  labelInv fg w h (y * w + x) st ->
  exists st', labelPixel fg w y x (Some st) = Some st' /\
              labelInv fg w h (S (y * w + x)) st'.
Proof.
  intros Hy Hx Hinv. set (k := y * w + x) in *.
  assert (Hkn : k < w * h) by (apply row_major_bound; assumption).
  pose proof Hinv as (Hlen & Hnext & Hwf & Hlab & Hzero & Hconn).
  pose proof (scanned_neighbours y x) as HN. fold k in HN.
  unfold labelPixel. fold k.
  destruct (get false fg k) eqn:Hk; cbn [negb].
  2:{ exists st. split; [reflexivity|]. apply labelInv_skip; assumption. }
  (* the left neighbour *)
  assert (Hleft :
    ((if 0 <? x then get 0 (labels st) (k - 1) else 0) = 0 /\
     ~ (0 < x /\ get false fg (k - 1) = true)) \/
    ((if 0 <? x then get 0 (labels st) (k - 1) else 0) = get 0 (labels st) (k - 1) /\
     scanned fg k (k - 1) /\ 0 < x /\ get false fg (k - 1) = true)).
  { destruct (Nat.ltb_spec 0 x) as [Hx0|Hx0]; [|left; split; [reflexivity|lia]].
    destruct (get false fg (k - 1)) eqn:Hf.
    - right. repeat split; auto. unfold k. lia.
    - left. split; [|intros [_ ?]; discriminate].
      apply Hzero. unfold scanned. intros [_ ?]. congruence. }
  (* the upper neighbour *)
  assert (Hup :
    ((if 0 <? y then get 0 (labels st) (k - w) else 0) = 0 /\
     ~ (0 < y /\ get false fg (k - w) = true)) \/
    ((if 0 <? y then get 0 (labels st) (k - w) else 0) = get 0 (labels st) (k - w) /\
     scanned fg k (k - w) /\ 0 < y /\ get false fg (k - w) = true)).
  { destruct (Nat.ltb_spec 0 y) as [Hy0|Hy0]; [|left; split; [reflexivity|lia]].
    destruct (get false fg (k - w)) eqn:Hf.
    - right. repeat split; auto. unfold k. destruct y; simpl; lia.
    - left. split; [|intros [_ ?]; discriminate].
      apply Hzero. unfold scanned. intros [_ ?]. congruence. }
  assert (Hfuel : forall a, scanned fg k a ->
            get 0 (labels st) a <= length (parent st)).
  { intros a Ha. destruct Hwf as [_ H]. destruct (H _ (Hlab a Ha)). lia. }
  destruct Hleft as [[-> Hnl]|(-> & Hsl & Hx0 & Hfl)];
    destruct Hup as [[-> Hnu]|(-> & Hsu & Hy0 & Hfu)].
  - (* no neighbour *)
    cbn [Nat.eqb negb andb].
    eexists. split; [reflexivity|].
    apply labelInv_fresh; try assumption.
    intros a Ha. apply HN in Ha; [|assumption].
    destruct Ha as [(_ & ? & ?)|(_ & ? & ?)]; tauto.
  - (* upper neighbour only *)
    pose proof (Hlab _ Hsu) as Hlu.
    destruct (Nat.eqb_spec (get 0 (labels st) (k - w)) 0) as [|_]; [lia|].
    cbn [Nat.eqb negb andb].
    destruct (find_spec (parent st) (nextLabel st) Hwf _ (length (parent st))
                Hlu (Hfuel _ Hsu)) as (p1 & -> & Hwf1 & _ & Hsame).
    eexists. split; [reflexivity|].
    apply labelInv_inherit; try assumption.
    intros a. rewrite (HN a Hx). split.
    + intros [(_ & ? & ?)|(? & _)]; [tauto|assumption].
    + intros ->. right. auto.
  - (* left neighbour only *)
    pose proof (Hlab _ Hsl) as Hll.
    destruct (Nat.eqb_spec (get 0 (labels st) (k - 1)) 0) as [|_]; [lia|].
    cbn [Nat.eqb negb andb].
    destruct (find_spec (parent st) (nextLabel st) Hwf _ (length (parent st))
                Hll (Hfuel _ Hsl)) as (p1 & -> & Hwf1 & _ & Hsame).
    eexists. split; [reflexivity|].
    apply labelInv_inherit; try assumption.
    intros a. rewrite (HN a Hx). split.
    + intros [(? & _)|(_ & ? & ?)]; [assumption|tauto].
    + intros ->. left. auto.
  - (* both neighbours *)
    pose proof (Hlab _ Hsl) as Hll. pose proof (Hlab _ Hsu) as Hlu.
    destruct (Nat.eqb_spec (get 0 (labels st) (k - 1)) 0) as [|_]; [lia|].
    destruct (Nat.eqb_spec (get 0 (labels st) (k - w)) 0) as [|_]; [lia|].
    cbn [negb andb].
    destruct (find_spec (parent st) (nextLabel st) Hwf _ (length (parent st))
                Hll (Hfuel _ Hsl)) as (p1 & -> & Hwf1 & Hlen1 & Hsame1).
    destruct (find_spec p1 (nextLabel st) Hwf1 _ (length (parent st))
                Hlu (Hfuel _ Hsu)) as (p2 & -> & Hwf2 & Hlen2 & Hsame2).
    rewrite (Hsame1 _ Hlu).
    eexists. split; [reflexivity|].
    apply labelInv_merge; try assumption.
    + intros a. rewrite (HN a Hx). split.
      * intros [(? & _)|(? & _)]; auto.
      * intros [-> | ->]; [left|right]; auto.
    + intros l Hl. rewrite (Hsame2 l Hl). apply Hsame1. assumption.
Qed.

Lemma labelInv_init : labelInv fg w h 0 (mkLabel (repeat 0 (w * h)) [] 1).
Proof.
  unfold labelInv, scanned. cbn [labels parent nextLabel].
  split; [apply repeat_length|]. split; [lia|]. split; [|split; [|split]].
  - split; [simpl; lia|]. intros l Hl. lia.
  - intros i [Hi _]. lia.
  - intros i _. apply get_repeat.
  - intros i j [Hi _]. lia.
Qed.

(** The raster scan terminates with its fuel and labels the whole image. *)
Lemma labelScan_spec :
  exists st, labelScan fg w h = Some st /\ labelInv fg w h (w * h) st.
Proof.
  unfold labelScan.
  assert (H := forRange_inv
    (fun y s => exists st, s = Some st /\ labelInv fg w h (y * w) st)
    0 h
    (fun y st => forRange 0 w (fun x st => labelPixel fg w y x st) st)
    (Some (mkLabel (repeat 0 (w * h)) [] 1))).
  cbv beta in H. destruct H as (st & E & Hinv).
  - eexists. split; [reflexivity|]. apply labelInv_init.
  - intros y s Hy (st & -> & Hinv).
    assert (H' := forRange_inv
      (fun x s => exists st, s = Some st /\ labelInv fg w h (y * w + x) st)
      0 w (fun x st => labelPixel fg w y x st) (Some st)).
    cbv beta in H'. destruct H' as (st1 & E1 & Hinv1).
    + exists st. split; [reflexivity|]. rewrite Nat.add_0_r. assumption.
    + intros x s Hx (st' & -> & Hinv').
      destruct (labelPixel_step y x st' ltac:(lia) ltac:(lia) Hinv')
        as (st'' & E & Hinv'').
      exists st''. split; [assumption|].
      replace (y * w + (1 + x)) with (S (y * w + x)) by lia. assumption.
    + exists st1. split; [assumption|].
      replace ((1 + y) * w) with (y * w + (0 + w)) by lia. assumption.
  - exists st. split; [assumption|].
    replace (w * h) with ((0 + h) * w) by lia. assumption.
Qed.

(** The second pass replaces every label by its root. *)
Lemma resolve_spec st0 :
  labelInv fg w h (w * h) st0 ->
  exists st', forRange 0 (w * h) resolvePixel (Some st0) = Some st' /\
              length (labels st') = w * h /\
              forall i, get 0 (labels st') i = resolvedLabel st0 i.
Proof.
  intros (Hlen & Hnext & Hwf & Hlab & Hzero & Hconn).
  assert (H := forRange_inv
    (fun m s => exists st', s = Some st' /\
       length (labels st') = w * h /\
       nextLabel st' = nextLabel st0 /\
       wfParent (parent st') (nextLabel st0) /\
       (forall l, 1 <= l < nextLabel st0 ->
          root (parent st') l = root (parent st0) l) /\
       (forall i, get 0 (labels st') i
                  = if i <? m then resolvedLabel st0 i else get 0 (labels st0) i))
    0 (w * h) resolvePixel (Some st0)).
  cbv beta in H. destruct H as (st' & E & Hlen' & _ & _ & _ & Hget).
  - exists st0. split; [reflexivity|]. split; [assumption|].
    split; [reflexivity|]. split; [assumption|]. split; [reflexivity|].
    intros i. reflexivity.
  - intros m s Hm (st' & -> & Hlen' & Hnext' & Hwf' & Hroots & Hget).
    unfold resolvePixel.
    assert (Em : get 0 (labels st') m = get 0 (labels st0) m).
    { rewrite Hget. destruct (Nat.ltb_spec m m); [lia|reflexivity]. }
    rewrite Em.
    destruct (Nat.eqb_spec (get 0 (labels st0) m) 0) as [E0|Hne].
    + exists st'. split; [reflexivity|]. split; [assumption|].
      split; [assumption|]. split; [assumption|]. split; [assumption|].
      intros i. rewrite Hget.
      destruct (Nat.ltb_spec i m), (Nat.ltb_spec i (1 + m)); try lia; try reflexivity.
      assert (i = m) by lia. subst i. unfold resolvedLabel.
      rewrite E0. reflexivity.
    + assert (Hs : scanned fg (w * h) m).
      { destruct (get false fg m) eqn:Hf; [split; [lia|assumption]|].
        exfalso. apply Hne. apply Hzero. unfold scanned. intros [_ ?]. congruence. }
      pose proof (Hlab m Hs) as Hl.
      assert (Hfuel : get 0 (labels st0) m <= length (parent st')).
      { destruct Hwf' as [_ Hw']. destruct (Hw' _ Hl). lia. }
      destruct (find_spec (parent st') (nextLabel st0) Hwf' _ _ Hl Hfuel)
        as (p1 & -> & Hwf1 & _ & Hsame).
      eexists. split; [reflexivity|]. cbn [labels parent nextLabel].
      split; [rewrite upd_length; assumption|]. split; [assumption|].
      split; [assumption|]. split.
      * intros l Hl'. rewrite (Hsame l Hl'). apply Hroots. assumption.
      * intros i. rewrite get_upd by lia. rewrite Hget.
        destruct (Nat.eqb_spec m i) as [<-|Hmi].
        -- destruct (Nat.ltb_spec m (1 + m)); [|lia].
           unfold resolvedLabel.
           destruct (Nat.eqb_spec (get 0 (labels st0) m) 0); [contradiction|].
           apply Hroots. assumption.
        -- destruct (Nat.ltb_spec i m), (Nat.ltb_spec i (1 + m)); try lia; reflexivity.
  - exists st'. split; [assumption|]. split; [assumption|].
    intros i. rewrite Hget.
    destruct (Nat.ltb_spec i (0 + w * h)) as [|Hge]; [reflexivity|].
    unfold resolvedLabel.
    assert (E0 : get 0 (labels st0) i = 0).
    { apply Hzero. unfold scanned. intros [? _]. lia. }
    rewrite E0. reflexivity.
Qed.

(** What [labelComponents] returns: it terminates, and the label array
    gives [0] to the background, a positive label to every foreground pixel,
    and the same label to two foreground pixels exactly when they are
    4-connected through the foreground. *)
Lemma labelComponents_spec :
  exists L c,
    labelComponents fg w h = Some (L, c) /\
    length L = w * h /\
    (forall i, foreground fg w h i -> 1 <= get 0 L i) /\
    (forall i, ~ foreground fg w h i -> get 0 L i = 0) /\
    (forall i j, foreground fg w h i -> foreground fg w h j ->
       (get 0 L i = get 0 L j <-> connected w (foreground fg w h) i j)).
Proof.
  destruct labelScan_spec as (st0 & Escan & Hinv).
  destruct (resolve_spec st0 Hinv) as (st' & Eres & Hlen & Hget).
  pose proof Hinv as (_ & Hnext & Hwf & Hlab & Hzero & Hconn).
  unfold labelComponents. rewrite Escan, Eres.
  eexists. eexists. split; [reflexivity|]. split; [assumption|].
  unfold foreground.
  assert (Hres : forall i, scanned fg (w * h) i ->
            resolvedLabel st0 i = root (parent st0) (get 0 (labels st0) i)).
  { intros i Hi. unfold resolvedLabel. pose proof (Hlab i Hi).
    destruct (Nat.eqb_spec (get 0 (labels st0) i) 0); [lia|reflexivity]. }
  split; [|split].
  - intros i Hi. rewrite Hget, (Hres i Hi).
    apply (root_spec (parent st0) (nextLabel st0) _ Hwf (Hlab i Hi)).
  - intros i Hi. rewrite Hget. unfold resolvedLabel.
    rewrite (Hzero i Hi). reflexivity.
  - intros i j Hi Hj. rewrite !Hget, (Hres i Hi), (Hres j Hj).
    apply Hconn; assumption.
Qed.

End LabellingProperties.

(** ** Counting the components and keeping the largest *)

Section CountsProperties.

Lemma lookupCount_incr k l counts :
  lookupCount k (countsIncr l counts)
  = lookupCount k counts + (if k =? l then 1 else 0).
Proof.
  induction counts as [|[k' c] rest IH]; simpl.
  - rewrite (Nat.eqb_sym l k). destruct (k =? l); reflexivity.
  - destruct (Nat.eqb_spec k' l) as [->|Hne]; simpl.
    + rewrite (Nat.eqb_sym l k). destruct (Nat.eqb_spec k l); lia.
    + destruct (Nat.eqb_spec k' k) as [->|Hne'].
      * destruct (Nat.eqb_spec k l); [congruence|lia].
      * apply IH.
Qed.

Lemma keys_incr k l counts :
  In k (map fst (countsIncr l counts)) <-> k = l \/ In k (map fst counts).
Proof.
  induction counts as [|[k' c] rest IH]; simpl.
  - intuition.
  - destruct (Nat.eqb_spec k' l) as [->|Hne]; simpl; [intuition|].
    rewrite IH. intuition.
Qed.

Lemma keys_incr_NoDup l counts :
  NoDup (map fst counts) -> NoDup (map fst (countsIncr l counts)).
Proof.
  induction counts as [|[k' c] rest IH]; simpl; intros Hnd.
  - constructor; [intros []|constructor].
  - inversion Hnd as [|? ? Hnot Hnd']; subst.
    destruct (Nat.eqb_spec k' l) as [->|Hne]; simpl.
    + constructor; assumption.
    + constructor; [|apply IH; assumption].
      rewrite keys_incr. intros [->|Hin]; [congruence|contradiction].
Qed.

Lemma keys_incr_head l counts :
  counts <> [] ->
  hd 0 (map fst (countsIncr l counts)) = hd 0 (map fst counts).
Proof.
  destruct counts as [|[k' c] rest]; [congruence|]. intros _. simpl.
  destruct (k' =? l); reflexivity.
Qed.

Lemma countsIncr_nonempty l counts : countsIncr l counts <> [].
Proof.
  destruct counts as [|[k' c] rest]; simpl; [discriminate|].
  destruct (k' =? l); discriminate.
Qed.

(** The map built from a label array, started from [counts]. *)
Lemma counts_fold L : forall counts,
  (forall k, 0 < k ->
     lookupCount k (countsFrom L counts)
     = lookupCount k counts + count_occ Nat.eq_dec L k) /\
  (forall k, In k (map fst (countsFrom L counts)) <->
             In k (map fst counts) \/ (0 < k /\ In k L)) /\
  (NoDup (map fst counts) -> NoDup (map fst (countsFrom L counts))) /\
  (counts <> [] ->
   hd 0 (map fst (countsFrom L counts)) = hd 0 (map fst counts)).
Proof.
  unfold countsFrom.
  induction L as [|l L IH]; intros counts; cbn [fold_left].
  - split; [intros k Hk; simpl; lia|]. split; [|split; auto].
    intros k. simpl. tauto.
  - specialize (IH (if 0 <? l then countsIncr l counts else counts)).
    destruct IH as (Hcnt & Hkeys & Hnd & Hhd).
    destruct (Nat.ltb_spec 0 l) as [Hl|Hl].
    + split; [|split; [|split]].
      * intros k Hk. rewrite (Hcnt k Hk), lookupCount_incr.
        destruct (Nat.eq_dec l k) as [->|Hne].
        -- rewrite count_occ_cons_eq by reflexivity. rewrite Nat.eqb_refl. lia.
        -- rewrite count_occ_cons_neq by assumption.
           destruct (Nat.eqb_spec k l); [congruence|lia].
      * intros k. rewrite Hkeys, keys_incr. simpl. split.
        -- intros [[->|H]|[H1 H2]]; auto.
        -- intros [H|[H1 [->|H2]]]; auto.
      * intros H. apply Hnd. apply keys_incr_NoDup. assumption.
      * intros H. rewrite (Hhd (countsIncr_nonempty l counts)).
        apply keys_incr_head. assumption.
    + assert (l = 0) by lia. subst l.
      split; [|split; [|split]].
      * intros k Hk. rewrite (Hcnt k Hk).
        rewrite count_occ_cons_neq by lia. reflexivity.
      * intros k. rewrite Hkeys. simpl. split.
        -- intros [H|[H1 H2]]; auto.
        -- intros [H|[H1 [E|H2]]]; auto. lia.
      * assumption.
      * assumption.
Qed.

(** The first key of the map is the first positive label of the array. *)
Lemma componentCounts_head L l0 rest zeros :
  L = zeros ++ l0 :: rest -> (forall z, In z zeros -> z = 0) -> 0 < l0 ->
  hd 0 (map fst (componentCounts L)) = l0.
Proof.
  intros -> Hz Hl0. unfold componentCounts. rewrite fold_left_app.
  assert (E : fold_left (fun counts l => if 0 <? l then countsIncr l counts else counts)
                        zeros [] = []).
  { clear Hl0. induction zeros as [|z zs IH]; [reflexivity|]. simpl.
    rewrite (Hz z) by (simpl; auto). simpl. apply IH.
    intros z' Hz'. apply Hz. simpl; auto. }
  rewrite E. cbn [fold_left].
  destruct (Nat.ltb_spec 0 l0); [|lia]. cbn [countsIncr].
  destruct (counts_fold rest [(l0, 1)]) as (_ & _ & _ & Hhd).
  unfold countsFrom in Hhd. apply Hhd. discriminate.
Qed.

(** In a map without repeated keys, a stored pair is what [lookupCount]
    finds. *)
Lemma lookupCount_In k c counts :
  NoDup (map fst counts) -> In (k, c) counts -> lookupCount k counts = c.
Proof.
  induction counts as [|[k' c'] rest IH]; intros Hnd Hin; [contradiction|].
  inversion Hnd as [|? ? Hnot Hnd']; subst. simpl.
  destruct Hin as [E|Hin].
  - injection E as -> ->. rewrite Nat.eqb_refl. reflexivity.
  - destruct (Nat.eqb_spec k' k) as [->|_]; [|apply IH; assumption].
    exfalso. apply Hnot. apply in_map_iff. exists (k, c). auto.
Qed.

(** The loop over the entries keeps the first entry of greatest count. *)
Lemma bestComponent_first_max l1 la ca l2 :
  0 < ca ->
  (forall k c, In (k, c) l1 -> c < ca) ->
  (forall k c, In (k, c) l2 -> c <= ca) ->
  bestComponent (l1 ++ (la, ca) :: l2) = (la, ca).
Proof.
  intros Hca H1 H2. unfold bestComponent. rewrite fold_left_app. cbn [fold_left].
  assert (Hbefore : snd (fold_left
            (fun best lc => if snd best <? snd lc then (fst lc, snd lc) else best)
            l1 (0, 0)) < ca).
  { apply fold_left_inv; [simpl; lia|].
    intros best [k c] Hin Hb. simpl.
    destruct (Nat.ltb_spec (snd best) c); [simpl; apply (H1 k c Hin)|assumption]. }
  destruct (Nat.ltb_spec (snd (fold_left
            (fun best lc => if snd best <? snd lc then (fst lc, snd lc) else best)
            l1 (0, 0))) (snd (la, ca))) as [_|Hge]; [|simpl in Hge; lia].
  cbn [fst snd].
  apply (fold_left_inv (fun best => best = (la, ca))); [reflexivity|].
  intros best [k c] Hin ->. simpl.
  destruct (Nat.ltb_spec ca c) as [Hlt|]; [|reflexivity].
  specialize (H2 k c Hin). lia.
Qed.

(** With two labels in the array, the entry kept is that of the label with
    more pixels, and on equal counts that of the label met first. *)
Lemma bestComponent_two_labels L la lb :
  la <> lb -> 0 < la -> 0 < lb ->
  (forall x, In x L -> x = 0 \/ x = la \/ x = lb) ->
  0 < count_occ Nat.eq_dec L la ->
  count_occ Nat.eq_dec L lb < count_occ Nat.eq_dec L la \/
  (count_occ Nat.eq_dec L lb = count_occ Nat.eq_dec L la /\
   hd 0 (map fst (componentCounts L)) = la) ->
  fst (bestComponent (componentCounts L)) = la.
Proof.
  intros Hab Hla Hlb Hvals Hca Hsize.
  destruct (counts_fold L []) as (Hcnt & Hkeys & Hnd & _).
  change (countsFrom L []) with (componentCounts L) in *.
  set (counts := componentCounts L) in *.
  specialize (Hnd (NoDup_nil _)).
  assert (Hin : In la (map fst counts)).
  { apply Hkeys. right. split; [assumption|].
    apply (count_occ_In Nat.eq_dec). assumption. }
  apply in_map_iff in Hin. destruct Hin as ([k c] & Ek & Hin). simpl in Ek. subst k.
  assert (Ec : c = count_occ Nat.eq_dec L la).
  { rewrite <- (lookupCount_In la c counts Hnd Hin). rewrite (Hcnt la Hla). reflexivity. }
  destruct (in_split _ _ Hin) as (l1 & l2 & Esplit).
  assert (Hother : forall k c', In (k, c') (l1 ++ l2) ->
            c' = count_occ Nat.eq_dec L lb).
  { intros k c' Hin'.
    assert (Hin'' : In (k, c') counts).
    { rewrite Esplit. apply in_app_or in Hin'. apply in_or_app.
      destruct Hin'; [left|right; right]; assumption. }
    assert (Hk : In k (map fst counts)) by (apply in_map_iff; exists (k, c'); auto).
    apply Hkeys in Hk. destruct Hk as [[]|[Hk0 HkL]].
    assert (Hkne : k <> la).
    { intros ->. rewrite Esplit, map_app in Hnd. simpl in Hnd.
      apply NoDup_remove_2 in Hnd. apply Hnd. rewrite <- map_app.
      apply in_map_iff. exists (la, c'). auto. }
    destruct (Hvals k HkL) as [->|[->| ->]]; [lia|congruence|].
    rewrite <- (lookupCount_In lb c' counts Hnd Hin''). rewrite (Hcnt lb Hlb).
    reflexivity. }
  rewrite Esplit.
  destruct Hsize as [Hlt|[Heq Hhd]].
  - rewrite bestComponent_first_max; [reflexivity|lia| |].
    + intros k c' Hin'. rewrite (Hother k c'); [lia|]. apply in_or_app. auto.
    + intros k c' Hin'. rewrite (Hother k c'); [lia|]. apply in_or_app. auto.
  - assert (El1 : l1 = []).
    { destruct l1 as [|[k c'] l1']; [reflexivity|]. exfalso.
      rewrite Esplit in Hhd. simpl in Hhd. subst k.
      rewrite Esplit, map_app in Hnd. simpl in Hnd.
      inversion Hnd as [|? ? Hnot _]; subst. apply Hnot.
      apply in_or_app. right. simpl. auto. }
    subst l1. rewrite bestComponent_first_max; [reflexivity|lia| |].
    + intros k c' [].
    + intros k c' Hin'. rewrite (Hother k c'); [lia|]. assumption.
Qed.

(** Counting a label in the array is counting the pixels of its mask. *)
Lemma count_occ_mask la : forall (L : list nat) (m : list bool),
  length L = length m ->
  (forall i, i < length L -> (get 0 L i = la <-> get false m i = true)) ->
  count_occ Nat.eq_dec L la = countTrue m.
Proof.
  unfold countTrue.
  induction L as [|l L IH]; intros [|b m] Hlen H; try discriminate; [reflexivity|].
  simpl in Hlen. injection Hlen as Hlen.
  assert (IH' := IH m Hlen (fun i Hi => H (S i) ltac:(simpl; lia))).
  specialize (H 0 ltac:(simpl; lia)). unfold get in H. simpl in H.
  destruct (Nat.eq_dec l la) as [E|Hne].
  - rewrite count_occ_cons_eq by assumption.
    rewrite (proj1 H E). simpl. rewrite IH'. reflexivity.
  - rewrite count_occ_cons_neq by assumption.
    destruct b; [exfalso; apply Hne; apply H; reflexivity|].
    simpl. assumption.
Qed.

End CountsProperties.

(** ** Two blobs *)

Section TwoBlobs.
Variables (fg a b : list bool) (w h : nat).
Hypothesis Htwo : twoBlobs w h fg a b.

Lemma pixelOf_bound (m : list bool) i : pixelOf m i -> i < length m.
Proof.
  unfold pixelOf, get. intros H.
  destruct (Nat.lt_ge_cases i (length m)) as [|Hge]; [assumption|].
  rewrite nth_overflow in H by assumption. discriminate.
Qed.

Lemma foreground_blobs i :
  foreground fg w h i <-> pixelOf a i \/ pixelOf b i.
Proof.
  destruct Htwo as (Hfg & Ha & Hb & Hor & _).
  unfold foreground, scanned, pixelOf. rewrite Hor, orb_true_iff. split.
  - intros [_ H]. exact H.
  - intros H. split; [|exact H].
    destruct H as [H|H]; apply pixelOf_bound in H; lia.
Qed.

(** A path through the foreground that starts in [a] stays in [a]. *)
Lemma connected_stays i j :
  connected w (foreground fg w h) i j -> pixelOf a i -> pixelOf a j.
Proof.
  destruct Htwo as (_ & _ & _ & _ & _ & _ & _ & Hsep).
  intros H. induction H as [i Hi|i j k Hij IH Hadj Hk]; intros Ha; [assumption|].
  specialize (IH Ha). apply foreground_blobs in Hk.
  destruct Hk as [Hk|Hk]; [assumption|].
  exfalso. apply (Hsep j k IH Hk Hadj).
Qed.

Lemma blob_in_foreground (m : list bool) i j :
  (forall x, pixelOf m x -> foreground fg w h x) ->
  connected w (pixelOf m) i j -> connected w (foreground fg w h) i j.
Proof. intros Hsub. apply connected_mono. exact Hsub. Qed.

End TwoBlobs.

(** C7. On a mask whose foreground consists of exactly two disjoint
    4-connected blobs [a] and [b], [keepLargestComponent] returns the mask
    of [a] whenever [a] has more pixels than [b], and also when both have the
    same number of pixels and [a] is the blob the row-major scan meets
    first. *)
Theorem keep_largest_of_two_blobs (fg a b : list bool) (w h : nat) :
  twoBlobs w h fg a b ->
  countTrue b < countTrue a \/
  (countTrue b = countTrue a /\ firstEncountered fg a) ->
  keepLargestComponent fg w h = Some a.
Proof.
  intros Htwo Hsize.
  pose proof Htwo as (Hlfg & Hla & Hlb & Hor & Hdisj & [[a0 Ha0] Hca] &
                      [[b0 Hb0] Hcb] & Hsep).
  destruct (labelComponents_spec fg w h)
    as (L & c & EL & HlenL & Hpos & Hzero & Hconn).
  pose proof (foreground_blobs fg a b w h Htwo) as Hfgab.
  assert (HsubA : forall x, pixelOf a x -> foreground fg w h x)
    by (intros x Hx; apply Hfgab; left; assumption).
  assert (HsubB : forall x, pixelOf b x -> foreground fg w h x)
    by (intros x Hx; apply Hfgab; right; assumption).
  set (la := get 0 L a0). set (lb := get 0 L b0).
  assert (HLa : forall i, pixelOf a i -> get 0 L i = la).
  { intros i Hi. apply (Hconn i a0 (HsubA i Hi) (HsubA a0 Ha0)).
    apply (blob_in_foreground fg w h a i a0 HsubA). apply Hca; assumption. }
  assert (HLb : forall i, pixelOf b i -> get 0 L i = lb).
  { intros i Hi. apply (Hconn i b0 (HsubB i Hi) (HsubB b0 Hb0)).
    apply (blob_in_foreground fg w h b i b0 HsubB). apply Hcb; assumption. }
  assert (Hla0 : 0 < la) by (apply (Hpos a0 (HsubA a0 Ha0))).
  assert (Hlb0 : 0 < lb) by (apply (Hpos b0 (HsubB b0 Hb0))).
  assert (Hab : la <> lb).
  { intros E. apply (Hdisj b0); [|assumption].
    apply (connected_stays fg a b w h Htwo a0 b0); [|assumption].
    apply (Hconn a0 b0 (HsubA a0 Ha0) (HsubB b0 Hb0)). exact E. }
  assert (Hcases : forall i, (pixelOf a i /\ get 0 L i = la) \/
                             (pixelOf b i /\ get 0 L i = lb) \/
                             (get false fg i = false /\ get 0 L i = 0)).
  { intros i. destruct (get false a i) eqn:Eai.
    - left. split; [assumption|]. apply HLa. assumption.
    - destruct (get false b i) eqn:Ebi.
      + right. left. split; [assumption|]. apply HLb. assumption.
      + right. right. split; [rewrite Hor, Eai, Ebi; reflexivity|].
        apply Hzero. intros Hf. apply Hfgab in Hf. unfold pixelOf in Hf.
        destruct Hf; congruence. }
  assert (Hvals : forall x, In x L -> x = 0 \/ x = la \/ x = lb).
  { intros x Hx. destruct (In_nth L x 0 Hx) as (i & Hi & <-).
    fold (get 0 L i). destruct (Hcases i) as [[_ ->]|[[_ ->]|[_ ->]]]; auto. }
  assert (HmaskA : forall i, get 0 L i = la <-> get false a i = true).
  { intros i. split.
    - intros E. destruct (Hcases i) as [[H _]|[[_ H]|[_ H]]]; [assumption| |];
        exfalso; lia.
    - apply HLa. }
  assert (HmaskB : forall i, get 0 L i = lb <-> get false b i = true).
  { intros i. split.
    - intros E. destruct (Hcases i) as [[_ H]|[[H _]|[_ H]]]; [|assumption|];
        exfalso; lia.
    - apply HLb. }
  assert (HcntA : count_occ Nat.eq_dec L la = countTrue a)
    by (apply count_occ_mask; [lia|intros i _; apply HmaskA]).
  assert (HcntB : count_occ Nat.eq_dec L lb = countTrue b)
    by (apply count_occ_mask; [lia|intros i _; apply HmaskB]).
  assert (HposA : 0 < count_occ Nat.eq_dec L la).
  { apply (count_occ_In Nat.eq_dec). rewrite <- (HLa a0 Ha0).
    apply nth_In. rewrite HlenL, <- Hla. apply pixelOf_bound. assumption. }
  assert (Hbest : fst (bestComponent (componentCounts L)) = la).
  { apply (bestComponent_two_labels L la lb Hab Hla0 Hlb0 Hvals HposA).
    rewrite HcntA, HcntB.
    destruct Hsize as [Hlt|[Heq (i0 & Hi0 & Hfirst)]]; [left; assumption|].
    right. split; [assumption|].
    assert (Hi0L : i0 < length L)
      by (rewrite HlenL, <- Hla; apply pixelOf_bound; assumption).
    destruct (nth_split L 0 Hi0L) as (l1 & l2 & Esplit & Hl1).
    assert (Ei0 : nth i0 L 0 = la) by (apply (HLa i0 Hi0)).
    transitivity (nth i0 L 0); [|exact Ei0].
    apply (componentCounts_head L (nth i0 L 0) l2 l1 Esplit).
    - intros z Hz. destruct (In_nth l1 z 0 Hz) as (j & Hj & <-).
      assert (Ej : nth j l1 0 = get 0 L j).
      { unfold get. rewrite Esplit. symmetry. apply app_nth1. assumption. }
      rewrite Ej. apply Hzero. unfold foreground, scanned. intros [_ Hf].
      rewrite Hfirst in Hf by lia. discriminate.
    - rewrite Ei0. assumption. }
  unfold keepLargestComponent. rewrite EL, Hbest. f_equal.
  unfold selectLabel.
  set (f := fun i : nat =>
              get false fg i && (i <? length L) && (get 0 L i =? la)).
  apply nth_ext with (d := false) (d' := false);
    [rewrite length_map, length_seq; lia|].
  intros i Hi. rewrite length_map, length_seq in Hi.
  rewrite (nth_indep (map f (seq 0 (length fg))) false (f 0))
    by (rewrite length_map, length_seq; assumption).
  rewrite (map_nth f (seq 0 (length fg)) 0 i).
  rewrite seq_nth by assumption. cbn [Nat.add]. unfold f.
  destruct (Nat.ltb_spec i (length L)) as [_|]; [|lia].
  fold (get false a i).
  destruct (Hcases i) as [[Hai ->]|[[Hbi ->]|[Hf ->]]].
  - rewrite Hor, Hai, Nat.eqb_refl. reflexivity.
  - destruct (Nat.eqb_spec lb la); [congruence|].
    rewrite !andb_false_r. symmetry.
    destruct (get false a i) eqn:Eai; [|reflexivity].
    exfalso. apply (Hdisj i); assumption.
  - rewrite Hf. cbn [andb]. symmetry.
    rewrite Hor in Hf. apply orb_false_iff in Hf. apply Hf.
Qed.

Lemma exampleBlobA_pixels i : pixelOf exampleBlobA i -> i = 0 \/ i = 1.
Proof.
  unfold pixelOf, get, exampleBlobA.
  destruct i as [|[|[|[|[|[|[|[|i]]]]]]]]; simpl; try discriminate; auto.
  destruct i; discriminate.
Qed.

Lemma exampleBlobB_pixels i : pixelOf exampleBlobB i -> i = 3.
Proof.
  unfold pixelOf, get, exampleBlobB.
  destruct i as [|[|[|[|[|[|[|[|i]]]]]]]]; simpl; try discriminate; auto.
  destruct i; discriminate.
Qed.

Lemma example_twoBlobs : twoBlobs 4 2 exampleMask exampleBlobA exampleBlobB.
Proof.
  unfold twoBlobs.
  split; [reflexivity|]. split; [reflexivity|]. split; [reflexivity|].
  split; [|split; [|split; [|split]]].
  - intros i. unfold get, exampleMask, exampleBlobA, exampleBlobB.
    destruct i as [|[|[|[|[|[|[|[|i]]]]]]]]; simpl; try reflexivity.
    destruct i; reflexivity.
  - intros i Ha Hb. apply exampleBlobA_pixels in Ha.
    apply exampleBlobB_pixels in Hb. lia.
  - split; [exists 0; reflexivity|].
    intros i j Hi Hj.
    assert (H01 : connected 4 (pixelOf exampleBlobA) 0 1).
    { apply connected_edge; [reflexivity|reflexivity|].
      left. split; [reflexivity|discriminate]. }
    destruct (exampleBlobA_pixels i Hi) as [-> | ->],
             (exampleBlobA_pixels j Hj) as [-> | ->].
    + apply connected_refl. reflexivity.
    + exact H01.
    + apply connected_sym. exact H01.
    + apply connected_refl. reflexivity.
  - split; [exists 3; reflexivity|].
    intros i j Hi Hj.
    rewrite (exampleBlobB_pixels i Hi), (exampleBlobB_pixels j Hj).
    apply connected_refl. reflexivity.
  - intros i j Hi Hj. rewrite (exampleBlobB_pixels j Hj).
    unfold adj4. destruct (exampleBlobA_pixels i Hi) as [-> | ->]; simpl; lia.
Defined.

Lemma keep_largest_of_two_blobs_witness :
  keepLargestComponent exampleMask 4 2 = Some exampleBlobA.
Proof.
  apply (keep_largest_of_two_blobs exampleMask exampleBlobA exampleBlobB 4 2).
  - exact example_twoBlobs.
  - left. vm_compute. lia.
Defined.

(** ** Flood fill: the work list empties within the fuel *)

Section FloodProperties.
Variables w h : nat.
Hypothesis Hw : 1 <= w.
Hypothesis Hh : 1 <= h.

Lemma neighbors_bound idx m :
  idx < w * h -> In (Some m) (neighbors w h idx) -> m < w * h.
Proof.
  intros Hidx. unfold neighbors.
  assert (Hx : idx mod w < w) by (apply Nat.mod_upper_bound; lia).
  assert (Hy : idx / w < h) by (apply Nat.Div0.div_lt_upper_bound; assumption).
  assert (E : idx = w * (idx / w) + idx mod w) by apply Nat.div_mod_eq.
  set (x := idx mod w) in *. set (y := idx / w) in *.
  assert (Hrow : w * y + w <= w * h).
  { replace (w * y + w) with (w * (y + 1)) by lia. apply Nat.mul_le_mono_l. lia. }
  intros [H|[H|[H|[H|[]]]]].
  - destruct (0 <? x); [injection H as <-; lia|discriminate].
  - destruct (Nat.ltb_spec x (w - 1)); [injection H as <-; lia|discriminate].
  - destruct (0 <? y); [injection H as <-; lia|discriminate].
  - destruct (Nat.ltb_spec y (h - 1)) as [Hlt|]; [injection H as <-|discriminate].
    assert (w * (y + 2) <= w * h) by (apply Nat.mul_le_mono_l; lia). lia.
Qed.

Lemma pushNeighbors_spec fg visited ns : forall queue,
  Forall (fun i => i < w * h) queue ->
  (forall m, In (Some m) ns -> m < w * h) ->
  Forall (fun i => i < w * h) (pushNeighbors fg visited ns queue) /\
  length (pushNeighbors fg visited ns queue) <= length queue + length ns.
Proof.
  unfold pushNeighbors.
  induction ns as [|n ns IH]; intros queue Hq Hns; cbn [fold_left].
  - split; [assumption|simpl; lia].
  - assert (Hns' : forall m, In (Some m) ns -> m < w * h)
      by (intros m Hm; apply Hns; right; assumption).
    destruct n as [n|].
    + destruct (negb (memNat n visited) && negb (get false fg n)).
      * destruct (IH (queue ++ [n])) as [Hall Hlen]; [|assumption|].
        -- apply Forall_app. split; [assumption|].
           constructor; [apply Hns; left; reflexivity|constructor].
        -- split; [assumption|]. rewrite length_app in Hlen. simpl in *. lia.
      * destruct (IH queue Hq Hns') as [Hall Hlen].
        split; [assumption|]. simpl. lia.
    + destruct (IH queue Hq Hns') as [Hall Hlen].
      split; [assumption|]. simpl. lia.
Qed.

Lemma filter_length_le {A} (p q : A -> bool) (l : list A) :
  (forall x, q x = true -> p x = true) ->
  length (filter q l) <= length (filter p l).
Proof.
  intros H. induction l as [|x l IH]; simpl; [lia|].
  destruct (q x) eqn:Eq.
  - rewrite (H x Eq). simpl. lia.
  - destruct (p x); simpl; lia.
Qed.

Lemma filter_length_lt {A} (p q : A -> bool) (l : list A) x :
  (forall y, q y = true -> p y = true) ->
  In x l -> p x = true -> q x = false ->
  length (filter q l) < length (filter p l).
Proof.
  intros H Hin Hp Hq. induction l as [|y l IH]; [contradiction|]. simpl.
  destruct Hin as [->|Hin].
  - rewrite Hp, Hq. simpl.
    pose proof (filter_length_le p q l H). lia.
  - specialize (IH Hin). destruct (q y) eqn:Eq.
    + rewrite (H y Eq). simpl. lia.
    + destruct (p y); simpl; lia.
Qed.

(** Visiting a new pixel lowers the number of unvisited ones. *)
Lemma unvisited_visit n visited idx :
  idx < n -> memNat idx visited = false ->
  unvisited n (idx :: visited) < unvisited n visited.
Proof.
  intros Hidx Hnew. unfold unvisited.
  apply filter_length_lt with (x := idx).
  - intros y. unfold memNat. simpl.
    destruct (y =? idx); simpl; [discriminate|auto].
  - apply in_seq. lia.
  - rewrite Hnew. reflexivity.
  - unfold memNat. simpl. rewrite Nat.eqb_refl. reflexivity.
Qed.

(** The loop returns whenever the fuel covers the work list plus four
    pushes per pixel still unvisited. *)
Lemma floodLoop_total fg : forall fuel queue visited isBackground,
  Forall (fun i => i < w * h) queue ->
  length queue + 4 * unvisited (w * h) visited <= fuel ->
  exists r, floodLoop fuel fg w h queue visited isBackground = Some r.
Proof.
  induction fuel as [|f IH]; intros queue visited isBg Hq Hfuel.
  - destruct queue as [|idx rest]; [|cbn [length] in Hfuel; lia].
    eexists. reflexivity.
  - destruct queue as [|idx rest]; [eexists; reflexivity|].
    cbn [floodLoop]. inversion Hq as [|? ? Hidx Hrest]; subst.
    destruct (memNat idx visited || get false fg idx) eqn:Eskip.
    + apply IH; [assumption|]. cbn [length] in Hfuel. lia.
    + apply orb_false_iff in Eskip. destruct Eskip as [Hnew _].
      destruct (pushNeighbors_spec fg (idx :: visited) (neighbors w h idx) rest Hrest
                  (fun m Hm => neighbors_bound idx m Hidx Hm)) as [Hall Hlen].
      apply IH; [assumption|].
      pose proof (unvisited_visit (w * h) visited idx Hidx Hnew).
      assert (E4 : length (neighbors w h idx) = 4) by reflexivity.
      cbn [length] in Hfuel. lia.
Qed.

Lemma edgeSeeds_spec fg :
  Forall (fun i => i < w * h) (edgeSeeds fg w h) /\
  length (edgeSeeds fg w h) <= w + 2 * h.
Proof.
  unfold edgeSeeds.
  assert (Htop := forRange_inv
    (fun x q => Forall (fun i => i < w * h) q /\ length q <= x)
    0 w (fun x q => if get false fg x then q else q ++ [x]) []).
  cbv beta in Htop. destruct Htop as [Htall Htlen].
  { split; [constructor|simpl; lia]. }
  { intros x q Hx [Hall Hlen]. destruct (get false fg x).
    - split; [assumption|lia].
    - split; [|rewrite length_app; simpl; lia].
      apply Forall_app. split; [assumption|]. constructor; [|constructor].
      assert (w * 1 <= w * h) by (apply Nat.mul_le_mono_l; lia). lia. }
  set (top := forRange 0 w (fun x q => if get false fg x then q else q ++ [x]) []) in *.
  assert (Hside := forRange_inv
    (fun y q => Forall (fun i => i < w * h) q /\ length q <= w + 2 * y)
    0 h
    (fun y q =>
       let leftIdx := y * w in
       let rightIdx := y * w + w - 1 in
       let q := if get false fg leftIdx then q else q ++ [leftIdx] in
       if get false fg rightIdx then q else q ++ [rightIdx]) top).
  cbv beta in Hside. apply Hside.
  - split; [assumption|lia].
  - intros y q Hy [Hall Hlen]. cbv zeta.
    assert (Hrow : y * w + w <= w * h).
    { replace (y * w + w) with (w * (y + 1)) by lia. apply Nat.mul_le_mono_l. lia. }
    assert (Hl : Forall (fun i => i < w * h)
                   (if get false fg (y * w) then q else q ++ [y * w]) /\
                 length (if get false fg (y * w) then q else q ++ [y * w])
                 <= w + 2 * y + 1).
    { destruct (get false fg (y * w)).
      - split; [assumption|lia].
      - split; [|rewrite length_app; simpl; lia].
        apply Forall_app. split; [assumption|]. constructor; [lia|constructor]. }
    destruct Hl as [Hall' Hlen'].
    destruct (get false fg (y * w + w - 1)).
    + split; [assumption|lia].
    + split; [|rewrite length_app; simpl; lia].
      apply Forall_app. split; [assumption|]. constructor; [lia|constructor].
Qed.

Lemma unvisited_none n : unvisited n [] = n.
Proof.
  unfold unvisited.
  assert (E : forall l : list nat,
            filter (fun i => negb (memNat i [])) l = l).
  { induction l as [|x l IH]; simpl; [reflexivity|]. f_equal. assumption. }
  rewrite E. apply length_seq.
Qed.

Lemma fillFromEdges_total fg : exists r, fillFromEdges fg w h = Some r.
Proof.
  unfold fillFromEdges.
  destruct (edgeSeeds_spec fg) as [Hall Hlen].
  destruct (floodLoop_total fg (floodFuel w h) (edgeSeeds fg w h) []
              (repeat false (w * h)) Hall) as [r ->].
  - rewrite unvisited_none. unfold floodFuel. lia.
  - eexists. reflexivity.
Qed.

End FloodProperties.

(** ** The pipeline always returns *)

Section PipelineTotality.

Lemma keepLargestComponent_total fg w h :
  exists r, keepLargestComponent fg w h = Some r.
Proof.
  destruct (labelComponents_spec fg w h) as (L & c & E & _).
  unfold keepLargestComponent. rewrite E. eexists. reflexivity.
Qed.

Lemma foregroundMask_total gray w h options :
  1 <= w -> 1 <= h -> exists fg, foregroundMask gray w h options = Some fg.
Proof.
  intros Hw Hh. unfold foregroundMask.
  destruct (keepLargestComponent_total
    (fst (binarizeWithPolarity gray w h
            (biasedThreshold (otsuThreshold gray) options) (invert options))) w h)
    as [fg1 ->].
  cbn [bindOpt].
  assert (H1 : exists fg2,
    (if (1 <=? nullish (cleanup options) 0)%Z
     then keepLargestComponent (morphClose fg1 w h) w h else Some fg1) = Some fg2).
  { destruct (1 <=? nullish (cleanup options) 0)%Z;
      [apply keepLargestComponent_total|eexists; reflexivity]. }
  destruct H1 as [fg2 ->]. cbn [bindOpt].
  assert (H2 : exists fg3,
    (if (2 <=? nullish (cleanup options) 0)%Z
     then keepLargestComponent (morphClose (morphOpen fg2 w h) w h) w h
     else Some fg2) = Some fg3).
  { destruct (2 <=? nullish (cleanup options) 0)%Z;
      [apply keepLargestComponent_total|eexists; reflexivity]. }
  destruct H2 as [fg3 ->]. cbn [bindOpt].
  assert (H3 : exists fg4,
    (if (1 <=? nullish (cleanup options) 0)%Z
     then
       if fractionDegenerate (countTrue fg3) (w * h)
       then bindOpt (fillFromEdges fg3 w h) (fun fgFilled =>
              if fractionUsable (countTrue fgFilled) (w * h)
              then keepLargestComponent fgFilled w h else Some fg3)
       else Some fg3
     else Some fg3) = Some fg4).
  { destruct (1 <=? nullish (cleanup options) 0)%Z; [|eexists; reflexivity].
    destruct (fractionDegenerate (countTrue fg3) (w * h)); [|eexists; reflexivity].
    destruct (fillFromEdges_total w h Hw Hh fg3) as [filled ->]. cbn [bindOpt].
    destruct (fractionUsable (countTrue filled) (w * h));
      [apply keepLargestComponent_total|eexists; reflexivity]. }
  destruct H3 as [fg4 ->]. cbn [bindOpt].
  eexists. reflexivity.
Qed.

Lemma processingSize_positive rw rh w h :
  processingSize rw rh = Some (w, h) -> (1 <= w /\ 1 <= h)%Z.
Proof.
  unfold processingSize. destruct rw as [rw'| |], rh as [rh'| |]; try discriminate.
  destruct ((rw' <? 1)%Z || (rh' <? 1)%Z); [discriminate|].
  destruct (clampWidth rw' rh') as [w1 h1]. destruct (clampPixels w1 h1) as [w2 h2].
  destruct (Z.ltb_spec w2 1); [discriminate|].
  destruct (Z.ltb_spec h2 1); [discriminate|]. cbn [orb].
  intros E. injection E as <- <-. lia.
Qed.

Lemma processingSize_unusable rw rh :
  unusable rw \/ unusable rh -> processingSize rw rh = None.
Proof.
  unfold processingSize, unusable.
  destruct rw as [rw'| |], rh as [rh'| |]; try reflexivity.
  intros [H|H].
  - destruct (Z.ltb_spec rw' 1); [reflexivity|lia].
  - destruct (Z.ltb_spec rh' 1); [rewrite orb_true_r; reflexivity|lia].
Qed.

Lemma resample_some raw targetPoints :
  raw <> [] -> (1 <= tripCount targetPoints)%nat ->
  exists out, resample raw targetPoints = Some out.
Proof.
  intros Hraw Htp. unfold resample.
  destruct (resampled_some raw targetPoints Hraw) as [o1 E1]. rewrite E1.
  destruct (resampled_spec (fun _ => True) raw targetPoints o1) as [Hlen1 _];
    [apply Forall_forall; intros; exact I|exact E1|].
  destruct (setY_some o1 0 0%Q ltac:(lia)) as [o2 E2]. rewrite E2.
  assert (Hlen2 : length o2 = length o1).
  { unfold setY in E2. destruct (0 <? length o1)%nat; [|discriminate].
    injection E2 as <-. apply upd_length. }
  destruct (setY_some o2 (length o2 - 1) 1%Q ltac:(lia)) as [o3 ->].
  eexists. reflexivity.
Qed.

(** The running maximum of the radii stays under any bound the radii stay
    under. *)
Lemma radii_max_below fg w b c right bound :
  (0 < bound)%Z ->
  Forall (fun r => (r < bound)%Z) (fst (radii fg w b c right)) ->
  (snd (radii fg w b c right) < bound)%Z.
Proof.
  intros Hb Hall. rewrite radii_rows in Hall. rewrite Forall_forall in Hall.
  unfold radii, forUpTo.
  apply (forRange_inv (fun (_ : nat) (acc : list Z * Z) => (snd acc < bound)%Z)).
  - simpl. assumption.
  - intros y acc Hy Hacc. cbn [snd].
    destruct (Z.ltb_spec (snd acc) (rowRadius fg w c right y)); [|assumption].
    apply Hall. apply in_map. apply in_seq. lia.
Qed.

(** The measurement returns whenever [targetPoints] is a number. *)
Lemma measure_returns fg w h options :
  clampedTargetPoints options <> NaN ->
  exists r, measure fg w h options = Returns r.
Proof.
  intros Hnum. unfold measure.
  destruct (Z.ltb_spec (boxHeight (boundingBox fg w h)) 10) as [|Hheight];
    [eexists; reflexivity|].
  set (b := boundingBox fg w h) in *. set (c := centerlineX fg w b).
  set (right := extractRightSide fg w b c).
  pose proof (radii_nonneg fg w b c right) as Hnn.
  pose proof (radii_length fg w b c right) as Hlen.
  destruct (radii fg w b c right) as [radiusByRow maxRadius]. cbn [fst] in Hnn, Hlen.
  destruct (maxRadius <? 2)%Z; [eexists; reflexivity|].
  destruct (resample_some (rawPoints (smoothedRadii radiusByRow options) maxRadius)
              (clampedTargetPoints options)) as [out ->].
  - intros E. apply (f_equal (@length _)) in E.
    rewrite rawPoints_length, smoothedRadii_length, Hlen in E.
    unfold boxHeight in Hheight. simpl in E. lia.
  - destruct (tripCount_clamped options) as [H|H]; [lia|contradiction].
  - eexists. reflexivity.
Qed.

(** With [targetPoints] NaN, the measurement of a mask that passes the two
    guards throws. *)
Lemma measure_throws fg w h options :
  clampedTargetPoints options = NaN ->
  (10 <= boxHeight (boundingBox fg w h))%Z ->
  (2 <= snd (radii fg w (boundingBox fg w h)
               (centerlineX fg w (boundingBox fg w h))
               (extractRightSide fg w (boundingBox fg w h)
                  (centerlineX fg w (boundingBox fg w h)))))%Z ->
  measure fg w h options = Throws.
Proof.
  intros Hnan Hheight Hradius. unfold measure.
  destruct (Z.ltb_spec (boxHeight (boundingBox fg w h)) 10); [lia|].
  destruct (radii _ _ _ _ _) as [radiusByRow maxRadius]. cbn [snd] in Hradius.
  destruct (Z.ltb_spec maxRadius 2); [lia|].
  rewrite Hnan, resample_nan. reflexivity.
Qed.

Lemma measure_degenerate fg w h options :
  (boxHeight (boundingBox fg w h) < 10)%Z \/
  Forall (fun r => (r < 2)%Z) (measuredRadii fg w h) ->
  measure fg w h options = Returns emptyResult.
Proof.
  unfold measure, measuredRadii.
  destruct (Z.ltb_spec (boxHeight (boundingBox fg w h)) 10) as [|Hheight];
    [reflexivity|].
  intros [H|H]; [lia|].
  set (b := boundingBox fg w h) in *. set (c := centerlineX fg w b) in *.
  set (right := extractRightSide fg w b c) in *.
  pose proof (radii_max_below fg w b c right 2 ltac:(lia) H) as Hmax.
  destruct (radii fg w b c right) as [radiusByRow maxRadius]. cbn [snd] in Hmax.
  destruct (Z.ltb_spec maxRadius 2); [reflexivity|lia].
Qed.

End PipelineTotality.

(** ** Degenerate input and exceptions *)

(** X28. For a [targetPoints] that is a number, or absent, every call
    returns a result: it neither throws nor runs out of the fuel of an inner
    loop. And whatever the options, the result is empty whenever the width
    or the height is not a finite number or is not positive, whenever the
    bounding box of the measured mask is less than 10 rows high, and
    whenever every row radius (hence the maximum radius) is below 2
    pixels. *)
Theorem extract_returns_for_numeric_target context2d image options :
  (targetPoints options <> Some NaN ->
   exists r, extractProfileFromImage context2d image options = Returns r) /\
  (unusable (imageWidth image) \/ unusable (imageHeight image) ->
   extractProfileFromImage context2d image options = Returns emptyResult) /\
  (forall w h fg,
     measuredMask image options = Some (w, h, fg) ->
     (boxHeight (boundingBox fg w h) < 10)%Z \/
     Forall (fun r => (r < 2)%Z) (measuredRadii fg w h) ->
     extractProfileFromImage context2d image options = Returns emptyResult).
Proof.
  unfold extractProfileFromImage, measuredMask.
  destruct (negb context2d).
  { split; [eexists; reflexivity|]. split; reflexivity. }
  split; [|split].
  - intros Hnum.
    destruct (processingSize (imageWidth image) (imageHeight image))
      as [[w h]|] eqn:Esize; [|eexists; reflexivity].
    destruct (processingSize_positive _ _ _ _ Esize) as [Hw Hh].
    destruct (foregroundMask_total
      (preprocess (imageData image (Z.to_nat w) (Z.to_nat h))
                  (Z.to_nat w) (Z.to_nat h) options)
      (Z.to_nat w) (Z.to_nat h) options ltac:(lia) ltac:(lia)) as [fg ->].
    apply measure_returns.
    destruct (clampedTargetPoints_cases options) as [(t & -> & _)|[_ E]];
      [discriminate|contradiction].
  - intros H. rewrite (processingSize_unusable _ _ H). reflexivity.
  - intros w h fg.
    destruct (processingSize (imageWidth image) (imageHeight image))
      as [[w0 h0]|]; [|discriminate].
    destruct (foregroundMask _ _ _ _) as [fg0|]; [|discriminate].
    intros E. injection E as <- <- <-. apply measure_degenerate.
Qed.

Lemma extract_returns_for_numeric_target_witness :
  (exists r, extractProfileFromImage true exampleImage twelvePoints = Returns r) /\
  extractProfileFromImage true (mkImage NonFinite (Finite 12) exampleData)
                          defaultOptions = Returns emptyResult.
Proof.
  split.
  - apply (proj1 (extract_returns_for_numeric_target true exampleImage twelvePoints)).
    discriminate.
  - apply (proj1 (proj2 (extract_returns_for_numeric_target true
             (mkImage NonFinite (Finite 12) exampleData) defaultOptions))).
    left. exact I.
Defined.

(** With [targetPoints] NaN, every call that reaches the resampling, past
    the guards on the size, the bounding box and the radii, throws. *)
Lemma extract_throws_for_nan_target image options w h fg :
  targetPoints options = Some NaN ->
  measuredMask image options = Some (w, h, fg) ->
  (10 <= boxHeight (boundingBox fg w h))%Z ->
  (2 <= snd (radii fg w (boundingBox fg w h)
               (centerlineX fg w (boundingBox fg w h))
               (extractRightSide fg w (boundingBox fg w h)
                  (centerlineX fg w (boundingBox fg w h)))))%Z ->
  extractProfileFromImage true image options = Throws.
Proof.
  intros Hnan. unfold extractProfileFromImage, measuredMask. cbn [negb].
  destruct (processingSize (imageWidth image) (imageHeight image))
    as [[w0 h0]|]; [|discriminate].
  destruct (foregroundMask _ _ _ _) as [fg0|]; [|discriminate].
  intros E. injection E as <- <- <-. apply measure_throws.
  unfold clampedTargetPoints. rewrite Hnan. reflexivity.
Qed.

(** C3, at [{ targetPoints: NaN }]. [Math.max(8, Math.min(24, NaN))] is
    NaN, the loop [for (k = 0; k < NaN; k++)] makes no trip, [out] stays
    empty and [out[0].y = 0] throws: on the example image, for which the
    default options return a profile, the call ends with an exception. *)
Theorem extract_throws_at_nan_target_points :
  extractProfileFromImage true exampleImage nanTargetPoints = Throws /\
  exists r,
    extractProfileFromImage true exampleImage defaultOptions = Returns r /\
    length (profile r) = 18.
Proof.
  split; [vm_compute; reflexivity|].
  eexists. split; [vm_compute; reflexivity|]. reflexivity.
Qed.

(** ** Connected components, for every mask *)

Section ComponentProperties.

(** The loop over the entries ends with an entry of greatest count, or with
    [(0, 0)] when no entry has a positive count. *)
Lemma bestComponent_max counts :
  (forall k c, In (k, c) counts -> c <= snd (bestComponent counts)) /\
  (In (bestComponent counts) counts \/ bestComponent counts = (0, 0)).
Proof.
  unfold bestComponent.
  assert (H : forall (l : list (nat * nat)) (init : nat * nat),
    let r := fold_left
      (fun best lc => if snd best <? snd lc then (fst lc, snd lc) else best)
      l init in
    snd init <= snd r /\
    (forall k c, In (k, c) l -> c <= snd r) /\
    (In r l \/ r = init)).
  { induction l as [|[k c] l IH]; intros init; cbn zeta.
    - simpl. split; [lia|]. split; [intros ? ? []|right; reflexivity].
    - cbn [fold_left fst snd].
      destruct (Nat.ltb_spec (snd init) c) as [Hlt|Hge].
      + destruct (IH (k, c)) as (Hle & Hall & Hin). cbn [snd] in Hle.
        split; [lia|]. split.
        * intros k' c' [E|Hin']; [|apply (Hall k' c' Hin')].
          injection E as <- <-. assumption.
        * left. destruct Hin as [Hin | ->]; [right; assumption|left; reflexivity].
      + destruct (IH init) as (Hle & Hall & Hin).
        split; [assumption|]. split.
        * intros k' c' [E|Hin']; [|apply (Hall k' c' Hin')].
          injection E as <- <-. lia.
        * destruct Hin as [Hin | ->]; [left; right; assumption|right; reflexivity]. }
  destruct (H counts (0, 0)) as (_ & Hall & Hin).
  split; [exact Hall|]. destruct Hin; auto.
Qed.

(** A mask inside the pixels of one label has no more pixels than the label
    has occurrences. *)
Lemma countTrue_le_count_occ l : forall (L : list nat) (m : list bool),
  length L = length m ->
  (forall i, get false m i = true -> get 0 L i = l) ->
  countTrue m <= count_occ Nat.eq_dec L l.
Proof.
  unfold countTrue.
  induction L as [|x L IH]; intros [|b m] Hlen H; try discriminate; [simpl; lia|].
  simpl in Hlen. injection Hlen as Hlen.
  assert (IH' := IH m Hlen (fun i Hi => H (S i) Hi)).
  specialize (H 0). unfold get in H. simpl in H.
  destruct (Nat.eq_dec x l) as [E|Hne].
  - rewrite count_occ_cons_eq by assumption. destruct b; simpl; lia.
  - rewrite count_occ_cons_neq by assumption.
    destruct b; [exfalso; apply Hne; apply H; reflexivity|]. simpl. assumption.
Qed.

Lemma selectLabel_length fg L l : length (selectLabel fg L l) = length fg.
Proof. unfold selectLabel. rewrite length_map, length_seq. reflexivity. Qed.

Lemma selectLabel_get fg L l i :
  get false (selectLabel fg L l) i
  = get false fg i && (i <? length L) && (get 0 L i =? l).
Proof.
  unfold selectLabel, get.
  destruct (Nat.lt_ge_cases i (length fg)) as [Hi|Hi].
  - set (f := fun i => nth i fg false && (i <? length L) && (nth i L 0 =? l)).
    rewrite (nth_indep (map f _) false (f 0))
      by (rewrite length_map, length_seq; assumption).
    rewrite (map_nth f), seq_nth by assumption. reflexivity.
  - rewrite nth_overflow by (rewrite length_map, length_seq; assumption).
    rewrite (nth_overflow fg) by assumption. reflexivity.
Qed.

Lemma foreground_pixelOf fg w h i :
  length fg = w * h -> (foreground fg w h i <-> pixelOf fg i).
Proof.
  intros Hlen. unfold foreground, scanned, pixelOf. split; [tauto|].
  intros H. split; [|assumption]. rewrite <- Hlen. apply pixelOf_bound. exact H.
Qed.

Lemma foreground_dec fg w h i : foreground fg w h i \/ ~ foreground fg w h i.
Proof.
  unfold foreground, scanned.
  destruct (Nat.lt_ge_cases i (w * h)); [|right; lia].
  destruct (get false fg i); [left; auto|right; intros [_ ?]; discriminate].
Qed.

(** X2. On every mask of the frame, [keepLargestComponent] returns a mask
    of the same size that adds no pixel, is one whole 4-connected component
    of the foreground (any two kept pixels are joined, and every foreground
    pixel joined to a kept one is kept), is at least as large as any
    4-connected set of foreground pixels, and is not empty unless the
    foreground is. *)
Theorem keep_largest_keeps_a_largest_component (fg : list bool) (w h : nat) :
  length fg = w * h ->
  exists out,
    keepLargestComponent fg w h = Some out /\
    length out = w * h /\
    (forall i, pixelOf out i -> pixelOf fg i) /\
    (forall i j, pixelOf out i -> pixelOf out j ->
                 connected w (pixelOf fg) i j) /\
    (forall i j, pixelOf out i -> connected w (pixelOf fg) i j ->
                 pixelOf out j) /\
    (forall m, length m = w * h ->
       (forall i j, pixelOf m i -> pixelOf m j -> connected w (pixelOf fg) i j) ->
       countTrue m <= countTrue out) /\
    ((exists i, pixelOf fg i) -> exists i, pixelOf out i).
Proof.
  intros Hlen.
  destruct (labelComponents_spec fg w h) as (L & c & EL & HlenL & Hpos & Hzero & Hconn).
  unfold keepLargestComponent. rewrite EL.
  set (counts := componentCounts L).
  destruct (counts_fold L []) as (Hcnt & Hkeys & Hnd & _).
  change (countsFrom L []) with counts in *.
  specialize (Hnd (NoDup_nil _)).
  destruct (bestComponent_max counts) as [Hmax Hbest].
  set (bl := fst (bestComponent counts)) in *.
  set (bc := snd (bestComponent counts)) in *.
  assert (Hconn' : forall i j, connected w (foreground fg w h) i j
                               <-> connected w (pixelOf fg) i j).
  { intros i j. apply connected_iff. intros x. apply foreground_pixelOf. assumption. }
  assert (Hlabel_count : forall l, 0 < l -> In l L ->
            count_occ Nat.eq_dec L l <= bc).
  { intros l Hl HlL.
    assert (Hk : In l (map fst counts)) by (apply Hkeys; right; auto).
    apply in_map_iff in Hk. destruct Hk as ([k cl] & Ek & Hin). simpl in Ek. subst k.
    pose proof (Hcnt l Hl) as E. cbn [lookupCount Nat.add] in E. rewrite <- E.
    rewrite (lookupCount_In l cl counts Hnd Hin). apply (Hmax l cl Hin). }
  assert (Hget : forall i, get false (selectLabel fg L bl) i = true <->
                           pixelOf fg i /\ get 0 L i = bl).
  { intros i. rewrite selectLabel_get, !andb_true_iff, Nat.ltb_lt, Nat.eqb_eq.
    unfold pixelOf. split; [tauto|]. intros [Hp Hb]. repeat split; try assumption.
    rewrite HlenL, <- Hlen. apply pixelOf_bound. exact Hp. }
  eexists. split; [reflexivity|].
  split; [rewrite selectLabel_length; assumption|].
  split; [intros i Hi; apply Hget in Hi; tauto|].
  split.
  { intros i j Hi Hj. apply Hget in Hi, Hj. destruct Hi as [Hi Ei], Hj as [Hj Ej].
    apply Hconn'.
    apply Hconn;
      [apply (proj2 (foreground_pixelOf fg w h _ Hlen)); assumption..
      |congruence]. }
  split.
  { intros i j Hi Hij. apply Hget in Hi. destruct Hi as [Hi Ei].
    apply Hget. pose proof (connected_right w _ _ _ Hij) as Hj. split; [assumption|].
    rewrite <- Ei. symmetry.
    apply Hconn;
      [apply (proj2 (foreground_pixelOf fg w h _ Hlen)); assumption..|].
    apply Hconn'. assumption. }
  assert (Hbl : (0 < bl /\ In bl L /\ bc = count_occ Nat.eq_dec L bl) \/
                (forall i, ~ pixelOf fg i)).
  { destruct Hbest as [Hin|E].
    - left.
      assert (Hk : In bl (map fst counts)).
      { apply in_map_iff. exists (bestComponent counts). auto. }
      apply Hkeys in Hk. destruct Hk as [[]|[Hpos' HinL]].
      split; [assumption|]. split; [assumption|].
      pose proof (Hcnt bl Hpos') as E. cbn [lookupCount Nat.add] in E. rewrite <- E.
      symmetry. apply (lookupCount_In bl bc counts Hnd).
      unfold bl, bc. rewrite <- surjective_pairing. exact Hin.
    - right. intros i Hi.
      assert (Hf : foreground fg w h i)
        by (apply (proj2 (foreground_pixelOf fg w h _ Hlen)); assumption).
      specialize (Hpos i Hf).
      assert (HinL : In (get 0 L i) L).
      { apply get_In. rewrite HlenL. apply Hf. }
      specialize (Hlabel_count _ Hpos HinL).
      assert (bc = 0) by (unfold bc; rewrite E; reflexivity).
      assert (0 < count_occ Nat.eq_dec L (get 0 L i))
        by (apply count_occ_In; assumption).
      lia. }
  assert (Hout : 0 < bl -> countTrue (selectLabel fg L bl)
                           = count_occ Nat.eq_dec L bl).
  { intros Hpos'. symmetry. apply count_occ_mask.
    - rewrite selectLabel_length. congruence.
    - intros i Hi. rewrite Hget. split; [|tauto].
      intros E. split; [|assumption].
      apply (proj1 (foreground_pixelOf fg w h _ Hlen)).
      destruct (foreground_dec fg w h i) as [|Hn]; [assumption|].
      rewrite (Hzero i Hn) in E. lia. }
  split.
  { intros m Hm Hblob.
    destruct (in_dec bool_dec true m) as [Hin|Hnone].
    - destruct (In_nth m true false Hin) as (i0 & Hi0 & Ei0).
      assert (Hp0 : pixelOf m i0) by exact Ei0.
      assert (Hf0 : foreground fg w h i0).
      { apply (proj2 (foreground_pixelOf fg w h _ Hlen)).
        apply (connected_left w _ _ _ (Hblob i0 i0 Hp0 Hp0)). }
      pose proof (Hpos i0 Hf0) as Hl0.
      apply Nat.le_trans with (count_occ Nat.eq_dec L (get 0 L i0)).
      + apply countTrue_le_count_occ; [congruence|].
        intros i Hi. symmetry.
        apply Hconn; [assumption| |apply Hconn'; apply Hblob; assumption].
        apply (proj2 (foreground_pixelOf fg w h _ Hlen)).
        apply (connected_right w _ _ _ (Hblob i0 i Hp0 Hi)).
      + destruct Hbl as [(Hpos' & _ & Ebc)|Hempty].
        * rewrite (Hout Hpos'), <- Ebc. apply Hlabel_count; [assumption|].
          apply get_In. rewrite HlenL. apply Hf0.
        * exfalso. apply (Hempty i0). apply (proj1 (foreground_pixelOf fg w h _ Hlen)). assumption.
    - assert (E : countTrue m = 0).
      { unfold countTrue. clear -Hnone. induction m as [|b m IH]; [reflexivity|].
        destruct b; [exfalso; apply Hnone; left; reflexivity|].
        simpl. apply IH. intros H. apply Hnone. right. assumption. }
      rewrite E. lia. }
  intros [i Hi].
  destruct Hbl as [(Hpos' & HinL & _)|Hempty]; [|exfalso; apply (Hempty i Hi)].
  destruct (In_nth L bl 0 HinL) as (j & Hj & Ej).
  exists j. apply Hget. split; [|exact Ej].
  apply (proj1 (foreground_pixelOf fg w h _ Hlen)).
  destruct (foreground_dec fg w h j) as [|Hn]; [assumption|].
  unfold get in Hzero. rewrite (Hzero j Hn) in Ej. lia.
Qed.

(** X1. [labelComponents] labels every mask by its 4-connected components:
    it returns one label per pixel of the frame, 0 on the background and a
    positive label on the foreground, and two foreground pixels carry the
    same label exactly when a path of 4-adjacent foreground pixels joins
    them. *)
Theorem labels_are_connected_components fg w h :
  exists L c,
    labelComponents fg w h = Some (L, c) /\
    length L = w * h /\
    (forall i, foreground fg w h i -> 1 <= get 0 L i) /\
    (forall i, ~ foreground fg w h i -> get 0 L i = 0) /\
    (forall i j, foreground fg w h i -> foreground fg w h j ->
       (get 0 L i = get 0 L j <-> connected w (foreground fg w h) i j)).
Proof. exact (labelComponents_spec fg w h). Qed.

Lemma keep_largest_keeps_a_largest_component_witness :
  exists out,
    keepLargestComponent exampleMask 4 2 = Some out /\
    length out = 4 * 2 /\
    (forall i, pixelOf out i -> pixelOf exampleMask i) /\
    (forall i j, pixelOf out i -> pixelOf out j ->
                 connected 4 (pixelOf exampleMask) i j) /\
    (forall i j, pixelOf out i -> connected 4 (pixelOf exampleMask) i j ->
                 pixelOf out j) /\
    (forall m, length m = 4 * 2 ->
       (forall i j, pixelOf m i -> pixelOf m j ->
                    connected 4 (pixelOf exampleMask) i j) ->
       countTrue m <= countTrue out) /\
    ((exists i, pixelOf exampleMask i) -> exists i, pixelOf out i).
Proof.
  apply (keep_largest_keeps_a_largest_component exampleMask 4 2). reflexivity.
Defined.

End ComponentProperties.

(** ** Flood fill: what the work list reaches *)

Section FloodFillProperties.
Variables w h : nat.
Hypothesis Hw : 1 <= w.
Hypothesis Hh : 1 <= h.
Variable fg : list bool.

Lemma memNat_In x s : memNat x s = true <-> In x s.
Proof.
  unfold memNat. rewrite existsb_exists. split.
  - intros (y & Hy & E). apply Nat.eqb_eq in E. subst. assumption.
  - intros H. exists x. split; [assumption|apply Nat.eqb_refl].
Qed.

(** The neighbours the loop looks at are the 4-adjacent pixels of the
    frame. *)
Lemma neighbors_adj4 idx n :
  idx < w * h -> (In (Some n) (neighbors w h idx) <-> n < w * h /\ adj4 w idx n).
Proof.
  intros Hidx.
  destruct (row_major_split w h idx Hidx) as (y & x & Hy & Hx & ->).
  unfold neighbors, adj4.
  rewrite (row_major_mod w y x Hx).
  assert (Ediv : (y * w + x) / w = y).
  { rewrite Nat.add_comm, Nat.div_add by lia. rewrite Nat.div_small by assumption.
    reflexivity. }
  rewrite Ediv.
  assert (Hrow : y * w + w <= w * h).
  { replace (y * w + w) with (w * (y + 1)) by lia. apply Nat.mul_le_mono_l. lia. }
  assert (Hnext : x + 1 < w -> (y * w + x + 1) mod w <> 0).
  { intros Hlt. replace (y * w + x + 1) with (y * w + (x + 1)) by lia.
    rewrite (row_major_mod w y (x + 1) Hlt). lia. }
  assert (Hwrap : x + 1 = w -> (y * w + x + 1) mod w = 0).
  { intros E. replace (y * w + x + 1) with ((y + 1) * w + 0) by lia.
    apply (row_major_mod w (y + 1) 0). lia. }
  split.
  - intros [H|[H|[H|[H|[]]]]].
    + destruct (Nat.ltb_spec 0 x); [injection H as <-|discriminate].
      split; [lia|]. right. left. split; [lia|].
      replace (y * w + x - 1 + 1) with (y * w + x) by lia.
      rewrite (row_major_mod w y x Hx). lia.
    + destruct (Nat.ltb_spec x (w - 1)); [injection H as <-|discriminate].
      split; [lia|]. left. split; [reflexivity|]. apply Hnext. lia.
    + destruct (Nat.ltb_spec 0 y); [injection H as <-|discriminate].
      split; [lia|]. right. right. right.
      destruct y as [|y']; [lia|]. simpl. lia.
    + destruct (Nat.ltb_spec y (h - 1)); [injection H as <-|discriminate].
      split; [|right; right; left; reflexivity].
      assert (w * (y + 2) <= w * h) by (apply Nat.mul_le_mono_l; lia). lia.
  - intros [Hn [[-> Hm]|[[E Hm]|[->|E]]]].
    + right. left. destruct (Nat.ltb_spec x (w - 1)) as [|Hge]; [reflexivity|].
      exfalso. apply Hm. apply Hwrap. lia.
    + left. rewrite <- E, (row_major_mod w y x Hx) in Hm.
      destruct (Nat.ltb_spec 0 x); [|lia]. f_equal. lia.
    + right. right. right. left.
      destruct (Nat.ltb_spec y (h - 1)) as [|Hge]; [reflexivity|].
      exfalso. assert (Ey : h = y + 1) by lia. rewrite Ey in Hn. lia.
    + right. right. left. destruct (Nat.ltb_spec 0 y) as [|Hge].
      * f_equal. lia.
      * exfalso. assert (y = 0) by lia. subst y. simpl in E. lia.
Qed.

Lemma pushNeighbors_In visited ns : forall queue x,
  In x (pushNeighbors fg visited ns queue) <->
  In x queue \/
  (In (Some x) ns /\ memNat x visited = false /\ get false fg x = false).
Proof.
  unfold pushNeighbors.
  induction ns as [|n ns IH]; intros queue x; cbn [fold_left].
  - simpl. tauto.
  - destruct n as [n|].
    + destruct (memNat n visited) eqn:Ev; cbn [negb andb].
      * rewrite IH. simpl. split; [tauto|].
        intros [H|[[E|H] H']]; [tauto| |tauto].
        injection E as ->. destruct H' as [H' _]. congruence.
      * destruct (get false fg n) eqn:Ef; cbn [negb].
        -- rewrite IH. simpl. split; [tauto|].
           intros [H|[[E|H] H']]; [tauto| |tauto].
           injection E as ->. destruct H' as [_ H']. congruence.
        -- rewrite IH, in_app_iff. simpl. split.
           ++ intros [[H|[->|[]]]|H]; [tauto| |tauto]. right. auto.
           ++ intros [H|[[E|H] H']]; [tauto| |tauto].
              injection E as ->. left. right. left. reflexivity.
    + rewrite IH. simpl. split; [tauto|].
      intros [H|[[E|H] H']]; [tauto|discriminate|tauto].
Qed.

(** The work list of the start: the background pixels of the top row and
    of the left and right columns. *)
Lemma edgeSeeds_In s :
  In s (edgeSeeds fg w h) <-> onOpenEdge w h s /\ get false fg s = false.
Proof.
  unfold edgeSeeds.
  set (top := forRange 0 w (fun x q => if get false fg x then q else q ++ [x]) []).
  assert (Htop : forall s, In s top <-> s < w /\ get false fg s = false).
  { unfold top.
    assert (H := forRange_inv
      (fun x q => forall s, In s q <-> s < x /\ get false fg s = false)
      0 w (fun x q => if get false fg x then q else q ++ [x]) []).
    cbv beta in H. apply H.
    - intros s0. simpl. split; [tauto|lia].
    - intros x q Hx Hq s0. destruct (get false fg x) eqn:Ex.
      + rewrite Hq. split; [intros [? ?]; split; [lia|assumption]|].
        intros [Hlt Hf]. split; [|assumption].
        destruct (Nat.eq_dec s0 x) as [->|]; [congruence|lia].
      + rewrite in_app_iff, Hq. simpl. split.
        * intros [[? ?]|[<-|[]]]; split; try assumption; lia.
        * intros [Hlt Hf]. destruct (Nat.eq_dec s0 x) as [->|]; [right; auto|].
          left. split; [lia|assumption]. }
  assert (Hside := forRange_inv
    (fun y q => forall s, In s q <->
        In s top \/
        (exists y', y' < y /\ (s = y' * w \/ s = y' * w + w - 1) /\
                    get false fg s = false))
    0 h
    (fun y q =>
       let leftIdx := y * w in
       let rightIdx := y * w + w - 1 in
       let q := if get false fg leftIdx then q else q ++ [leftIdx] in
       if get false fg rightIdx then q else q ++ [rightIdx]) top).
  cbv beta in Hside.
  assert (Hall : forall s, In s (forRange 0 h
    (fun y q =>
       let leftIdx := y * w in
       let rightIdx := y * w + w - 1 in
       let q := if get false fg leftIdx then q else q ++ [leftIdx] in
       if get false fg rightIdx then q else q ++ [rightIdx]) top) <->
        In s top \/
        (exists y', y' < h /\ (s = y' * w \/ s = y' * w + w - 1) /\
                    get false fg s = false)).
  { apply Hside.
    - intros s0. split; [tauto|]. intros [H|(y' & Hy' & _)]; [assumption|lia].
    - intros y q Hy Hq s0. cbv zeta.
      assert (Hl : forall s, In s (if get false fg (y * w) then q else q ++ [y * w])
                  <-> In s q \/ (s = y * w /\ get false fg s = false)).
      { intros s1. destruct (get false fg (y * w)) eqn:El.
        - split; [tauto|]. intros [H|[-> H]]; [assumption|congruence].
        - rewrite in_app_iff. simpl. split.
          + intros [H|[<-|[]]]; auto.
          + intros [H|[-> _]]; auto. }
      assert (Hr : In s0 (if get false fg (y * w + w - 1)
                          then if get false fg (y * w) then q else q ++ [y * w]
                          else (if get false fg (y * w) then q else q ++ [y * w])
                               ++ [y * w + w - 1])
                  <-> In s0 q \/ ((s0 = y * w \/ s0 = y * w + w - 1) /\
                                  get false fg s0 = false)).
      { destruct (get false fg (y * w + w - 1)) eqn:Er.
        - rewrite Hl. split; [tauto|].
          intros [H|[[->| ->] H]]; [tauto|tauto|congruence].
        - rewrite in_app_iff, Hl. simpl. split.
          + intros [[H|[-> H]]|[<-|[]]]; auto.
          + intros [H|[[->| ->] H]]; auto. }
      rewrite Hr, Hq. split.
      + intros [[H|(y' & Hy' & H)]|H]; [tauto| |].
        * right. exists y'. split; [lia|assumption].
        * right. exists y. split; [lia|assumption].
      + intros [H|(y' & Hy' & H)]; [tauto|].
        destruct (Nat.eq_dec y' y) as [->|]; [right; assumption|].
        left. right. exists y'. split; [lia|assumption]. }
  rewrite Hall, Htop. unfold onOpenEdge. split.
  - intros [[Hlt Hf]|(y' & Hy' & Hs & Hf)].
    + split; [|assumption]. split; [|tauto].
      assert (w * 1 <= w * h) by (apply Nat.mul_le_mono_l; lia). lia.
    + split; [|assumption].
      assert (Hrow : y' * w + w <= w * h).
      { replace (y' * w + w) with (w * (y' + 1)) by lia.
        apply Nat.mul_le_mono_l. lia. }
      destruct Hs as [->| ->].
      * split; [lia|]. right. left.
        replace (y' * w) with (y' * w + 0) by lia. apply row_major_mod. lia.
      * split; [lia|]. right. right.
        replace (y' * w + w - 1) with (y' * w + (w - 1)) by lia.
        apply row_major_mod. lia.
  - intros [[Hs Hedge] Hf].
    destruct Hedge as [Hlt|Hcol]; [left; auto|]. right.
    destruct (row_major_split w h s Hs) as (y & x & Hy & Hx & ->).
    rewrite (row_major_mod w y x Hx) in Hcol.
    exists y. split; [assumption|]. split; [|assumption].
    destruct Hcol as [->| ->]; [left; lia|right; lia].
Qed.

(** A set of pixels closed under background adjacency holds whatever the
    background joins to one of its pixels. *)
Lemma closed_reach (visited : list nat) s i :
  In s visited -> connected w (background fg w h) s i ->
  (forall v n, In v visited -> adj4 w v n -> background fg w h n ->
               In n visited) ->
  In i visited.
Proof.
  intros Hs Hpath Hclosed.
  induction Hpath as [s _|s j k Hsj IHp Hjk Hk]; [assumption|].
  apply (Hclosed j k (IHp Hs) Hjk Hk).
Qed.

(** What the loop keeps true between two pops. *)
Lemma floodLoop_spec : forall fuel queue visited isBackground r,
  floodLoop fuel fg w h queue visited isBackground = Some r ->
  length isBackground = w * h ->
  (forall q, In q queue -> reachesEdge fg w h q) ->
  (forall v, In v visited -> reachesEdge fg w h v) ->
  (forall i, i < w * h -> (get false isBackground i = true <-> In i visited)) ->
  (forall s, onOpenEdge w h s -> get false fg s = false ->
             In s visited \/ In s queue) ->
  (forall v n, In v visited -> adj4 w v n -> background fg w h n ->
               In n visited \/ In n queue) ->
  length r = w * h /\
  forall i, i < w * h -> (get false r i = true <-> reachesEdge fg w h i).
Proof.
  induction fuel as [|f IH]; intros queue visited isBg r E Hlen Hq Hv Hbg Hseed Hclosed.
  - destruct queue as [|idx rest]; [|discriminate].
    injection E as <-. split; [assumption|]. intros i Hi. rewrite (Hbg i Hi).
    split; [apply Hv|]. intros (s & Hs & Hpath).
    apply (closed_reach visited s i); [|assumption|].
    + destruct (Hseed s Hs) as [|[]]; [|assumption].
      apply (connected_left w _ _ _ Hpath).
    + intros v n Hin Hadj Hn. destruct (Hclosed v n Hin Hadj Hn) as [|[]].
      assumption.
  - destruct queue as [|idx rest].
    { injection E as <-. split; [assumption|]. intros i Hi. rewrite (Hbg i Hi).
      split; [apply Hv|]. intros (s & Hs & Hpath).
      apply (closed_reach visited s i); [|assumption|].
      + destruct (Hseed s Hs) as [|[]]; [|assumption].
        apply (connected_left w _ _ _ Hpath).
      + intros v n Hin Hadj Hn. destruct (Hclosed v n Hin Hadj Hn) as [|[]].
        assumption. }
    cbn [floodLoop] in E.
    assert (Hidx : reachesEdge fg w h idx) by (apply Hq; left; reflexivity).
    assert (Hidx_bg : background fg w h idx).
    { destruct Hidx as (s & _ & Hpath). apply (connected_right w _ _ _ Hpath). }
    destruct Hidx_bg as [Hidx_lt Hidx_fg].
    destruct (memNat idx visited) eqn:Emem; cbn [orb] in E.
    + (* already visited *)
      apply memNat_In in Emem.
      apply (IH rest visited isBg r E Hlen); try assumption.
      * intros q Hin. apply Hq. right. assumption.
      * intros s Hs Hf. destruct (Hseed s Hs Hf) as [|[<-|]]; auto.
      * intros v n Hin Hadj Hn.
        destruct (Hclosed v n Hin Hadj Hn) as [|[<-|]]; auto.
    + rewrite Hidx_fg in E.
      assert (Hnew : ~ In idx visited).
      { intros H. apply memNat_In in H. congruence. }
      apply (IH _ _ _ r E).
      * rewrite upd_length. assumption.
      * intros q Hin. apply pushNeighbors_In in Hin.
        destruct Hin as [Hin|(Hn & _ & Hf)]; [apply Hq; right; assumption|].
        apply (neighbors_adj4 idx q Hidx_lt) in Hn. destruct Hn as [Hlt Hadj].
        destruct Hidx as (s & Hs & Hpath). exists s. split; [assumption|].
        apply connected_step with idx; [assumption..|]. split; assumption.
      * intros v [<-|Hin]; [assumption|apply Hv; assumption].
      * intros i Hi. rewrite get_upd by lia.
        destruct (Nat.eqb_spec idx i) as [<-|Hne].
        -- split; [intros _; left; reflexivity|reflexivity].
        -- rewrite (Hbg i Hi). simpl. split; [auto|].
           intros [->|]; [congruence|assumption].
      * intros s Hs Hf. destruct (Hseed s Hs Hf) as [|[<-|Hin]].
        -- left. right. assumption.
        -- left. left. reflexivity.
        -- right. apply pushNeighbors_In. left. assumption.
      * intros v n [<-|Hin] Hadj Hn.
        -- destruct (memNat n (idx :: visited)) eqn:En.
           ++ left. apply memNat_In. assumption.
           ++ right. apply pushNeighbors_In. right.
              split; [|split; [assumption|apply Hn]].
              apply (neighbors_adj4 idx n Hidx_lt). split; [apply Hn|assumption].
        -- destruct (Hclosed v n Hin Hadj Hn) as [|[<-|Hin']].
           ++ left. right. assumption.
           ++ left. left. reflexivity.
           ++ right. apply pushNeighbors_In. left. assumption.
Qed.

(** X3. For a frame of at least one row and one column, [fillFromEdges]
    returns a mask of the frame in which a pixel is cleared exactly when a
    path of 4-adjacent background pixels joins it to the top row, the left
    column or the right column; every other pixel is set. *)
Theorem fill_from_edges_clears_what_reaches_an_edge :
  exists filled,
    fillFromEdges fg w h = Some filled /\
    length filled = w * h /\
    forall i, i < w * h ->
      (get false filled i = false <-> reachesEdge fg w h i).
Proof.
  destruct (fillFromEdges_total w h Hw Hh fg) as [filled E].
  exists filled. split; [assumption|].
  unfold fillFromEdges in E.
  destruct (floodLoop _ _ _ _ _ _ _) as [isBg|] eqn:Eloop; [|discriminate].
  injection E as <-.
  destruct (floodLoop_spec _ _ _ _ _ Eloop) as [Hlen Hspec].
  - apply repeat_length.
  - intros q Hin. apply edgeSeeds_In in Hin. destruct Hin as [Hedge Hf].
    exists q. split; [assumption|]. apply connected_refl.
    split; [apply Hedge|assumption].
  - intros v [].
  - intros i Hi. rewrite get_repeat. split; [discriminate|intros []].
  - intros s Hs Hf. right. apply edgeSeeds_In. auto.
  - intros v n [].
  - split; [rewrite length_map; assumption|].
    intros i Hi. rewrite <- (Hspec i Hi).
    unfold get. rewrite (nth_indep _ false (negb false))
      by (rewrite length_map; lia).
    rewrite map_nth. fold (get false isBg i).
    destruct (get false isBg i); simpl; split; congruence.
Qed.

End FloodFillProperties.

Lemma fill_from_edges_clears_what_reaches_an_edge_witness :
  exists filled,
    fillFromEdges exampleMask 4 2 = Some filled /\
    length filled = 4 * 2 /\
    forall i, i < 4 * 2 ->
      (get false filled i = false <-> reachesEdge exampleMask 4 2 i).
Proof.
  apply (fill_from_edges_clears_what_reaches_an_edge 4 2 ltac:(lia) ltac:(lia)
           exampleMask).
Defined.

(** ** Raster loops: morphology and blur *)

Section RasterProperties.

(** Two nested loops over a window of rows and columns that write, at most,
    the cell they visit. *)
Lemma raster_loop {A} (d : A) (w h ylo yhi xlo xhi : nat)
      (f : nat -> nat -> list A -> list A) (val : nat -> nat -> option A)
      (init : list A) :
  length init = w * h -> yhi <= h -> xhi <= w ->
  (forall y x out,
      f y x out = match val y x with
                  | Some v => upd out (y * w + x) v
                  | None => out
                  end) ->
  length (forUpTo ylo yhi (fun y out =>
            forUpTo xlo xhi (fun x out => f y x out) out) init) = w * h /\
  forall y x, y < h -> x < w ->
    get d (forUpTo ylo yhi (fun y out =>
             forUpTo xlo xhi (fun x out => f y x out) out) init) (y * w + x)
    = if (ylo <=? y) && (y <? yhi) && (xlo <=? x) && (x <? xhi)
      then match val y x with
           | Some v => v
           | None => get d init (y * w + x)
           end
      else get d init (y * w + x).
Proof.
  intros Hlen Hyhi Hxhi Hf.
  set (new := fun y x => match val y x with
                         | Some v => v
                         | None => get d init (y * w + x)
                         end).
  assert (Hrow : forall y prev, y < yhi -> length prev = w * h ->
    length (forUpTo xlo xhi (fun x out => f y x out) prev) = w * h /\
    forall y' x', y' < h -> x' < w ->
      get d (forUpTo xlo xhi (fun x out => f y x out) prev) (y' * w + x')
      = if (y' =? y) && (xlo <=? x') && (x' <? xhi)
        then match val y x' with
             | Some v => v
             | None => get d prev (y' * w + x')
             end
        else get d prev (y' * w + x')).
  { intros y prev Hy Hprev. unfold forUpTo.
    assert (H := forRange_inv
      (fun i out => length out = w * h /\
         forall y' x', y' < h -> x' < w ->
           get d out (y' * w + x')
           = if (y' =? y) && (xlo <=? x') && (x' <? i)
             then match val y x' with
                  | Some v => v
                  | None => get d prev (y' * w + x')
                  end
             else get d prev (y' * w + x'))
      xlo (xhi - xlo) (fun x out => f y x out) prev).
    cbv beta in H.
    destruct (Nat.le_gt_cases xlo xhi) as [Hle|Hgt].
    - replace (xlo + (xhi - xlo)) with xhi in H by lia. apply H.
      + split; [assumption|]. intros y' x' Hy' Hx'.
        destruct (y' =? y), (Nat.leb_spec xlo x'), (Nat.ltb_spec x' xlo);
          simpl; try reflexivity; lia.
      + intros i out Hi [Hl Hg]. rewrite Hf.
        destruct (val y i) as [v|] eqn:Ev.
        * split; [rewrite upd_length; assumption|].
          intros y' x' Hy' Hx'.
          assert (Hin : y * w + i < length out).
          { rewrite Hl. apply row_major_bound; lia. }
          rewrite get_upd by assumption. rewrite (Hg y' x' Hy' Hx').
          destruct (Nat.eqb_spec (y * w + i) (y' * w + x')) as [E|Hne].
          -- apply row_major_inj in E; [|lia|lia]. destruct E as [<- <-].
             rewrite Nat.eqb_refl, Ev.
             destruct (Nat.leb_spec xlo i), (Nat.ltb_spec i (1 + i));
               simpl; try reflexivity; lia.
          -- destruct (Nat.eqb_spec y' y) as [->|]; [|reflexivity].
             assert (x' <> i) by (intros ->; apply Hne; reflexivity).
             destruct (Nat.leb_spec xlo x'), (Nat.ltb_spec x' i),
               (Nat.ltb_spec x' (1 + i)); simpl; try reflexivity; lia.
        * split; [assumption|]. intros y' x' Hy' Hx'.
          rewrite (Hg y' x' Hy' Hx').
          destruct (Nat.eqb_spec y' y) as [->|]; [|reflexivity].
          destruct (Nat.leb_spec xlo x'), (Nat.ltb_spec x' i),
            (Nat.ltb_spec x' (1 + i)); simpl; try reflexivity; try lia.
          assert (x' = i) by lia. subst x'. rewrite Ev. reflexivity.
    - replace (xhi - xlo) with 0 by lia. simpl.
      split; [assumption|]. intros y' x' Hy' Hx'.
      destruct (y' =? y), (Nat.leb_spec xlo x'), (Nat.ltb_spec x' xhi);
        simpl; try reflexivity; lia. }
  unfold forUpTo at 1 3.
  assert (H := forRange_inv
    (fun k out => length out = w * h /\
       forall y x, y < h -> x < w ->
         get d out (y * w + x)
         = if (ylo <=? y) && (y <? k) && (xlo <=? x) && (x <? xhi)
           then new y x else get d init (y * w + x))
    ylo (yhi - ylo)
    (fun y out => forUpTo xlo xhi (fun x out => f y x out) out) init).
  cbv beta in H.
  destruct (Nat.le_gt_cases ylo yhi) as [Hle|Hgt].
  - replace (ylo + (yhi - ylo)) with yhi in H by lia. apply H.
    + split; [assumption|]. intros y x Hy Hx.
      destruct (Nat.leb_spec ylo y), (Nat.ltb_spec y ylo);
        simpl; try reflexivity; lia.
    + intros k out Hk [Hl Hg].
      destruct (Hrow k out ltac:(lia) Hl) as [Hl' Hg'].
      split; [assumption|]. intros y x Hy Hx.
      rewrite (Hg' y x Hy Hx), (Hg y x Hy Hx).
      destruct (Nat.eqb_spec y k) as [->|Hne].
      * destruct (Nat.leb_spec ylo k), (Nat.ltb_spec k k),
          (Nat.ltb_spec k (1 + k)), (Nat.leb_spec xlo x), (Nat.ltb_spec x xhi);
          simpl; try reflexivity; lia.
      * destruct (Nat.leb_spec ylo y), (Nat.ltb_spec y k),
          (Nat.ltb_spec y (1 + k)); simpl; try reflexivity; lia.
  - replace (yhi - ylo) with 0 by lia. simpl.
    split; [assumption|]. intros y x Hy Hx.
    destruct (Nat.leb_spec ylo y), (Nat.ltb_spec y yhi);
      simpl; try reflexivity; lia.
Qed.

(** A pixel that is not on the border of the frame. *)
Lemma interior_cases (w h y x : nat) :
  (1 <=? y) && (y <? h - 1) && (1 <=? x) && (x <? w - 1) = true <->
  1 <= y /\ y + 1 < h /\ 1 <= x /\ x + 1 < w.
Proof.
  rewrite !andb_true_iff, !Nat.leb_le, !Nat.ltb_lt. lia.
Qed.

Lemma dilate3_spec (fg : list bool) (w h : nat) :
  length fg = w * h ->
  length (dilate3 fg w h) = w * h /\
  forall y x, y < h -> x < w ->
    get false (dilate3 fg w h) (y * w + x)
    = get false fg (y * w + x)
      || ((1 <=? y) && (y <? h - 1) && (1 <=? x) && (x <? w - 1)
          && existsb (fun b => b) (window3 fg w x y)).
Proof.
  intros Hlen.
  destruct (raster_loop false w h 1 (h - 1) 1 (w - 1)
    (fun y x out =>
       if get false fg (y * w + x) then out
       else if existsb (fun b => b) (window3 fg w x y)
            then upd out (y * w + x) true else out)
    (fun y x =>
       if get false fg (y * w + x) then None
       else if existsb (fun b => b) (window3 fg w x y) then Some true else None)
    fg Hlen) as [Hl Hg]; [lia|lia| |].
  { intros y x out. destruct (get false fg (y * w + x)); [reflexivity|].
    destruct (existsb _ _); reflexivity. }
  split; [exact Hl|]. intros y x Hy Hx.
  unfold dilate3. rewrite (Hg y x Hy Hx).
  destruct ((1 <=? y) && (y <? h - 1) && (1 <=? x) && (x <? w - 1));
    [|rewrite orb_false_r; reflexivity].
  destruct (get false fg (y * w + x)) eqn:E; [reflexivity|].
  destruct (existsb _ _); reflexivity.
Qed.

Lemma erode3_spec (fg : list bool) (w h : nat) :
  length fg = w * h ->
  length (erode3 fg w h) = w * h /\
  forall y x, y < h -> x < w ->
    get false (erode3 fg w h) (y * w + x)
    = get false fg (y * w + x)
      && (negb ((1 <=? y) && (y <? h - 1) && (1 <=? x) && (x <? w - 1))
          || forallb (fun b => b) (window3 fg w x y)).
Proof.
  intros Hlen.
  destruct (raster_loop false w h 1 (h - 1) 1 (w - 1)
    (fun y x out =>
       if negb (get false fg (y * w + x)) then out
       else if forallb (fun b => b) (window3 fg w x y)
            then out else upd out (y * w + x) false)
    (fun y x =>
       if negb (get false fg (y * w + x)) then None
       else if forallb (fun b => b) (window3 fg w x y) then None else Some false)
    fg Hlen) as [Hl Hg]; [lia|lia| |].
  { intros y x out. destruct (negb (get false fg (y * w + x))); [reflexivity|].
    destruct (forallb _ _); reflexivity. }
  split; [exact Hl|]. intros y x Hy Hx.
  unfold erode3. rewrite (Hg y x Hy Hx).
  destruct ((1 <=? y) && (y <? h - 1) && (1 <=? x) && (x <? w - 1));
    [|rewrite andb_true_r; reflexivity].
  destruct (get false fg (y * w + x)) eqn:E; [|reflexivity].
  cbn [negb orb andb].
  destruct (forallb _ _); reflexivity.
Qed.

(** The window of the complement is the complement of the window, inside
    the frame. *)
Lemma window3_complement (fg : list bool) (w h y x : nat) :
  length fg = w * h -> 1 <= y -> y + 1 < h -> 1 <= x -> x + 1 < w ->
  window3 (map negb fg) w x y = map negb (window3 fg w x y).
Proof.
  intros Hlen Hy1 Hy2 Hx1 Hx2. unfold window3.
  assert (Hcell : forall dy dx, dy < 3 -> dx < 3 ->
    get false (map negb fg) ((y - 1 + dy) * w + (x - 1 + dx))
    = negb (get false fg ((y - 1 + dy) * w + (x - 1 + dx)))).
  { intros dy dx Hdy Hdx. unfold get.
    assert (Hin : (y - 1 + dy) * w + (x - 1 + dx) < length fg).
    { rewrite Hlen. apply row_major_bound; lia. }
    rewrite (nth_indep (map negb fg) false (negb false))
      by (rewrite length_map; assumption).
    apply map_nth. }
  simpl. rewrite !Hcell by lia. reflexivity.
Qed.

Lemma forallb_complement (l : list bool) :
  forallb (fun b => b) (map negb l) = negb (existsb (fun b => b) l).
Proof.
  induction l as [|b l IH]; [reflexivity|]. simpl. rewrite IH.
  destruct b; reflexivity.
Qed.

Lemma list_eq_by_cells (w h : nat) (a b : list bool) :
  length a = w * h -> length b = w * h ->
  (forall y x, y < h -> x < w -> get false a (y * w + x) = get false b (y * w + x)) ->
  a = b.
Proof.
  intros Ha Hb Hcells. apply (nth_ext a b false false); [congruence|].
  intros i Hi. rewrite Ha in Hi.
  destruct (row_major_split w h i Hi) as (y & x & Hy & Hx & ->).
  apply (Hcells y x Hy Hx).
Qed.

Lemma get_map_negb (fg : list bool) i :
  i < length fg -> get false (map negb fg) i = negb (get false fg i).
Proof.
  intros Hi. unfold get.
  rewrite (nth_indep (map negb fg) false (negb false))
    by (rewrite length_map; assumption).
  apply map_nth.
Qed.

End RasterProperties.

(** X4. On a mask of the frame, [dilate3] and [erode3] keep the size of
    the mask; dilation only adds pixels and erosion only removes pixels; and
    neither changes a pixel of the first or last row or column. *)
Theorem dilate_grows_erode_shrinks (fg : list bool) (w h : nat) :
  length fg = w * h ->
  length (dilate3 fg w h) = w * h /\
  length (erode3 fg w h) = w * h /\
  (forall i, pixelOf fg i -> pixelOf (dilate3 fg w h) i) /\
  (forall i, pixelOf (erode3 fg w h) i -> pixelOf fg i) /\
  (forall y x, y < h -> x < w ->
     y = 0 \/ y = h - 1 \/ x = 0 \/ x = w - 1 ->
     get false (dilate3 fg w h) (y * w + x) = get false fg (y * w + x) /\
     get false (erode3 fg w h) (y * w + x) = get false fg (y * w + x)).
Proof.
  intros Hlen.
  destruct (dilate3_spec fg w h Hlen) as [Hdl Hd].
  destruct (erode3_spec fg w h Hlen) as [Hel He].
  split; [assumption|]. split; [assumption|]. split; [|split].
  - intros i Hi. pose proof (pixelOf_bound fg i Hi) as Hb. rewrite Hlen in Hb.
    destruct (row_major_split w h i Hb) as (y & x & Hy & Hx & ->).
    unfold pixelOf in *. rewrite (Hd y x Hy Hx), Hi. reflexivity.
  - intros i Hi. pose proof (pixelOf_bound _ i Hi) as Hb. rewrite Hel in Hb.
    destruct (row_major_split w h i Hb) as (y & x & Hy & Hx & ->).
    unfold pixelOf in *. rewrite (He y x Hy Hx) in Hi.
    apply andb_true_iff in Hi. tauto.
  - intros y x Hy Hx Hborder.
    assert (E : (1 <=? y) && (y <? h - 1) && (1 <=? x) && (x <? w - 1) = false).
    { destruct ((1 <=? y) && (y <? h - 1) && (1 <=? x) && (x <? w - 1)) eqn:E;
        [|reflexivity].
      apply interior_cases in E. lia. }
    rewrite (Hd y x Hy Hx), (He y x Hy Hx), E. cbn [andb negb orb].
    rewrite orb_false_r, andb_true_r. auto.
Qed.

Lemma dilate_grows_erode_shrinks_witness :
  length (dilate3 exampleMask 4 2) = 4 * 2 /\
  length (erode3 exampleMask 4 2) = 4 * 2 /\
  (forall i, pixelOf exampleMask i -> pixelOf (dilate3 exampleMask 4 2) i) /\
  (forall i, pixelOf (erode3 exampleMask 4 2) i -> pixelOf exampleMask i) /\
  (forall y x, y < 2 -> x < 4 ->
     y = 0 \/ y = 2 - 1 \/ x = 0 \/ x = 4 - 1 ->
     get false (dilate3 exampleMask 4 2) (y * 4 + x)
     = get false exampleMask (y * 4 + x) /\
     get false (erode3 exampleMask 4 2) (y * 4 + x)
     = get false exampleMask (y * 4 + x)).
Proof.
  apply (dilate_grows_erode_shrinks exampleMask 4 2). reflexivity.
Defined.

(** X5. Erosion and dilation are dual: eroding the complement of a mask of
    the frame gives the complement of its dilation, and dilating the
    complement gives the complement of its erosion. *)
Theorem erode_dilate_duality (fg : list bool) (w h : nat) :
  length fg = w * h ->
  erode3 (map negb fg) w h = map negb (dilate3 fg w h) /\
  dilate3 (map negb fg) w h = map negb (erode3 fg w h).
Proof.
  intros Hlen.
  assert (Hlen' : length (map negb fg) = w * h) by (rewrite length_map; assumption).
  destruct (dilate3_spec fg w h Hlen) as [Hdl Hd].
  destruct (erode3_spec fg w h Hlen) as [Hel He].
  destruct (dilate3_spec (map negb fg) w h Hlen') as [Hdl' Hd'].
  destruct (erode3_spec (map negb fg) w h Hlen') as [Hel' He'].
  split.
  - apply (list_eq_by_cells w h); [assumption|rewrite length_map; assumption|].
    intros y x Hy Hx.
    assert (Hb : y * w + x < w * h) by (apply row_major_bound; assumption).
    rewrite (He' y x Hy Hx), get_map_negb by lia.
    rewrite get_map_negb by lia. rewrite (Hd y x Hy Hx).
    destruct ((1 <=? y) && (y <? h - 1) && (1 <=? x) && (x <? w - 1)) eqn:E.
    + apply interior_cases in E.
      rewrite (window3_complement fg w h y x Hlen) by lia.
      rewrite forallb_complement.
      destruct (get false fg (y * w + x)), (existsb _ _); reflexivity.
    + destruct (get false fg (y * w + x)); reflexivity.
  - apply (list_eq_by_cells w h); [assumption|rewrite length_map; assumption|].
    intros y x Hy Hx.
    assert (Hb : y * w + x < w * h) by (apply row_major_bound; assumption).
    rewrite (Hd' y x Hy Hx), get_map_negb by lia.
    rewrite get_map_negb by lia. rewrite (He y x Hy Hx).
    destruct ((1 <=? y) && (y <? h - 1) && (1 <=? x) && (x <? w - 1)) eqn:E.
    + apply interior_cases in E.
      rewrite (window3_complement fg w h y x Hlen) by lia.
      rewrite <- (negb_involutive (existsb _ (map negb _))).
      rewrite <- forallb_complement, map_map.
      rewrite (map_ext (fun b => negb (negb b)) (fun b => b) negb_involutive).
      rewrite map_id.
      destruct (get false fg (y * w + x)), (forallb _ _); reflexivity.
    + destruct (get false fg (y * w + x)); reflexivity.
Qed.

Lemma erode_dilate_duality_witness :
  erode3 (map negb exampleMask) 4 2 = map negb (dilate3 exampleMask 4 2) /\
  dilate3 (map negb exampleMask) 4 2 = map negb (erode3 exampleMask 4 2).
Proof. apply (erode_dilate_duality exampleMask 4 2). reflexivity. Defined.

(** ** Box blur *)

Section BlurProperties.
Local Open Scope Q_scope.

(** A loop that adds between [a] and [b] at every turn. *)
Lemma forRange_sum_bounds (body : nat -> Q -> Q) (n : nat) (a b s0 : Q) :
  (forall i s, (i < n)%nat -> s + a <= body i s <= s + b) ->
  s0 + inject_Z (Z.of_nat n) * a <= forRange 0 n body s0
  <= s0 + inject_Z (Z.of_nat n) * b.
Proof.
  intros Hbody.
  assert (H := forRange_inv
    (fun k s => s0 + inject_Z (Z.of_nat k) * a <= s
                <= s0 + inject_Z (Z.of_nat k) * b)
    0 n body s0).
  cbv beta in H. apply H.
  - change (inject_Z (Z.of_nat 0)) with 0. split; lra.
  - intros i s Hi [Hlo Hhi].
    destruct (Hbody i s ltac:(lia)) as [Hlo' Hhi'].
    replace (Z.of_nat (1 + i)) with (1 + Z.of_nat i)%Z by lia.
    rewrite inject_Z_plus.
    change (inject_Z 1) with 1.
    split; lra.
Qed.

Lemma get_in_range (lo hi : Q) (gray : list Q) i :
  Forall (fun v => lo <= v <= hi) gray -> (i < length gray)%nat ->
  lo <= get 0 gray i <= hi.
Proof.
  intros Hall Hi. rewrite Forall_forall in Hall. apply Hall. apply get_In. assumption.
Qed.

(** The mean over a window that lies inside the frame is between the least
    and the greatest intensity. *)
Lemma windowMean_range (gray : list Q) (w h r x y : nat) (lo hi : Q) :
  length gray = (w * h)%nat ->
  Forall (fun v => lo <= v <= hi) gray ->
  (r <= y)%nat -> (y + r < h)%nat -> (r <= x)%nat -> (x + r < w)%nat ->
  lo <= windowSum gray w r x y
        / inject_Z (Z.of_nat ((2 * r + 1) * (2 * r + 1))) <= hi.
Proof.
  intros Hlen Hall Hy1 Hy2 Hx1 Hx2.
  set (m := (2 * r + 1)%nat).
  set (M := inject_Z (Z.of_nat m)).
  assert (HM : 0 < M).
  { unfold M. change 0 with (inject_Z 0). rewrite <- Zlt_Qlt. unfold m. lia. }
  assert (Hsum : 0 + M * (M * lo) <= windowSum gray w r x y <= 0 + M * (M * hi)).
  { unfold windowSum. fold m. apply forRange_sum_bounds.
    intros dy s Hdy.
    pose proof (forRange_sum_bounds
      (fun dx sum => sum + get 0 gray ((y - r + dy) * w + (x - r + dx))%nat)
      m lo hi s) as Hin.
    fold M in Hin. apply Hin.
    intros dx s' Hdx.
    assert (Hcell : lo <= get 0 gray ((y - r + dy) * w + (x - r + dx))%nat <= hi).
    { apply get_in_range; [assumption|]. rewrite Hlen.
      unfold m in *. apply row_major_bound; lia. }
    split; lra. }
  assert (Earea : inject_Z (Z.of_nat (m * m)) == M * M).
  { unfold M. rewrite Nat2Z.inj_mul, inject_Z_mult. reflexivity. }
  rewrite Earea.
  assert (HMM : 0 < M * M) by (apply Qmult_lt_0_compat; assumption).
  split.
  - apply Qle_shift_div_l; [assumption|]. lra.
  - apply Qle_shift_div_r; [assumption|]. lra.
Qed.

Lemma boxBlur_spec (r : nat) (gray : list Q) (w h : nat) :
  length gray = (w * h)%nat ->
  length (boxBlur r gray w h) = (w * h)%nat /\
  forall y x, (y < h)%nat -> (x < w)%nat ->
    get 0 (boxBlur r gray w h) (y * w + x)
    = if (r <=? y)%nat && (y <? h - r)%nat && (r <=? x)%nat && (x <? w - r)%nat
      then windowSum gray w r x y
           / inject_Z (Z.of_nat ((2 * r + 1) * (2 * r + 1)))
      else get 0 gray (y * w + x).
Proof.
  intros Hlen.
  destruct (raster_loop 0 w h r (h - r) r (w - r)
    (fun y x out =>
       upd out (y * w + x)
           (windowSum gray w r x y
            / inject_Z (Z.of_nat ((2 * r + 1) * (2 * r + 1)))))
    (fun y x =>
       Some (windowSum gray w r x y
             / inject_Z (Z.of_nat ((2 * r + 1) * (2 * r + 1)))))
    gray Hlen) as [Hl Hg]; [lia|lia|reflexivity|].
  split; [exact Hl|exact Hg].
Qed.

Lemma boxBlur_range (r : nat) (gray : list Q) (w h : nat) (lo hi : Q) :
  length gray = (w * h)%nat ->
  Forall (fun v => lo <= v <= hi) gray ->
  length (boxBlur r gray w h) = (w * h)%nat /\
  Forall (fun v => lo <= v <= hi) (boxBlur r gray w h).
Proof.
  intros Hlen Hall.
  destruct (boxBlur_spec r gray w h Hlen) as [Hl Hg].
  split; [assumption|].
  apply Forall_forall. intros v Hv.
  destruct (In_nth _ _ 0 Hv) as (i & Hi & <-). rewrite Hl in Hi.
  destruct (row_major_split w h i Hi) as (y & x & Hy & Hx & ->).
  fold (get 0 (boxBlur r gray w h) (y * w + x)). rewrite (Hg y x Hy Hx).
  destruct ((r <=? y)%nat && (y <? h - r)%nat && (r <=? x)%nat && (x <? w - r)%nat)
    eqn:E.
  - rewrite !andb_true_iff, !Nat.leb_le, !Nat.ltb_lt in E.
    apply (windowMean_range gray w h r x y lo hi Hlen Hall); lia.
  - apply get_in_range; [assumption|]. rewrite Hlen.
    apply row_major_bound; assumption.
Qed.

End BlurProperties.

(** X6. The box blurs ([blur3x3] is [boxBlur 1], [blur5x5] is [boxBlur 2])
    keep the size of the image and leave every pixel nearer than the radius
    to the border as it is: only the pixels with a full window are
    averaged. *)
Theorem box_blur_keeps_size_and_border (r : nat) (gray : list Q) (w h : nat) :
  length gray = w * h ->
  length (boxBlur r gray w h) = w * h /\
  (forall y x, y < h -> x < w ->
     y < r \/ h - r <= y \/ x < r \/ w - r <= x ->
     get 0%Q (boxBlur r gray w h) (y * w + x) = get 0%Q gray (y * w + x)).
Proof.
  intros Hlen.
  destruct (boxBlur_spec r gray w h Hlen) as [Hl Hg].
  split; [exact Hl|].
  intros y x Hy Hx Hborder. rewrite (Hg y x Hy Hx).
  destruct ((r <=? y) && (y <? h - r) && (r <=? x) && (x <? w - r)) eqn:E;
    [|reflexivity].
  rewrite !andb_true_iff, !Nat.leb_le, !Nat.ltb_lt in E. lia.
Qed.

Lemma box_blur_keeps_size_and_border_witness :
  length (blur3x3 [10; 20; 30; 40; 50; 60; 70; 80; 90; 100; 110; 120]%Q 4 3)
  = 4 * 3 /\
  (forall y x, y < 3 -> x < 4 ->
     y < 1 \/ 3 - 1 <= y \/ x < 1 \/ 4 - 1 <= x ->
     get 0%Q (blur3x3 [10; 20; 30; 40; 50; 60; 70; 80; 90; 100; 110; 120]%Q 4 3)
         (y * 4 + x)
     = get 0%Q [10; 20; 30; 40; 50; 60; 70; 80; 90; 100; 110; 120]%Q (y * 4 + x)).
Proof.
  apply (box_blur_keeps_size_and_border 1
           [10; 20; 30; 40; 50; 60; 70; 80; 90; 100; 110; 120]%Q 4 3).
  reflexivity.
Defined.

(** ** Grayscale conversion and contrast stretch *)

Section IntensityProperties.
Local Open Scope Q_scope.

Lemma inject_Z_byte (b : Z) : (0 <= b <= 255)%Z -> 0 <= inject_Z b <= 255.
Proof.
  intros [H0 H1]. split.
  - change 0 with (inject_Z 0). rewrite <- Zle_Qle. assumption.
  - change 255 with (inject_Z 255). rewrite <- Zle_Qle. assumption.
Qed.

Lemma toGrayscale_spec : forall (n : nat) (data : list Z),
  length data = (4 * n)%nat ->
  Forall (fun b => (0 <= b <= 255)%Z) data ->
  length (toGrayscale data) = n /\
  Forall (fun v => 0 <= v <= 255) (toGrayscale data).
Proof.
  induction n as [|n IH]; intros data Hlen Hall.
  - destruct data; [|discriminate]. split; [reflexivity|constructor].
  - destruct data as [|r [|g [|b [|a rest]]]]; simpl in Hlen; try lia.
    rewrite !Forall_cons_iff in Hall. destruct Hall as (Hr & Hg & Hb & _ & Hrest).
    destruct (IH rest) as [Hl Hg']; [lia|assumption|].
    cbn [toGrayscale]. split; [simpl; congruence|].
    constructor; [|assumption].
    apply inject_Z_byte in Hr, Hg, Hb. split; lra.
Qed.

Lemma minIntensity_spec (gray : list Q) :
  (forall v, In v gray -> minIntensity gray <= v) /\
  minIntensity gray <= 255 /\
  (In (minIntensity gray) gray \/ minIntensity gray = 255).
Proof.
  unfold minIntensity.
  assert (H : forall l init,
    (forall v, In v l ->
       fold_left (fun m v => if Qltb v m then v else m) l init <= v) /\
    fold_left (fun m v => if Qltb v m then v else m) l init <= init /\
    (In (fold_left (fun m v => if Qltb v m then v else m) l init) l \/
     fold_left (fun m v => if Qltb v m then v else m) l init = init)).
  { induction l as [|x l IH]; intros init; cbn [fold_left].
    - split; [intros ? []|]. split; [apply Qle_refl|right; reflexivity].
    - destruct (Qltb x init) eqn:E.
      + destruct (IH x) as (Hall & Hle & Hin). apply Qltb_lt in E.
        split; [|split].
        * intros v [<-|Hv]; [assumption|apply Hall; assumption].
        * lra.
        * destruct Hin as [Hin|Heq]; [left; right; assumption|].
          left. left. symmetry. assumption.
      + destruct (IH init) as (Hall & Hle & Hin). apply Qltb_false in E.
        split; [|split].
        * intros v [<-|Hv]; [lra|apply Hall; assumption].
        * assumption.
        * destruct Hin as [Hin|Heq]; [left; right; assumption|right; assumption]. }
  apply H.
Qed.

Lemma maxIntensity_spec (gray : list Q) :
  (forall v, In v gray -> v <= maxIntensity gray) /\
  0 <= maxIntensity gray /\
  (In (maxIntensity gray) gray \/ maxIntensity gray = 0).
Proof.
  unfold maxIntensity.
  assert (H : forall l init,
    (forall v, In v l ->
       v <= fold_left (fun m v => if Qltb m v then v else m) l init) /\
    init <= fold_left (fun m v => if Qltb m v then v else m) l init /\
    (In (fold_left (fun m v => if Qltb m v then v else m) l init) l \/
     fold_left (fun m v => if Qltb m v then v else m) l init = init)).
  { induction l as [|x l IH]; intros init; cbn [fold_left].
    - split; [intros ? []|]. split; [apply Qle_refl|right; reflexivity].
    - destruct (Qltb init x) eqn:E.
      + destruct (IH x) as (Hall & Hle & Hin). apply Qltb_lt in E.
        split; [|split].
        * intros v [<-|Hv]; [assumption|apply Hall; assumption].
        * lra.
        * destruct Hin as [Hin|Heq]; [left; right; assumption|].
          left. left. symmetry. assumption.
      + destruct (IH init) as (Hall & Hle & Hin). apply Qltb_false in E.
        split; [|split].
        * intros v [<-|Hv]; [lra|apply Hall; assumption].
        * assumption.
        * destruct Hin as [Hin|Heq]; [left; right; assumption|right; assumption]. }
  apply H.
Qed.

(** The divisor of the stretch is positive on every image that has a
    pixel. *)
Lemma stretch_range_positive (gray : list Q) :
  gray <> [] ->
  0 < (if Qeq_bool (maxIntensity gray - minIntensity gray) 0
       then 1 else maxIntensity gray - minIntensity gray).
Proof.
  intros Hne. destruct gray as [|v0 rest]; [congruence|].
  destruct (minIntensity_spec (v0 :: rest)) as (Hmin & _).
  destruct (maxIntensity_spec (v0 :: rest)) as (Hmax & _).
  specialize (Hmin v0 (or_introl eq_refl)).
  specialize (Hmax v0 (or_introl eq_refl)).
  destruct (Qeq_bool _ 0) eqn:E; [reflexivity|].
  apply Qeq_bool_neq in E. 
  destruct (Qlt_le_dec 0 (maxIntensity (v0 :: rest) - minIntensity (v0 :: rest)))
    as [|Hle]; [assumption|].
  exfalso. apply E. lra.
Qed.

Lemma stretch_monotone (lo range a b : Q) :
  0 < range -> a <= b ->
  Qmax 0 (Qmin 255 (((a - lo) / range) * 255))
  <= Qmax 0 (Qmin 255 (((b - lo) / range) * 255)).
Proof.
  intros Hr Hab. apply Q.max_le_compat_l. apply Q.min_le_compat_l.
  apply Qmult_le_compat_r; [|discriminate].
  unfold Qdiv. apply Qmult_le_compat_r; [lra|].
  apply Qinv_le_0_compat. lra.
Qed.

Lemma contrastStretchGray_get (gray : list Q) i :
  (i < length gray)%nat ->
  get 0 (contrastStretchGray gray) i
  = Qmax 0 (Qmin 255
      (((get 0 gray i - minIntensity gray)
        / (if Qeq_bool (maxIntensity gray - minIntensity gray) 0
           then 1 else maxIntensity gray - minIntensity gray)) * 255)).
Proof.
  intros Hi. unfold contrastStretchGray, get. cbv zeta.
  set (f := fun v => Qmax 0 (Qmin 255
      (((v - minIntensity gray)
        / (if Qeq_bool (maxIntensity gray - minIntensity gray) 0
           then 1 else maxIntensity gray - minIntensity gray)) * 255))).
  rewrite (nth_indep (map f gray) 0 (f 0)) by (rewrite length_map; assumption).
  apply (map_nth f).
Qed.

Lemma contrastStretchGray_range (gray : list Q) :
  length (contrastStretchGray gray) = length gray /\
  Forall (fun v => 0 <= v <= 255) (contrastStretchGray gray).
Proof.
  unfold contrastStretchGray. cbv zeta. split; [apply length_map|].
  apply Forall_forall. intros v Hv.
  apply in_map_iff in Hv. destruct Hv as (u & <- & _). split.
  - apply Q.le_max_l.
  - apply Q.max_lub; [discriminate|apply Q.le_min_l].
Qed.

End IntensityProperties.

(** X7. [toGrayscale] turns an RGBA buffer of [4 n] bytes into [n]
    intensities, each between 0 and 255. *)
Theorem grayscale_of_bytes_in_range (n : nat) (data : list Z) :
  length data = 4 * n ->
  Forall (fun b => (0 <= b <= 255)%Z) data ->
  length (toGrayscale data) = n /\
  Forall (fun v => (0 <= v <= 255)%Q) (toGrayscale data).
Proof. apply toGrayscale_spec. Qed.

Lemma grayscale_of_bytes_in_range_witness :
  length (toGrayscale [255; 0; 0; 255; 10; 20; 30; 255]%Z) = 2 /\
  Forall (fun v => (0 <= v <= 255)%Q)
         (toGrayscale [255; 0; 0; 255; 10; 20; 30; 255]%Z).
Proof.
  apply (grayscale_of_bytes_in_range 2 [255; 0; 0; 255; 10; 20; 30; 255]%Z).
  - reflexivity.
  - repeat constructor; lia.
Defined.

(** X8. [contrastStretch] keeps the number of pixels, yields intensities
    between 0 and 255 and keeps their order, whatever the image. On an image
    with intensities in [0, 255] that are not all equal, its darkest pixels
    become 0 and its brightest pixels become 255; on an image whose pixels
    are all equal, every pixel becomes 0. *)
Theorem contrast_stretch_spreads_to_full_range (gray : list Q) :
  Forall (fun v => (0 <= v <= 255)%Q) gray ->
  length (contrastStretchGray gray) = length gray /\
  Forall (fun v => (0 <= v <= 255)%Q) (contrastStretchGray gray) /\
  (forall i j, i < length gray -> j < length gray ->
     (get 0 gray i <= get 0 gray j)%Q ->
     (get 0 (contrastStretchGray gray) i
      <= get 0 (contrastStretchGray gray) j)%Q) /\
  (forall i, i < length gray ->
     (minIntensity gray < maxIntensity gray)%Q ->
     ((get 0 gray i == minIntensity gray)%Q ->
      (get 0 (contrastStretchGray gray) i == 0)%Q) /\
     ((get 0 gray i == maxIntensity gray)%Q ->
      (get 0 (contrastStretchGray gray) i == 255)%Q)) /\
  ((minIntensity gray < maxIntensity gray)%Q ->
   In (minIntensity gray) gray /\ In (maxIntensity gray) gray) /\
  ((forall i j, i < length gray -> j < length gray ->
      (get 0 gray i == get 0 gray j)%Q) ->
   Forall (fun v => (v == 0)%Q) (contrastStretchGray gray)).
Proof.
  intros Hall.
  destruct (minIntensity_spec gray) as (Hmin & Hmin255 & Hmin_in).
  destruct (maxIntensity_spec gray) as (Hmax & Hmax0 & Hmax_in).
  assert (Hlen : length (contrastStretchGray gray) = length gray).
  { unfold contrastStretchGray. cbv zeta. apply length_map. }
  split; [assumption|]. split; [|split; [|split; [|split]]].
  - unfold contrastStretchGray. cbv zeta. apply Forall_forall. intros v Hv.
    apply in_map_iff in Hv. destruct Hv as (u & <- & _). split.
    + apply Q.le_max_l.
    + apply Q.max_lub; [discriminate|apply Q.le_min_l].
  - intros i j Hi Hj Hij. rewrite !contrastStretchGray_get by assumption.
    apply stretch_monotone; [|assumption].
    apply stretch_range_positive. intros ->. simpl in Hi. lia.
  - intros i Hi Hlt. rewrite contrastStretchGray_get by assumption.
    assert (E : Qeq_bool (maxIntensity gray - minIntensity gray) 0 = false).
    { destruct (Qeq_bool _ 0) eqn:E; [|reflexivity].
      apply Qeq_bool_iff in E. lra. }
    rewrite E. split; intros Ev; rewrite Ev.
    + setoid_replace ((minIntensity gray - minIntensity gray)
                      / (maxIntensity gray - minIntensity gray) * 255)%Q
        with 0%Q.
      * reflexivity.
      * field. lra.
    + setoid_replace ((maxIntensity gray - minIntensity gray)
                      / (maxIntensity gray - minIntensity gray) * 255)%Q
        with 255%Q.
      * reflexivity.
      * field. lra.
  - intros Hlt. split.
    + destruct Hmin_in as [|E]; [assumption|]. exfalso.
      destruct Hmax_in as [Hin|E'].
      * rewrite Forall_forall in Hall. destruct (Hall _ Hin) as [_ H255].
        rewrite E in Hlt. lra.
      * rewrite E, E' in Hlt. lra.
    + destruct Hmax_in as [|E]; [assumption|]. exfalso.
      destruct Hmin_in as [Hin|E'].
      * rewrite Forall_forall in Hall. destruct (Hall _ Hin) as [H0 _].
        rewrite E in Hlt. lra.
      * rewrite E, E' in Hlt. lra.
  - intros Hconst. apply Forall_forall. intros v Hv.
    destruct (In_nth _ _ 0%Q Hv) as (i & Hi & <-). rewrite Hlen in Hi.
    fold (get 0%Q (contrastStretchGray gray) i).
    rewrite contrastStretchGray_get by assumption.
    assert (Hi_in : In (get 0%Q gray i) gray) by (apply get_In; assumption).
    assert (Hi_rng : (0 <= get 0 gray i <= 255)%Q).
    { rewrite Forall_forall in Hall. apply Hall. assumption. }
    assert (Emin : (minIntensity gray == get 0 gray i)%Q).
    { destruct Hmin_in as [Hin|E].
      - destruct (In_nth _ _ 0%Q Hin) as (j & Hj & Ej).
        rewrite <- Ej. apply (Hconst j i Hj Hi).
      - specialize (Hmin _ Hi_in). rewrite E in *. lra. }
    rewrite <- Emin.
    setoid_replace (minIntensity gray - minIntensity gray)%Q with 0%Q by ring.
    assert (Hr := stretch_range_positive gray
                    ltac:(intros ->; simpl in Hi; lia)).
    set (range := if Qeq_bool (maxIntensity gray - minIntensity gray) 0
                  then 1%Q else (maxIntensity gray - minIntensity gray)%Q) in *.
    setoid_replace (0 / range * 255)%Q with 0%Q; [reflexivity|].
    field. lra.
Qed.

Lemma contrast_stretch_spreads_to_full_range_witness :
  length (contrastStretchGray [50; 100; 150]%Q) = 3 /\
  Forall (fun v => (0 <= v <= 255)%Q) (contrastStretchGray [50; 100; 150]%Q).
Proof.
  assert (H : Forall (fun v => (0 <= v <= 255)%Q) [50; 100; 150]%Q)
    by (repeat constructor; discriminate).
  split.
  - exact (proj1 (contrast_stretch_spreads_to_full_range [50; 100; 150]%Q H)).
  - exact (proj1 (proj2 (contrast_stretch_spreads_to_full_range
                           [50; 100; 150]%Q H))).
Defined.

(** ** Otsu threshold, for every image *)

Section OtsuRange.
Local Open Scope Z_scope.

(** The loop returns the threshold it starts with or one it visits. *)
Lemma otsuLoop_visits hist sum total : forall ts st,
  otsuLoop hist sum total ts st = bestT st \/
  exists t, In t ts /\ otsuLoop hist sum total ts st = Z.of_nat t.
Proof.
  induction ts as [|t ts IH]; intros st; [left; reflexivity|].
  cbn [otsuLoop]. cbv zeta.
  destruct (wB st + get 0 hist t =? 0).
  { destruct (IH (mkOtsu (sumB st) (wB st + get 0 hist t) (maxVar st) (bestT st)))
      as [E|(t' & Hin & E)]; [left; exact E|].
    right. exists t'. split; [right; assumption|exact E]. }
  destruct (total - (wB st + get 0 hist t) =? 0); [left; reflexivity|].
  destruct (Qltb _ _).
  - match goal with
    | |- otsuLoop _ _ _ _ ?st' = _ \/ _ =>
        destruct (IH st') as [E|(t' & Hin & E)]
    end.
    + right. exists t. split; [left; reflexivity|exact E].
    + right. exists t'. split; [right; assumption|exact E].
  - match goal with
    | |- otsuLoop _ _ _ _ ?st' = _ \/ _ =>
        destruct (IH st') as [E|(t' & Hin & E)]
    end.
    + left. exact E.
    + right. exists t'. split; [right; assumption|exact E].
Qed.

Lemma otsuThreshold_range gray : 0 <= otsuThreshold gray <= 255.
Proof.
  unfold otsuThreshold. cbv zeta.
  destruct (otsuLoop_visits (histogram gray) (weightedSum (histogram gray))
              (Z.of_nat (length gray)) (seq 0 256) (mkOtsu 0 0 0%Q 0))
    as [E|(t & Hin & E)]; rewrite E.
  - simpl. lia.
  - apply in_seq in Hin. lia.
Qed.

Lemma binCount_all gray (b : nat) :
  (forall g, In g gray -> bin g = Z.of_nat b) ->
  binCount gray b = Z.of_nat (length gray).
Proof.
  intros H. unfold binCount. f_equal.
  induction gray as [|g gray IH]; [reflexivity|]. simpl.
  rewrite (H g (or_introl eq_refl)), Z.eqb_refl. simpl. f_equal.
  apply IH. intros g' Hg'. apply H. right. assumption.
Qed.

(** One spike in the histogram: the loop meets no threshold with pixels on
    both sides, and returns the threshold it starts with. *)
Lemma otsuThreshold_single_bin gray (b : nat) :
  (b < 256)%nat ->
  (forall g, In g gray -> bin g = Z.of_nat b) ->
  otsuThreshold gray = 0.
Proof.
  intros Hb Hall. unfold otsuThreshold. cbv zeta.
  set (hist := histogram gray).
  assert (Hzero : forall t, (t < 256)%nat -> t <> b -> get 0 hist t = 0).
  { intros t Ht Hne. unfold hist. rewrite histogram_get by assumption.
    apply binCount_zero. intros g Hg. rewrite (Hall g Hg). lia. }
  assert (Hfull : get 0 hist b = Z.of_nat (length gray)).
  { unfold hist. rewrite histogram_get by assumption. apply binCount_all.
    assumption. }
  replace (seq 0 256) with (seq 0 b ++ b :: seq (S b) (255 - b)).
  2:{ replace 256%nat with (b + S (255 - b))%nat at 1 by lia.
      rewrite seq_app. reflexivity. }
  rewrite otsuLoop_leading;
    [|reflexivity|intros t Ht; apply in_seq in Ht; apply Hzero; lia].
  cbn [otsuLoop wB]. cbv zeta. rewrite Hfull.
  destruct (Z.eqb_spec (0 + Z.of_nat (length gray)) 0) as [E0|Hpos].
  - rewrite <- (app_nil_r (seq (S b) (255 - b))).
    rewrite otsuLoop_leading; [reflexivity|cbn [wB]; lia|].
    intros t Ht. apply in_seq in Ht. apply Hzero; lia.
  - replace (Z.of_nat (length gray) - (0 + Z.of_nat (length gray))) with 0 by lia.
    reflexivity.
Qed.

End OtsuRange.

(** X9. [otsuThreshold] returns an integer between 0 and 255 for every
    image, and returns 0 when the image is empty or all its intensities fall
    into one bin of the histogram (a uniform image). *)
Theorem otsu_threshold_range_and_single_spike (gray : list Q) :
  (0 <= otsuThreshold gray <= 255)%Z /\
  (forall b : nat, b < 256 ->
     (forall g, In g gray -> bin g = Z.of_nat b) ->
     otsuThreshold gray = 0%Z).
Proof.
  split; [apply otsuThreshold_range|].
  intros b Hb Hall. apply (otsuThreshold_single_bin gray b Hb Hall).
Qed.

Lemma otsu_threshold_range_and_single_spike_witness :
  otsuThreshold (repeat 128%Q 16) = 0%Z.
Proof.
  apply (proj2 (otsu_threshold_range_and_single_spike (repeat 128%Q 16)) 128).
  - lia.
  - intros g Hg. apply repeat_spec in Hg. subst g. reflexivity.
Defined.

(** ** Bounding box and radii *)

Section MeasurementProperties.
Variable fg : list bool.
Variables w h : nat.

(** One step of the scan: the box of the pixels seen so far, with pixel
    [(y, x)] added. *)
Lemma boundingBox_step (seen : nat -> nat -> Prop) (b : box) (y x : nat) :
  y < h -> x < w ->
  boxCovers fg w seen b ->
  ((forall y' x', seen y' x' -> get false fg (y' * w + x') = false) /\
   b = mkBox h 0 w 0) \/ boxTouches fg w seen b ->
  let seen' := fun y' x' => seen y' x' \/ (y' = y /\ x' = x) in
  let b' := if get false fg (y * w + x) then
              mkBox (if y <? yMin b then y else yMin b)
                    (if yMax b <? y then y else yMax b)
                    (if x <? xMin b then x else xMin b)
                    (if xMax b <? x then x else xMax b)
            else b in
  boxCovers fg w seen' b' /\
  (((forall y' x', seen' y' x' -> get false fg (y' * w + x') = false) /\
    b' = mkBox h 0 w 0) \/ boxTouches fg w seen' b').
Proof.
  intros Hy Hx Hcov Htouch. cbv zeta.
  destruct (get false fg (y * w + x)) eqn:Efg.
  - split.
    + intros y' x' [Hs|[-> ->]] Hf; cbn [yMin yMax xMin xMax].
      * destruct (Hcov y' x' Hs Hf) as [[? ?] [? ?]].
        destruct (Nat.ltb_spec y (yMin b)), (Nat.ltb_spec (yMax b) y),
          (Nat.ltb_spec x (xMin b)), (Nat.ltb_spec (xMax b) x); lia.
      * destruct (Nat.ltb_spec y (yMin b)), (Nat.ltb_spec (yMax b) y),
          (Nat.ltb_spec x (xMin b)), (Nat.ltb_spec (xMax b) x); lia.
    + right. unfold boxTouches. cbn [yMin yMax xMin xMax].
      destruct Htouch as [[Hnone ->]|(Ht1 & Ht2 & Ht3 & Ht4)].
      * cbn [yMin yMax xMin xMax].
        destruct (Nat.ltb_spec y h); [|lia]. destruct (Nat.ltb_spec x w); [|lia].
        assert (E0y : (if 0 <? y then y else 0) = y)
          by (destruct (Nat.ltb_spec 0 y); lia).
        assert (E0x : (if 0 <? x then x else 0) = x)
          by (destruct (Nat.ltb_spec 0 x); lia).
        rewrite E0y, E0x.
        repeat split; eexists; (split; [right; split; reflexivity|assumption]).
      * split; [|split; [|split]].
        -- destruct (Nat.ltb_spec y (yMin b)).
           ++ exists x. split; [right; auto|assumption].
           ++ destruct Ht1 as (x1 & Hs1 & Hf1). exists x1. split; [left|]; assumption.
        -- destruct (Nat.ltb_spec (yMax b) y).
           ++ exists x. split; [right; auto|assumption].
           ++ destruct Ht2 as (x1 & Hs1 & Hf1). exists x1. split; [left|]; assumption.
        -- destruct (Nat.ltb_spec x (xMin b)).
           ++ exists y. split; [right; auto|assumption].
           ++ destruct Ht3 as (y1 & Hs1 & Hf1). exists y1. split; [left|]; assumption.
        -- destruct (Nat.ltb_spec (xMax b) x).
           ++ exists y. split; [right; auto|assumption].
           ++ destruct Ht4 as (y1 & Hs1 & Hf1). exists y1. split; [left|]; assumption.
  - split.
    + intros y' x' [Hs|[-> ->]] Hf; [apply (Hcov y' x' Hs Hf)|congruence].
    + destruct Htouch as [[Hnone ->]|(Ht1 & Ht2 & Ht3 & Ht4)].
      * left. split; [|reflexivity].
        intros y' x' [Hs|[-> ->]]; [apply Hnone; assumption|assumption].
      * right. unfold boxTouches.
        destruct Ht1 as (x1 & Hs1 & Hf1), Ht2 as (x2 & Hs2 & Hf2),
          Ht3 as (y3 & Hs3 & Hf3), Ht4 as (y4 & Hs4 & Hf4).
        repeat split; eexists; (split; [left; eassumption|assumption]).
Qed.

Lemma boundingBox_spec :
  boxCovers fg w (inFrame w h) (boundingBox fg w h) /\
  (((forall y x, inFrame w h y x -> get false fg (y * w + x) = false) /\
    boundingBox fg w h = mkBox h 0 w 0) \/
   boxTouches fg w (inFrame w h) (boundingBox fg w h)).
Proof.
  unfold boundingBox.
  set (P := fun (seen : nat -> nat -> Prop) (b : box) =>
    boxCovers fg w seen b /\
    (((forall y x, seen y x -> get false fg (y * w + x) = false) /\
      b = mkBox h 0 w 0) \/ boxTouches fg w seen b)).
  assert (Pext : forall (s s' : nat -> nat -> Prop) b,
            (forall y x, s y x <-> s' y x) -> P s b -> P s' b).
  { intros s s' b Hss [Hcov Ht]. split.
    - intros y x Hs. apply Hcov. apply Hss. assumption.
    - destruct Ht as [[Hnone E]|(Ht1 & Ht2 & Ht3 & Ht4)].
      + left. split; [|assumption]. intros y x Hs. apply Hnone. apply Hss. assumption.
      + right. unfold boxTouches.
        destruct Ht1 as (x1 & Hs1 & Hf1), Ht2 as (x2 & Hs2 & Hf2),
          Ht3 as (y3 & Hs3 & Hf3), Ht4 as (y4 & Hs4 & Hf4).
        repeat split; eexists; (split; [apply Hss; eassumption|assumption]). }
  assert (Hrow : forall k b, k < h ->
    P (fun y x => y < k /\ x < w) b ->
    P (fun y x => y < 1 + k /\ x < w)
      (forRange 0 w (fun x b =>
         if get false fg (k * w + x) then
           mkBox (if k <? yMin b then k else yMin b)
                 (if yMax b <? k then k else yMax b)
                 (if x <? xMin b then x else xMin b)
                 (if xMax b <? x then x else xMax b)
         else b) b)).
  { intros k b Hk Hb.
    assert (H := forRange_inv
      (fun i b => P (fun y x => (y < k /\ x < w) \/ (y = k /\ x < i)) b)
      0 w (fun x b =>
         if get false fg (k * w + x) then
           mkBox (if k <? yMin b then k else yMin b)
                 (if yMax b <? k then k else yMax b)
                 (if x <? xMin b then x else xMin b)
                 (if xMax b <? x then x else xMax b)
         else b) b).
    cbv beta in H. apply (Pext (fun y x => (y < k /\ x < w) \/ (y = k /\ x < 0 + w))).
    - intros y x. lia.
    - apply H.
      + apply (Pext (fun y x => y < k /\ x < w)); [intros y x; lia|assumption].
      + intros i b0 Hi [Hcov Ht].
        destruct (boundingBox_step _ b0 k i Hk ltac:(lia) Hcov Ht) as [Hcov' Ht'].
        apply (Pext (fun y' x' =>
                 ((y' < k /\ x' < w) \/ (y' = k /\ x' < i)) \/ (y' = k /\ x' = i))).
        * intros y x. lia.
        * split; assumption. }
  assert (H := forRange_inv
    (fun k b => P (fun y x => y < k /\ x < w) b)
    0 h (fun y b => forRange 0 w (fun x b =>
         if get false fg (y * w + x) then
           mkBox (if y <? yMin b then y else yMin b)
                 (if yMax b <? y then y else yMax b)
                 (if x <? xMin b then x else xMin b)
                 (if xMax b <? x then x else xMax b)
         else b) b) (mkBox h 0 w 0)).
  cbv beta in H.
  apply (Pext (fun y x => y < 0 + h /\ x < w)); [unfold inFrame; intros; lia|].
  apply H.
  - split.
    + intros y x [Hy _]. lia.
    + left. split; [intros y x [Hy _]; lia|reflexivity].
  - intros k b Hk Hb. apply Hrow; [lia|assumption].
Qed.

End MeasurementProperties.

(** X10. [boundingBox] scans the frame and returns the tight bounding box
    of the foreground: every foreground pixel lies inside it, and each of
    its four sides holds a foreground pixel; on a mask without foreground it
    returns the start box [(yMin, yMax, xMin, xMax) = (h, 0, w, 0)], the
    height of which, [1 - h], is below every positive height. *)
Theorem bounding_box_is_tight (fg : list bool) (w h : nat) :
  boxCovers fg w (inFrame w h) (boundingBox fg w h) /\
  ((exists y x, inFrame w h y x /\ get false fg (y * w + x) = true) ->
   boxTouches fg w (inFrame w h) (boundingBox fg w h)) /\
  ((forall y x, inFrame w h y x -> get false fg (y * w + x) = false) ->
   boundingBox fg w h = mkBox h 0 w 0 /\
   boxHeight (boundingBox fg w h) = (1 - Z.of_nat h)%Z).
Proof.
  destruct (boundingBox_spec fg w h) as [Hcov Ht].
  split; [assumption|]. split.
  - intros (y & x & Hin & Hf).
    destruct Ht as [[Hnone _]|Ht]; [|assumption].
    rewrite (Hnone y x Hin) in Hf. discriminate.
  - intros Hnone.
    assert (E : boundingBox fg w h = mkBox h 0 w 0).
    { destruct Ht as [[_ E]|((x & Hin & Hf) & _)]; [assumption|].
      rewrite (Hnone _ _ Hin) in Hf. discriminate. }
    split; [assumption|]. rewrite E. unfold boxHeight. cbn [yMin yMax]. lia.
Qed.

(** ** Centreline and radii *)

Section RadiusProperties.
Local Open Scope Z_scope.

(** A running maximum over the entries that pass a test. *)
Lemma fold_max_spec (p : nat -> bool) (g : nat -> Z) : forall (l : list nat) init,
  init <= fold_left (fun m x => if p x then if m <? g x then g x else m else m)
                    l init /\
  (forall x, In x l -> p x = true ->
     g x <= fold_left (fun m x => if p x then if m <? g x then g x else m else m)
                      l init) /\
  (fold_left (fun m x => if p x then if m <? g x then g x else m else m) l init
   = init \/
   exists x, In x l /\ p x = true /\
     fold_left (fun m x => if p x then if m <? g x then g x else m else m) l init
     = g x).
Proof.
  induction l as [|a l IH]; intros init; cbn [fold_left].
  - split; [lia|]. split; [intros x []|left; reflexivity].
  - destruct (p a) eqn:Ep.
    + destruct (Z.ltb_spec init (g a)) as [Hlt|Hge].
      * destruct (IH (g a)) as (Hle & Hall & Hin). split; [lia|]. split.
        -- intros x [<-|Hx] Hp; [assumption|apply Hall; assumption].
        -- right. destruct Hin as [E|(x & Hx & Hp & E)].
           ++ exists a. split; [left; reflexivity|]. split; assumption.
           ++ exists x. split; [right; assumption|]. split; assumption.
      * destruct (IH init) as (Hle & Hall & Hin). split; [assumption|]. split.
        -- intros x [<-|Hx] Hp; [lia|apply Hall; assumption].
        -- destruct Hin as [E|(x & Hx & Hp & E)]; [left; assumption|].
           right. exists x. split; [right; assumption|]. split; assumption.
    + destruct (IH init) as (Hle & Hall & Hin). split; [assumption|]. split.
      * intros x [<-|Hx] Hp; [congruence|apply Hall; assumption].
      * destruct Hin as [E|(x & Hx & Hp & E)]; [left; assumption|].
        right. exists x. split; [right; assumption|]. split; assumption.
Qed.

Lemma rowRadius_right fg w c y :
  (forall x, (c <= x < w)%nat -> get false fg (y * w + x) = true ->
     Z.of_nat x - Z.of_nat c <= rowRadius fg w c true y) /\
  (rowRadius fg w c true y = 0 \/
   exists x, (c <= x < w)%nat /\ get false fg (y * w + x) = true /\
             rowRadius fg w c true y = Z.of_nat x - Z.of_nat c).
Proof.
  unfold rowRadius, forUpTo, forRange. cbv zeta.
  destruct (fold_max_spec (fun x => get false fg (y * w + x))
              (fun x => Z.of_nat x - Z.of_nat c) (seq c (w - c)) 0)
    as (_ & Hall & Hin).
  split.
  - intros x Hx Hf. apply Hall; [apply in_seq; lia|assumption].
  - destruct Hin as [E|(x & Hx & Hf & E)]; [left; assumption|].
    right. exists x. apply in_seq in Hx. split; [lia|]. split; assumption.
Qed.

Lemma rowRadius_left fg w c y :
  (forall x, (x <= c)%nat -> get false fg (y * w + x) = true ->
     Z.of_nat c - Z.of_nat x <= rowRadius fg w c false y) /\
  (rowRadius fg w c false y = 0 \/
   exists x, (x <= c)%nat /\ get false fg (y * w + x) = true /\
             rowRadius fg w c false y = Z.of_nat c - Z.of_nat x).
Proof.
  unfold rowRadius. cbv zeta.
  destruct (fold_max_spec (fun x => get false fg (y * w + x))
              (fun x => Z.of_nat c - Z.of_nat x) (rev (seq 0 (c + 1))) 0)
    as (_ & Hall & Hin).
  split.
  - intros x Hx Hf. apply Hall; [|assumption].
    apply in_rev. rewrite rev_involutive. apply in_seq. lia.
  - destruct Hin as [E|(x & Hx & Hf & E)]; [left; assumption|].
    right. exists x. apply in_rev in Hx. apply in_seq in Hx.
    split; [lia|]. split; assumption.
Qed.

Lemma radii_max fg w b c right :
  Forall (fun r => r <= snd (radii fg w b c right)) (fst (radii fg w b c right)) /\
  (snd (radii fg w b c right) = 0 \/
   In (snd (radii fg w b c right)) (fst (radii fg w b c right))).
Proof.
  unfold radii, forUpTo.
  assert (H := forRange_inv
    (fun (_ : nat) (acc : list Z * Z) =>
       Forall (fun r => r <= snd acc) (fst acc) /\
       (snd acc = 0 \/ In (snd acc) (fst acc)))
    (yMin b) (yMax b + 1 - yMin b)
    (fun y acc =>
       let maxDist := rowRadius fg w c right y in
       (fst acc ++ [maxDist],
        if snd acc <? maxDist then maxDist else snd acc)) ([], 0)).
  cbv beta in H. apply H.
  - split; [constructor|left; reflexivity].
  - intros y acc _ [Hall Hin]. cbv zeta. cbn [fst snd].
    destruct (Z.ltb_spec (snd acc) (rowRadius fg w c right y)) as [Hlt|Hge].
    + split.
      * apply Forall_app. split; [|constructor; [lia|constructor]].
        apply Forall_impl with (2 := Hall). intros r Hr. lia.
      * right. apply in_or_app. right. left. reflexivity.
    + split.
      * apply Forall_app. split; [assumption|constructor; [lia|constructor]].
      * destruct Hin as [E|Hin]; [left; assumption|].
        right. apply in_or_app. left. assumption.
Qed.

End RadiusProperties.

Section CentrelineProperties.

Lemma xPositions_In fg w b x :
  In x (xPositions fg w b) <->
  exists y, yMin b <= y <= yMax b /\ x < w /\ get false fg (y * w + x) = true.
Proof.
  unfold xPositions, overBox, forUpTo.
  assert (Hrow : forall y acc x,
    In x (forRange 0 w (fun x acc =>
            if get false fg (y * w + x) then acc ++ [x] else acc) acc) <->
    In x acc \/ (x < w /\ get false fg (y * w + x) = true)).
  { intros y acc x0.
    assert (H := forRange_inv
      (fun i a => forall x, In x a <->
         In x acc \/ (x < i /\ get false fg (y * w + x) = true))
      0 w (fun x acc => if get false fg (y * w + x) then acc ++ [x] else acc) acc).
    cbv beta in H. apply H.
    - intros x1. split; [tauto|]. intros [|[? _]]; [assumption|lia].
    - intros i a Hi Ha x1. destruct (get false fg (y * w + i)) eqn:E.
      + rewrite in_app_iff, Ha. simpl. split.
        * intros [[|[? ?]]|[<-|[]]]; [tauto|right; split; [lia|assumption]|].
          right. split; [lia|assumption].
        * intros [|[Hlt Hf]]; [tauto|].
          destruct (Nat.eq_dec x1 i) as [->|]; [right; auto|].
          left. right. split; [lia|assumption].
      + rewrite Ha. split.
        * intros [|[? ?]]; [tauto|right; split; [lia|assumption]].
        * intros [|[Hlt Hf]]; [tauto|].
          destruct (Nat.eq_dec x1 i) as [->|]; [congruence|].
          right. split; [lia|assumption]. }
  assert (H := forRange_inv
    (fun k a => forall x, In x a <->
       exists y, yMin b <= y < k /\ x < w /\ get false fg (y * w + x) = true)
    (yMin b) (yMax b + 1 - yMin b)
    (fun y s => forRange 0 w (fun x acc =>
       if get false fg (y * w + x) then acc ++ [x] else acc) s) []).
  cbv beta in H.
  assert (Hall : forall x, In x (forRange (yMin b) (yMax b + 1 - yMin b)
    (fun y s => forRange 0 w (fun x acc =>
       if get false fg (y * w + x) then acc ++ [x] else acc) s) []) <->
    exists y, yMin b <= y < yMin b + (yMax b + 1 - yMin b) /\ x < w /\
              get false fg (y * w + x) = true).
  { apply H.
    - intros x0. split; [intros []|]. intros (y & Hy & _). lia.
    - intros k a Hk Ha x0. rewrite Hrow, Ha. split.
      + intros [(y & Hy & Hx)|Hx]; [exists y; split; [lia|assumption]|].
        exists k. split; [lia|assumption].
      + intros (y & Hy & Hx).
        destruct (Nat.eq_dec y k) as [->|]; [right; assumption|].
        left. exists y. split; [lia|assumption]. }
  rewrite Hall. split; intros (y & Hy & Hx); exists y; split; try assumption; lia.
Qed.

Lemma centerlineX_spec fg w b :
  xPositions fg w b <> [] ->
  exists y, yMin b <= y <= yMax b /\ centerlineX fg w b < w /\
            get false fg (y * w + centerlineX fg w b) = true.
Proof.
  intros Hne. apply xPositions_In. unfold centerlineX. cbv zeta.
  assert (Hlen : length (sortBy Nat.leb (xPositions fg w b))
                 = length (xPositions fg w b)) by apply sortBy_length.
  assert (Hpos : 0 < length (xPositions fg w b)).
  { destruct (xPositions fg w b); [congruence|simpl; lia]. }
  destruct (Nat.ltb_spec 0 (length (sortBy Nat.leb (xPositions fg w b)))); [|lia].
  eapply Permutation_in; [apply Permutation_sym; apply sortBy_perm|].
  apply get_In. apply Nat.Div0.div_lt_upper_bound. lia.
Qed.

End CentrelineProperties.

(** X11. When the rows of the bounding box hold a foreground pixel,
    [centerlineX] is the column of one of them: a column of the frame in
    which some row of the box has a foreground pixel. *)
Theorem centerline_is_a_foreground_column (fg : list bool) (w : nat) (b : box) :
  (exists y x, yMin b <= y <= yMax b /\ x < w /\
               get false fg (y * w + x) = true) ->
  exists y, yMin b <= y <= yMax b /\ centerlineX fg w b < w /\
            get false fg (y * w + centerlineX fg w b) = true.
Proof.
  intros (y & x & H). apply centerlineX_spec.
  intros E. assert (Hin : In x (xPositions fg w b)).
  { apply xPositions_In. exists y. assumption. }
  rewrite E in Hin. contradiction.
Qed.

Lemma centerline_is_a_foreground_column_witness :
  exists y, 0 <= y <= 1 /\ centerlineX exampleMask 4 (mkBox 0 1 0 3) < 4 /\
            get false exampleMask (y * 4 + centerlineX exampleMask 4 (mkBox 0 1 0 3))
            = true.
Proof.
  apply (centerline_is_a_foreground_column exampleMask 4 (mkBox 0 1 0 3)).
  exists 0, 0. simpl. repeat split; lia.
Defined.

(** X12. The radius of a row is the greatest distance from the centreline
    to a foreground pixel of that row on the measured side (columns
    [c .. w-1] on the right, [0 .. c] on the left), and 0 when there is
    none; [maxRadius] bounds every row radius and is one of them unless it
    is 0. *)
Theorem row_radius_is_greatest_distance (fg : list bool) (w : nat) (b : box)
        (c : nat) (right : bool) (y : nat) :
  (forall x, (if right then c <= x < w else x <= c) ->
     get false fg (y * w + x) = true ->
     (Z.abs (Z.of_nat x - Z.of_nat c) <= rowRadius fg w c right y)%Z) /\
  (rowRadius fg w c right y = 0%Z \/
   exists x, (if right then c <= x < w else x <= c) /\
             get false fg (y * w + x) = true /\
             rowRadius fg w c right y = Z.abs (Z.of_nat x - Z.of_nat c)) /\
  Forall (fun r => (0 <= r <= snd (radii fg w b c right))%Z)
         (fst (radii fg w b c right)) /\
  (snd (radii fg w b c right) = 0%Z \/
   In (snd (radii fg w b c right)) (fst (radii fg w b c right))).
Proof.
  destruct (radii_max fg w b c right) as [Hall Hin].
  split; [|split; [|split; [|assumption]]].
  - destruct right.
    + destruct (rowRadius_right fg w c y) as [H _].
      intros x Hx Hf. specialize (H x Hx Hf). lia.
    + destruct (rowRadius_left fg w c y) as [H _].
      intros x Hx Hf. specialize (H x Hx Hf). lia.
  - destruct right.
    + destruct (rowRadius_right fg w c y) as [_ [E|(x & Hx & Hf & E)]];
        [left; assumption|].
      right. exists x. split; [assumption|]. split; [assumption|]. lia.
    + destruct (rowRadius_left fg w c y) as [_ [E|(x & Hx & Hf & E)]];
        [left; assumption|].
      right. exists x. split; [assumption|]. split; [assumption|]. lia.
  - pose proof (radii_nonneg fg w b c right) as Hnn.
    rewrite Forall_forall in *. intros r Hr.
    split; [apply Hnn; assumption|apply Hall; assumption].
Qed.

(** ** Median filter and nearest point *)

Section MedianOfWindow.

Lemma filter_length_perm {A} (p : A -> bool) (l l' : list A) :
  Permutation l l' -> length (filter p l) = length (filter p l').
Proof.
  intros H. induction H as [|x l l' _ IH|x y l|l l' l'' _ IH1 _ IH2]; simpl.
  - reflexivity.
  - destruct (p x); simpl; congruence.
  - destruct (p x), (p y); reflexivity.
  - congruence.
Qed.

(** A stretch of entries that all pass the test is counted by the filter. *)
Lemma filter_length_stretch {A} (p : A -> bool) (d : A) : forall (l : list A) a b,
  a <= b -> b <= length l ->
  (forall j, a <= j < b -> p (nth j l d) = true) ->
  b - a <= length (filter p l).
Proof.
  induction l as [|x l IH]; intros a b Hab Hb Hp; [simpl in *; lia|].
  destruct b as [|b]; [lia|]. simpl in Hb.
  destruct a as [|a].
  - assert (Hx : p x = true) by (apply (Hp 0); lia).
    simpl. rewrite Hx. simpl.
    assert (b - 0 <= length (filter p l)).
    { apply IH; [lia|lia|]. intros j Hj. apply (Hp (S j)). lia. }
    lia.
  - assert (S b - S a = b - a) as -> by lia.
    apply Nat.le_trans with (length (filter p l)).
    + apply IH; [lia|lia|]. intros j Hj. apply (Hp (S j)). lia.
    + simpl. destruct (p x); simpl; lia.
Qed.

Lemma sorted_nth_le (l : list Z) :
  StronglySorted Z.le l ->
  forall i j, i <= j -> j < length l -> (nth i l 0 <= nth j l 0)%Z.
Proof.
  intros Hs. induction Hs as [|x l Hs IH Hall]; intros i j Hij Hj; [simpl in Hj; lia|].
  destruct j as [|j].
  - assert (i = 0) by lia. subst. lia.
  - destruct i as [|i].
    + simpl. rewrite Forall_forall in Hall. apply Hall. apply nth_In.
      simpl in Hj. lia.
    + simpl. apply IH; simpl in Hj; lia.
Qed.

(** The middle entry of a sorted copy of a list of odd length is a median
    of the list. *)
Lemma middle_of_sorted_is_median (l : list Z) (m : nat) :
  length l = 2 * m + 1 ->
  isMedianOf (get 0%Z (sortBy Z.leb l) (length (sortBy Z.leb l) / 2)) l.
Proof.
  intros Hlen.
  pose proof (sortBy_perm Z Z.leb l) as Hperm.
  pose proof (sortBy_length Z Z.leb l) as Hslen.
  assert (Hsorted : StronglySorted Z.le (sortBy Z.leb l)).
  { apply sortBy_sorted.
    - intros a b H. apply Z.leb_le. assumption.
    - intros a b H. apply Z.leb_gt in H. lia.
    - intros a b c. apply Z.le_trans. }
  assert (Emid : length (sortBy Z.leb l) / 2 = m).
  { rewrite Hslen, Hlen. replace (2 * m + 1) with (1 + m * 2) by lia.
    rewrite Nat.div_add by lia. reflexivity. }
  rewrite Emid. set (s := sortBy Z.leb l) in *. unfold get.
  split; [|split].
  - apply (Permutation_in _ (Permutation_sym Hperm)). apply nth_In. lia.
  - rewrite (filter_length_perm _ l s Hperm).
    assert (m + 1 - 0 <= length (filter (fun v => (v <=? nth m s 0)%Z) s)).
    { apply (filter_length_stretch _ 0%Z); [lia|lia|].
      intros j Hj. apply Z.leb_le. apply sorted_nth_le; [assumption|lia|lia]. }
    lia.
  - rewrite (filter_length_perm _ l s Hperm).
    assert (2 * m + 1 - m <= length (filter (fun v => (nth m s 0 <=? v)%Z) s)).
    { apply (filter_length_stretch _ 0%Z); [lia|lia|].
      intros j Hj. apply Z.leb_le. apply sorted_nth_le; [assumption|lia|lia]. }
    lia.
Qed.

Lemma insertBy_Some (x : Z) (l : list Z) :
  insertBy numbersFirst (Some x) (map Some l) = map Some (insertBy Z.leb x l).
Proof.
  induction l as [|y l IH]; [reflexivity|]. simpl.
  destruct (x <=? y)%Z; [reflexivity|]. simpl. rewrite IH. reflexivity.
Qed.

Lemma sortBy_Some (l : list Z) :
  sortBy numbersFirst (map Some l) = map Some (sortBy Z.leb l).
Proof.
  induction l as [|x l IH]; [reflexivity|].
  unfold sortBy in *. cbn [map fold_right]. rewrite IH. apply insertBy_Some.
Qed.

Lemma windowLength_integer (hw : Q) (m : nat) :
  (hw == inject_Z (Z.of_nat m))%Q -> windowLength hw = 2 * m + 1.
Proof.
  intros E. unfold windowLength.
  assert (E2 : (2 * hw == inject_Z (2 * Z.of_nat m))%Q).
  { rewrite E, inject_Z_mult. reflexivity. }
  rewrite (Qfloor_comp _ _ E2), Qfloor_Z. lia.
Qed.

(** With an integer half-window the window holds the radii around the row,
    the end rows repeated beyond the ends. *)
Lemma medianWindow_cells (arr : list Z) (hw : Q) (m i : nat) :
  (hw == inject_Z (Z.of_nat m))%Q -> i < length arr ->
  medianWindow arr hw i = map Some (clampedWindow arr m i).
Proof.
  intros E Hi. rewrite medianWindow_map, (windowLength_integer hw m E).
  unfold clampedWindow. rewrite map_map. apply map_ext_in.
  intros t _.
  set (z := Z.max 0 (Z.min (Z.of_nat (length arr) - 1)
                           (Z.of_nat i + (Z.of_nat t - Z.of_nat m)))).
  rewrite (readAt_integer arr _ z); [reflexivity| |unfold z; lia].
  unfold z. rewrite <- inject_Z_max, <- inject_Z_min.
  unfold Zminus. rewrite !inject_Z_plus, !inject_Z_opp, E. reflexivity.
Qed.

(** X13. With an integer half-window [m], [medianFilter] returns one radius
    per row, and the radius of row [i] is a median of the [2 m + 1] radii of
    the rows [i - m .. i + m], the first and the last row standing for the
    rows beyond the ends: it is one of them, more than half of them are at
    most it and more than half are at least it. *)
Theorem median_filter_takes_window_medians (arr : list Z) (hw : Q) (m : nat) :
  (hw == inject_Z (Z.of_nat m))%Q ->
  length (medianFilter arr hw) = length arr /\
  forall i, i < length arr ->
    exists r, get None (medianFilter arr hw) i = Some r /\
              isMedianOf r (clampedWindow arr m i).
Proof.
  intros E. split; [apply medianFilter_length|]. intros i Hi.
  rewrite medianFilter_map. unfold get at 1.
  set (f := fun i => get None (sortBy numbersFirst (medianWindow arr hw i))
                      (length (sortBy numbersFirst (medianWindow arr hw i)) / 2)).
  rewrite (nth_indep (map f _) None (f 0))
    by (rewrite length_map, length_seq; assumption).
  rewrite (map_nth f), seq_nth by assumption. cbn [Nat.add]. unfold f.
  rewrite (medianWindow_cells arr hw m i E Hi), sortBy_Some.
  assert (Hwlen : length (clampedWindow arr m i) = 2 * m + 1).
  { unfold clampedWindow. rewrite length_map, length_seq. reflexivity. }
  pose proof (middle_of_sorted_is_median (clampedWindow arr m i) m Hwlen) as Hmed.
  rewrite length_map.
  exists (get 0%Z (sortBy Z.leb (clampedWindow arr m i))
              (length (sortBy Z.leb (clampedWindow arr m i)) / 2)).
  split; [|exact Hmed].
  unfold get.
  rewrite (nth_indep (map Some _) None (Some 0%Z)); [apply map_nth|].
  rewrite length_map. apply Nat.Div0.div_lt_upper_bound.
  rewrite sortBy_length, Hwlen. lia.
Qed.

End MedianOfWindow.

Section NearestPoint.
Local Open Scope Q_scope.

(** The scan keeps the first point of least gap among those it has
    seen. *)
Lemma nearest_scan (t : Q) : forall (rest pre : list ProfilePoint) best,
  (exists l1 l2, pre = l1 ++ best :: l2 /\
     (forall q, In q l1 -> heightGap t best < heightGap t q) /\
     (forall q, In q l2 -> heightGap t best <= heightGap t q)) ->
  exists l1 l2,
    pre ++ rest
    = l1 ++ fst (fold_left (fun best p =>
                   if Qltb (Qabs (py p - t)) (snd best)
                   then (p, Qabs (py p - t)) else best)
                 rest (best, Qabs (py best - t))) :: l2 /\
    (forall q, In q l1 ->
       heightGap t (fst (fold_left (fun best p =>
                   if Qltb (Qabs (py p - t)) (snd best)
                   then (p, Qabs (py p - t)) else best)
                 rest (best, Qabs (py best - t)))) < heightGap t q) /\
    (forall q, In q l2 ->
       heightGap t (fst (fold_left (fun best p =>
                   if Qltb (Qabs (py p - t)) (snd best)
                   then (p, Qabs (py p - t)) else best)
                 rest (best, Qabs (py best - t)))) <= heightGap t q).
Proof.
  induction rest as [|p rest IH]; intros pre best (l1 & l2 & Epre & H1 & H2).
  - exists l1, l2. rewrite app_nil_r. simpl. auto.
  - cbn [fold_left snd].
    replace (pre ++ p :: rest) with ((pre ++ [p]) ++ rest)
      by (rewrite <- app_assoc; reflexivity).
    destruct (Qltb (Qabs (py p - t)) (Qabs (py best - t))) eqn:E.
    + apply Qltb_lt in E. apply IH. exists pre, []. split; [reflexivity|].
      split; [|intros q []].
      intros q Hq. rewrite Epre in Hq. unfold heightGap in *.
      apply in_app_or in Hq. destruct Hq as [Hq|[<-|Hq]].
      * specialize (H1 q Hq). lra.
      * assumption.
      * specialize (H2 q Hq). lra.
    + apply Qltb_false in E. apply IH. exists l1, (l2 ++ [p]). split.
      * rewrite Epre, <- app_assoc. reflexivity.
      * split; [assumption|]. intros q Hq. apply in_app_or in Hq.
        destruct Hq as [Hq|[<-|[]]]; [apply H2; assumption|exact E].
Qed.

Lemma nearest_spec (raw : list ProfilePoint) (t : Q) (p : ProfilePoint) :
  nearest raw t = Some p ->
  exists l1 l2, raw = l1 ++ p :: l2 /\
    (forall q, In q l1 -> heightGap t p < heightGap t q) /\
    (forall q, In q l2 -> heightGap t p <= heightGap t q).
Proof.
  unfold nearest. destruct raw as [|p0 rest]; [discriminate|].
  intros E. injection E as <-.
  apply (nearest_scan t rest [p0] p0).
  exists [], []. split; [reflexivity|]. split; intros q [].
Qed.

(** Resampling copies the radius of each point it keeps. *)
Lemma resample_px (P : number -> Prop) raw targetPoints out :
  Forall (fun p => P (px p)) raw ->
  resample raw targetPoints = Some out ->
  Forall (fun p => P (px p)) out.
Proof.
  intros Hraw. unfold resample.
  destruct (resampled raw targetPoints) as [o1|] eqn:E1; [|discriminate].
  destruct (resampled_spec (fun p => P (px p)) raw targetPoints o1 Hraw E1)
    as [_ Hall1].
  assert (Hset : forall o i v o', setY o i v = Some o' ->
            Forall (fun p => P (px p)) o -> Forall (fun p => P (px p)) o').
  { intros o i v o'. unfold setY.
    destruct (Nat.ltb_spec i (length o)) as [Hi|]; [|discriminate].
    intros E Hall. injection E as <-.
    apply Forall_upd; [assumption|]. cbn [px].
    rewrite Forall_forall in Hall.
    apply (Hall (get (mkPoint NaN 0) o i)). apply get_In. assumption. }
  destruct (setY o1 0 0) as [o2|] eqn:E2; [|discriminate].
  pose proof (Hset o1 0%nat 0 o2 E2 Hall1) as Hall2.
  destruct (setY o2 (length o2 - 1) 1) as [o3|] eqn:E3; [|discriminate].
  pose proof (Hset o2 _ 1 o3 E3 Hall2) as Hall3.
  intros E. injection E as <-.
  apply sortBy_Forall. assumption.
Qed.

End NearestPoint.

Lemma median_filter_takes_window_medians_witness :
  length (medianFilter [3; 9; 4; 4; 1]%Z 1) = 5 /\
  forall i, i < 5 ->
    exists r, get None (medianFilter [3; 9; 4; 4; 1]%Z 1) i = Some r /\
              isMedianOf r (clampedWindow [3; 9; 4; 4; 1]%Z 1 i).
Proof.
  apply (median_filter_takes_window_medians [3; 9; 4; 4; 1]%Z 1 1). reflexivity.
Defined.

(** X14. The resampling step takes, for a target height, the raw point
    whose height is nearest to it, and of several nearest points the first:
    every point before it in the raw profile is strictly farther from the
    target, and no point after it is nearer. On an empty raw profile there
    is no such point. *)
Theorem nearest_is_first_of_least_gap (raw : list ProfilePoint) (t : Q) :
  (raw = [] -> nearest raw t = None) /\
  (raw <> [] -> exists p, nearest raw t = Some p) /\
  (forall p, nearest raw t = Some p ->
     exists l1 l2, raw = l1 ++ p :: l2 /\
       (forall q, In q l1 -> (heightGap t p < heightGap t q)%Q) /\
       (forall q, In q l2 -> (heightGap t p <= heightGap t q)%Q)).
Proof.
  split; [intros ->; reflexivity|]. split.
  - apply nearest_some.
  - apply nearest_spec.
Qed.

(** X15. Resampling invents no radius: whenever [resample] returns a
    profile, the [x] of each of its points is the [x] of a raw point. *)
Theorem resample_copies_raw_radii (raw : list ProfilePoint) (targetPoints : number)
        (out : list ProfilePoint) :
  resample raw targetPoints = Some out ->
  Forall (fun p => exists q, In q raw /\ px p = px q) out.
Proof.
  apply (resample_px (fun v => exists q, In q raw /\ v = px q)).
  apply Forall_forall. intros p Hp. exists p. auto.
Qed.

Lemma resample_copies_raw_radii_witness :
  Forall (fun p => exists q,
            In q [mkPoint (Num 1) 1; mkPoint (Num 0.5) 0] /\ px p = px q)
         [mkPoint (Num 0.5) 0; mkPoint (Num 1) 1].
Proof.
  apply (resample_copies_raw_radii
           [mkPoint (Num 1) 1; mkPoint (Num 0.5) 0]%Q (Num 2%Q)).
  vm_compute. reflexivity.
Defined.

(** ** The resizer never enlarges *)

Section ResizerMore.
Local Open Scope Z_scope.

Lemma floorMulSqrt_le (a num den : Z) :
  0 <= a -> 0 <= num <= den -> 0 < den -> floorMulSqrt a num den <= a.
Proof.
  intros Ha Hnum Hden. unfold floorMulSqrt.
  apply Z.le_trans with (Z.sqrt (a * a));
    [|rewrite Z.sqrt_square by assumption; lia].
  apply Z.sqrt_le_mono.
  apply Z.div_le_upper_bound; [assumption|].
  rewrite (Z.mul_comm den).
  apply Z.mul_le_mono_nonneg_l; [|lia].
  apply Z.mul_nonneg_nonneg; assumption.
Qed.

Lemma clampWidth_le (w h : Z) :
  1 <= w -> 1 <= h ->
  1 <= fst (clampWidth w h) <= w /\ 0 <= snd (clampWidth w h) <= h.
Proof.
  intros Hw Hh. unfold clampWidth, MAX_WIDTH.
  destruct (Z.gtb_spec w 500) as [Hbig|Hsmall]; cbn [fst snd]; [|lia].
  split; [lia|]. split.
  - apply Z.div_pos; lia.
  - apply Z.div_le_upper_bound; [lia|].
    rewrite (Z.mul_comm w h). apply Z.mul_le_mono_nonneg_l; lia.
Qed.

Lemma clampPixels_le (w h : Z) :
  1 <= w -> 0 <= h ->
  fst (clampPixels w h) <= w /\
  (snd (clampPixels w h) <= h \/ h = 0 /\ snd (clampPixels w h) = 0).
Proof.
  intros Hw Hh. unfold clampPixels, MAX_PIXELS.
  destruct (Z.gtb_spec (w * h) (500 * 800)) as [Hbig|Hsmall]; cbn [fst snd]; [|lia].
  assert (Hh1 : 1 <= h).
  { destruct (Z.eq_dec h 0) as [->|]; [|lia]. rewrite Z.mul_0_r in Hbig. lia. }
  pose proof (floorMulSqrt_le w (500 * 800) (w * h)) as H1.
  pose proof (floorMulSqrt_le h (500 * 800) (w * h)) as H2.
  split; [|left]; lia.
Qed.

End ResizerMore.

(** X16. The resizer never enlarges an image: for positive raw dimensions,
    the processing width and height are at most the raw width and height;
    and an image at most 500 pixels wide with at most 400,000 pixels is
    processed at its own size. *)
Theorem processing_size_never_enlarges (w h : Z) :
  (1 <= w)%Z -> (1 <= h)%Z ->
  (forall w' h', processingSize (Finite w) (Finite h) = Some (w', h') ->
                 (w' <= w /\ h' <= h)%Z) /\
  ((w <= 500)%Z -> (w * h <= 400000)%Z ->
   processingSize (Finite w) (Finite h) = Some (w, h)).
Proof.
  intros Hw Hh. unfold processingSize.
  destruct (Z.ltb_spec w 1); [lia|]. destruct (Z.ltb_spec h 1); [lia|].
  cbn [orb]. split.
  - intros w' h'.
    pose proof (clampWidth_le w h Hw Hh) as Hcw.
    destruct (clampWidth w h) as [w1 h1]. cbn [fst snd] in Hcw.
    pose proof (clampPixels_le w1 h1 ltac:(lia) ltac:(lia)) as Hcp.
    destruct (clampPixels w1 h1) as [w2 h2]. cbn [fst snd] in Hcp.
    destruct ((w2 <? 1) || (h2 <? 1))%Z; [discriminate|].
    intros E. injection E as <- <-. lia.
  - intros Hw500 Hpix. unfold clampWidth, MAX_WIDTH.
    destruct (Z.gtb_spec w 500); [lia|].
    unfold clampPixels, MAX_PIXELS.
    destruct (Z.gtb_spec (w * h) (500 * 800)); [lia|].
    destruct (Z.ltb_spec w 1); [lia|]. destruct (Z.ltb_spec h 1); [lia|].
    reflexivity.
Qed.

Lemma processing_size_never_enlarges_witness :
  processingSize (Finite 300) (Finite 400) = Some (300, 400)%Z.
Proof.
  apply (proj2 (processing_size_never_enlarges 300 400 ltac:(lia) ltac:(lia)));
    lia.
Defined.

(** ** Union-find of the labelling *)

(** X18. On a parent forest in which every label has a parent that is a
    label not above it (the forest the labelling builds), the recursive,
    path-compressing [find] returns within [x] calls; it returns the root of
    [x], a label not above [x] that is its own parent; and the compressed
    forest has the same size and gives every label the root it had. *)
Theorem find_returns_root_and_keeps_roots (p : list nat) (next x fuel : nat) :
  wfParent p next -> 1 <= x < next -> x <= fuel ->
  exists p',
    find fuel p x = Some (root p x, p') /\
    1 <= root p x <= x /\ get 0 p (root p x) = root p x /\
    wfParent p' next /\ length p' = length p /\
    forall l, 1 <= l < next -> root p' l = root p l.
Proof.
  intros Hwf Hx Hfuel.
  destruct (find_spec p next Hwf x fuel Hx Hfuel) as (p' & E & Hwf' & Hlen & Hroots).
  destruct (root_spec p next x Hwf Hx) as [Hr Hfix].
  exists p'. split; [assumption|]. split; [assumption|]. split; [assumption|].
  split; [assumption|]. split; assumption.
Qed.

Lemma example_forest : wfParent [0; 1; 1; 2] 4.
Proof.
  split; [simpl; lia|]. intros l Hl.
  assert (Hcases : l = 1 \/ l = 2 \/ l = 3) by lia.
  destruct Hcases as [->|[->| ->]]; simpl; lia.
Defined.

Lemma find_returns_root_and_keeps_roots_witness :
  exists p',
    find 3 [0; 1; 1; 2] 3 = Some (root [0; 1; 1; 2] 3, p') /\
    1 <= root [0; 1; 1; 2] 3 <= 3 /\
    get 0 [0; 1; 1; 2] (root [0; 1; 1; 2] 3) = root [0; 1; 1; 2] 3 /\
    wfParent p' 4 /\ length p' = length [0; 1; 1; 2] /\
    forall l, 1 <= l < 4 -> root p' l = root [0; 1; 1; 2] l.
Proof.
  apply (find_returns_root_and_keeps_roots [0; 1; 1; 2] 4 3 3 example_forest);
    lia.
Defined.

(** X19. Linking two roots to the smaller of the two, as the labelling does
    where a pixel joins its left and upper neighbours, merges their two
    classes under the smaller root and leaves the root of every other label
    as it was. *)
Theorem union_merges_two_classes (p : list nat) (next rl ru : nat) :
  wfParent p next -> 1 <= rl < next -> 1 <= ru < next ->
  get 0 p rl = rl -> get 0 p ru = ru ->
  wfParent (setAt (setAt p ru (Nat.min rl ru)) rl (Nat.min rl ru)) next /\
  forall l, 1 <= l < next ->
    root (setAt (setAt p ru (Nat.min rl ru)) rl (Nat.min rl ru)) l
    = if (root p l =? rl) || (root p l =? ru)
      then Nat.min rl ru else root p l.
Proof.
  intros Hwf Hrl Hru Hfl Hfu.
  destruct (union_spec p next rl ru Hwf Hrl Hru Hfl Hfu) as (Hwf' & _ & Hroots).
  split; assumption.
Qed.

Lemma example_two_roots : wfParent [0; 1; 2; 2] 4.
Proof.
  split; [simpl; lia|]. intros l Hl.
  assert (Hcases : l = 1 \/ l = 2 \/ l = 3) by lia.
  destruct Hcases as [->|[->| ->]]; simpl; lia.
Defined.

Lemma union_merges_two_classes_witness :
  wfParent (setAt (setAt [0; 1; 2; 2] 1 (Nat.min 2 1)) 2 (Nat.min 2 1)) 4 /\
  forall l, 1 <= l < 4 ->
    root (setAt (setAt [0; 1; 2; 2] 1 (Nat.min 2 1)) 2 (Nat.min 2 1)) l
    = if (root [0; 1; 2; 2] l =? 2) || (root [0; 1; 2; 2] l =? 1)
      then Nat.min 2 1 else root [0; 1; 2; 2] l.
Proof.
  apply (union_merges_two_classes [0; 1; 2; 2] 4 2 1 example_two_roots);
    try lia; reflexivity.
Defined.

(** ** Background detection *)

Section BackgroundProperties.
Local Open Scope Q_scope.




End BackgroundProperties.



(** ** The editor's operations on a profile *)

Section EditorProperties.
Local Open Scope Q_scope.

Lemma sorted_insert_after (l1 l2 : list ProfilePoint) (a m : ProfilePoint) :
  StronglySorted leY (l1 ++ a :: l2) ->
  leY a m -> (forall q, In q l2 -> leY m q) ->
  StronglySorted leY (l1 ++ a :: m :: l2).
Proof.
  intros Hs Ham Hm. induction l1 as [|p l1 IH].
  - simpl in *. inversion Hs as [|? ? Hs2 Hall]; subst.
    constructor; [constructor; [assumption|]|].
    + apply Forall_forall. assumption.
    + constructor; assumption.
  - simpl in *. inversion Hs as [|? ? Hs' Hall]; subst.
    constructor; [apply IH; assumption|].
    rewrite Forall_forall in *. intros q Hq.
    apply in_app_or in Hq. destruct Hq as [Hq|[<-|[<-|Hq]]].
    + apply Hall. apply in_or_app. left. assumption.
    + apply Hall. apply in_or_app. right. left. reflexivity.
    + apply leY_trans with a; [|assumption].
      apply Hall. apply in_or_app. right. left. reflexivity.
    + apply Hall. apply in_or_app. right. right. assumption.
Qed.

Lemma skipn_length_app {A} (l1 l2 : list A) :
  skipn (length l1) (l1 ++ l2) = l2.
Proof. induction l1 as [|x l1 IH]; [reflexivity|exact IH]. Qed.

Lemma addProfilePoint_split (l1 l2 : list ProfilePoint) (a : ProfilePoint) :
  addProfilePoint (l1 ++ a :: l2) (length l1)
  = Some (l1 ++ a ::
          match l2 with
          | b :: _ => mkPoint (numberMid (px a) (px b)) ((py a + py b) / 2)
          | [] => mkPoint (px a) (Qmin 1 (py a + 0.1))
          end :: l2).
Proof.
  assert (E0 : nth_error (l1 ++ a :: l2) (length l1) = Some a).
  { rewrite nth_error_app2 by lia. rewrite Nat.sub_diag. reflexivity. }
  unfold addProfilePoint. rewrite E0.
  assert (E1 : nth_error (l1 ++ a :: l2) (S (length l1)) = nth_error l2 0).
  { rewrite nth_error_app2 by lia.
    replace (S (length l1) - length l1)%nat with 1%nat by lia. reflexivity. }
  rewrite E1.
  assert (E2 : firstn (S (length l1)) (l1 ++ a :: l2) = l1 ++ [a]).
  { replace (S (length l1)) with (length l1 + 1)%nat by lia.
    rewrite firstn_app_2. reflexivity. }
  assert (E3 : skipn (S (length l1)) (l1 ++ a :: l2) = l2).
  { replace (l1 ++ a :: l2) with ((l1 ++ [a]) ++ l2)
      by (rewrite <- app_assoc; reflexivity).
    replace (S (length l1)) with (length (l1 ++ [a]))
      by (rewrite length_app; simpl; lia).
    apply skipn_length_app. }
  rewrite E2, E3, <- app_assoc.
  destruct l2 as [|b l2]; reflexivity.
Qed.

Lemma dropIndex_length {A} : forall (l : list A) i,
  (i < length l)%nat -> length (dropIndex l i) = (length l - 1)%nat.
Proof.
  induction l as [|x l IH]; intros i Hi; [simpl in Hi; lia|].
  destruct i as [|i]; simpl; [lia|]. rewrite IH by (simpl in Hi; lia).
  simpl in Hi. lia.
Qed.

Lemma dropIndex_beyond {A} : forall (l : list A) i,
  (length l <= i)%nat -> dropIndex l i = l.
Proof.
  induction l as [|x l IH]; intros i Hi; [reflexivity|].
  destruct i as [|i]; [simpl in Hi; lia|]. simpl. rewrite IH; [reflexivity|].
  simpl in Hi. lia.
Qed.

Lemma dropIndex_split {A} : forall (l : list A) i,
  dropIndex l i = firstn i l ++ skipn (S i) l.
Proof.
  induction l as [|x l IH]; intros [|i]; simpl; try reflexivity.
  rewrite IH. reflexivity.
Qed.

Lemma dropIndex_before {A} : forall (l : list A) index i,
  (i < index)%nat -> nth_error (dropIndex l index) i = nth_error l i.
Proof.
  induction l as [|x l IH]; intros [|index] [|i] H; simpl; try reflexivity; try lia.
  apply IH. lia.
Qed.

Lemma dropIndex_after {A} : forall (l : list A) index i,
  (index <= i)%nat -> nth_error (dropIndex l index) i = nth_error l (S i).
Proof.
  induction l as [|x l IH]; intros index i H.
  - destruct index, i; reflexivity.
  - destruct index as [|index].
    + reflexivity.
    + destruct i as [|i]; [lia|]. cbn [dropIndex nth_error]. apply IH. lia.
Qed.

Lemma dropIndex_In {A} : forall (l : list A) i x,
  In x (dropIndex l i) -> In x l.
Proof.
  induction l as [|y l IH]; intros i x Hx; [assumption|].
  destruct i as [|i]; simpl in *; [right; assumption|].
  destruct Hx as [->|Hx]; [left; reflexivity|right; apply (IH i); assumption].
Qed.

Lemma dropIndex_sorted : forall (l : list ProfilePoint) i,
  StronglySorted leY l -> StronglySorted leY (dropIndex l i).
Proof.
  induction l as [|y l IH]; intros i Hs; [constructor|].
  inversion Hs as [|? ? Hs' Hall]; subst.
  destruct i as [|i]; simpl; [assumption|].
  constructor; [apply IH; assumption|].
  rewrite Forall_forall in *. intros q Hq. apply Hall.
  apply (dropIndex_In l i). assumption.
Qed.

End EditorProperties.

(** X21. [addProfilePoint] at an index of the profile inserts one point
    right after that index and changes no other point; when the profile is
    sorted by [y] and lies in the unit square, so does the new profile (the
    new point is the midpoint of its neighbours, or, after the last point,
    0.1 above it and at most 1). At an index past the end the source reads
    [a.x] of [undefined] and throws. *)
Theorem add_point_keeps_profile_well_formed (profile : list ProfilePoint)
        (afterIndex : nat) :
  (length profile <= afterIndex -> addProfilePoint profile afterIndex = None) /\
  (afterIndex < length profile ->
   exists out mid,
     addProfilePoint profile afterIndex = Some out /\
     out = firstn (S afterIndex) profile ++ mid :: skipn (S afterIndex) profile /\
     length out = S (length profile) /\
     (sortedByY profile -> Forall inUnitSquare profile ->
      sortedByY out /\ Forall inUnitSquare out)).
Proof.
  split.
  - intros Hi. unfold addProfilePoint.
    rewrite (proj2 (nth_error_None profile afterIndex) Hi). reflexivity.
  - intros Hi.
    destruct (nth_error profile afterIndex) as [a|] eqn:Ea;
      [|apply nth_error_None in Ea; lia].
    destruct (nth_error_split profile afterIndex Ea) as (l1 & l2 & -> & Hl1).
    subst afterIndex. rewrite addProfilePoint_split.
    eexists. eexists. split; [reflexivity|].
    assert (E2 : firstn (S (length l1)) (l1 ++ a :: l2) = l1 ++ [a]).
    { replace (S (length l1)) with (length l1 + 1) by lia.
      rewrite firstn_app_2. reflexivity. }
    assert (E3 : skipn (S (length l1)) (l1 ++ a :: l2) = l2).
    { replace (l1 ++ a :: l2) with ((l1 ++ [a]) ++ l2)
        by (rewrite <- app_assoc; reflexivity).
      replace (S (length l1)) with (length (l1 ++ [a]))
        by (rewrite length_app; simpl; lia).
      apply skipn_length_app. }
    rewrite E2, E3, <- app_assoc. split; [reflexivity|].
    split; [rewrite !length_app; simpl; lia|].
    intros Hsorted Hunit.
    assert (Ha : inUnitSquare a).
    { rewrite Forall_forall in Hunit. apply Hunit. apply in_or_app.
      right. left. reflexivity. }
    pose proof Ha as Ha'. destruct Ha as [Hax [Hay0 Hay1]].
    destruct l2 as [|b l2].
    + split.
      * apply sorted_insert_after; [assumption| |intros q []].
        unfold leY. cbn [py].
        apply Q.min_glb; [assumption|lra].
      * apply Forall_app. apply Forall_app in Hunit. destruct Hunit as [H1 H2].
        split; [assumption|]. constructor; [exact Ha'|].
        constructor; [|constructor]. split; [exact Hax|].
        unfold yInUnit. cbn [py]. split; [|apply Q.le_min_l].
        apply Q.min_glb; lra.
    + assert (Hb : inUnitSquare b).
      { rewrite Forall_forall in Hunit. apply Hunit. apply in_or_app.
        right. right. left. reflexivity. }
      destruct Hb as [Hbx [Hby0 Hby1]].
      assert (Hab : leY a b).
      { unfold sortedByY in Hsorted.
        assert (Hs2 : StronglySorted leY (a :: b :: l2)).
        { clear -Hsorted. induction l1 as [|p l1 IH]; [assumption|].
          simpl in Hsorted. inversion Hsorted; subst. apply IH. assumption. }
        inversion Hs2 as [|? ? _ Hall]; subst.
        inversion Hall; subst. assumption. }
      assert (Hbl2 : forall q, In q (b :: l2) -> leY b q).
      { intros q [<-|Hq]; [apply Qle_refl|].
        assert (Hs2 : StronglySorted leY (b :: l2)).
        { clear -Hsorted. unfold sortedByY in Hsorted.
          induction l1 as [|p l1 IH].
          - simpl in Hsorted. inversion Hsorted; subst. assumption.
          - simpl in Hsorted. inversion Hsorted; subst. apply IH. assumption. }
        inversion Hs2 as [|? ? _ Hall]; subst.
        rewrite Forall_forall in Hall. apply Hall. assumption. }
      unfold leY in Hab. split.
      * apply sorted_insert_after; [assumption| |].
        -- unfold leY. cbn [py]. apply Qle_shift_div_l; [reflexivity|]. lra.
        -- intros q Hq. specialize (Hbl2 q Hq). unfold leY in *. cbn [py].
           apply Qle_trans with (py b); [|assumption].
           apply Qle_shift_div_r; [reflexivity|]. lra.
      * apply Forall_app. apply Forall_app in Hunit. destruct Hunit as [H1 H2].
        split; [assumption|]. inversion H2 as [|? ? _ H3]; subst.
        constructor; [exact Ha'|].
        constructor; [|assumption]. split.
        -- unfold xInUnit in *. cbn [px].
           destruct (px a) as [xa|]; [|contradiction].
           destruct (px b) as [xb|]; [|contradiction].
           cbn [numberMid inUnit] in *. split.
           ++ apply Qle_shift_div_l; [reflexivity|]. lra.
           ++ apply Qle_shift_div_r; [reflexivity|]. lra.
        -- unfold yInUnit. cbn [py]. split.
           ++ apply Qle_shift_div_l; [reflexivity|]. lra.
           ++ apply Qle_shift_div_r; [reflexivity|]. lra.
Qed.

Lemma add_point_keeps_profile_well_formed_witness :
  exists out mid,
    addProfilePoint [mkPoint (Num 1) 0; mkPoint (Num 0.5) 1] 0 = Some out /\
    out = firstn 1 [mkPoint (Num 1) 0; mkPoint (Num 0.5) 1]
          ++ mid :: skipn 1 [mkPoint (Num 1) 0; mkPoint (Num 0.5) 1] /\
    length out = 3 /\
    (sortedByY [mkPoint (Num 1) 0; mkPoint (Num 0.5) 1] ->
     Forall inUnitSquare [mkPoint (Num 1) 0; mkPoint (Num 0.5) 1] ->
     sortedByY out /\ Forall inUnitSquare out).
Proof.
  apply (proj2 (add_point_keeps_profile_well_formed
                  [mkPoint (Num 1) 0; mkPoint (Num 0.5) 1] 0)).
  simpl. lia.
Defined.

(** X22. [removeProfilePoint] never leaves a profile of two or more points
    with fewer than two. A profile of at most two points is returned as it
    is. A longer one loses the point at the index and no other: what is
    returned is the points before the index followed by the points after
    it, in their order (all of them when the index is past the end). So a
    profile sorted by [y] stays sorted and one inside the unit square stays
    inside. *)
Theorem remove_point_keeps_two_points (profile : list ProfilePoint) (index : nat) :
  (2 <= length profile -> 2 <= length (removeProfilePoint profile index)) /\
  (length profile <= 2 -> removeProfilePoint profile index = profile) /\
  (2 < length profile ->
   removeProfilePoint profile index
   = firstn index profile ++ skipn (S index) profile) /\
  (2 < length profile -> index < length profile ->
   length (removeProfilePoint profile index) = length profile - 1 /\
   (forall i, i < index ->
      nth_error (removeProfilePoint profile index) i = nth_error profile i) /\
   (forall i, index <= i ->
      nth_error (removeProfilePoint profile index) i
      = nth_error profile (S i))) /\
  (length profile <= index -> removeProfilePoint profile index = profile) /\
  (sortedByY profile -> sortedByY (removeProfilePoint profile index)) /\
  (Forall inUnitSquare profile ->
   Forall inUnitSquare (removeProfilePoint profile index)).
Proof.
  unfold removeProfilePoint.
  destruct (Nat.leb_spec (length profile) 2) as [Hle|Hgt].
  - repeat split; try (intros; assumption); try (intros; reflexivity); lia.
  - split; [intros _|split; [lia|split; [|split; [|split; [|split]]]]].
    + destruct (Nat.lt_ge_cases index (length profile)) as [Hi|Hi].
      * rewrite dropIndex_length by assumption. lia.
      * rewrite dropIndex_beyond by assumption. lia.
    + intros _. apply dropIndex_split.
    + intros _ Hi. split; [apply dropIndex_length; assumption|]. split.
      * intros i Hlt. apply dropIndex_before. assumption.
      * intros i Hge. apply dropIndex_after. assumption.
    + intros Hi. apply dropIndex_beyond. assumption.
    + apply dropIndex_sorted.
    + intros Hall. rewrite Forall_forall in *. intros q Hq. apply Hall.
      apply (dropIndex_In profile index). assumption.
Qed.

Lemma remove_point_keeps_two_points_witness :
  removeProfilePoint
    [mkPoint (Num 1) 0; mkPoint (Num (1 # 2)) (1 # 2); mkPoint (Num 0) 1]%Q 1
  = [mkPoint (Num 1) 0; mkPoint (Num 0) 1]%Q.
Proof.
  exact (proj1 (proj2 (proj2 (remove_point_keeps_two_points
    [mkPoint (Num 1) 0; mkPoint (Num (1 # 2)) (1 # 2); mkPoint (Num 0) 1]%Q 1)))
    ltac:(simpl; lia)).
Defined.

(** ** Preprocessing and the raw profile *)

Section PreprocessProperties.
Local Open Scope Q_scope.

(** X24. Preprocessing an RGBA buffer of a [w x h] frame (grayscale,
    optional contrast stretch, optional 3x3 or 5x5 blur) yields one
    intensity per pixel, each between 0 and 255, whatever the options. *)
Theorem preprocess_keeps_byte_range (data : list Z) (w h : nat)
        (options : ExtractProfileOptions) :
  length data = (4 * (w * h))%nat ->
  Forall (fun b => (0 <= b <= 255)%Z) data ->
  length (preprocess data w h options) = (w * h)%nat /\
  Forall (fun v => 0 <= v <= 255) (preprocess data w h options).
Proof.
  intros Hlen Hbytes. unfold preprocess. cbv zeta.
  destruct (toGrayscale_spec (w * h) data Hlen Hbytes) as [Hl0 Hr0].
  assert (H1 : length (if nullish (contrastStretch options) false
                       then contrastStretchGray (toGrayscale data)
                       else toGrayscale data) = (w * h)%nat /\
               Forall (fun v => 0 <= v <= 255)
                      (if nullish (contrastStretch options) false
                       then contrastStretchGray (toGrayscale data)
                       else toGrayscale data)).
  { destruct (nullish (contrastStretch options) false); [|split; assumption].
    destruct (contrastStretchGray_range (toGrayscale data)) as [Hl Hr].
    split; [congruence|assumption]. }
  destruct H1 as [Hl1 Hr1].
  destruct (nullish (blur options) 1 =? 1)%Z;
    [apply boxBlur_range; assumption|].
  destruct (nullish (blur options) 1 =? 2)%Z;
    [apply boxBlur_range; assumption|].
  split; assumption.
Qed.

Lemma rawPoints_get (smoothed : list (option Z)) (maxRadius : Z) (i : nat) :
  (i < length smoothed)%nat ->
  get origin (rawPoints smoothed maxRadius) i
  = mkPoint
      (if (0 <? maxRadius)%Z
       then match get None smoothed i with
            | Some r => Num (Qmin 1 (inject_Z r / inject_Z maxRadius))
            | None => NaN
            end
       else Num 0)
      (if (1 <? length smoothed)%nat
       then 1 - inject_Z (Z.of_nat i) / inject_Z (Z.of_nat (length smoothed - 1))
       else 0.5).
Proof.
  intros Hi. rewrite rawPoints_map. unfold get at 1.
  set (f := fun i =>
           mkPoint
             (if (0 <? maxRadius)%Z
              then match get None smoothed i with
                   | Some r => Num (Qmin 1 (inject_Z r / inject_Z maxRadius))
                   | None => NaN
                   end
              else Num 0)
             (if (1 <? length smoothed)%nat
              then 1 - inject_Z (Z.of_nat i) / inject_Z (Z.of_nat (length smoothed - 1))
              else 0.5)).
  rewrite (nth_indep (map f _) origin (f 0%nat))
    by (rewrite length_map, length_seq; assumption).
  rewrite (map_nth f), seq_nth by assumption. reflexivity.
Qed.

End PreprocessProperties.

Lemma preprocess_keeps_byte_range_witness :
  length (preprocess (exampleData 9 12) 9 12 defaultOptions) = 9 * 12 /\
  Forall (fun v => (0 <= v <= 255)%Q)
         (preprocess (exampleData 9 12) 9 12 defaultOptions).
Proof.
  apply (preprocess_keeps_byte_range (exampleData 9 12) 9 12 defaultOptions).
  - vm_compute. reflexivity.
  - apply Forall_forall. intros b Hb. unfold exampleData in Hb.
    apply in_flat_map in Hb. destruct Hb as (i & _ & Hb).
    cbv zeta in Hb.
    destruct ((2 <=? i mod 9) && (i mod 9 <=? 6) && (1 <=? i / 9) && (i / 9 <=? 10));
      simpl in Hb; intuition lia.
Defined.

(** X25. The raw profile of two or more rows has one point per row, with
    heights that fall strictly from 1 at the first (top) row to 0 at the
    last (bottom) row; and a row whose smoothed radius is the maximum radius
    has [x = 1]. *)
Theorem raw_profile_runs_from_rim_to_base (smoothed : list (option Z))
        (maxRadius : Z) :
  2 <= length smoothed ->
  length (rawPoints smoothed maxRadius) = length smoothed /\
  (py (get origin (rawPoints smoothed maxRadius) 0) == 1)%Q /\
  (py (get origin (rawPoints smoothed maxRadius) (length smoothed - 1)) == 0)%Q /\
  (forall i j, i < j -> j < length smoothed ->
     (py (get origin (rawPoints smoothed maxRadius) j)
      < py (get origin (rawPoints smoothed maxRadius) i))%Q) /\
  (forall i, i < length smoothed -> (0 < maxRadius)%Z ->
     get None smoothed i = Some maxRadius ->
     exists q, px (get origin (rawPoints smoothed maxRadius) i) = Num q /\
               (q == 1)%Q).
Proof.
  intros Hlen.
  assert (Hn : (0 < inject_Z (Z.of_nat (length smoothed - 1)))%Q).
  { change 0%Q with (inject_Z 0). rewrite <- Zlt_Qlt. lia. }
  assert (Hbig : (1 <? length smoothed) = true) by (apply Nat.ltb_lt; lia).
  split; [apply rawPoints_length|]. split; [|split; [|split]].
  - rewrite rawPoints_get by lia. cbn [py]. rewrite Hbig.
    change (inject_Z (Z.of_nat 0)) with 0%Q. field. lra.
  - rewrite rawPoints_get by lia. cbn [py]. rewrite Hbig. field. lra.
  - intros i j Hij Hj. rewrite !rawPoints_get by lia. cbn [py]. rewrite Hbig.
    assert (Hlt : (inject_Z (Z.of_nat i) < inject_Z (Z.of_nat j))%Q)
      by (rewrite <- Zlt_Qlt; lia).
    assert (Hdiv : (inject_Z (Z.of_nat i) / inject_Z (Z.of_nat (length smoothed - 1))
                    < inject_Z (Z.of_nat j)
                      / inject_Z (Z.of_nat (length smoothed - 1)))%Q).
    { unfold Qdiv. apply Qmult_lt_compat_r; [|assumption].
      apply Qinv_lt_0_compat. assumption. }
    lra.
  - intros i Hi Hmax Hr. rewrite rawPoints_get by assumption. cbn [px].
    destruct (Z.ltb_spec 0 maxRadius); [|lia]. rewrite Hr.
    eexists. split; [reflexivity|].
    assert (Hm : (0 < inject_Z maxRadius)%Q)
      by (change 0%Q with (inject_Z 0); rewrite <- Zlt_Qlt; assumption).
    assert (E : (inject_Z maxRadius / inject_Z maxRadius == 1)%Q)
      by (field; lra).
    rewrite E. apply Q.min_l. apply Qle_refl.
Qed.

Lemma raw_profile_runs_from_rim_to_base_witness :
  length (rawPoints [Some 2; Some 4; Some 3]%Z 4) = 3 /\
  (py (get origin (rawPoints [Some 2; Some 4; Some 3]%Z 4) 0) == 1)%Q.
Proof.
  assert (H := raw_profile_runs_from_rim_to_base [Some 2; Some 4; Some 3]%Z 4
                 ltac:(simpl; lia)).
  split; [exact (proj1 H)|exact (proj1 (proj2 H))].
Defined.

(** ** How the measurement ends *)

Section MeasureOutcome.

Lemma measure_cases (fg : list bool) (w h : nat)
      (options : ExtractProfileOptions) :
  ((boxHeight (boundingBox fg w h) < 10)%Z \/
   (snd (radii fg w (boundingBox fg w h)
              (centerlineX fg w (boundingBox fg w h))
              (extractRightSide fg w (boundingBox fg w h)
                 (centerlineX fg w (boundingBox fg w h)))) < 2)%Z) /\
  measure fg w h options = Returns emptyResult \/
  (10 <= boxHeight (boundingBox fg w h))%Z /\
  (2 <= snd (radii fg w (boundingBox fg w h)
               (centerlineX fg w (boundingBox fg w h))
               (extractRightSide fg w (boundingBox fg w h)
                  (centerlineX fg w (boundingBox fg w h)))))%Z /\
  (clampedTargetPoints options = NaN /\ measure fg w h options = Throws \/
   exists t out,
     clampedTargetPoints options = Num t /\
     measure fg w h options = Returns (mkResult out []) /\
     length out = tripCount (Num t) /\ 8 <= length out <= 24).
Proof.
  destruct (Z.ltb_spec (boxHeight (boundingBox fg w h)) 10) as [Hlow|Hheight].
  { left. split; [left; assumption|]. unfold measure.
    destruct (Z.ltb_spec (boxHeight (boundingBox fg w h)) 10); [reflexivity|lia]. }
  destruct (Z.ltb_spec
              (snd (radii fg w (boundingBox fg w h)
                      (centerlineX fg w (boundingBox fg w h))
                      (extractRightSide fg w (boundingBox fg w h)
                         (centerlineX fg w (boundingBox fg w h))))) 2)
    as [Hsmall|Hbig].
  { left. split; [right; assumption|]. unfold measure.
    destruct (Z.ltb_spec (boxHeight (boundingBox fg w h)) 10); [reflexivity|].
    destruct (radii _ _ _ _ _) as [radiusByRow maxRadius]. cbn [snd] in Hsmall.
    destruct (Z.ltb_spec maxRadius 2); [reflexivity|lia]. }
  right. split; [assumption|]. split; [assumption|].
  destruct (clampedTargetPoints_cases options) as [(t & Et & Ht)|[Enan _]].
  - right. exists t.
    pose proof (tripCount_range t Ht) as Htrip.
    unfold measure.
    destruct (Z.ltb_spec (boxHeight (boundingBox fg w h)) 10); [lia|].
    set (b := boundingBox fg w h) in *. set (c := centerlineX fg w b) in *.
    set (right := extractRightSide fg w b c) in *.
    pose proof (radii_length fg w b c right) as Hlen.
    destruct (radii fg w b c right) as [radiusByRow maxRadius].
    cbn [fst snd] in *.
    destruct (Z.ltb_spec maxRadius 2); [lia|].
    rewrite Et.
    destruct (resample_some (rawPoints (smoothedRadii radiusByRow options) maxRadius)
                (Num t)) as [out E].
    + intros E. apply (f_equal (@length _)) in E.
      rewrite rawPoints_length, smoothedRadii_length, Hlen in E.
      unfold boxHeight in Hheight. simpl in E. lia.
    + lia.
    + rewrite E. exists out. split; [reflexivity|]. split; [reflexivity|].
      assert (H2 : 2 <= tripCount (Num t)) by lia.
      destruct (resample_spec
                  (rawPoints (smoothedRadii radiusByRow options) maxRadius)
                  (Num t) out
                  (rawPoints_y_in_unit (smoothedRadii radiusByRow options) maxRadius)
                  H2 E) as [Hl _].
      split; [exact Hl|]. rewrite Hl. exact Htrip.
  - left. split; [exact Enan|].
    apply measure_throws; assumption.
Qed.

End MeasureOutcome.

(** X26. The measurement of a mask returns the empty result exactly when
    the bounding box of the mask is less than 10 rows high or the maximum
    radius is below 2. Otherwise it ends in one of two ways: when
    [targetPoints] is NaN it throws; when [targetPoints] is a number (or
    absent) it returns a profile of as many points as the resampling loop
    has trips, between 8 and 24, and no decoration band. *)
Theorem measure_is_empty_exactly_when_degenerate (fg : list bool) (w h : nat)
        (options : ExtractProfileOptions) :
  (measure fg w h options = Returns emptyResult <->
   (boxHeight (boundingBox fg w h) < 10)%Z \/
   (snd (radii fg w (boundingBox fg w h)
              (centerlineX fg w (boundingBox fg w h))
              (extractRightSide fg w (boundingBox fg w h)
                 (centerlineX fg w (boundingBox fg w h)))) < 2)%Z) /\
  (measure fg w h options = Throws <->
   (10 <= boxHeight (boundingBox fg w h))%Z /\
   (2 <= snd (radii fg w (boundingBox fg w h)
                (centerlineX fg w (boundingBox fg w h))
                (extractRightSide fg w (boundingBox fg w h)
                   (centerlineX fg w (boundingBox fg w h)))))%Z /\
   targetPoints options = Some NaN) /\
  (measure fg w h options = Returns emptyResult \/
   measure fg w h options = Throws \/
   exists t out,
     clampedTargetPoints options = Num t /\
     measure fg w h options = Returns (mkResult out []) /\
     length out = tripCount (Num t) /\ 8 <= length out <= 24).
Proof.
  destruct (measure_cases fg w h options)
    as [[Hdeg E]|(Hh & Hr & [[Enan E]|(t & out & Et & E & Hlen & Hrange)])].
  - split; [|split].
    + split; intros _; assumption.
    + rewrite E. split; [discriminate|]. intros (Hh & Hr & _). lia.
    + left. exact E.
  - split; [|split].
    + rewrite E. split; [discriminate|]. intros [H|H]; lia.
    + split; [intros _|intros _; exact E].
      split; [assumption|]. split; [assumption|].
      destruct (clampedTargetPoints_cases options) as [(t & Et & _)|[_ Hn]];
        [congruence|exact Hn].
    + right. left. exact E.
  - split; [|split].
    + rewrite E. split.
      * intros E'. injection E' as E'. rewrite E' in Hrange. simpl in Hrange. lia.
      * intros [H|H]; lia.
    + rewrite E. split; [discriminate|]. intros (_ & _ & Hn).
      unfold clampedTargetPoints in Et. rewrite Hn in Et. discriminate Et.
    + right. right. exists t, out. repeat split; try assumption; lia.
Qed.

(** ** The profile, for every option and for an integer half-window *)

(** X27. Whatever the options, a non-empty profile returned by the
    extractor is sorted non-decreasing by [y], starts at [y = 0], ends at
    [y = 1] and has every [y] in [0, 1]. When the [smoothing] option is
    absent, not positive or an integer, every [x] is a number of [0, 1] as
    well: every point lies in the unit square. *)
Theorem profile_well_formed_for_integer_smoothing (context2d : bool)
        (image : Image) (options : ExtractProfileOptions) :
  (profileOf (extractProfileFromImage context2d image options) <> [] ->
   sortedByY (profileOf (extractProfileFromImage context2d image options)) /\
   (py (hd origin (profileOf (extractProfileFromImage context2d image options)))
    == 0)%Q /\
   (py (last (profileOf (extractProfileFromImage context2d image options)) origin)
    == 1)%Q /\
   Forall yInUnit (profileOf (extractProfileFromImage context2d image options))) /\
  (integralSmoothing options ->
   Forall inUnitSquare
          (profileOf (extractProfileFromImage context2d image options))).
Proof.
  split.
  - apply profile_spans_unit_height.
  - apply profile_in_unit_square_integral_smoothing.
Qed.

Lemma profile_well_formed_for_integer_smoothing_witness :
  Forall inUnitSquare
         (profileOf (extractProfileFromImage true exampleImage twelvePoints)).
Proof.
  apply (proj2 (profile_well_formed_for_integer_smoothing
                  true exampleImage twelvePoints)).
  exact I.
Defined.

(** ** The threshold bias, for a number *)

Section BiasForNumbers.
Local Open Scope Q_scope.

Lemma clamp_inside (lo hi v : Q) :
  lo <= v <= hi -> Qmax lo (Qmin hi v) == v.
Proof.
  intros [Hlo Hhi]. rewrite (Q.min_r hi v) by assumption.
  apply Q.max_r. assumption.
Qed.

Lemma clamp_below (lo hi v : Q) :
  v <= lo -> Qmax lo (Qmin hi v) == lo.
Proof.
  intros Hlo. apply Q.max_l.
  apply Qle_trans with v; [apply Q.le_min_r|assumption].
Qed.

Lemma clamp_above (lo hi v : Q) :
  lo <= hi -> hi <= v -> Qmax lo (Qmin hi v) == hi.
Proof.
  intros Hle Hhi. rewrite (Q.min_l hi v) by assumption.
  apply Q.max_r. assumption.
Qed.

Lemma clamp_cases (lo hi v : Q) :
  lo <= hi ->
  (v <= lo /\ Qmax lo (Qmin hi v) == lo) \/
  (lo <= v <= hi /\ Qmax lo (Qmin hi v) == v) \/
  (hi <= v /\ Qmax lo (Qmin hi v) == hi).
Proof.
  intros Hle.
  destruct (Qlt_le_dec v lo) as [H1|H1].
  - left. split; [apply Qlt_le_weak; assumption|].
    apply clamp_below. apply Qlt_le_weak. assumption.
  - destruct (Qlt_le_dec hi v) as [H2|H2].
    + right. right. split; [apply Qlt_le_weak; assumption|].
      apply clamp_above; [assumption|apply Qlt_le_weak; assumption].
    + right. left. split; [split; assumption|].
      apply clamp_inside. split; assumption.
Qed.

End BiasForNumbers.

(** X29. For a [thresholdBias] that is a number, or absent (then 0), the
    bias applied is that number clamped to [-50, 50]: the number itself
    inside the interval, the nearer end outside. The threshold used for
    binarisation, from an Otsu threshold [otsu] of [0, 255], then lies in
    [0, 255], within 50 of [otsu] and on the side of it that the sign of
    the bias tells; and for a bias that is an integer it is [otsu] plus the
    bias, clamped to [0, 255]. *)
Theorem numeric_bias_is_clamped (otsu : Z) (options : ExtractProfileOptions)
        (requested : Q) :
  (0 <= otsu <= 255)%Z ->
  nullish (thresholdBias options) (Num 0%Q) = Num requested ->
  exists bias thresh,
    appliedBias options = Num bias /\
    biasedThreshold otsu options = Num thresh /\
    (-50 <= requested <= 50 -> bias == requested)%Q /\
    (requested <= -50 -> bias == -50)%Q /\
    (50 <= requested -> bias == 50)%Q /\
    (0 <= thresh <= 255)%Q /\
    (inject_Z otsu - 50 <= thresh <= inject_Z otsu + 50)%Q /\
    (0 <= bias -> inject_Z otsu <= thresh)%Q /\
    (bias <= 0 -> thresh <= inject_Z otsu)%Q /\
    (integral bias -> thresh == Qmax 0 (Qmin 255 (inject_Z otsu + bias)))%Q.
Proof.
  intros [Ho0 Ho255] E. unfold biasedThreshold, appliedBias. rewrite E.
  cbn [clampNumber numberMap].
  assert (Hq0 : (0 <= inject_Z otsu)%Q)
    by (change 0%Q with (inject_Z 0); rewrite <- Zle_Qle; assumption).
  assert (Hq255 : (inject_Z otsu <= 255)%Q)
    by (change 255%Q with (inject_Z 255); rewrite <- Zle_Qle; assumption).
  exists (Qmax (-50) (Qmin 50 requested)).
  exists (Qmax 0 (Qmin 255 (inject_Z otsu + Qmax (-50) (Qmin 50 requested)))).
  split; [reflexivity|]. split; [reflexivity|].
  assert (Hbias : (-50 <= Qmax (-50) (Qmin 50 requested) <= 50)%Q)
    by (apply clamp_between; discriminate).
  set (bias := Qmax (-50) (Qmin 50 requested)) in *.
  split; [intros H; apply clamp_inside; assumption|].
  split; [intros H; apply clamp_below; assumption|].
  split; [intros H; apply clamp_above; [discriminate|assumption]|].
  assert (Hthresh : (0 <= Qmax 0 (Qmin 255 (inject_Z otsu + bias)) <= 255)%Q)
    by (apply clamp_between; discriminate).
  split; [exact Hthresh|].
  destruct (clamp_cases 0 255 (inject_Z otsu + bias)) as [[H Et]|[[H Et]|[H Et]]];
    [discriminate| | |].
  - split; [split; lra|]. split; [intros; lra|]. split; [intros; lra|].
    intros _. reflexivity.
  - split; [split; lra|]. split; [intros; lra|]. split; [intros; lra|].
    intros _. reflexivity.
  - split; [split; lra|]. split; [intros; lra|]. split; [intros; lra|].
    intros _. reflexivity.
Qed.

Lemma numeric_bias_is_clamped_witness :
  exists bias thresh,
    appliedBias largeBias = Num bias /\
    biasedThreshold 10 largeBias = Num thresh /\
    (bias == 50)%Q /\ (thresh == 60)%Q.
Proof.
  destruct (numeric_bias_is_clamped 10 largeBias 80 ltac:(lia) eq_refl)
    as (bias & thresh & Eb & Et & _ & _ & Hhi & _ & _ & _ & _ & Hint).
  exists bias, thresh. split; [exact Eb|]. split; [exact Et|].
  assert (Hb : (bias == 50)%Q) by (apply Hhi; discriminate).
  split; [exact Hb|].
  assert (Ht : (thresh == Qmax 0 (Qmin 255 (inject_Z 10 + bias)))%Q).
  { apply Hint. unfold integral. rewrite Hb. reflexivity. }
  rewrite Ht, Hb. vm_compute. reflexivity.
Defined.
